(* ===== verification/_CoqProject ===== *)
-Q . S2P
Prelude.v
Indexing.v
Grid.v
Mpi.v
Scratch.v
DistMatrix.v
Queries.v
McMr.v
Align.v
Global.v
Redist.v
McMrCirc.v
McMrVC.v
McMrVR.v
McMrRoute.v
McMrMRMC.v
McMrTrans.v
Kernels.v
SymInverse.v
Skeleton.v
CrossGrid.v
McMrAssign.v
MrStar.v
MrStarRoute.v
MrStarMC.v
MrStarTrans.v
MrStarAssign.v
McMrTransMR.v
StarMD.v
BlockCyclic.v
Householder.v
