(* ===== verification/Prelude.v ===== *)
(** * A verification development of Elemental's redistribution engine

    Elemental stores a dense matrix over an [r x c] mesh of processes in
    one of a dozen distributions: a tag per axis ([MC], [MR], [VC], [VR],
    [MD], [STAR], [CIRC]) says how many processes share the axis and which
    global indices each owns.  The [src/] slice verified here is the part
    of the redistribution engine in [src/src/core/dist_matrix/]: the
    assignment operators of [DistMatrix<T,MC,MR>] ([mc_mr.cpp]), which pack
    local data, call an MPI collective and unpack, the alignment tables
    [AlignWith] of [mc_mr.cpp], [mr_star.cpp] and [star_md.cpp], the
    operators that delegate to other distributions, the assignment
    operators of [DistMatrix<T,MR,STAR>] ([mr_star.cpp]) and the dispatch
    of the block-cyclic [[VC,*]] operators ([DistMatrix/BlockCyclic/]).
    The operators interact through the conversions they delegate to: a
    client file proves its operator against the [Redistribute] interface
    (the conversions live outside [src/]), and the reference instance
    [RefRedistribute] of [Redist] shows that interface can be met.
    Beside the engine, [src/] holds clients of it in [lapack-like/]: the
    blocked RQ loop, the [SymmetricInverse] and [Skeleton] drivers, which
    call dense kernels (outside [src/]) in a fixed order; they are proved
    against the [Kernels] interface in the same way.

    ** The files, in dependency order
    - [Prelude] (this file): C++ integer division ([Z.quot], [Z.rem]),
      process-local memory [mem T := Z -> T] with stores [m.[a <- v]], the
      counting loop [for_], the block copies of the pack and unpack loops
      ([MemCopy], [CopyCols], [StridedMap]/[StridedCopy]) and the [writes] predicate
      that states what a loop leaves in memory, compositionally.
    - [Indexing]: [Shift], [Length], [MaxLength] (the indexing header, not
      in [src/], from spec section 4.3) with the counting theorems.
    - [Grid]: the mesh, VC/VR ranks, the communicators and their laws
      ([CommLaws], an interface class); [VRToVC] is [mc_mr.cpp]'s formula.
    - [Mpi]: [SendRecv] (partial: [None] when the pairing does not match),
      [AllGather] (partial: [None] when a team disagrees on the count),
      [AllToAll], [Scatter], [Gather] over the memories of all
      processes ([World]), buffers given as offsets so that aliasing is
      that of the code; [Padding] is the interface of [mpi::Pad].
    - [Scratch]: the scratch arena [auxMemory_] ([Require]/[Release]).
    - [Queries]: the communicator and stride queries of [[MC,MR]], [[MR,*]]
      and the block-cyclic [[VC,*]], with [mpi::COMM_SELF].
    - [DistMatrix]: tags, [DistData], the matrix state [DM] (global
      metadata plus one local matrix and one arena per process), the
      [GeneralDistMatrix] bookkeeping ([Resize], [Align*], [SetGrid], the
      new empty matrix [EmptyDM]) and the refinement relation [holds A M]:
      every process stores its share of the global matrix [M].
    - [McMr]: [[MC,MR] = [MC,MR]] on one grid, with the realignment
      [SendRecv] ([RealignRanks], [AssignSameGrid]).
    - [Align]: the [AlignWith] tables, with the build mode as a flag.
    - [Global]: the abstraction function [GlobalOf] (each entry read from
      its owner) and the uniqueness of the matrix a [DM] stands for.
    - [Redist]: the interface [Redistribute]/[RedistributeLaws] of the
      conversions outside [src/] that the operators delegate to (their
      refinement laws, and shape laws that also cover [MD] matrices), with
      a reference implementation meeting it.
    - [McMrCirc], [McMrVC], [McMrVR]: [[MC,MR] = [o,o]], [[VC,*]], [[*,VR]],
      each as its pack loop, collective(s), unpack loop and release.
    - [McMrRoute]: the operators that filter or stage through other
      distributions, proved against [RedistributeLaws].
    - [McMrMRMC]: [[MC,MR] = [MR,MC]], the column-vector, row-vector and
      matrix paths ([AllGather]/[Scatter]-like exchanges over the VC/VR
      communicators and the [AllToAll] of the matrix case).
    - [McMrTrans]: [TransposeFrom]/[AdjointFrom] of a [[*,MC]] matrix
      ([op] is the optional conjugation), aligned and unaligned.
    - [CrossGrid]: [[MC,MR]::CopyFromDifferentGrid], the copy between two
      meshes: per process, its rounds [(colSend,rowSend)] of pack and
      non-blocking send and of the receives it makes in its loop order
      ([CrossRecvPlan]), each followed by an unpack ([CrossRun]); a round
      whose sends and receives do not match exactly yields [None]
      ([CrossRoundOk]).  The viewing maps ([VCToViewingMap], [rankMap])
      are parameters.  The per-axis arithmetic (gcd, lcm, the orbit of
      [sendRow]) is proved once for both axes.
    - [McMrAssign]: the constructors of [[MC,MR]] and its overload set
      [McMrAssign] (the operator the source's tags select, the grid test
      of [[MC,MR] = [MC,MR]] with [CopyFromDifferentGrid] included), with
      the copy constructors.
    - [MrStar]: [[MR,*] = [MR,*]] on one grid (the realignment exchange
      over the row-rank ring of [mr_star.cpp]).
    - [MrStarRoute]: every other [[MR,*]] operator of [mr_star.cpp], as the
      [Redistribute] calls it makes, proved against [RedistributeLaws].
    - [MrStarMC]: [[MR,*] = [MC,*]], whose column-vector path is a
      [SendRecv] over the VR communicator followed by an [AllGather] over
      the column communicator, and whose other path is staged.
    - [MrStarTrans]: [[MR,*]::TransposeFrom]/[AdjointFrom] from [[MC,MR]]
      ([mr_star.cpp]): a gather down the mesh columns, preceded on the
      unaligned path by an exchange within the mesh rows.
    - [MrStarAssign]: the constructors and the overload set of [[MR,*]].
    - [McMrTransMR]: [[MC,MR]::TransposeFrom] from [[MR,*]] ([mc_mr.cpp]),
      a local copy after a forced row realignment, and the [AdjointFrom]
      overloads.
    - [StarMD]: the [[*,MD]] operators of [star_md.cpp] (constructors,
      copy constructors, every assignment operator) at the level of routes
      and descriptors, proved against the shape laws of [Redistribute].
    - [BlockCyclic]: the block-cyclic [[VC,*]] operators of
      [DistMatrix/BlockCyclic/VC_STAR.cpp] as the trace of temporaries,
      copy routines and fatal errors each runs.
    - [Householder]: the blocked panel loop of [rq::Householder]
      ([include/elemental/lapack-like/RQ/Householder.hpp]), sequential and
      distributed, as the sequence of kernel calls on views.
    - [Kernels]: the dense kernels the factorization drivers call
      ([LDL], [QR], [Gemm], [Pseudoinverse], [Trdtrmm], the permutations,
      ...), outside [src/], as the interface class [Kernels] over an
      abstract matrix and permutation type, with their shape contracts
      ([KernelLaws]: [Ok] of the documented shape on conforming operands,
      [Fatal Nonconformal] otherwise) and the reference instance
      [ShapeKernels]; a driver is a chain of binds in the [Result] monad,
      reasoned about through [Contract_bind_Returns].
    - [SymInverse]: [SymmetricInverse] and [LocalSymmetricInverse]
      ([lapack-like/funcs/Inverse/Symmetric.cpp]); the [Matrix<F>] and
      [DistMatrix<F>] overloads make the same calls, so one definition
      over [Kernels] models both.
    - [Skeleton]: the skeleton (CUR) driver [Skeleton]
      ([lapack-like/factor/Skeleton.cpp]), both overloads, with the
      forced control [SecondCtrl] of its second QR.

    ** What is proved
    - Refinement of the whole overload sets: every [[MC,MR]] and every
      [[MR,*]] assignment (and copy constructor) from a source of an
      instantiated pair on the target's grid completes and preserves the
      matrix, whatever operator the source's tags select; an [[MC,MR]]
      source does so on any grid.  The routes that delegate end in a
      filter or gather of [Redistribute] whose contract accepts only the
      source tags of spec section 4.3, protocols 2 and 3 ([FilterSrc],
      [RowFilterSrc], [ColFilterSrc], [PartialColGatherSrc],
      [RowGatherSrc]), so a route that skips its staging conversion does
      not prove.
    - The cross-grid copy: for any two meshes, alignments and viewing
      maps, every round matches exactly (each receive has its message,
      each message one receive, counts agree), so the rounds cannot
      deadlock; every message fits the [maxSendSize] scratch blocks and
      every unpack stays in the local matrix; the target ends standing
      for the source's matrix.
    - Refinement: each modelled operator, run on a source that [holds M],
      returns [Some] (its [SendRecv] pairings match, messages fit and
      every [AllGather] team agrees on its count) and leaves a matrix
      that [holds M] with the source's size, on the aligned and the
      unaligned paths; the transposes leave one that holds the
      (conjugate) transpose of [M] (the [[*,MC]] source on its aligned
      path only, see below).
    - Alignment tables: [AlignWith] makes the owners of the target's
      indices own the same rows/columns of the result; the error paths
      ([Nonsensical alignment], [Grids do not match]) exactly where the
      debug build raises them, and the release build's behaviour there.
    - Queries: every communicator a variant returns obeys the
      communicator laws, its strides are the sizes of its column and row
      communicators, and its distribution, cross and redundant teams name
      every process exactly once.
    - A defect, shown by a run: the unaligned [TransposeFrom] of
      [mc_mr.cpp] packs with the wrong column stride (line 1064) and
      loses data when the local widths of source and target differ
      ([McMrTrans.TransposeFromStarMC_unaligned_breaks]).
    - [[*,MD]]: every operator returns a [[*,MD]] matrix of the source's
      size; [[*,MD] = [*,MD]] copies the local matrices whenever the target
      may realign; [[*,MD] = [o,o]] always aborts a debug build, since
      [[MC,MR]::AlignWith] has no entry for a [[*,MD]] descriptor.
    - Dispatch: at nesting depth two every block-cyclic [[VC,*]]
      operator's trace ends, and exactly six of its thirteen sources end
      in "This routine is not yet written".
    - The RQ panel loop, for a positive block size: every view it takes
      is inside its matrix, every diagonal
      position is factored by exactly one panel, bottom-up, and the
      distributed routine fails exactly on its two argument checks.
    - The skeleton driver, against the kernels' shape contracts:
      [Skeleton] is total, with permutations of the input's height and
      width and a square core whose order is the first QR's step count.
      ([SymmetricInverse] is modelled, but its operands are all square,
      so shape contracts say little about it: its lemmas are kept as the
      driver's shape contract, not as a correctness claim.)
    - Arithmetic: [Length] counts owned indices, sums to [n] over shifts,
      and is bounded by [MaxLength], so padded portions hold every block.

    ** Bounds and fuel
    [for_ lo hi] recurses structurally on [Z.to_nat (hi - lo)], exactly
    the iteration count of the C++ loop.  Two definitions take fuel.  The
    nesting depth of the block-cyclic operators ([VCStarAssign]): depth
    two is enough for every source, and the result does not change above
    it.  The descending RQ loop ([PanelLoop]): [HouseholderFuel], one
    unit per iteration ([minDim / bsize + 1] of them) and one for the exit
    test, is enough when [bsize > 0]; for [bsize <= 0] the C++ loop
    divides by zero or runs its [Int] offset into overflow, which
    unbounded [Z] does not model, so no theorem covers that case.
    The cross-grid copy runs [r/gcd(r,rA)] times [c/gcd(c,cA)] rounds,
    its loop counts, so it needs no fuel.  The witnesses run on concrete
    meshes of 2x2, 2x3, 3x2 and 2x1 processes.
    Integers are unbounded [Z]: the sizes involved are products of local
    dimensions, which the code assumes fit in [Int].

    ** Not modelled
    The [MD] diagonal ranking ([DistRank MD = None]), hence the data an
    [[*,MD]] process holds and the [MD] sources of the overload
    theorems; the communicator calls that build the viewing maps of the
    cross-grid copy (parameters of [CrossGrid]); the sum-scatter updates of [mc_mr.cpp]; the Attach constructors; the
    block-cyclic data layout; the numerical results of the kernels of
    [lapack-like/] (the RQ loop and the [SymmetricInverse] and
    [Skeleton] drivers are modelled down to their kernel calls, whose
    shapes and errors [KernelLaws] states, not their values); the C
    wrapper functions of [factor-C.h], which are declarations without
    bodies in [src/] (its [ElLDLPivotType] and [ElQRCtrl] types are
    [Kernels.LDLPivotType] and [Kernels.QRCtrl]); the
    headers and files outside [src/] (grid, indexing, MPI, memory,
    [GeneralDistMatrix]) are modelled from the specification. *)

From stdpp Require Import base decidable numbers list.
From Stdlib Require Import ZArith Lia.

(** ** The C++ integer operators

    Elemental's [Int] is a signed machine integer and its [%] and [/]
    truncate towards zero: they are [Z.rem] and [Z.quot] ([÷]).  The
    lemmas below say when they agree with the Euclidean [mod] and [/]
    that the arithmetic lemmas are stated with. *)

Declare Scope elem_scope.
Delimit Scope elem_scope with elem.
Open Scope Z_scope.

(** ** Process-local memory

    A local buffer of the code ([T*] with column-major offsets) is a
    total map from offsets to values; a store [buffer[a] = v] is [upd]. *)

Definition mem (T : Type) := Z -> T.

Definition upd {T} (m : mem T) (a : Z) (v : T) : mem T :=
  fun x => if decide (x = a) then v else m x.

Notation "m .[ a <- v ]" := (upd m a v)
  (at level 1, left associativity, format "m .[ a  <-  v ]") : elem_scope.

Open Scope elem_scope.

(** Rewrite databases of the development: [dm_meta] computes the
    metadata of a distributed matrix after bookkeeping operations. *)
Create Rewrite HintDb dm_meta.

(** A C++ counting loop [for( Int i=lo; i<hi; ++i ) body] threading a
    state through the iterations; the iteration count is [hi - lo]. *)

Fixpoint loop_from {S} (n : nat) (i : Z) (body : Z -> S -> S) (s : S) : S :=
  match n with
  | O => s
  | Datatypes.S n' => loop_from n' (i + 1) body (body i s)
  end.

Definition for_ {S} (lo hi : Z) (body : Z -> S -> S) (s : S) : S :=
  loop_from (Z.to_nat (hi - lo)) lo body s.

(** [writes f R g]: the memory transformer [f] stores [g x] at every
    address [x] of the region [R], and any address it changes at all it
    sets to [g x]: the values are determined by the address. *)

Definition writes {T} (f : mem T -> mem T) (R : Z -> Prop) (g : Z -> T) : Prop :=
  forall m x, (R x -> f m x = g x) /\ (f m x = g x \/ f m x = m x).

(** Sum of [f] over a list of indices. *)
Fixpoint sumZ (f : Z -> Z) (l : list Z) : Z :=
  match l with [] => 0 | x :: l' => f x + sumZ f l' end.

(** ** Generic lemmas *)

Lemma sumZ_app f l1 l2 : sumZ f (l1 ++ l2) = sumZ f l1 + sumZ f l2.
Proof. induction l1 as [|x l1 IH]; simpl; lia. Qed.

Lemma sumZ_ext f g l : (forall x, x ∈ l -> f x = g x) -> sumZ f l = sumZ g l.
Proof.
  induction l as [|x l IH]; intros Hfg; simpl; [done |].
  rewrite Hfg, IH; [done | | by left]. intros y Hy. apply Hfg. by right.
Qed.

Lemma sumZ_const l : sumZ (fun _ => 0) l = 0.
Proof. induction l; simpl; lia. Qed.

Lemma sumZ_plus f g l : sumZ (fun x => f x + g x) l = sumZ f l + sumZ g l.
Proof. induction l as [|x l IH]; simpl; lia. Qed.

(** Summing the indicator of [x] over [0..s) gives one when [x] is in range. *)
Lemma sumZ_indicator (x s : Z) :
  0 <= x < s -> sumZ (fun h => if decide (x = h) then 1 else 0) (seqZ 0 s) = 1.
Proof.
  intros Hx. replace s with (x + (1 + (s - x - 1))) by lia.
  rewrite seqZ_app, seqZ_app by lia. rewrite !sumZ_app.
  assert (Hz : forall m n, (forall y, m <= y < m + n -> y <> x) ->
    sumZ (fun h => if decide (x = h) then 1 else 0) (seqZ m n) = 0).
  { intros m n Hout. remember (Z.to_nat n) as k eqn:Hk. revert m n Hk Hout.
    induction k as [|k IH]; intros m n Hk Hout.
    - rewrite seqZ_nil by lia. done.
    - rewrite seqZ_cons by lia. simpl.
      rewrite decide_False by (intros ->; apply (Hout m); [lia | done]).
      rewrite (IH (Z.succ m) (Z.pred n)); [done | lia |]. intros y Hy. apply Hout. lia. }
  rewrite (Hz 0 x), (Hz (0 + x + 1) (s - x - 1)) by (intros; lia).
  rewrite seqZ_cons by lia. rewrite seqZ_nil by lia.
  simpl. rewrite decide_True by lia. lia.
Qed.

Lemma div_between (a s q : Z) : 0 < s -> s * q <= a < s * q + s -> a / s = q.
Proof. intros Hs Ha. symmetry. apply (Z.div_unique_pos a s q (a - s * q)); lia. Qed.

Lemma mod_between (a s q : Z) : 0 < s -> s * q <= a < s * q + s -> a mod s = a - s * q.
Proof. intros Hs Ha. symmetry. apply (Z.mod_unique_pos a s q); lia. Qed.

Lemma rem_mod (a b : Z) : 0 <= a -> 0 < b -> a `rem` b = a mod b.
Proof. apply Z.rem_mod_nonneg. Qed.

Lemma quot_div (a b : Z) : 0 <= a -> 0 < b -> a ÷ b = a / b.
Proof. apply Z.quot_div_nonneg. Qed.

Lemma upd_eq {T} (m : mem T) a v : m.[a <- v] a = v.
Proof. unfold upd. by rewrite decide_True. Qed.

Lemma upd_ne {T} (m : mem T) a b v : b <> a -> m.[a <- v] b = m b.
Proof. intros. unfold upd. by rewrite decide_False. Qed.

Lemma loop_from_ind {S} (P : Z -> S -> Prop) (body : Z -> S -> S) :
  forall n i s,
    P i s ->
    (forall k s', i <= k < i + Z.of_nat n -> P k s' -> P (k + 1) (body k s')) ->
    P (i + Z.of_nat n) (loop_from n i body s).
Proof.
  induction n as [|n IH]; intros i s H0 Hstep; simpl.
  - by rewrite Z.add_0_r.
  - replace (i + Z.of_nat (Datatypes.S n)) with (i + 1 + Z.of_nat n) by lia.
    apply IH; [apply Hstep; [lia | done] |].
    intros k s' Hk. apply Hstep. lia.
Qed.

(** The loop rule: an invariant established at [lo] and preserved by
    every iteration holds at [hi]. *)
Lemma for_ind {S} (P : Z -> S -> Prop) (lo hi : Z) (body : Z -> S -> S) (s : S) :
  lo <= hi ->
  P lo s ->
  (forall k s', lo <= k < hi -> P k s' -> P (k + 1) (body k s')) ->
  P hi (for_ lo hi body s).
Proof.
  intros Hle H0 Hstep. unfold for_.
  pose proof (loop_from_ind P body (Z.to_nat (hi - lo)) lo s H0) as H.
  rewrite Z2Nat.id in H by lia. replace (lo + (hi - lo)) with hi in H by lia.
  apply H. intros k s' Hk. apply Hstep. lia.
Qed.

(** Loops whose bodies agree on the iteration range are equal. *)
Lemma for_ext {S} (lo hi : Z) (body body' : Z -> S -> S) (s : S) :
  (forall k s', lo <= k < hi -> body k s' = body' k s') -> for_ lo hi body s = for_ lo hi body' s.
Proof.
  intros Hb. unfold for_. remember (Z.to_nat (hi - lo)) as n eqn:En.
  revert lo s En Hb. induction n as [|n IH]; intros lo s En Hb; [done |]. cbn.
  rewrite Hb by lia. apply IH; [lia |]. intros k s' Hk. apply Hb. lia.
Qed.

Lemma for_empty {S} (lo hi : Z) (body : Z -> S -> S) (s : S) :
  hi <= lo -> for_ lo hi body s = s.
Proof. intros. unfold for_. by replace (Z.to_nat (hi - lo)) with 0%nat by lia. Qed.

Lemma writes_upd {T} (a : Z) (v : T) (g : Z -> T) :
  g a = v -> writes (fun m => m.[a <- v]) (fun x => x = a) g.
Proof.
  intros Hg m x. split.
  - intros ->. by rewrite upd_eq.
  - destruct (decide (x = a)) as [->|Hne].
    + left. by rewrite upd_eq.
    + right. by apply upd_ne.
Qed.

(** A loop whose every iteration writes its region with the same
    address-determined values writes the union of the regions. *)
Lemma writes_for {T} (lo hi : Z) (body : Z -> mem T -> mem T)
    (R : Z -> Z -> Prop) (g : Z -> T) :
  (forall k, lo <= k < hi -> writes (body k) (R k) g) ->
  writes (for_ lo hi body) (fun x => exists k, lo <= k < hi /\ R k x) g.
Proof.
  intros Hb m x.
  destruct (Z_le_gt_dec lo hi) as [Hle|Hgt].
  2:{ rewrite for_empty by lia. split; [intros (k & Hk & _); lia | by right]. }
  pose (P := fun i (m' : mem T) =>
    ((exists k, lo <= k < i /\ R k x) -> m' x = g x) /\ (m' x = g x \/ m' x = m x)).
  enough (P hi (for_ lo hi body m)) by exact H.
  apply for_ind; [done | |].
  - split; [intros (k & Hk & _); lia | by right].
  - intros k m' Hk [IH1 IH2]. destruct (Hb k Hk m' x) as [Hin Hany]. split.
    + intros (k' & Hk' & HR).
      destruct (decide (k' = k)) as [->|Hne]; [by apply Hin |].
      destruct Hany as [-> | ->]; [done |]. apply IH1. exists k'. split; [lia | done].
    + destruct Hany as [-> | ->]; [by left | done].
Qed.

(** ** Block copies

    [MemCopy(&dst[doff], &src[soff], n)] and the column loop that every
    contiguous pack and unpack of the redistributions is made of:
    [for( jLoc=0; jLoc<w; ++jLoc ) MemCopy(&dst[doff+jLoc*dld], &src[soff+jLoc*sld], h)]. *)

Definition MemCopy {T} (dst : mem T) (doff : Z) (src : mem T) (soff n : Z) : mem T :=
  for_ 0 n (fun i m => m.[doff + i <- src (soff + i)]) dst.

Definition CopyCols {T} (dst : mem T) (doff dld : Z) (src : mem T) (soff sld h w : Z) : mem T :=
  for_ 0 w (fun j m => MemCopy m (doff + j * dld) src (soff + j * sld) h) dst.

Lemma writes_iff {T} (f : mem T -> mem T) (R R' : Z -> Prop) g :
  (forall x, R x <-> R' x) -> writes f R g -> writes f R' g.
Proof. intros Hiff Hw m x. destruct (Hw m x) as [H1 H2]. split; [intros; apply H1, Hiff |]; done. Qed.

Lemma writes_MemCopy {T} (doff : Z) (src : mem T) (soff n : Z) (g : Z -> T) :
  (forall i, 0 <= i < n -> g (doff + i) = src (soff + i)) ->
  writes (fun m => MemCopy m doff src soff n) (fun x => doff <= x < doff + n) g.
Proof.
  intros Hg. eapply writes_iff; [| apply (writes_for 0 n _ (fun k x => x = doff + k))].
  - intros x. split; [intros (k & Hk & ->); lia | intros Hx; exists (x - doff); split; lia].
  - intros k Hk. apply writes_upd. by apply Hg.
Qed.

(** A column loop writes its [h x w] box with any address-determined
    values that agree with the source there. *)
Lemma writes_CopyCols {T} doff dld (src : mem T) soff sld h w (g : Z -> T) :
  (forall i j, 0 <= i < h -> 0 <= j < w -> g (doff + j * dld + i) = src (soff + j * sld + i)) ->
  writes (fun m => CopyCols m doff dld src soff sld h w)
    (fun x => exists j, 0 <= j < w /\ doff + j * dld <= x < doff + j * dld + h) g.
Proof.
  intros Hg. apply writes_for. intros j Hj. apply writes_MemCopy. intros i Hi. by apply Hg.
Qed.

Lemma CopyCols_spec {T} (dst : mem T) doff dld (src : mem T) soff sld h w i j :
  h <= dld -> 0 <= i < h -> 0 <= j < w ->
  CopyCols dst doff dld src soff sld h w (doff + i + j * dld) = src (soff + i + j * sld).
Proof.
  intros Hd Hi Hj.
  set (g := fun x => src (soff + (x - doff) mod dld + ((x - doff) / dld) * sld)).
  assert (Hw : writes (fun m => CopyCols m doff dld src soff sld h w)
                 (fun x => exists k, 0 <= k < w /\ doff + k * dld <= x < doff + k * dld + h) g).
  { apply writes_CopyCols. intros i' k Hi' Hk. unfold g.
    replace (doff + k * dld + i' - doff) with (i' + k * dld) by lia.
    rewrite Z.mod_add, Z.div_add, Z.mod_small, Z.div_small by lia. f_equal; lia. }
  destruct (Hw dst (doff + i + j * dld)) as [H _].
  rewrite H by (exists j; lia). unfold g.
  replace (doff + i + j * dld - doff) with (i + j * dld) by lia.
  rewrite Z.mod_add, Z.div_add, Z.mod_small, Z.div_small by lia.
  all: try (f_equal; lia).
Qed.

(** The element-wise double loop of the packs and unpacks, applying [f]
    to each entry (the transposes pass [Conj] or the identity):
    [for( jLoc=0; jLoc<w; ++jLoc ) for( iLoc=0; iLoc<h; ++iLoc )
       dst[doff+iLoc*dinc+jLoc*dld] = f(src[soff+iLoc*sinc+jLoc*sld]);] *)
Definition StridedMap {T} (f : T -> T) (dst : mem T) (doff dinc dld : Z) (src : mem T)
    (soff sinc sld h w : Z) : mem T :=
  for_ 0 w (fun j m =>
    for_ 0 h (fun i m' => m'.[doff + i * dinc + j * dld <- f (src (soff + i * sinc + j * sld))]) m) dst.

(** The plain copy of the redistributions. *)
Definition StridedCopy {T} (dst : mem T) (doff dinc dld : Z) (src : mem T) (soff sinc sld h w : Z)
  : mem T := StridedMap (fun x => x) dst doff dinc dld src soff sinc sld h w.

(** A strided map writes its box with any address-determined values
    that agree with the mapped source on the box. *)
Lemma writes_StridedMap {T} (f : T -> T) doff dinc dld (src : mem T) soff sinc sld h w (g : Z -> T) :
  (forall i j, 0 <= i < h -> 0 <= j < w ->
     g (doff + i * dinc + j * dld) = f (src (soff + i * sinc + j * sld))) ->
  writes (fun m => StridedMap f m doff dinc dld src soff sinc sld h w)
    (fun x => exists i j, 0 <= i < h /\ 0 <= j < w /\ x = doff + i * dinc + j * dld) g.
Proof.
  intros Hg. eapply writes_iff; [| apply (writes_for 0 w _
    (fun j x => exists i, 0 <= i < h /\ x = doff + i * dinc + j * dld))].
  - intros x. split; [intros (j & Hj & i & Hi & ->) | intros (i & j & Hi & Hj & ->)]; eauto 10.
  - intros j Hj. eapply writes_iff; [| apply (writes_for 0 h _
      (fun i x => x = doff + i * dinc + j * dld))].
    + intros x. split; [intros (i & Hi & ->) | intros (i & Hi & ->)]; eauto.
    + intros i Hi. apply writes_upd. by apply Hg.
Qed.

Lemma writes_StridedCopy {T} doff dinc dld (src : mem T) soff sinc sld h w (g : Z -> T) :
  (forall i j, 0 <= i < h -> 0 <= j < w ->
     g (doff + i * dinc + j * dld) = src (soff + i * sinc + j * sld)) ->
  writes (fun m => StridedCopy m doff dinc dld src soff sinc sld h w)
    (fun x => exists i j, 0 <= i < h /\ 0 <= j < w /\ x = doff + i * dinc + j * dld) g.
Proof. exact (writes_StridedMap (fun x => x) doff dinc dld src soff sinc sld h w g). Qed.

(** A unit-stride destination box with [h <= dld] gets the mapped source. *)
Lemma StridedMap_spec {T} (f : T -> T) (dst : mem T) doff dld (src : mem T) soff sinc sld h w i j :
  h <= dld -> 0 <= i < h -> 0 <= j < w ->
  StridedMap f dst doff 1 dld src soff sinc sld h w (doff + i + j * dld) =
    f (src (soff + i * sinc + j * sld)).
Proof.
  intros Hd Hi Hj.
  set (g := fun x => f (src (soff + ((x - doff) mod dld) * sinc + ((x - doff) / dld) * sld))).
  assert (Hw : writes (fun m => StridedMap f m doff 1 dld src soff sinc sld h w)
    (fun x => exists i j, 0 <= i < h /\ 0 <= j < w /\ x = doff + i * 1 + j * dld) g).
  { apply writes_StridedMap. intros i' j' Hi' Hj'. unfold g.
    replace (doff + i' * 1 + j' * dld - doff) with (i' + j' * dld) by lia.
    rewrite Z.mod_add, Z.div_add, Z.mod_small, Z.div_small by lia. f_equal; lia. }
  destruct (Hw dst (doff + i + j * dld)) as [H _].
  rewrite H by (exists i, j; repeat split; lia). unfold g.
  replace (doff + i + j * dld - doff) with (i + j * dld) by lia.
  rewrite Z.mod_add, Z.div_add, Z.mod_small, Z.div_small by lia. done.
Qed.

Lemma StridedCopy_spec {T} (dst : mem T) doff dld (src : mem T) soff sinc sld h w i j :
  h <= dld -> 0 <= i < h -> 0 <= j < w ->
  StridedCopy dst doff 1 dld src soff sinc sld h w (doff + i + j * dld) =
    src (soff + i * sinc + j * sld).
Proof. apply (StridedMap_spec (fun x => x)). Qed.

(** ** Loops over pairs and lists of steps *)

(** A loop over a pair whose first component evolves on its own. *)
Lemma for_fst {S U} (lo hi : Z) (f : Z -> S * U -> S * U) (g : Z -> S -> S) (st : S * U) :
  (forall k st', lo <= k < hi -> fst (f k st') = g k (fst st')) ->
  fst (for_ lo hi f st) = for_ lo hi g (fst st).
Proof.
  intros Hfg. unfold for_. remember (Z.to_nat (hi - lo)) as n eqn:En.
  revert lo st En Hfg. induction n as [|n IH]; intros lo st En Hfg; [done |]. cbn.
  rewrite IH, Hfg by (lia || (intros; apply Hfg; lia)). done.
Qed.

Lemma fold_left_fst {S U X} (f : S * U -> X -> S * U) (g : S -> X -> S) (l : list X) st :
  (forall x st', x ∈ l -> fst (f st' x) = g (fst st') x) ->
  fst (fold_left f l st) = fold_left g l (fst st).
Proof.
  revert st. induction l as [|x l IH]; intros st Hfg; [done |]. cbn.
  rewrite IH by (intros; apply Hfg; by right). rewrite Hfg by by left. done.
Qed.

(** A list of steps that each write their region with the same
    address-determined values writes the union of the regions. *)
Lemma writes_fold_left {T X} (F : X -> mem T -> mem T) (R : X -> Z -> Prop) (g : Z -> T) (l : list X) :
  (forall x, x ∈ l -> writes (F x) (R x) g) ->
  writes (fun m => fold_left (fun m' x => F x m') l m) (fun a => exists x, x ∈ l /\ R x a) g.
Proof.
  induction l as [|x l IH]; intros HF m a; cbn.
  - split; [intros (y & Hy & _); inversion Hy | by right].
  - destruct (IH (fun y Hy => HF y (list_elem_of_further _ _ _ Hy)) (F x m) a) as [Hin Hany].
    destruct (HF x (list_elem_of_here _ _) m a) as [Hin0 Hany0]. split.
    + intros (y & Hy & HR). apply elem_of_cons in Hy as [->|Hy].
      * destruct Hany as [-> | ->]; [done | by apply Hin0].
      * apply Hin. by exists y.
    + destruct Hany as [-> | ->]; [by left | done].
Qed.

Lemma MemCopy_spec {T} (dst : mem T) doff (src : mem T) soff n i :
  0 <= i < n -> MemCopy dst doff src soff n (doff + i) = src (soff + i).
Proof.
  intros Hi. assert (Hw : writes (fun m => MemCopy m doff src soff n)
    (fun x => doff <= x < doff + n) (fun x => src (soff + (x - doff)))).
  { apply writes_MemCopy. intros k Hk. cbn. f_equal. lia. }
  destruct (Hw dst (doff + i)) as [H _]. rewrite H by lia. f_equal. lia.
Qed.

(** A strided map reads its source only inside its box. *)
Lemma StridedMap_src_ext {T} (f : T -> T) (dst : mem T) doff dinc dld (src src' : mem T)
    soff soff' sinc sld h w :
  (forall i j, 0 <= i < h -> 0 <= j < w ->
     src (soff + i * sinc + j * sld) = src' (soff' + i * sinc + j * sld)) ->
  StridedMap f dst doff dinc dld src soff sinc sld h w =
    StridedMap f dst doff dinc dld src' soff' sinc sld h w.
Proof.
  intros Hs. unfold StridedMap. apply for_ext. intros j m Hj.
  apply for_ext. intros i m' Hi. by rewrite Hs.
Qed.

(** The values a state takes through [n] steps of [step] from [x]. *)
Fixpoint orbit (step : Z -> Z) (x : Z) (n : nat) : list Z :=
  match n with O => [] | Datatypes.S n' => x :: orbit step (step x) n' end.

Lemma lookup_orbit (step : Z -> Z) x n i :
  (i < n)%nat -> orbit step x n !! i = Some (Nat.iter i step x).
Proof.
  revert x i. induction n as [|n IH]; intros x [|i] Hi; [lia | lia | done |].
  change (orbit step (step x) n !! i = Some (Nat.iter (Datatypes.S i) step x)).
  rewrite Nat.iter_succ_r. apply IH. lia.
Qed.

(** A loop that advances a state and appends a block for each value it
    takes: the blocks of the state's orbit, in order. *)
Lemma for_accum {X} (lo hi : Z) (step : Z -> Z) (f : Z -> list X) (x : Z) (acc : list X) :
  snd (for_ lo hi (fun _ st => (step (fst st), snd st ++ f (fst st))) (x, acc)) =
    acc ++ (orbit step x (Z.to_nat (hi - lo)) ≫= f).
Proof.
  unfold for_. generalize (Z.to_nat (hi - lo)) as n. intros n.
  revert lo x acc. induction n as [|n IH]; intros lo x acc; cbn.
  - by rewrite app_nil_r.
  - rewrite IH. by rewrite <- app_assoc.
Qed.

Lemma length_orbit (step : Z -> Z) x n : length (orbit step x n) = n.
Proof. revert x. induction n as [|n IH]; intros x; cbn; [done | by rewrite IH]. Qed.

Lemma map_bind {X Y W} (f : Y -> W) (l : list X) (g : X -> list Y) :
  map f (l ≫= g) = l ≫= (fun x => map f (g x)).
Proof. induction l as [|x l IH]; [done |]. cbn. by rewrite map_app, IH. Qed.

Lemma fold_left_fst_pair {S U X} (f : S * U -> X -> S * U) (g : S -> X -> S) (l : list X) (s : S) (u : U) :
  (forall x st', x ∈ l -> fst (f st' x) = g (fst st') x) ->
  fst (fold_left f l (s, u)) = fold_left g l s.
Proof. intros. by apply (fold_left_fst f g l (s, u)). Qed.
