(* ===== verification/Indexing.v ===== *)
(** * Indexing: the cyclic-distribution index arithmetic

    [Shift], [Length] and [MaxLength] are the only index functions the
    pack and unpack loops of [src/core/dist_matrix/*.cpp] use (they are
    declared in Elemental's indexing header, which is not in [src/], so
    they are modelled from the formulas of the specification, section
    4.3).  A process of rank [k] in a team of [s] processes, under
    alignment [a], owns the global indices [i] with [i mod s = Shift k a s],
    and there are [Length n (Shift k a s) s] of them below [n]. *)

From stdpp Require Import base decidable numbers list.
From Stdlib Require Import ZArith Lia.
From S2P Require Import Prelude.

Open Scope Z_scope.

(** [Shift_(rank,align,stride) = (rank + stride - align) % stride], with
    C++'s truncating [%]. *)
Definition Shift (rank align stride : Z) : Z := (rank + stride - align) `rem` stride.

(** [Length(n,shift,stride) = max(0, ceil((n - shift)/stride))]. *)
Definition Length (n shift stride : Z) : Z := Z.max 0 ((n - shift + stride - 1) / stride).

(** [MaxLength(n,stride)]: the largest local length, that of shift 0. *)
Definition MaxLength (n stride : Z) : Z := Length n 0 stride.

(** The global indices below [n] that the shift-[h] team member owns. *)
Definition owned (n h s : Z) : list Z := filter (fun i => i mod s = h) (seqZ 0 n).

Section Cyclic.
Context (s : Z) (Hs : 0 < s).

Lemma Length_step (n h : Z) :
  0 <= h < s -> 0 <= n ->
  Length (n + 1) h s = Length n h s + (if decide (n mod s = h) then 1 else 0).
Proof.
  intros Hh Hn. unfold Length.
  pose proof (Z.div_mod n s ltac:(lia)) as Hdm.
  pose proof (Z.mod_pos_bound n s Hs) as Hr. pose proof (Z.div_pos n s Hn Hs) as Hq.
  set (q := n / s) in *. set (r := n mod s) in *.
  case_decide as E; [| destruct (Z_lt_le_dec h r)].
  - rewrite (div_between (n + 1 - h + s - 1) s (q + 1)),
      (div_between (n - h + s - 1) s q); lia.
  - rewrite (div_between (n + 1 - h + s - 1) s (q + 1)),
      (div_between (n - h + s - 1) s (q + 1)); lia.
  - rewrite (div_between (n + 1 - h + s - 1) s q),
      (div_between (n - h + s - 1) s q); lia.
Qed.

Lemma Length_0 (h : Z) : 0 <= h < s -> Length 0 h s = 0.
Proof. intros. unfold Length. rewrite (div_between _ s 0); lia. Qed.

Lemma owned_step (n h : Z) :
  0 <= n ->
  owned (n + 1) h s = owned n h s ++ (if decide (n mod s = h) then [n] else []).
Proof.
  intros Hn. unfold owned. rewrite seqZ_app by lia. rewrite filter_app.
  rewrite (seqZ_cons (0 + n) 1), (seqZ_nil _ (Z.pred 1)) by lia.
  rewrite filter_cons, filter_nil. by replace (0 + n) with n by lia.
Qed.

(** Local length is the size of the owned index set. *)
Theorem Length_count (n h : Z) :
  0 <= h < s -> 0 <= n -> Length n h s = Z.of_nat (length (owned n h s)).
Proof.
  intros Hh Hn. rewrite <- (Z2Nat.id n Hn). induction (Z.to_nat n) as [|k IH].
  - rewrite Length_0 by done. reflexivity.
  - rewrite Nat2Z.inj_succ, <- Z.add_1_r, Length_step, owned_step by lia.
    rewrite length_app, IH. case_decide; simpl; lia.
Qed.

(** Every global index belongs to exactly one team member: the
    local lengths of the [s] shifts add up to [n]. *)
Theorem Length_sum (n : Z) :
  0 <= n -> sumZ (fun h => Length n h s) (seqZ 0 s) = n.
Proof.
  intros Hn. rewrite <- (Z2Nat.id n Hn). induction (Z.to_nat n) as [|k IH].
  - erewrite (sumZ_ext _ (fun _ => 0)); [| intros h Hh; apply Length_0; by apply elem_of_seqZ in Hh].
    rewrite sumZ_const. lia.
  - rewrite Nat2Z.inj_succ, <- Z.add_1_r.
    erewrite sumZ_ext; [| intros h Hh; apply elem_of_seqZ in Hh; apply Length_step; lia].
    rewrite sumZ_plus, IH.
    rewrite sumZ_indicator; [lia |]. apply Z.mod_pos_bound. lia.
Qed.

Lemma Length_nonneg (n h : Z) : 0 <= Length n h s.
Proof. unfold Length. lia. Qed.

Lemma Shift_mod (k a : Z) : 0 <= k -> 0 <= a <= s -> Shift k a s = (k - a) mod s.
Proof.
  intros Hk Ha. unfold Shift. rewrite rem_mod by lia.
  replace (k + s - a) with ((k - a) + 1 * s) by lia. by rewrite Z.mod_add by lia.
Qed.

Lemma Shift_range (k a : Z) : 0 <= k -> 0 <= a <= s -> 0 <= Shift k a s < s.
Proof. intros. rewrite Shift_mod by done. by apply Z.mod_pos_bound. Qed.

(** The team member that owns shift [h] under alignment [a] is
    [(h + a) mod s], the formula of [CopyFromDifferentGrid]; conversely
    every member's shift leads back to it. *)
Theorem Shift_owner (h a : Z) :
  0 <= h < s -> 0 <= a < s -> Shift ((h + a) mod s) a s = h.
Proof.
  intros Hh Ha. pose proof (Z.mod_pos_bound (h + a) s Hs).
  rewrite Shift_mod by lia. rewrite Zminus_mod_idemp_l.
  replace (h + a - a) with h by lia. by apply Z.mod_small.
Qed.

Lemma owner_Shift (k a : Z) : 0 <= k < s -> 0 <= a < s -> (Shift k a s + a) mod s = k.
Proof.
  intros Hk Ha. rewrite Shift_mod by lia. rewrite Zplus_mod_idemp_l.
  replace (k - a + a) with k by lia. by apply Z.mod_small.
Qed.

(** Local index [iLoc] of the shift-[h] member is the global index
    [h + iLoc * s]; it is below [n] exactly when [iLoc < Length n h s]. *)
Lemma local_global (n h iLoc : Z) :
  0 <= h < s -> 0 <= iLoc -> (iLoc < Length n h s <-> h + iLoc * s < n).
Proof.
  intros Hh Hi. unfold Length. split; intros H.
  - assert (iLoc < (n - h + s - 1) / s) by lia.
    assert (iLoc + 1 <= (n - h + s - 1) / s) by lia.
    pose proof (Z.mul_div_le (n - h + s - 1) s Hs). nia.
  - enough (iLoc + 1 <= (n - h + s - 1) / s) by lia.
    apply Z.div_le_lower_bound; lia.
Qed.

Lemma global_local (n h i : Z) :
  0 <= i < n -> i mod s = h -> 0 <= i / s < Length n h s /\ h + (i / s) * s = i.
Proof.
  intros Hi Hm. pose proof (Z.div_mod i s ltac:(lia)).
  pose proof (Z.div_pos i s ltac:(lia) Hs). pose proof (Z.mod_pos_bound i s Hs).
  assert (Heq : h + i / s * s = i) by lia.
  split; [split; [done |] | done].
  apply local_global; lia.
Qed.

(** Every member's local length is at most [MaxLength n s] and at
    least [MaxLength n s - 1]: the padded portions of size
    [MaxLength] that the protocols exchange hold every member's data. *)
Theorem Length_le_MaxLength (n h : Z) :
  0 <= h < s -> Length n h s <= MaxLength n s /\ MaxLength n s <= Length n h s + 1.
Proof.
  intros Hh. unfold MaxLength, Length. split.
  - apply Z.max_le_compat_l, Z.div_le_mono; lia.
  - destruct (Z_lt_le_dec (n - h + s - 1) 0).
    + assert ((n - 0 + s - 1) / s < 1) by (apply Z.div_lt_upper_bound; lia). lia.
    + pose proof (Z.div_mod (n - h + s - 1) s ltac:(lia)).
      pose proof (Z.mod_pos_bound (n - h + s - 1) s Hs).
      assert ((n - 0 + s - 1) / s < (n - h + s - 1) / s + 2); [| lia].
      apply Z.div_lt_upper_bound; lia.
Qed.

(** The realignment partners of a [SendRecv] between alignments [a]
    (new) and [a'] (old): with [diff = a - a'], the process of rank [k]
    receives from [k' = (k + s - diff) % s], whose old shift is [k]'s new
    shift, and [k'] sends to [(k' + s + diff) % s = k]. *)
Lemma realign_partner (k a a' : Z) :
  0 <= k < s -> 0 <= a < s -> 0 <= a' < s ->
  let k' := (k + s - (a - a')) `rem` s in
  0 <= k' < s /\ Shift k' a' s = Shift k a s /\ (k' + s + (a - a')) `rem` s = k.
Proof.
  intros Hk Ha Ha' k'. subst k'. rewrite rem_mod by lia.
  pose proof (Z.mod_pos_bound (k + s - (a - a')) s Hs).
  split; [lia | split].
  - rewrite (Shift_mod ((k + s - (a - a')) mod s) a'), (Shift_mod k a) by lia.
    rewrite Zminus_mod_idemp_l.
    replace (k + s - (a - a') - a') with ((k - a) + 1 * s) by lia.
    by rewrite Z.mod_add by lia.
  - rewrite rem_mod by lia.
    replace ((k + s - (a - a')) mod s + s + (a - a')) with ((k + s - (a - a')) mod s + (s + (a - a'))) by lia.
    rewrite Zplus_mod_idemp_l.
    replace (k + s - (a - a') + (s + (a - a'))) with (k + 2 * s) by lia.
    rewrite Z.mod_add by lia. by apply Z.mod_small.
Qed.
End Cyclic.

(** [Length n h s] counts the [x >= 0] with [h + x*s < n], for any [h]. *)
Lemma Length_lt_iff (n h s x : Z) : 0 < s -> 0 <= x -> (x < Length n h s <-> h + x * s < n).
Proof.
  intros Hs Hx. unfold Length. split; intros H.
  - assert (x + 1 <= (n - h + s - 1) / s) by lia.
    pose proof (Z.mul_div_le (n - h + s - 1) s Hs). nia.
  - enough (x + 1 <= (n - h + s - 1) / s) by lia.
    apply Z.div_le_lower_bound; lia.
Qed.

Lemma Z_eq_by_lt (a b : Z) : 0 <= a -> 0 <= b -> (forall x, 0 <= x -> x < a <-> x < b) -> a = b.
Proof.
  intros Ha Hb H. destruct (Z.lt_total a b) as [Hlt | [-> | Hlt]]; [| done |].
  - specialize (H a Ha). lia.
  - specialize (H b Hb). lia.
Qed.

(** Taking every [k]-th index from the [c]-th of a shift-[h] share with
    stride [s] is the shift-[h + c*s] share with stride [k*s]. *)
Lemma Length_nested (n h s c k : Z) :
  0 < s -> 0 < k -> 0 <= c ->
  Length (Length n h s) c k = Length n (h + c * s) (k * s).
Proof.
  intros Hs Hk Hc. apply Z_eq_by_lt; [unfold Length; lia | unfold Length; lia |].
  intros x Hx. rewrite !Length_lt_iff by nia. lia.
Qed.

(** No share is longer than [n/s + 1]: the bound of the scratch sizes. *)
Lemma Length_le_div (n h s : Z) : 0 < s -> 0 <= h -> 0 <= n -> Length n h s <= n / s + 1.
Proof.
  intros Hs Hh Hn. unfold Length. pose proof (Z.div_pos n s Hn Hs).
  pose proof (Z.mod_pos_bound n s Hs). pose proof (Z.div_mod n s ltac:(lia)).
  assert ((n - h + s - 1) / s < n / s + 2) by (apply Z.div_lt_upper_bound; lia). lia.
Qed.

(** A replicated axis (stride 1): shift 0, every index local. *)
Lemma Shift_stride1 (k a : Z) : Shift k a 1 = 0.
Proof. unfold Shift. apply Z.rem_1_r. Qed.

Lemma Length_stride1 (n : Z) : 0 <= n -> Length n 0 1 = n.
Proof. intros. unfold Length. rewrite Z.div_1_r. lia. Qed.
