(* ===== verification/Grid.v ===== *)
(** * Grid: the r x c process mesh and its communicators

    Elemental's [Grid] class is not in [src/]; it is modelled from the
    specification (section 4.1).  A process is named by its rank in the
    column-major flattening of the mesh ([VCRank]): process [q] sits at
    row [q mod r], column [q / r]; its rank in the row-major flattening is
    [VRRank].  A communicator tells each process the size of its team, its
    own rank in the team, and which process is the team's [k]-th member.
    [CommLaws] is the interface the redistribution routines rely on: every
    member of a team agrees on the team's membership and ranking. *)

From stdpp Require Import base decidable numbers list.
From Stdlib Require Import ZArith Lia.
From S2P Require Import Prelude.

Open Scope Z_scope.

Record Grid := mkGrid { GHeight : Z; GWidth : Z }.

#[export] Instance Grid_eq_dec : EqDecision Grid.
Proof. solve_decision. Defined.

(** A well-formed grid has at least one process row and column. *)
Class GridWf (g : Grid) : Prop := grid_wf : 0 < GHeight g /\ 0 < GWidth g.

Definition GSize (g : Grid) : Z := GHeight g * GWidth g.

(** Mesh coordinates of the process of VC rank [q]. *)
Definition GRow (g : Grid) (q : Z) : Z := q mod GHeight g.
Definition GCol (g : Grid) (q : Z) : Z := q / GHeight g.

(** The VC rank of mesh position [(i,j)] and the VR rank of process [q]. *)
Definition VCOf (g : Grid) (i j : Z) : Z := i + j * GHeight g.
Definition VRRank (g : Grid) (q : Z) : Z := GCol g q + GRow g q * GWidth g.

(** [recvRankCM = (recvRankRM/c)+r*(recvRankRM%c)]: the VC rank of the
    process whose VR rank is [v] ([src/core/dist_matrix/mc_mr.cpp]). *)
Definition VRToVC (g : Grid) (v : Z) : Z :=
  v ÷ GWidth g + GHeight g * (v `rem` GWidth g).

(** A communicator, seen from process [q]: team size, [q]'s rank in its
    team, and the VC rank of the [k]-th member of [q]'s team. *)
Record Comm := mkComm {
  CSize : Z;
  CRank : Z -> Z;
  CMember : Z -> Z -> Z }.

Definition VCComm (g : Grid) : Comm := mkComm (GSize g) (fun q => q) (fun _ k => k).
Definition VRComm (g : Grid) : Comm := mkComm (GSize g) (VRRank g) (fun _ k => VRToVC g k).
(** [MCComm]: the processes of one mesh column, ranked by row. *)
Definition ColComm (g : Grid) : Comm :=
  mkComm (GHeight g) (GRow g) (fun q k => VCOf g k (GCol g q)).
(** [MRComm]: the processes of one mesh row, ranked by column. *)
Definition RowComm (g : Grid) : Comm :=
  mkComm (GWidth g) (GCol g) (fun q k => VCOf g (GRow g q) k).

(** The laws of a communicator over the [p] processes [0..p). *)
Class CommLaws (p : Z) (c : Comm) : Prop := {
  comm_size_pos : 0 < CSize c;
  comm_rank_range : forall q, 0 <= q < p -> 0 <= CRank c q < CSize c;
  comm_member_range : forall q k, 0 <= q < p -> 0 <= k < CSize c -> 0 <= CMember c q k < p;
  comm_member_rank : forall q k, 0 <= q < p -> 0 <= k < CSize c -> CRank c (CMember c q k) = k;
  comm_member_self : forall q, 0 <= q < p -> CMember c q (CRank c q) = q;
  comm_member_team : forall q k l, 0 <= q < p -> 0 <= k < CSize c -> 0 <= l < CSize c ->
    CMember c (CMember c q k) l = CMember c q l }.

Section GridFacts.
Context (g : Grid) `{Hg : !GridWf g}.

Lemma GSize_pos : 0 < GSize g.
Proof. destruct Hg. unfold GSize. lia. Qed.

Lemma GRow_range q : 0 <= GRow g q < GHeight g.
Proof. destruct Hg. apply Z.mod_pos_bound. lia. Qed.

Lemma GCol_range q : 0 <= q < GSize g -> 0 <= GCol g q < GWidth g.
Proof.
  destruct Hg. unfold GSize, GCol. intros. split.
  - apply Z.div_pos; lia.
  - apply Z.div_lt_upper_bound; lia.
Qed.

Lemma VCOf_coords q : VCOf g (GRow g q) (GCol g q) = q.
Proof.
  destruct Hg. unfold VCOf, GRow, GCol.
  pose proof (Z.div_mod q (GHeight g) ltac:(lia)). lia.
Qed.

Lemma coords_VCOf i j : 0 <= i < GHeight g -> GRow g (VCOf g i j) = i /\ GCol g (VCOf g i j) = j.
Proof.
  destruct Hg. intros Hi. unfold GRow, GCol, VCOf. split.
  - rewrite Z.mod_add by lia. by apply Z.mod_small.
  - rewrite Z.div_add by lia. rewrite Z.div_small by lia. lia.
Qed.

Lemma VCOf_range i j : 0 <= i < GHeight g -> 0 <= j < GWidth g -> 0 <= VCOf g i j < GSize g.
Proof. destruct Hg. unfold VCOf, GSize. nia. Qed.

Lemma VRRank_range q : 0 <= q < GSize g -> 0 <= VRRank g q < GSize g.
Proof.
  intros Hq. pose proof (GRow_range q). pose proof (GCol_range q Hq).
  unfold VRRank, GSize in *. nia.
Qed.

(** The code's VR-to-VC formula inverts [VRRank]. *)
Lemma VRToVC_VRRank q : 0 <= q < GSize g -> VRToVC g (VRRank g q) = q.
Proof.
  intros Hq. pose proof (GRow_range q). pose proof (GCol_range q Hq). destruct Hg.
  unfold VRToVC, VRRank. rewrite quot_div, rem_mod by nia.
  rewrite Z.div_add by lia. rewrite Z.mod_add by lia.
  rewrite (Z.div_small (GCol g q)), (Z.mod_small (GCol g q)) by lia.
  rewrite <- (VCOf_coords q) at 3. unfold VCOf. lia.
Qed.

Lemma VRRank_VRToVC v : 0 <= v < GSize g -> VRRank g (VRToVC g v) = v /\ 0 <= VRToVC g v < GSize g.
Proof.
  intros Hv. destruct Hg. unfold GSize in Hv.
  assert (Hd : 0 <= v / GWidth g < GHeight g) by (split; [apply Z.div_pos | apply Z.div_lt_upper_bound]; lia).
  pose proof (Z.mod_pos_bound v (GWidth g) ltac:(lia)).
  pose proof (Z.div_mod v (GWidth g) ltac:(lia)).
  unfold VRToVC. rewrite quot_div, rem_mod by lia.
  replace (v / GWidth g + GHeight g * (v mod GWidth g)) with (VCOf g (v / GWidth g) (v mod GWidth g))
    by (unfold VCOf; lia).
  destruct (coords_VCOf (v / GWidth g) (v mod GWidth g) Hd) as [Hr Hc].
  split; [unfold VRRank; rewrite Hr, Hc; lia |].
  apply VCOf_range; lia.
Qed.

(** Each derived communicator is consistent: every member of a
    team computes the same membership and ranking (section 4.1). *)
#[export] Instance VCComm_laws : CommLaws (GSize g) (VCComm g).
Proof. pose proof GSize_pos. split; simpl; intros; lia. Qed.

#[export] Instance VRComm_laws : CommLaws (GSize g) (VRComm g).
Proof.
  pose proof GSize_pos. split; simpl; intros.
  - done.
  - by apply VRRank_range.
  - by apply VRRank_VRToVC.
  - by apply VRRank_VRToVC.
  - by apply VRToVC_VRRank.
  - done.
Qed.

#[export] Instance ColComm_laws : CommLaws (GSize g) (ColComm g).
Proof.
  destruct Hg. split; simpl; intros.
  - lia.
  - apply GRow_range.
  - apply VCOf_range; [lia | by apply GCol_range].
  - by apply coords_VCOf.
  - apply VCOf_coords.
  - f_equal. by apply coords_VCOf.
Qed.

#[export] Instance RowComm_laws : CommLaws (GSize g) (RowComm g).
Proof.
  destruct Hg. split; simpl; intros.
  - lia.
  - by apply GCol_range.
  - apply VCOf_range; [apply GRow_range | lia].
  - apply coords_VCOf. apply GRow_range.
  - apply VCOf_coords.
  - f_equal. apply coords_VCOf. apply GRow_range.
Qed.
End GridFacts.
