(* ===== verification/Mpi.v ===== *)
(** * Mpi: the collective operations the redistributions call

    Elemental's [mpi] wrappers are not in [src/]; their behaviour is the
    MPI standard's, which the specification (sections 4.3 and 5) relies on.
    The memory of every process is a [World]: the memory of process [q]
    (named by its VC rank) is [W q].  A buffer argument of the C++ call is
    an offset into that memory, so that the send and receive buffers the
    code carves out of one scratch allocation alias exactly as they do
    there.  Each collective reads the pre-state of every process and
    writes the receive buffers.  [SendRecv] is partial: it fails ([None])
    when the partners do not match, the situation that deadlocks a real
    run, or when a message is larger than the receive buffer. *)

From stdpp Require Import base decidable numbers list.
From Stdlib Require Import ZArith Lia.
From S2P Require Import Prelude Grid.

Open Scope Z_scope.

(** [mpi::Pad]: message counts are padded; the redistributions rely only
    on a padded count being positive and at least the count. *)
Class Padding := {
  Pad : Z -> Z;
  Pad_ge : forall n, n <= Pad n;
  Pad_pos : forall n, 0 < Pad n }.

(** Padding to at least one element. *)
Lemma pad_one_ge n : n <= Z.max n 1. Proof. lia. Qed.
Lemma pad_one_pos n : 0 < Z.max n 1. Proof. lia. Qed.
#[export] Instance PadOne : Padding :=
  {| Pad n := Z.max n 1; Pad_ge := pad_one_ge; Pad_pos := pad_one_pos |}.

Definition World (T : Type) := Z -> mem T.

Section Collectives.
Context {T : Type} (p : Z) (c : Comm).

(** The process whose message [q] receives in a [SendRecv] with source
    ranks [src] (ranks in the communicator). *)
Definition partner (src : Z -> Z) (q : Z) : Z := CMember c q (src q).

(** Every receive is matched by the send of its partner, and fits. *)
Definition sendrecv_ok (scnt dest rcnt src : Z -> Z) : bool :=
  forallb (fun q =>
    let s := partner src q in
    bool_decide (CMember c s (dest s) = q) && bool_decide (scnt s <= rcnt q))
    (seqZ 0 p).

Definition SendRecv (W : World T) (soff scnt dest roff rcnt src : Z -> Z) : option (World T) :=
  if sendrecv_ok scnt dest rcnt src then
    Some (fun q x =>
      let s := partner src q in
      if decide (roff q <= x < roff q + scnt s) then W s (soff s + (x - roff q)) else W q x)
  else None.

(** [AllToAll(sendBuf, n, recvBuf, n, comm)]: block [j] of the receive
    buffer of team member [k] is block [k] of member [j]'s send buffer. *)
Definition AllToAll (W : World T) (soff : Z -> Z) (n : Z) (roff : Z -> Z) : World T :=
  fun q x =>
    if decide (roff q <= x < roff q + CSize c * n) then
      let s := CMember c q ((x - roff q) / n) in
      W s (soff s + CRank c q * n + (x - roff q) mod n)
    else W q x.

(** [Scatter(sendBuf, n, recvBuf, n, root, comm)]: every member receives
    its block of the root's send buffer. *)
Definition Scatter (W : World T) (soff : Z -> Z) (n : Z) (roff : Z -> Z) (root : Z) : World T :=
  fun q x =>
    if decide (roff q <= x < roff q + n) then
      let s := CMember c q root in
      W s (soff s + CRank c q * n + (x - roff q))
    else W q x.

(** [Gather(sendBuf, n, recvBuf, n, root, comm)]: only the root receives. *)
Definition Gather (W : World T) (soff : Z -> Z) (n : Z) (roff : Z -> Z) (root : Z) : World T :=
  fun q x =>
    if decide (CRank c q = root /\ roff q <= x < roff q + CSize c * n) then
      let s := CMember c q ((x - roff q) / n) in
      W s (soff s + (x - roff q) mod n)
    else W q x.

(** Every member of a team passes the count of its team's members. *)
Definition allgather_ok (n : Z -> Z) : bool :=
  forallb (fun q => forallb (fun j => bool_decide (n (CMember c q j) = n q)) (seqZ 0 (CSize c)))
    (seqZ 0 p).

(** [AllGather(sendBuf, n, recvBuf, n, comm)], each process passing its
    own count [n q]: block [j] of the receive buffer is the send buffer of
    team member [j].  [None] when the members of a team disagree on the
    count, which MPI does not allow. *)
Definition AllGather (W : World T) (soff n roff : Z -> Z) : option (World T) :=
  if allgather_ok n then
    Some (fun q x =>
      if decide (roff q <= x < roff q + CSize c * n q) then
        let s := CMember c q ((x - roff q) / n q) in
        W s (soff s + (x - roff q) mod n q)
      else W q x)
  else None.
End Collectives.

Section CollectiveFacts.
Context {T : Type} (p : Z) (c : Comm) `{!CommLaws p c}.

Lemma sendrecv_ok_spec scnt dest rcnt src :
  sendrecv_ok p c scnt dest rcnt src = true <->
  forall q, 0 <= q < p ->
    CMember c (partner c src q) (dest (partner c src q)) = q /\
    scnt (partner c src q) <= rcnt q.
Proof.
  unfold sendrecv_ok. rewrite forallb_forall. split.
  - intros H q Hq. specialize (H q ltac:(apply list_elem_of_In, elem_of_seqZ; lia)).
    apply andb_prop in H as [H1 H2]. apply bool_decide_eq_true in H1, H2. done.
  - intros H q Hq. apply list_elem_of_In, elem_of_seqZ in Hq.
    destruct (H q ltac:(lia)). apply andb_true_intro. split; by apply bool_decide_eq_true.
Qed.

(** What a process finds in its receive buffer after a matched [SendRecv]. *)
Lemma SendRecv_recv (W W' : World T) soff scnt dest roff rcnt src q t :
  SendRecv p c W soff scnt dest roff rcnt src = Some W' ->
  0 <= t < scnt (partner c src q) ->
  W' q (roff q + t) = W (partner c src q) (soff (partner c src q) + t).
Proof.
  unfold SendRecv. destruct sendrecv_ok; [| done]. intros [= <-] Ht.
  rewrite decide_True by lia. f_equal. lia.
Qed.

Lemma SendRecv_recv_at (W W' : World T) soff scnt dest roff rcnt src q b t :
  SendRecv p c W soff scnt dest roff rcnt src = Some W' -> roff q = b ->
  0 <= t < scnt (partner c src q) ->
  W' q (b + t) = W (partner c src q) (soff (partner c src q) + t).
Proof. intros HS <- Ht. exact (SendRecv_recv W W' soff scnt dest roff rcnt src q t HS Ht). Qed.

Lemma SendRecv_other (W W' : World T) soff scnt dest roff rcnt src q x :
  SendRecv p c W soff scnt dest roff rcnt src = Some W' ->
  ~ (roff q <= x < roff q + scnt (partner c src q)) ->
  W' q x = W q x.
Proof.
  unfold SendRecv. destruct sendrecv_ok; [| done]. intros [= <-] Hx.
  by rewrite decide_False.
Qed.

(** Block index and offset of an address of a receive buffer of blocks. *)
Lemma block_addr (roff j n t : Z) :
  0 < n -> 0 <= t < n -> (roff + j * n + t - roff) / n = j /\ (roff + j * n + t - roff) mod n = t.
Proof.
  intros Hn Ht. replace (roff + j * n + t - roff) with (t + j * n) by lia.
  rewrite Z.div_add, Z.mod_add, Z.div_small, Z.mod_small by lia. done.
Qed.

Lemma AllToAll_recv (W : World T) soff n roff q j t :
  0 < n -> 0 <= j < CSize c -> 0 <= t < n ->
  AllToAll c W soff n roff q (roff q + j * n + t) =
    W (CMember c q j) (soff (CMember c q j) + CRank c q * n + t).
Proof.
  intros Hn Hj Ht. unfold AllToAll. rewrite decide_True by nia.
  destruct (block_addr (roff q) j n t) as [-> ->]; done.
Qed.

(** The same, at a receive buffer given by its offset. *)
Lemma AllToAll_recv_at (W : World T) soff n roff q b j t :
  roff q = b -> 0 < n -> 0 <= j < CSize c -> 0 <= t < n ->
  AllToAll c W soff n roff q (b + j * n + t) =
    W (CMember c q j) (soff (CMember c q j) + CRank c q * n + t).
Proof. intros <-. apply AllToAll_recv. Qed.

Lemma Scatter_recv (W : World T) soff n roff root q t :
  0 <= t < n ->
  Scatter c W soff n roff root q (roff q + t) =
    W (CMember c q root) (soff (CMember c q root) + CRank c q * n + t).
Proof.
  intros Ht. unfold Scatter. rewrite decide_True by lia. do 2 f_equal. lia.
Qed.

Lemma Scatter_recv_at (W : World T) soff n roff root q b t :
  roff q = b -> 0 <= t < n ->
  Scatter c W soff n roff root q (b + t) =
    W (CMember c q root) (soff (CMember c q root) + CRank c q * n + t).
Proof. intros <-. apply Scatter_recv. Qed.

Lemma Scatter_other (W : World T) soff n roff root q x :
  ~ (roff q <= x < roff q + n) -> Scatter c W soff n roff root q x = W q x.
Proof. intros Hx. unfold Scatter. by rewrite decide_False. Qed.

Lemma Gather_recv (W : World T) soff n roff root q j t :
  0 < n -> 0 <= j < CSize c -> 0 <= t < n -> CRank c q = root ->
  Gather c W soff n roff root q (roff q + j * n + t) =
    W (CMember c q j) (soff (CMember c q j) + t).
Proof.
  intros Hn Hj Ht Hr. unfold Gather. rewrite decide_True by (split; [done | nia]).
  destruct (block_addr (roff q) j n t) as [-> ->]; done.
Qed.

Lemma Gather_recv_at (W : World T) soff n roff root q b j t :
  roff q = b -> 0 < n -> 0 <= j < CSize c -> 0 <= t < n -> CRank c q = root ->
  Gather c W soff n roff root q (b + j * n + t) =
    W (CMember c q j) (soff (CMember c q j) + t).
Proof. intros <-. apply Gather_recv. Qed.

Lemma allgather_ok_spec n :
  allgather_ok p c n = true <->
  forall q j, 0 <= q < p -> 0 <= j < CSize c -> n (CMember c q j) = n q.
Proof.
  unfold allgather_ok. rewrite forallb_forall. split.
  - intros H q j Hq Hj. specialize (H q ltac:(apply list_elem_of_In, elem_of_seqZ; lia)).
    rewrite forallb_forall in H.
    specialize (H j ltac:(apply list_elem_of_In, elem_of_seqZ; lia)). by apply bool_decide_eq_true in H.
  - intros H q Hq. apply list_elem_of_In, elem_of_seqZ in Hq. apply forallb_forall.
    intros j Hj. apply list_elem_of_In, elem_of_seqZ in Hj. apply bool_decide_eq_true_2, H; lia.
Qed.

(** A count the whole machine agrees on always matches. *)
Lemma allgather_ok_const (n : Z) : allgather_ok p c (fun _ => n) = true.
Proof. apply allgather_ok_spec. done. Qed.

Lemma AllGather_recv (W W' : World T) soff n roff q j t :
  AllGather p c W soff n roff = Some W' ->
  0 < n q -> 0 <= j < CSize c -> 0 <= t < n q ->
  W' q (roff q + j * n q + t) = W (CMember c q j) (soff (CMember c q j) + t).
Proof.
  intros HAG Hn Hj Ht. unfold AllGather in HAG. destruct (allgather_ok _ _ _); [| discriminate].
  injection HAG as <-. rewrite decide_True by nia.
  destruct (block_addr (roff q) j (n q) t) as [-> ->]; done.
Qed.

Lemma AllGather_recv_at (W W' : World T) soff n roff q b j t :
  AllGather p c W soff n roff = Some W' ->
  roff q = b -> 0 < n q -> 0 <= j < CSize c -> 0 <= t < n q ->
  W' q (b + j * n q + t) = W (CMember c q j) (soff (CMember c q j) + t).
Proof. intros HAG <-. by apply AllGather_recv. Qed.
End CollectiveFacts.
