(* ===== verification/Scratch.v ===== *)
(** * Scratch: the per-matrix scratch arena ([auxMemory_])

    Elemental's [Memory] class is not in [src/]; it is modelled from the
    specification (section 4.5).  [Require n] makes at least [n] elements
    available (growing, never shrinking, the allocation) and hands them
    out; [Release] marks them free again without freeing them.  The
    contents handed out are whatever the allocation held: the routines
    must not read scratch they did not write, and every theorem about a
    routine holds for arbitrary initial scratch contents. *)

From stdpp Require Import base decidable numbers list.
From Stdlib Require Import ZArith Lia.
From S2P Require Import Prelude.

Open Scope Z_scope.

Record Aux (T : Type) := mkAux { AuxCap : Z; AuxBusy : bool; AuxMem : mem T }.
Arguments mkAux {T}.
Arguments AuxCap {T}.
Arguments AuxBusy {T}.
Arguments AuxMem {T}.

Definition Require {T} (n : Z) (a : Aux T) : Aux T := mkAux (Z.max (AuxCap a) n) true (AuxMem a).
Definition Release {T} (a : Aux T) : Aux T := mkAux (AuxCap a) false (AuxMem a).

(** The routines write the scratch through [SetAuxMem]. *)
Definition SetAuxMem {T} (m : mem T) (a : Aux T) : Aux T := mkAux (AuxCap a) (AuxBusy a) m.

(** The arena as a state machine: an operation is a [Require] or a
    [Release]; reentrant use is a [Require] while busy. *)
Inductive aux_op := ARequire (n : Z) | ARelease.

Inductive aux_step {T} : Aux T -> aux_op -> Aux T -> Prop :=
  | step_require a n : AuxBusy a = false -> aux_step a (ARequire n) (Require n a)
  | step_release a : AuxBusy a = true -> aux_step a ARelease (Release a).

(** Runs of operations, in order. *)
Inductive aux_run {T} : Aux T -> list aux_op -> Aux T -> Prop :=
  | run_nil a : aux_run a [] a
  | run_cons a o a' os a'' : aux_step a o a' -> aux_run a' os a'' -> aux_run a (o :: os) a''.

Lemma aux_step_cap {T} (a a' : Aux T) o : aux_step a o a' -> AuxCap a <= AuxCap a'.
Proof. destruct 1; simpl; lia. Qed.

(** The allocation never shrinks along a run. *)
Lemma aux_run_cap {T} (a a' : Aux T) os : aux_run a os a' -> AuxCap a <= AuxCap a'.
Proof. induction 1 as [|? ? ? ? ? Hs]; [lia |]. apply aux_step_cap in Hs. lia. Qed.

(** A bracketed use, [Require n] then [Release], is a legal run from a
    free arena, ends free, and leaves at least [n] elements allocated. *)
Lemma aux_bracket {T} (a : Aux T) n :
  AuxBusy a = false ->
  aux_run a [ARequire n; ARelease] (Release (Require n a)) /\
  AuxBusy (Release (Require n a)) = false /\ n <= AuxCap (Release (Require n a)).
Proof.
  intros Hfree. split; [| simpl; split; [done | lia]].
  econstructor; [by constructor |]. econstructor; [by constructor |]. constructor.
Qed.
