(* ===== verification/DistMatrix.v ===== *)
(** * DistMatrix: distributions, descriptors and the distributed matrix

    The distribution tags ([Dist]), the descriptor [DistData] and the
    bookkeeping of [GeneralDistMatrix] (alignments, shifts, local sizes,
    [Resize], [Align*], [SetGrid]) are declared outside [src/] and are
    modelled from the specification (sections 3 and 6); the per-variant
    strides are the [ColStride]/[RowStride] queries of the variant files.

    A distributed matrix [DM] is the state of every process at once: its
    global metadata (identical on every process) and, per process (by VC
    rank), the local column-major buffer and the scratch arena.  The
    abstract specification of a distributed matrix is the global matrix it
    stands for: [holds A M] says that every participating process stores
    exactly its share of [M] at the local offsets the code computes.  The
    generalized-diagonal tag [MD] takes part in descriptors and dispatch
    only: its diagonal-path ranking is not modelled ([DistRank] is [None]),
    so no data-level theorem is about an [MD] matrix. *)

From stdpp Require Import base decidable numbers list.
From Stdlib Require Import ZArith Lia.
From S2P Require Import Prelude Indexing Grid Scratch.

Open Scope Z_scope.

Inductive Dist := MC | MD | MR | VC | VR | STAR | CIRC.

#[export] Instance Dist_eq_dec : EqDecision Dist.
Proof. solve_decision. Defined.

(** [DistData]: the descriptor [{colDist, rowDist, colAlign, rowAlign, root, grid}]. *)
Record DistData := mkDistData {
  colDist : Dist; rowDist : Dist; colAlign : Z; rowAlign : Z; root : Z; grid : Grid }.

(** How many processes share one axis under a tag. *)
Definition DistStride (g : Grid) (d : Dist) : Z :=
  match d with
  | MC => GHeight g
  | MR => GWidth g
  | VC | VR => GSize g
  | MD => Z.lcm (GHeight g) (GWidth g)
  | STAR | CIRC => 1
  end.

(** A process's rank along an axis under a tag ([None]: not modelled). *)
Definition DistRank (g : Grid) (d : Dist) (q : Z) : option Z :=
  match d with
  | MC => Some (GRow g q)
  | MR => Some (GCol g q)
  | VC => Some q
  | VR => Some (VRRank g q)
  | STAR | CIRC => Some 0
  | MD => None
  end.

(** The fatal errors of the engine ([LogicError] with its message). *)
Inductive ElError :=
  | NonsensicalAlignment   (* "Nonsensical alignment" *)
  | InvalidAlignment       (* "Invalid alignment" *)
  | GridsDoNotMatch        (* "Grids do not match" *)
  | NotYetWritten          (* "This routine is not yet written" *)
  | OptionNotSupported     (* "This option is not yet supported" *)
  | NotSameGrid            (* "{A,s} must be distributed over the same grid" *)
  | NotAlignedWithA        (* "t was not aligned with A" *)
  | CouldNotSetAlignment   (* "Could not set alignment" *)
  | Nonconformal.          (* a kernel's rejection of operands of the wrong shapes *)

#[export] Instance ElError_eq_dec : EqDecision ElError.
Proof. solve_decision. Defined.

(** A routine either returns or aborts the job with a fatal error. *)
Inductive Result (A : Type) := Ok (a : A) | Fatal (e : ElError).
Arguments Ok {A}.
Arguments Fatal {A}.

Section DM.
Context {T : Type}.

(** A local dense matrix: entry [(i,j)] is at offset [i + j * LDim]. *)
Record Local := mkLocal { LHeight : Z; LWidth : Z; LDim : Z; LBuf : mem T }.

Definition Entry (L : Local) (i j : Z) : T := LBuf L (i + j * LDim L).

Record DM := mkDM {
  DGrid : Grid;
  DColDist : Dist; DRowDist : Dist;
  DHeight : Z; DWidth : Z;
  DColAlign : Z; DRowAlign : Z; DRoot : Z;
  DViewing : bool; DColConstrained : bool; DRowConstrained : bool;
  DLocal : Z -> Local;
  DAux : Z -> Aux T }.

Definition ColStride (A : DM) : Z := DistStride (DGrid A) (DColDist A).
Definition RowStride (A : DM) : Z := DistStride (DGrid A) (DRowDist A).
Definition ColRank (A : DM) (q : Z) : Z := default 0 (DistRank (DGrid A) (DColDist A) q).
Definition RowRank (A : DM) (q : Z) : Z := default 0 (DistRank (DGrid A) (DRowDist A) q).

(** [SetShifts]: [colShift = Shift(colRank, colAlign, colStride)]. *)
Definition ColShift (A : DM) (q : Z) : Z := Shift (ColRank A q) (DColAlign A) (ColStride A).
Definition RowShift (A : DM) (q : Z) : Z := Shift (RowRank A q) (DRowAlign A) (RowStride A).

Definition LocalHeight (A : DM) (q : Z) : Z := Length (DHeight A) (ColShift A q) (ColStride A).
Definition LocalWidth (A : DM) (q : Z) : Z := Length (DWidth A) (RowShift A q) (RowStride A).

(** Only the root of a [[o,o]] matrix holds data. *)
Definition Participating (A : DM) (q : Z) : bool :=
  match DColDist A with CIRC => bool_decide (q = DRoot A) | _ => true end.

Definition DistDataOf (A : DM) : DistData :=
  mkDistData (DColDist A) (DRowDist A) (DColAlign A) (DRowAlign A) (DRoot A) (DGrid A).

(** Field updates. *)
Definition with_aligns (ca ra : Z) (cc rc : bool) (A : DM) : DM :=
  mkDM (DGrid A) (DColDist A) (DRowDist A) (DHeight A) (DWidth A) ca ra (DRoot A)
    (DViewing A) cc rc (DLocal A) (DAux A).

Definition with_size (h w : Z) (A : DM) : DM :=
  mkDM (DGrid A) (DColDist A) (DRowDist A) h w (DColAlign A) (DRowAlign A) (DRoot A)
    (DViewing A) (DColConstrained A) (DRowConstrained A) (DLocal A) (DAux A).

Definition with_root (r : Z) (A : DM) : DM :=
  mkDM (DGrid A) (DColDist A) (DRowDist A) (DHeight A) (DWidth A) (DColAlign A) (DRowAlign A) r
    (DViewing A) (DColConstrained A) (DRowConstrained A) (DLocal A) (DAux A).

Definition with_local (loc : Z -> Local) (aux : Z -> Aux T) (A : DM) : DM :=
  mkDM (DGrid A) (DColDist A) (DRowDist A) (DHeight A) (DWidth A) (DColAlign A) (DRowAlign A)
    (DRoot A) (DViewing A) (DColConstrained A) (DRowConstrained A) loc aux.

(** [Resize(height,width)]: the local matrices take their new sizes; a
    local matrix whose columns still fit its leading dimension keeps it,
    otherwise it is reallocated with [ldim = max(1, localHeight)].
    Alignments are untouched and the buffers keep whatever they held. *)
Definition Resize (h w : Z) (A : DM) : DM :=
  let A1 := with_size h w A in
  with_local (fun q =>
    let L := DLocal A q in
    let lh := if Participating A1 q then LocalHeight A1 q else 0 in
    let lw := if Participating A1 q then LocalWidth A1 q else 0 in
    let ld := if decide (0 < LDim L /\ lh <= LDim L) then LDim L else Z.max 1 lh in
    mkLocal lh lw ld (LBuf L)) (DAux A) A1.

(** [Align(colAlign,rowAlign)], [AlignCols], [AlignRows]: set and
    constrain the alignments (bookkeeping only, section 4.2). *)
Definition Align (ca ra : Z) (A : DM) : DM := with_aligns ca ra true true A.
Definition AlignCols (ca : Z) (A : DM) : DM :=
  with_aligns ca (DRowAlign A) true (DRowConstrained A) A.
Definition AlignRows (ra : Z) (A : DM) : DM :=
  with_aligns (DColAlign A) ra (DColConstrained A) true A.
Definition SetRoot (r : Z) (A : DM) : DM := with_root r A.

(** [AlignAndResize]: adopt the requested alignments unless the matrix
    is a view or the axis is constrained, then resize. *)
Definition AlignAndResize (ca ra h w : Z) (A : DM) : DM :=
  let A1 :=
    if DViewing A then A
    else with_aligns (if DColConstrained A then DColAlign A else ca)
                     (if DRowConstrained A then DRowAlign A else ra)
                     (DColConstrained A) (DRowConstrained A) A in
  Resize h w A1.

Definition AlignColsAndResize (ca h w : Z) (A : DM) : DM :=
  AlignAndResize ca (DRowAlign A) h w A.
Definition AlignRowsAndResize (ra h w : Z) (A : DM) : DM :=
  AlignAndResize (DColAlign A) ra h w A.

(** [SetGrid]: moving to another grid empties the matrix. *)
Definition SetGrid (g : Grid) (A : DM) : DM :=
  if decide (g = DGrid A) then A
  else Resize 0 0 (mkDM g (DColDist A) (DRowDist A) 0 0 0 0 0 false false false
                     (DLocal A) (DAux A)).

(** The refinement relation: [A] stands for the global matrix [M]. *)
Definition holds (A : DM) (M : Z -> Z -> T) : Prop :=
  forall q, 0 <= q < GSize (DGrid A) -> Participating A q = true ->
    LHeight (DLocal A q) = LocalHeight A q /\
    LWidth (DLocal A q) = LocalWidth A q /\
    LHeight (DLocal A q) <= LDim (DLocal A q) /\
    forall iLoc jLoc, 0 <= iLoc < LHeight (DLocal A q) -> 0 <= jLoc < LWidth (DLocal A q) ->
      Entry (DLocal A q) iLoc jLoc =
      M (ColShift A q + iLoc * ColStride A) (RowShift A q + jLoc * RowStride A).

(** Well-formed metadata: a grid, sizes, and alignments within the strides. *)
Definition dm_wf (A : DM) : Prop :=
  GridWf (DGrid A) /\ 0 <= DHeight A /\ 0 <= DWidth A /\
  0 <= DColAlign A < ColStride A /\ 0 <= DRowAlign A < RowStride A /\
  DColDist A <> MD /\ DRowDist A <> MD.
End DM.

Arguments Local : clear implicits.
Arguments DM : clear implicits.

(** A matrix built directly in a distribution: process [q] stores its
    share of [M] (the state a caller's fill loop leaves behind).  It is the
    starting point of the concrete scenarios. *)
Definition FromGlobal {T} (g : Grid) (cd rd : Dist) (ca ra root h w : Z) (M : Z -> Z -> T) : DM T :=
  let A0 := mkDM g cd rd h w ca ra root false false false
              (fun _ => mkLocal 0 0 1 (fun _ => M 0 0)) (fun _ => mkAux 0 false (fun _ => M 0 0)) in
  with_local (fun q =>
    let lh := if Participating A0 q then LocalHeight A0 q else 0 in
    let lw := if Participating A0 q then LocalWidth A0 q else 0 in
    let ld := Z.max 1 lh in
    mkLocal lh lw ld (fun x => M (ColShift A0 q + (x mod ld) * ColStride A0)
                                 (RowShift A0 q + (x / ld) * RowStride A0))) (DAux A0) A0.

(** [GeneralDistMatrix(g)] (not in [src/]; specification section 3,
    "Lifecycle"): a new matrix on [g] is [0 x 0] with alignments and root
    [0], owns its empty local matrices and is unconstrained; [u] stands
    for whatever freshly allocated memory holds. *)
Definition EmptyDM {T} (u : T) (g : Grid) (cd rd : Dist) : DM T :=
  mkDM g cd rd 0 0 0 0 0 false false false (fun _ => mkLocal 0 0 1 (fun _ => u))
    (fun _ => mkAux 0 false (fun _ => u)).

(** Closes [dm_wf] and the stride bounds on concrete metadata. *)
Ltac solve_meta :=
  unfold dm_wf, GridWf, ColStride, RowStride; cbn; repeat split; (lia || discriminate).

(** The meshes of the scenarios (2 x 2, 2 x 3, 2 x 1) and the 4 x 4 matrix [A[i][j] = i*4+j] of the
    specification's scenarios. *)
Definition grid22 : Grid := mkGrid 2 2.
Definition grid23 : Grid := mkGrid 2 3.
Definition grid21 : Grid := mkGrid 2 1.
Definition Mat44 (i j : Z) : Z := i * 4 + j.

Section DMFacts.
Context {T : Type}.
Implicit Types A : DM T.

(** Resizing and replacing the local data keep the metadata well formed. *)
Lemma dm_wf_with_local_Resize (loc : Z -> Local T) (aux : Z -> Aux T) h w A :
  dm_wf A -> 0 <= h -> 0 <= w -> dm_wf (with_local loc aux (Resize h w A)).
Proof. unfold dm_wf, ColStride, RowStride. cbn. tauto. Qed.

(** After [Resize] every participating process's local matrix has the
    local sizes the metadata prescribes and a leading dimension that
    holds a column. *)
Lemma Resize_local h w A q :
  Participating (Resize h w A) q = true ->
  LHeight (DLocal (Resize h w A) q) = LocalHeight (Resize h w A) q /\
  LWidth (DLocal (Resize h w A) q) = LocalWidth (Resize h w A) q /\
  LHeight (DLocal (Resize h w A) q) <= LDim (DLocal (Resize h w A) q) /\
  0 < LDim (DLocal (Resize h w A) q).
Proof.
  intros HP. unfold Resize in *. simpl in *.
  unfold Participating, LocalHeight, LocalWidth, ColShift, RowShift, ColRank, RowRank,
    ColStride, RowStride in *; simpl in *. rewrite HP. simpl. repeat split; try reflexivity; destruct (decide _); lia.
Qed.

(** What [AlignAndResize] does to the metadata. *)
Lemma AlignAndResize_meta ca ra h w A :
  let B := AlignAndResize ca ra h w A in
  DGrid B = DGrid A /\ DColDist B = DColDist A /\ DRowDist B = DRowDist A /\
  DHeight B = h /\ DWidth B = w /\ DRoot B = DRoot A /\ DAux B = DAux A /\
  DViewing B = DViewing A /\
  DColAlign B = (if DViewing A || DColConstrained A then DColAlign A else ca) /\
  DRowAlign B = (if DViewing A || DRowConstrained A then DRowAlign A else ra).
Proof.
  unfold AlignAndResize.
  destruct (DViewing A) eqn:E, (DColConstrained A), (DRowConstrained A); cbn; rewrite ?E; done.
Qed.

(** [holds] depends only on the metadata and the local matrices. *)
Lemma holds_transfer (A B : DM T) M :
  DGrid B = DGrid A -> DColDist B = DColDist A -> DRowDist B = DRowDist A ->
  DHeight B = DHeight A -> DWidth B = DWidth A -> DColAlign B = DColAlign A ->
  DRowAlign B = DRowAlign A -> (DColDist A = CIRC -> DRoot B = DRoot A) ->
  DLocal B = DLocal A -> holds A M -> holds B M.
Proof.
  intros Hg Hc Hr Hh Hw Hca Hra Hroot Hl HA q Hq HP.
  assert (Hp : Participating B q = Participating A q).
  { unfold Participating. rewrite Hc. destruct (DColDist A); try done. by rewrite Hroot. }
  rewrite Hp in HP. rewrite Hg in Hq.
  unfold LocalHeight, LocalWidth, ColShift, RowShift, ColRank, RowRank, ColStride, RowStride.
  rewrite Hg, Hc, Hr, Hh, Hw, Hca, Hra, Hl. apply (HA q Hq HP).
Qed.

Lemma AlignAndResize_local ca ra h w A q :
  Participating (AlignAndResize ca ra h w A) q = true ->
  LHeight (DLocal (AlignAndResize ca ra h w A) q) = LocalHeight (AlignAndResize ca ra h w A) q /\
  LWidth (DLocal (AlignAndResize ca ra h w A) q) = LocalWidth (AlignAndResize ca ra h w A) q /\
  LHeight (DLocal (AlignAndResize ca ra h w A) q) <= LDim (DLocal (AlignAndResize ca ra h w A) q) /\
  0 < LDim (DLocal (AlignAndResize ca ra h w A) q).
Proof. unfold AlignAndResize. apply Resize_local. Qed.

(** Proving [holds] of a matrix whose local matrices were replaced. *)
Lemma holds_with_local (t : DM T) loc aux M :
  (forall q, 0 <= q < GSize (DGrid t) -> Participating t q = true ->
    LHeight (loc q) = LocalHeight t q /\ LWidth (loc q) = LocalWidth t q /\
    LHeight (loc q) <= LDim (loc q) /\
    forall iLoc jLoc, 0 <= iLoc < LHeight (loc q) -> 0 <= jLoc < LWidth (loc q) ->
      Entry (loc q) iLoc jLoc = M (ColShift t q + iLoc * ColStride t) (RowShift t q + jLoc * RowStride t)) ->
  holds (with_local loc aux t) M.
Proof. intros H. exact H. Qed.

(** Resizing a matrix to its own size keeps what it stands for: every
    local matrix still fits its leading dimension. *)
Lemma Resize_holds (B : DM T) M : holds B M -> holds (Resize (DHeight B) (DWidth B) B) M.
Proof.
  intros HB q Hq HP.
  assert (E1 : with_size (DHeight B) (DWidth B) B = B) by (by destruct B).
  unfold Resize in *. cbv zeta in *. rewrite E1 in HP |- *.
  change (Participating B q = true) in HP. change (0 <= q < GSize (DGrid B)) in Hq.
  destruct (HB q Hq HP) as (Hh & Hw & Hld & He).
  unfold holds, LocalHeight, LocalWidth, ColShift, RowShift, ColRank, RowRank, ColStride, RowStride in *.
  cbn [with_local DLocal LHeight LWidth LDim LBuf DGrid DColDist DRowDist DHeight DWidth DColAlign DRowAlign].
  unfold Participating in HP |- *. cbn [with_local DColDist DRoot]. rewrite HP.
  rewrite <- Hh, <- Hw. destruct (decide _) as [Hk|Hk]; cbn [LHeight LWidth LDim LBuf].
  - by repeat split.
  - repeat split; [lia |]. intros iLoc jLoc Hi. exfalso. lia.
Qed.

Lemma holds_FromGlobal g cd rd ca ra root h w (M : Z -> Z -> T) :
  holds (FromGlobal g cd rd ca ra root h w M) M.
Proof.
  intros q _ HP. unfold FromGlobal in *. cbn -[LocalHeight LocalWidth ColShift RowShift] in *.
  unfold Participating in HP |- *. cbn in HP |- *. rewrite HP.
  split; [done | split; [done | split; [lia |]]].
  intros iLoc jLoc Hi Hj. unfold Entry. cbn -[LocalHeight LocalWidth ColShift RowShift].
  set (ld := Z.max 1 _). assert (iLoc < ld) by lia.
  rewrite Z.mod_add, Z.div_add, Z.mod_small, Z.div_small by lia. f_equal; lia.
Qed.
End DMFacts.
