(* ===== verification/Queries.v ===== *)
(** * Queries: the communicator and stride queries of the variants

    Each [DistMatrix] variant answers [DistComm], [CrossComm],
    [RedundantComm], [ColComm], [RowComm], [ColStride] and [RowStride]
    ([mc_mr.cpp] lines 1189-1203, [mr_star.cpp] lines 632-646); the
    block-cyclic [[VC,*]] adds the partial communicators and the team
    sizes ([DistMatrix/BlockCyclic/VC_STAR.cpp] lines 167-210).  The
    collectives of the operators run over these communicators, and the
    index arithmetic over these strides.  The theorem: every communicator
    a variant returns is a communicator of the whole mesh (it obeys
    [CommLaws]); the strides are the sizes of the column and row
    communicators and the [DistStride] of the variant's tags; and a
    process is identified by its ranks in the distribution, cross and
    redundant teams, whose sizes multiply to the number of processes. *)

From stdpp Require Import base decidable numbers list.
From Stdlib Require Import ZArith Lia.
From S2P Require Import Prelude Grid DistMatrix.

Open Scope Z_scope.

(** [mpi::COMM_SELF]: every process alone. *)
Definition SelfComm : Comm := mkComm 1 (fun _ => 0) (fun q _ => q).

(** The answers of the queries. *)
Record Queries := mkQueries {
  QDistComm : Comm; QCrossComm : Comm; QRedundantComm : Comm;
  QColComm : Comm; QRowComm : Comm; QColStride : Z; QRowStride : Z }.

(** [DistMatrix<T,MC,MR>] (mc_mr.cpp, lines 1189-1203). *)
Definition McMrQueries (g : Grid) : Queries :=
  mkQueries (VCComm g) SelfComm SelfComm (ColComm g) (RowComm g) (GHeight g) (GWidth g).

(** [DistMatrix<T,MR,STAR>] (mr_star.cpp, lines 632-646): [MRComm] is the
    team of a mesh row ([RowComm]), [MCComm] that of a mesh column. *)
Definition MrStarQueries (g : Grid) : Queries :=
  mkQueries (RowComm g) SelfComm (ColComm g) (RowComm g) SelfComm (GWidth g) 1.

(** The block-cyclic [[VC,*]] answers (VC_STAR.cpp, lines 167-210). *)
Record BCQueries := mkBCQueries {
  BCBase : Queries; BCPartialColComm : Comm; BCPartialUnionColComm : Comm;
  BCPartialColStride : Z; BCPartialUnionColStride : Z;
  BCDistSize : Z; BCCrossSize : Z; BCRedundantSize : Z }.

Definition VCStarBCQueries (g : Grid) : BCQueries :=
  mkBCQueries (mkQueries (VCComm g) SelfComm SelfComm (VCComm g) SelfComm (GSize g) 1)
    (ColComm g) (RowComm g) (GHeight g) (GWidth g) (GSize g) 1 1.

(** What the queries of a variant over [p] processes must satisfy. *)
Definition QueriesWf (p : Z) (Q : Queries) : Prop :=
  CommLaws p (QDistComm Q) /\ CommLaws p (QCrossComm Q) /\ CommLaws p (QRedundantComm Q) /\
  CommLaws p (QColComm Q) /\ CommLaws p (QRowComm Q) /\
  QColStride Q = CSize (QColComm Q) /\ QRowStride Q = CSize (QRowComm Q) /\
  CSize (QDistComm Q) * CSize (QCrossComm Q) * CSize (QRedundantComm Q) = p /\
  forall q q', 0 <= q < p -> 0 <= q' < p ->
    CRank (QDistComm Q) q = CRank (QDistComm Q) q' -> CRank (QCrossComm Q) q = CRank (QCrossComm Q) q' ->
    CRank (QRedundantComm Q) q = CRank (QRedundantComm Q) q' -> q = q'.

#[export] Instance SelfComm_laws (p : Z) : CommLaws p SelfComm.
Proof. split; cbn; intros; lia. Qed.

Section QueriesFacts.
Context (g : Grid) `{Hg : !GridWf g}.

(** A process is named by its mesh coordinates. *)
Lemma coords_inj q q' :
  0 <= q < GSize g -> 0 <= q' < GSize g -> GRow g q = GRow g q' -> GCol g q = GCol g q' -> q = q'.
Proof. intros _ _ Hr Hc. by rewrite <- (VCOf_coords g q), <- (VCOf_coords g q'), Hr, Hc. Qed.

(** [C27] The queries of [[MC,MR]], [[MR,*]] and the block-cyclic [[VC,*]]
    are consistent on every mesh: each communicator they return obeys
    the communicator laws over all processes; the column and row strides
    are the sizes of the column and row communicators and the strides of
    the variant's tags; the distribution, cross and redundant teams have
    sizes whose product is the number of processes and together name
    every process; and the block-cyclic partial strides factor its
    column stride. *)
Theorem Queries_consistent :
  QueriesWf (GSize g) (McMrQueries g) /\ QueriesWf (GSize g) (MrStarQueries g) /\
  QueriesWf (GSize g) (BCBase (VCStarBCQueries g)) /\
  QColStride (McMrQueries g) = DistStride g MC /\ QRowStride (McMrQueries g) = DistStride g MR /\
  QColStride (MrStarQueries g) = DistStride g MR /\ QRowStride (MrStarQueries g) = DistStride g STAR /\
  (let B := VCStarBCQueries g in
   QColStride (BCBase B) = DistStride g VC /\ QRowStride (BCBase B) = DistStride g STAR /\
   CommLaws (GSize g) (BCPartialColComm B) /\ CommLaws (GSize g) (BCPartialUnionColComm B) /\
   BCPartialColStride B = CSize (BCPartialColComm B) /\
   BCPartialUnionColStride B = CSize (BCPartialUnionColComm B) /\
   BCPartialColStride B * BCPartialUnionColStride B = QColStride (BCBase B) /\
   BCDistSize B = CSize (QDistComm (BCBase B)) /\ BCCrossSize B = CSize (QCrossComm (BCBase B)) /\
   BCRedundantSize B = CSize (QRedundantComm (BCBase B))).
Proof.
  unfold QueriesWf. cbn. split; [| split; [| split]].
  - do 5 (split; [apply _ |]). do 2 (split; [done |]). split; [unfold GSize; lia |].
    intros q q' _ _ Hq _ _. done.
  - do 5 (split; [apply _ |]). do 2 (split; [done |]). split; [unfold GSize; lia |].
    intros q q' Hq Hq' Hc _ Hr. by apply coords_inj.
  - do 5 (split; [apply _ |]). do 2 (split; [done |]). split; [unfold GSize; lia |].
    intros q q' _ _ Hq _ _. done.
  - do 6 (split; [done |]). split; [apply _ |]. split; [apply _ |]. do 2 (split; [done |]).
    split; [unfold GSize; lia |]. done.
Qed.
End QueriesFacts.

(** On the 2 x 3 mesh: the [[MR,*]] column stride is the mesh width, and
    its distribution and redundant teams name the six processes. *)
Lemma Queries_consistent_witness :
  GridWf grid23 /\ QColStride (MrStarQueries grid23) = DistStride grid23 MR /\
  CSize (QDistComm (MrStarQueries grid23)) * CSize (QCrossComm (MrStarQueries grid23)) *
    CSize (QRedundantComm (MrStarQueries grid23)) = GSize grid23.
Proof.
  assert (Hg : GridWf grid23) by (split; cbn; lia). split; [exact Hg |].
  destruct (Queries_consistent grid23) as (_ & (_ & _ & _ & _ & _ & _ & _ & Hp & _) & _ & _ & _ & Hcs & _).
  split; [exact Hcs | exact Hp].
Defined.
