(* ===== verification/McMr.v ===== *)
(** * McMr: the [[MC,MR]] distribution ([src/core/dist_matrix/mc_mr.cpp])

    The elemental distribution: rows cyclically over the [r] process rows,
    columns cyclically over the [c] process columns.  This file models the
    assignment operators of [DistMatrix<T,MC,MR>] and proves that each
    preserves the global matrix the source stands for ([holds]).  Every
    routine is the whole SPMD step: the metadata update every process
    performs, the per-process pack loop, the collective, and the
    per-process unpack loop, with the scratch arena acquired and
    released around them. *)

From stdpp Require Import base decidable numbers list.
From Stdlib Require Import ZArith Lia.
From S2P Require Import Prelude Indexing Grid Mpi Scratch DistMatrix.

Open Scope Z_scope.

Section AssignSelf.
Context {T : Type}.
Implicit Types A t this : DM T.

(** The partners of the unaligned exchange: [(sendRank, recvRank)],
    VC ranks ([operator=( const DM<T>& A )], lines 129-144). *)
Definition RealignRanks (t A : DM T) (q : Z) : Z * Z :=
  let colRank := ColRank t q in
  let rowRank := RowRank t q in
  let colStride := ColStride t in
  let rowStride := RowStride t in
  let colDiff := DColAlign t - DColAlign A in
  let rowDiff := DRowAlign t - DRowAlign A in
  let sendRow := (colRank + colStride + colDiff) `rem` colStride in
  let recvRow := (colRank + colStride - colDiff) `rem` colStride in
  let sendCol := (rowRank + rowStride + rowDiff) `rem` rowStride in
  let recvCol := (rowRank + rowStride - rowDiff) `rem` rowStride in
  (sendRow + sendCol * colStride, recvRow + recvCol * colStride).

(** [[MC,MR] = [MC,MR]] on one grid (lines 111-180): adopt [A]'s
    alignments and size; when they agree copy the local matrix,
    otherwise pack the local block contiguously, exchange it with the
    partner over the VC communicator, and unpack it. *)
Definition AssignSameGrid (A this : DM T) : option (DM T) :=
  let t := AlignAndResize (DColAlign A) (DRowAlign A) (DHeight A) (DWidth A) this in
  if decide (DColAlign t = DColAlign A /\ DRowAlign t = DRowAlign A) then
    Some (with_local (DLocal A) (DAux t) t)
  else
    let g := DGrid t in
    let sendSize q := LHeight (DLocal A q) * LWidth (DLocal A q) in
    let recvSize q := LHeight (DLocal t q) * LWidth (DLocal t q) in
    let aux q := Require (sendSize q + recvSize q) (DAux t q) in
    let packed q :=
      CopyCols (AuxMem (aux q)) 0 (LHeight (DLocal A q)) (LBuf (DLocal A q)) 0
        (LDim (DLocal A q)) (LHeight (DLocal A q)) (LWidth (DLocal A q)) in
    match SendRecv (GSize g) (VCComm g) packed (fun _ => 0) sendSize
            (fun q => fst (RealignRanks t A q)) sendSize recvSize
            (fun q => snd (RealignRanks t A q)) with
    | None => None
    | Some W =>
        Some (with_local
          (fun q => let L := DLocal t q in
             mkLocal (LHeight L) (LWidth L) (LDim L)
               (CopyCols (LBuf L) 0 (LDim L) (W q) (sendSize q) (LHeight L) (LHeight L) (LWidth L)))
          (fun q => Release (SetAuxMem (W q) (aux q))) t)
    end.
End AssignSelf.

Section AssignSelfProofs.
Context {T : Type}.
Implicit Types A t : DM T.

(** Partner arithmetic of the realignment: the process [q] receives
    from a process [s] whose old shifts are [q]'s new shifts, and [s]
    sends to [q]. *)
Lemma RealignRanks_spec (t A : DM T) q :
  GridWf (DGrid A) -> DGrid t = DGrid A ->
  DColDist t = MC -> DRowDist t = MR -> DColDist A = MC -> DRowDist A = MR ->
  0 <= DColAlign t < GHeight (DGrid A) -> 0 <= DRowAlign t < GWidth (DGrid A) ->
  0 <= DColAlign A < GHeight (DGrid A) -> 0 <= DRowAlign A < GWidth (DGrid A) ->
  0 <= q < GSize (DGrid A) ->
  let s := snd (RealignRanks t A q) in
  0 <= s < GSize (DGrid A) /\ fst (RealignRanks t A s) = q /\
  ColShift A s = ColShift t q /\ RowShift A s = RowShift t q.
Proof.
  intros Hg Hgt Hct Hrt HcA HrA Hca Hra HcaA HraA Hq s. subst s.
  pose proof Hg as [Hr Hc].
  unfold RealignRanks, ColShift, RowShift, ColRank, RowRank, ColStride, RowStride.
  rewrite Hgt, Hct, Hrt, HcA, HrA. simpl.
  set (g := DGrid A) in *.
  pose proof (GRow_range g q). pose proof (GCol_range g q Hq).
  destruct (realign_partner (GHeight g) ltac:(lia) (GRow g q) (DColAlign t) (DColAlign A))
    as (Hr1 & Hr2 & Hr3); [lia.. |].
  destruct (realign_partner (GWidth g) ltac:(lia) (GCol g q) (DRowAlign t) (DRowAlign A))
    as (Hc1 & Hc2 & Hc3); [lia.. |].
  set (k1 := (GRow g q + GHeight g - (DColAlign t - DColAlign A)) `rem` GHeight g) in *.
  set (k2 := (GCol g q + GWidth g - (DRowAlign t - DRowAlign A)) `rem` GWidth g) in *.
  fold (VCOf g k1 k2).
  destruct (coords_VCOf g k1 k2 Hr1) as [-> ->].
  split; [by apply VCOf_range | split; [| done]].
  fold (VCOf g ((k1 + GHeight g + (DColAlign t - DColAlign A)) `rem` GHeight g)
               ((k2 + GWidth g + (DRowAlign t - DRowAlign A)) `rem` GWidth g)).
  rewrite Hr3, Hc3. by apply VCOf_coords.
Qed.
End AssignSelfProofs.

Section AssignSelfRefines.
Context {T : Type} (A this : DM T) (M : Z -> Z -> T).
Context (Hwf : dm_wf A) (HcA : DColDist A = MC) (HrA : DRowDist A = MR).
Context (Hgt : DGrid this = DGrid A) (Hct : DColDist this = MC) (Hrt : DRowDist this = MR).
Context (Hca' : 0 <= DColAlign this < GHeight (DGrid A)) (Hra' : 0 <= DRowAlign this < GWidth (DGrid A)).
Context (HA : holds A M).

Let t := AlignAndResize (DColAlign A) (DRowAlign A) (DHeight A) (DWidth A) this.

Let Hg : GridWf (DGrid A). Proof. apply Hwf. Qed.

(** The target after [AlignAndResize]: same grid and tags as [A], [A]'s
    size, alignments in range, local matrices of the prescribed sizes. *)
Lemma target_meta :
  DGrid t = DGrid A /\ DColDist t = MC /\ DRowDist t = MR /\
  DHeight t = DHeight A /\ DWidth t = DWidth A /\
  0 <= DColAlign t < GHeight (DGrid A) /\ 0 <= DRowAlign t < GWidth (DGrid A) /\
  forall q, LHeight (DLocal t q) = LocalHeight t q /\ LWidth (DLocal t q) = LocalWidth t q /\
    LHeight (DLocal t q) <= LDim (DLocal t q) /\ 0 < LDim (DLocal t q).
Proof.
  destruct Hwf as (_ & _ & _ & Hca & Hra & _).
  unfold ColStride, RowStride in Hca, Hra. rewrite HcA in Hca. rewrite HrA in Hra.
  destruct (AlignAndResize_meta (DColAlign A) (DRowAlign A) (DHeight A) (DWidth A) this)
    as (Htg & Htc & Htr & Hth & Htw & _ & _ & _ & Htca & Htra).
  fold t in Htg, Htc, Htr, Hth, Htw, Htca, Htra.
  rewrite Htca, Htra, Htg, Htc, Htr. do 5 (split; [done |]).
  cbn [DistStride] in Hca, Hra.
  split; [destruct (DViewing this || DColConstrained this); lia |].
  split; [destruct (DViewing this || DRowConstrained this); lia |].
  intros q. apply AlignAndResize_local. unfold Participating, AlignAndResize. cbn.
  destruct (DViewing this); cbn; by rewrite Hct.
Qed.

(** The partner of [q] holds a block of exactly [q]'s new local size. *)
Lemma partner_sizes q :
  0 <= q < GSize (DGrid A) ->
  LHeight (DLocal A (snd (RealignRanks t A q))) = LHeight (DLocal t q) /\
  LWidth (DLocal A (snd (RealignRanks t A q))) = LWidth (DLocal t q).
Proof.
  intros Hq. destruct target_meta as (Htg & Htc & Htr & Hth & Htw & Hta1 & Hta2 & Htl).
  destruct Hwf as (_ & _ & _ & Hca & Hra & _).
  unfold ColStride, RowStride in Hca, Hra. rewrite HcA in Hca. rewrite HrA in Hra.
  destruct (RealignRanks_spec t A q Hg Htg Htc Htr HcA HrA Hta1 Hta2 Hca Hra Hq)
    as (Hs & _ & Hcs & Hrs).
  destruct (HA _ Hs) as (HAh & HAw & _); [unfold Participating; by rewrite HcA |].
  destruct (Htl q) as (Hth' & Htw' & _). rewrite HAh, HAw, Hth', Htw'.
  unfold LocalHeight, LocalWidth. rewrite Hcs, Hrs, Hth, Htw.
  unfold ColStride, RowStride. by rewrite Htg, Htc, Htr, HcA, HrA.
Qed.

(** What the unpacked target holds at local [(iLoc, jLoc)] after a
    completed exchange [W]. *)
Lemma realign_entry W q iLoc jLoc :
  SendRecv (GSize (DGrid A)) (VCComm (DGrid A))
    (fun q => CopyCols (AuxMem (Require (LHeight (DLocal A q) * LWidth (DLocal A q) +
         LHeight (DLocal t q) * LWidth (DLocal t q)) (DAux t q))) 0 (LHeight (DLocal A q))
         (LBuf (DLocal A q)) 0 (LDim (DLocal A q)) (LHeight (DLocal A q)) (LWidth (DLocal A q)))
    (fun _ => 0) (fun q => LHeight (DLocal A q) * LWidth (DLocal A q))
    (fun q => fst (RealignRanks t A q)) (fun q => LHeight (DLocal A q) * LWidth (DLocal A q))
    (fun q => LHeight (DLocal t q) * LWidth (DLocal t q)) (fun q => snd (RealignRanks t A q)) = Some W ->
  0 <= q < GSize (DGrid A) -> 0 <= iLoc < LHeight (DLocal t q) -> 0 <= jLoc < LWidth (DLocal t q) ->
  CopyCols (LBuf (DLocal t q)) 0 (LDim (DLocal t q)) (W q)
    (LHeight (DLocal A q) * LWidth (DLocal A q)) (LHeight (DLocal t q)) (LHeight (DLocal t q))
    (LWidth (DLocal t q)) (iLoc + jLoc * LDim (DLocal t q)) =
  M (ColShift t q + iLoc * ColStride t) (RowShift t q + jLoc * RowStride t).
Proof.
  intros HW Hq Hi Hj. destruct target_meta as (Htg & Htc & Htr & _ & _ & Hta1 & Hta2 & Htl).
  destruct Hwf as (_ & _ & _ & Hca & Hra & _).
  unfold ColStride, RowStride in Hca, Hra |- *. rewrite HcA in Hca. rewrite HrA in Hra.
  destruct (RealignRanks_spec t A q Hg Htg Htc Htr HcA HrA Hta1 Hta2 Hca Hra Hq)
    as (Hs & _ & Hcs & Hrs).
  destruct (Htl q) as (_ & _ & Hld & _). destruct (partner_sizes q Hq) as [Hsh Hsw].
  set (s := snd (RealignRanks t A q)) in *.
  replace (iLoc + jLoc * LDim (DLocal t q)) with (0 + iLoc + jLoc * LDim (DLocal t q)) by lia.
  rewrite CopyCols_spec by lia.
  pose proof (SendRecv_recv _ _ _ _ _ _ _ _ _ _ q (iLoc + jLoc * LHeight (DLocal t q)) HW) as Hrecv.
  cbn beta in Hrecv. unfold partner in Hrecv. cbn [CMember VCComm] in Hrecv. fold s in Hrecv.
  rewrite Hsh, Hsw in Hrecv. rewrite Z.add_assoc in Hrecv. rewrite Hrecv by nia.
  rewrite <- Hsh, Z.add_assoc, CopyCols_spec by lia.
  destruct (HA _ Hs) as (_ & _ & _ & HAe); [unfold Participating; by rewrite HcA |].
  specialize (HAe iLoc jLoc ltac:(lia) ltac:(lia)). unfold Entry in HAe.
  rewrite Z.add_0_l, HAe, Hcs, Hrs. unfold ColStride, RowStride. by rewrite Htg, Htc, Htr, HcA, HrA.
Qed.

Lemma AssignSameGrid_correct :
  exists B, AssignSameGrid A this = Some B /\ holds B M /\
    DHeight B = DHeight A /\ DWidth B = DWidth A.
Proof.
  destruct target_meta as (Htg & Htc & Htr & Hth & Htw & Hta1 & Hta2 & Htl).
  unfold AssignSameGrid. fold t. case_decide as Hal.
  - eexists; split; [done |]. split; [| done].
    eapply holds_transfer; [..| exact HA];
      cbn [with_local DGrid DColDist DRowDist DHeight DWidth DColAlign DRowAlign DRoot DLocal];
      try done; try congruence; tauto.
  - rewrite !Htg.
    destruct (SendRecv _ _ _ _ _ _ _ _ _) as [W|] eqn:HW.
    + eexists; split; [done |]. split; [| done].
      apply holds_with_local. intros q Hq _. rewrite Htg in Hq. cbn [LHeight LWidth LDim].
      destruct (Htl q) as (? & ? & ? & _). do 3 (split; [done |]).
      intros iLoc jLoc Hi Hj. unfold Entry. cbn [LBuf LDim]. by apply realign_entry.
    + exfalso. unfold SendRecv in HW.
      rewrite (proj2 (sendrecv_ok_spec (GSize (DGrid A)) (VCComm (DGrid A)) _ _ _ _)) in HW;
        [discriminate |].
      destruct Hwf as (_ & _ & _ & Hca & Hra & _).
      unfold ColStride, RowStride in Hca, Hra. rewrite HcA in Hca. rewrite HrA in Hra.
      intros q Hq. unfold partner. cbn [CMember VCComm].
      destruct (RealignRanks_spec t A q Hg Htg Htc Htr HcA HrA Hta1 Hta2 Hca Hra Hq) as (_ & ? & _).
      destruct (partner_sizes q Hq) as [-> ->]. done.
Qed.

(** [C4] [[MC,MR] = [MC,MR]] on one grid preserves the matrix: if [A]
    stands for [M], the assignment completes (every receive of the
    realignment exchange is matched by its partner's send and fits) and
    its result stands for [M] under the alignment the target ends with,
    whether it adopted [A]'s alignments or kept constrained ones. *)
Theorem AssignSameGrid_holds :
  exists B, AssignSameGrid A this = Some B /\ holds B M /\
    DHeight B = DHeight A /\ DWidth B = DWidth A.
Proof. exact AssignSameGrid_correct. Qed.

End AssignSelfRefines.

(** The [[MC,MR]] matrix of [Mat44] with zero alignments, reassigned into
    a matrix constrained to alignments (1,1): the unaligned exchange. *)
Lemma AssignSameGrid_holds_witness :
  exists B, AssignSameGrid (FromGlobal grid22 MC MR 0 0 0 4 4 Mat44)
              (Align 1 1 (FromGlobal grid22 MC MR 0 0 0 0 0 Mat44)) = Some B /\
            holds B Mat44 /\ DHeight B = 4 /\ DWidth B = 4.
Proof.
  apply (AssignSameGrid_holds (FromGlobal grid22 MC MR 0 0 0 4 4 Mat44)
           (Align 1 1 (FromGlobal grid22 MC MR 0 0 0 0 0 Mat44)) Mat44);
    try solve_meta; try reflexivity.
  apply holds_FromGlobal.
Defined.
