(* ===== verification/Align.v ===== *)
(** * Align: the alignment-resolution tables ([AlignWith] and friends)

    [AlignWith(data)] makes a matrix share index ownership with the
    descriptor [data] of another matrix, by a closed table over the
    descriptor's tags (specification section 4.2).  Modelled here, each as
    a function returning [Result (DM T)], with the build mode as a flag
    [debug] because the table's fall-through error is wrapped in
    [DEBUG_ONLY] in the code:
    - [McMrAlignWith], [McMrAlignColsWith], [McMrAlignRowsWith]
      ([src/core/dist_matrix/mc_mr.cpp]);
    - [MrStarAlignWith] ([src/core/dist_matrix/mr_star.cpp]);
    - [StarMdAlignWith] ([src/core/dist_matrix/star_md.cpp]).
    The guarantee is stated with [Owns]: a process owns global index [i]
    along an axis when its shift on that axis is [i]'s residue. *)

From stdpp Require Import base decidable numbers list.
From Stdlib Require Import ZArith Lia.
From S2P Require Import Prelude Indexing Grid Scratch DistMatrix.

Open Scope Z_scope.

(** The distribution pairs a [DistMatrix] is instantiated for: [[MC,MR]]
    and the pairs it is copy-constructed from (mc_mr.cpp, [FULL(T)]). *)
Definition ValidPair (cd rd : Dist) : bool :=
  match cd, rd with
  | MC, MR | CIRC, CIRC | MC, STAR | MD, STAR | MR, MC | MR, STAR
  | STAR, MC | STAR, MD | STAR, MR | STAR, STAR | STAR, VC | STAR, VR
  | VC, STAR | VR, STAR => true
  | _, _ => false
  end.

(** Process [q] owns global index [i] along an axis of tag [d] and
    alignment [a] (nobody, for the unmodelled [MD] ranking). *)
Definition Owns (g : Grid) (d : Dist) (a q i : Z) : bool :=
  match DistRank g d q with
  | Some k => bool_decide (Shift k a (DistStride g d) = i mod DistStride g d)
  | None => false
  end.

(** The tags that scatter over mesh rows ([MC], [VC]) or mesh columns
    ([MR], [VR]). *)
Definition ColAxis (d : Dist) : bool := match d with MC | VC => true | _ => false end.
Definition RowAxis (d : Dist) : bool := match d with MR | VR => true | _ => false end.

Section Tables.
Context {T : Type}.
Implicit Types A B : DM T.

(** [DistMatrix<T,MC,MR>::AlignWith] (lines 926-953). *)
Definition McMrAlignWith (debug : bool) (data : DistData) (A : DM T) : Result (DM T) :=
  let A1 := SetGrid (grid data) A in
  match colDist data, rowDist data with
  | MC, MR => Ok (Align (colAlign data) (rowAlign data) A1)
  | MC, STAR => Ok (AlignCols (colAlign data) A1)
  | MR, MC => Ok (Align (rowAlign data) (colAlign data) A1)
  | MR, STAR => Ok (AlignRows (colAlign data) A1)
  | STAR, MC => Ok (AlignCols (rowAlign data) A1)
  | STAR, MR => Ok (AlignRows (rowAlign data) A1)
  | STAR, VC => Ok (AlignCols (rowAlign data `rem` ColStride A1) A1)
  | STAR, VR => Ok (AlignRows (rowAlign data `rem` RowStride A1) A1)
  | VC, STAR => Ok (AlignCols (colAlign data `rem` ColStride A1) A1)
  | VR, STAR => Ok (AlignRows (colAlign data `rem` RowStride A1) A1)
  | _, _ => if debug then Fatal NonsensicalAlignment else Ok A1
  end.

(** [DistMatrix<T,MC,MR>::AlignColsWith] (lines 955-975): the grid check
    is debug-only and there is no [SetGrid]. *)
Definition McMrAlignColsWith (debug : bool) (data : DistData) (A : DM T) : Result (DM T) :=
  if debug && bool_decide (DGrid A <> grid data) then Fatal GridsDoNotMatch
  else if decide (colDist data = MC) then Ok (AlignCols (colAlign data) A)
  else if decide (rowDist data = MC) then Ok (AlignCols (rowAlign data) A)
  else if decide (colDist data = VC) then Ok (AlignCols (colAlign data `rem` ColStride A) A)
  else if decide (rowDist data = VC) then Ok (AlignCols (rowAlign data `rem` ColStride A) A)
  else if debug then Fatal NonsensicalAlignment else Ok A.

(** [DistMatrix<T,MC,MR>::AlignRowsWith] (lines 977-995). *)
Definition McMrAlignRowsWith (debug : bool) (data : DistData) (A : DM T) : Result (DM T) :=
  if debug && bool_decide (DGrid A <> grid data) then Fatal GridsDoNotMatch
  else if decide (colDist data = MR) then Ok (AlignRows (colAlign data) A)
  else if decide (rowDist data = MR) then Ok (AlignRows (rowAlign data) A)
  else if decide (colDist data = VR) then Ok (AlignRows (colAlign data `rem` RowStride A) A)
  else if decide (rowDist data = VR) then Ok (AlignRows (rowAlign data `rem` RowStride A) A)
  else if debug then Fatal NonsensicalAlignment else Ok A.

(** [DistMatrix<T,MR,STAR>::AlignWith] (mr_star.cpp, lines 428-443). *)
Definition MrStarAlignWith (debug : bool) (data : DistData) (A : DM T) : Result (DM T) :=
  let A1 := SetGrid (grid data) A in
  if decide (colDist data = MR) then Ok (AlignCols (colAlign data) A1)
  else if decide (rowDist data = MR) then Ok (AlignCols (rowAlign data) A1)
  else if decide (colDist data = VR) then Ok (AlignCols (colAlign data `rem` ColStride A1) A1)
  else if decide (rowDist data = VR) then Ok (AlignCols (rowAlign data `rem` ColStride A1) A1)
  else if debug then Fatal NonsensicalAlignment else Ok A1.

(** [DistMatrix<T,STAR,MD>::AlignWith] (star_md.cpp, lines 288-306). *)
Definition StarMdAlignWith (debug : bool) (data : DistData) (A : DM T) : Result (DM T) :=
  let A1 := SetGrid (grid data) A in
  if decide (colDist data = MD /\ rowDist data = STAR) then
    Ok (AlignRows (colAlign data) (SetRoot (root data) A1))
  else if decide (colDist data = STAR /\ rowDist data = MD) then
    Ok (AlignRows (rowAlign data) (SetRoot (root data) A1))
  else if debug then Fatal InvalidAlignment else Ok A1.

(** [B]'s column (row) distribution shares ownership with the axis
    [(d, a)] of a matrix on grid [g]: every process that owns index [i]
    along that axis owns row (column) [i] of [B]. *)
Definition ColAligned (g : Grid) (d : Dist) (a : Z) (B : DM T) : Prop :=
  forall q i, 0 <= q < GSize g -> 0 <= i -> Owns g d a q i = true ->
    Owns (DGrid B) (DColDist B) (DColAlign B) q i = true.
Definition RowAligned (g : Grid) (d : Dist) (a : Z) (B : DM T) : Prop :=
  forall q i, 0 <= q < GSize g -> 0 <= i -> Owns g d a q i = true ->
    Owns (DGrid B) (DRowDist B) (DRowAlign B) q i = true.
End Tables.

Definition Scattered (d : Dist) : bool := ColAxis d || RowAxis d.

Section AlignFacts.
Context {T : Type}.
Implicit Types A B : DM T.

Lemma SetGrid_grid g A : DGrid (SetGrid g A) = g.
Proof. unfold SetGrid. case_decide; by subst. Qed.
Lemma SetGrid_colDist g A : DColDist (SetGrid g A) = DColDist A.
Proof. unfold SetGrid. by case_decide. Qed.
Lemma SetGrid_rowDist g A : DRowDist (SetGrid g A) = DRowDist A.
Proof. unfold SetGrid. by case_decide. Qed.

(** Ownership along an axis whose rank is [k] and stride [s]. *)
Lemma Owns_iff g d a q i k :
  DistRank g d q = Some k -> 0 <= k -> 0 <= a <= DistStride g d -> 0 < DistStride g d ->
  Owns g d a q i = true <-> (k - a) mod DistStride g d = i mod DistStride g d.
Proof.
  intros Hk Hk0 Ha Hs. unfold Owns. rewrite Hk, bool_decide_eq_true.
  by rewrite Shift_mod by lia.
Qed.

Section OnGrid.
Context (g : Grid) `{Hg : !GridWf g}.

Lemma mod_of_size x : (x mod GSize g) mod GHeight g = x mod GHeight g /\
                      (x mod GSize g) mod GWidth g = x mod GWidth g.
Proof.
  pose proof Hg as [Hr Hc]. unfold GSize.
  split; apply Z.mod_mod_divide; [exists (GWidth g) | exists (GHeight g)]; lia.
Qed.

(** A [VC]-owner of [i] owns [i] along [MC] under the reduced alignment
    [a % r]: this is why the table writes [colAlign % ColStride()]. *)
Lemma Owns_VC_MC a q i :
  0 <= q < GSize g -> 0 <= a < GSize g ->
  Owns g VC a q i = true -> Owns g MC (a `rem` GHeight g) q i = true.
Proof.
  intros Hq Ha. pose proof Hg as [Hr Hc]. pose proof (GRow_range g q).
  pose proof GSize_pos. assert (GHeight g <= GSize g) by (unfold GSize in *; nia).
  rewrite rem_mod by lia. pose proof (Z.mod_pos_bound a (GHeight g) Hr).
  rewrite (Owns_iff g VC a q i q), (Owns_iff g MC _ q i (GRow g q)) by (cbn; first [reflexivity | lia]).
  cbn. unfold GRow. intros Hown.
  rewrite <- Zminus_mod, <- (proj1 (mod_of_size (q - a))), Hown. apply mod_of_size.
Qed.

Lemma Owns_VR_MR a q i :
  0 <= q < GSize g -> 0 <= a < GSize g ->
  Owns g VR a q i = true -> Owns g MR (a `rem` GWidth g) q i = true.
Proof.
  intros Hq Ha. pose proof Hg as [Hr Hc]. pose proof (GCol_range g q Hq).
  pose proof (VRRank_range g q Hq). pose proof (GRow_range g q).
  pose proof GSize_pos. assert (GWidth g <= GSize g) by (unfold GSize in *; nia).
  rewrite rem_mod by lia. pose proof (Z.mod_pos_bound a (GWidth g) Hc).
  rewrite (Owns_iff g VR a q i (VRRank g q)), (Owns_iff g MR _ q i (GCol g q)) by (cbn; first [reflexivity | lia]).
  cbn. intros Hown.
  assert (Hcol : GCol g q = VRRank g q mod GWidth g).
  { unfold VRRank. rewrite Z.mod_add, Z.mod_small by lia. done. }
  rewrite Hcol, <- Zminus_mod, <- (proj2 (mod_of_size (VRRank g q - a))), Hown.
  apply mod_of_size.
Qed.
End OnGrid.

End AlignFacts.

#[export] Hint Rewrite @SetGrid_grid @SetGrid_colDist @SetGrid_rowDist : dm_meta.

(** Computes the metadata of a table entry's result. *)
Ltac meta_simpl :=
  cbn [Align AlignCols AlignRows SetRoot with_aligns with_root
       DGrid DColDist DRowDist DColAlign DRowAlign DRoot DColConstrained DRowConstrained];
  autorewrite with dm_meta.

(** Rewrites the tags of the matrix being aligned. *)
Ltac rewrite_tags :=
  repeat match goal with
  | H : DColDist ?A = _ |- context [DColDist ?A] => rewrite H
  | H : DRowDist ?A = _ |- context [DRowDist ?A] => rewrite H
  | H : DGrid ?A = _ |- context [DGrid ?A] => rewrite H
  end.

(** Closes the aligned conjuncts of a table entry: the result's axis is
    the target's axis itself, or the [MC]/[MR] reduction of a [VC]/[VR]
    axis. *)
Ltac aligned_case :=
  repeat split; intros ?Hax; try discriminate Hax;
  unfold ColAligned, RowAligned; intros ?q ?i ?Hq _ ?Hown; meta_simpl; rewrite_tags;
  first [ exact Hown
        | apply Owns_VC_MC; first [done | lia]
        | apply Owns_VR_MR; first [done | lia] ].

Section AlignTheorems.
Context {T : Type}.
Implicit Types A B : DM T.

(** [C28] [[MC,MR]::AlignWith] shares ownership with its target: for a
    descriptor of an instantiated distribution with alignments in range,
    whenever the call returns, the result lies on the target's grid, and
    every process owning index [i] along an [MC]/[VC] axis of the target
    owns row [i] of the result, and along an [MR]/[VR] axis column [i]. *)
Theorem McMrAlignWith_aligned debug data A B :
  GridWf (grid data) -> DColDist A = MC -> DRowDist A = MR ->
  0 <= colAlign data < DistStride (grid data) (colDist data) ->
  0 <= rowAlign data < DistStride (grid data) (rowDist data) ->
  ValidPair (colDist data) (rowDist data) = true ->
  McMrAlignWith debug data A = Ok B ->
  DGrid B = grid data /\ DColDist B = MC /\ DRowDist B = MR /\
  (ColAxis (colDist data) = true -> ColAligned (grid data) (colDist data) (colAlign data) B) /\
  (ColAxis (rowDist data) = true -> ColAligned (grid data) (rowDist data) (rowAlign data) B) /\
  (RowAxis (colDist data) = true -> RowAligned (grid data) (colDist data) (colAlign data) B) /\
  (RowAxis (rowDist data) = true -> RowAligned (grid data) (rowDist data) (rowAlign data) B).
Proof.
  intros Hg HcA HrA Hca Hra Hv. destruct data as [cd rd ca ra rt g]; cbn in *.
  unfold McMrAlignWith, ColStride, RowStride; cbn.
  destruct cd, rd; cbn in Hv; try discriminate; try destruct debug; intros HB;
    try discriminate; injection HB as <-;
    meta_simpl; rewrite ?HcA, ?HrA; cbn [DistStride ColAxis RowAxis] in *; aligned_case.
Qed.

(** [C31] An unsupported target: for an instantiated distribution pair
    with no scattered axis ([[MD,*]], [[*,MD]], [[*,*]], [[o,o]]), the
    debug build aborts with "Nonsensical alignment" -- and only then --
    while the release build returns normally, having moved the matrix to
    the target's grid ([SetGrid] runs before the table). *)
Theorem McMrAlignWith_unsupported data A :
  ValidPair (colDist data) (rowDist data) = true ->
  (McMrAlignWith true data A = Fatal NonsensicalAlignment <->
     Scattered (colDist data) = false /\ Scattered (rowDist data) = false) /\
  (Scattered (colDist data) = false -> Scattered (rowDist data) = false ->
     McMrAlignWith false data A = Ok (SetGrid (grid data) A)).
Proof.
  intros Hv. destruct data as [cd rd ca ra rt g]; cbn in *. unfold McMrAlignWith; cbn.
  destruct cd, rd; cbn in *; try discriminate; intuition discriminate.
Qed.

(** [C32] [[MR,*]::AlignWith] shares ownership with its target: its
    column distribution [MR] ends up aligned with every [MR]/[VR] axis of
    an instantiated target. *)
Theorem MrStarAlignWith_aligned debug data A B :
  GridWf (grid data) -> DColDist A = MR ->
  0 <= colAlign data < DistStride (grid data) (colDist data) ->
  0 <= rowAlign data < DistStride (grid data) (rowDist data) ->
  ValidPair (colDist data) (rowDist data) = true ->
  MrStarAlignWith debug data A = Ok B ->
  DGrid B = grid data /\ DColDist B = MR /\
  (RowAxis (colDist data) = true -> ColAligned (grid data) (colDist data) (colAlign data) B) /\
  (RowAxis (rowDist data) = true -> ColAligned (grid data) (rowDist data) (rowAlign data) B).
Proof.
  intros Hg HcA Hca Hra Hv. destruct data as [cd rd ca ra rt g]; cbn in *.
  unfold MrStarAlignWith, ColStride; cbn.
  destruct cd, rd; cbn in Hv; try discriminate; try destruct debug; intros HB;
    try discriminate; injection HB as <-;
    meta_simpl; rewrite_tags; cbn [DistStride ColAxis RowAxis] in *; aligned_case.
Qed.

(** [C29] [[MC,MR]::AlignColsWith] aligns the column distribution with
    every [MC]/[VC] axis of an instantiated target on the same grid and
    leaves the row alignment and its constraint as they were. *)
Theorem McMrAlignColsWith_aligned debug data A B :
  GridWf (grid data) -> DGrid A = grid data -> DColDist A = MC ->
  0 <= colAlign data < DistStride (grid data) (colDist data) ->
  0 <= rowAlign data < DistStride (grid data) (rowDist data) ->
  ValidPair (colDist data) (rowDist data) = true ->
  McMrAlignColsWith debug data A = Ok B ->
  DGrid B = DGrid A /\ DRowAlign B = DRowAlign A /\ DRowConstrained B = DRowConstrained A /\
  (ColAxis (colDist data) = true -> ColAligned (grid data) (colDist data) (colAlign data) B) /\
  (ColAxis (rowDist data) = true -> ColAligned (grid data) (rowDist data) (rowAlign data) B).
Proof.
  intros Hg HgA HcA Hca Hra Hv. destruct data as [cd rd ca ra rt g]; cbn in *.
  unfold McMrAlignColsWith, ColStride; cbn. rewrite HgA, bool_decide_eq_false_2, andb_false_r by tauto.
  destruct cd, rd; cbn in Hv; try discriminate; try destruct debug; cbn; intros HB;
    try discriminate; injection HB as <-;
    meta_simpl; rewrite_tags; cbn [DistStride ColAxis RowAxis] in *; aligned_case.
Qed.

(** [C30] [[MC,MR]::AlignRowsWith], symmetrically: the row distribution is
    aligned with every [MR]/[VR] axis, the column alignment is kept. *)
Theorem McMrAlignRowsWith_aligned debug data A B :
  GridWf (grid data) -> DGrid A = grid data -> DRowDist A = MR ->
  0 <= colAlign data < DistStride (grid data) (colDist data) ->
  0 <= rowAlign data < DistStride (grid data) (rowDist data) ->
  ValidPair (colDist data) (rowDist data) = true ->
  McMrAlignRowsWith debug data A = Ok B ->
  DGrid B = DGrid A /\ DColAlign B = DColAlign A /\ DColConstrained B = DColConstrained A /\
  (RowAxis (colDist data) = true -> RowAligned (grid data) (colDist data) (colAlign data) B) /\
  (RowAxis (rowDist data) = true -> RowAligned (grid data) (rowDist data) (rowAlign data) B).
Proof.
  intros Hg HgA HrA Hca Hra Hv. destruct data as [cd rd ca ra rt g]; cbn in *.
  unfold McMrAlignRowsWith, RowStride; cbn. rewrite HgA, bool_decide_eq_false_2, andb_false_r by tauto.
  destruct cd, rd; cbn in Hv; try discriminate; try destruct debug; cbn; intros HB;
    try discriminate; injection HB as <-;
    meta_simpl; rewrite_tags; cbn [DistStride ColAxis RowAxis] in *; aligned_case.
Qed.

(** [C34] The debug build rejects [AlignColsWith]/[AlignRowsWith] with a
    target on another grid; the release build does not look. *)
Theorem McMrAlignColsRowsWith_grids data A :
  DGrid A <> grid data ->
  McMrAlignColsWith true data A = Fatal GridsDoNotMatch /\
  McMrAlignRowsWith true data A = Fatal GridsDoNotMatch /\
  McMrAlignColsWith false data A <> Fatal GridsDoNotMatch /\
  McMrAlignRowsWith false data A <> Fatal GridsDoNotMatch.
Proof.
  intros Hne. unfold McMrAlignColsWith, McMrAlignRowsWith.
  rewrite bool_decide_eq_true_2 by done. cbn.
  split; [done | split; [done |]]. split; repeat case_decide; discriminate.
Qed.
End AlignTheorems.

(** ** Concrete instances on the 2 x 2 mesh *)

Definition A44 : DM Z := FromGlobal grid22 MC MR 0 0 0 4 4 Mat44.
Definition grid41 : Grid := mkGrid 4 1.

Lemma McMrAlignWith_aligned_witness :
  exists B, McMrAlignWith true (mkDistData STAR VC 0 3 0 grid22) A44 = Ok B /\
    DColAlign B = 1 /\ ColAligned grid22 VC 3 B.
Proof.
  eexists. split; [reflexivity | split; [reflexivity |]].
  destruct (McMrAlignWith_aligned true (mkDistData STAR VC 0 3 0 grid22) A44 _
              ltac:(solve_meta) eq_refl eq_refl ltac:(solve_meta) ltac:(solve_meta) eq_refl eq_refl)
    as (_ & _ & _ & _ & H & _).
  by apply H.
Defined.

(** Scenario D on [[*,*]]: the debug build aborts; the release build
    returns, with the matrix emptied by the move to the 4 x 1 grid. *)
Lemma McMrAlignWith_unsupported_witness :
  McMrAlignWith true (mkDistData STAR STAR 0 0 0 grid41) A44 = Fatal NonsensicalAlignment /\
  McMrAlignWith false (mkDistData STAR STAR 0 0 0 grid41) A44 = Ok (SetGrid grid41 A44) /\
  DHeight A44 = 4 /\ DHeight (SetGrid grid41 A44) = 0.
Proof.
  destruct (McMrAlignWith_unsupported (mkDistData STAR STAR 0 0 0 grid41) A44 eq_refl) as [[_ H1] H2].
  split; [by apply H1 | split; [by apply H2 | split; reflexivity]].
Defined.

Lemma MrStarAlignWith_aligned_witness :
  exists B, MrStarAlignWith true (mkDistData VR STAR 3 0 0 grid22)
              (FromGlobal grid22 MR STAR 0 0 0 4 4 Mat44) = Ok B /\
    DColAlign B = 1 /\ ColAligned grid22 VR 3 B.
Proof.
  eexists. split; [reflexivity | split; [reflexivity |]].
  destruct (MrStarAlignWith_aligned true (mkDistData VR STAR 3 0 0 grid22)
              (FromGlobal grid22 MR STAR 0 0 0 4 4 Mat44) _
              ltac:(solve_meta) eq_refl ltac:(solve_meta) ltac:(solve_meta) eq_refl eq_refl)
    as (_ & _ & H & _).
  by apply H.
Defined.

Lemma McMrAlignColsWith_aligned_witness :
  exists B, McMrAlignColsWith true (mkDistData VC STAR 3 0 0 grid22) A44 = Ok B /\
    DColAlign B = 1 /\ ColAligned grid22 VC 3 B.
Proof.
  eexists. split; [reflexivity | split; [reflexivity |]].
  destruct (McMrAlignColsWith_aligned true (mkDistData VC STAR 3 0 0 grid22) A44 _
              ltac:(solve_meta) eq_refl eq_refl ltac:(solve_meta) ltac:(solve_meta) eq_refl eq_refl)
    as (_ & _ & _ & H & _).
  by apply H.
Defined.

Lemma McMrAlignRowsWith_aligned_witness :
  exists B, McMrAlignRowsWith true (mkDistData STAR VR 0 3 0 grid22) A44 = Ok B /\
    DRowAlign B = 1 /\ RowAligned grid22 VR 3 B.
Proof.
  eexists. split; [reflexivity | split; [reflexivity |]].
  destruct (McMrAlignRowsWith_aligned true (mkDistData STAR VR 0 3 0 grid22) A44 _
              ltac:(solve_meta) eq_refl eq_refl ltac:(solve_meta) ltac:(solve_meta) eq_refl eq_refl)
    as (_ & _ & _ & _ & H).
  by apply H.
Defined.

Lemma McMrAlignColsRowsWith_grids_witness :
  McMrAlignColsWith true (mkDistData MC MR 0 0 0 grid41) A44 = Fatal GridsDoNotMatch /\
  McMrAlignRowsWith true (mkDistData MC MR 0 0 0 grid41) A44 = Fatal GridsDoNotMatch /\
  McMrAlignColsWith false (mkDistData MC MR 0 0 0 grid41) A44 <> Fatal GridsDoNotMatch /\
  McMrAlignRowsWith false (mkDistData MC MR 0 0 0 grid41) A44 <> Fatal GridsDoNotMatch.
Proof. apply McMrAlignColsRowsWith_grids. discriminate. Defined.
