(* ===== verification/Global.v ===== *)
(** * Global: the global matrix a distributed matrix stands for

    The abstraction function of the development.  For every distribution
    pair [DistMatrix] is instantiated for, each entry [(i,j)] of the
    global matrix has an owner: the process whose rank along the column
    axis is [AxisOwner] of [i] and along the row axis [AxisOwner] of [j]
    ([(h + a) mod s], the owner formula of [CopyFromDifferentGrid]).
    [GlobalOf A] reads entry [(i,j)] from its owner's local matrix.  The
    theorems say that every entry has exactly one meaning: a matrix that
    [holds] [M] has [GlobalOf A = M] on its index range, so [holds] pins
    the global matrix down, and [holds] depends on [M] only there. *)

From stdpp Require Import base decidable numbers list.
From Stdlib Require Import ZArith Lia.
From S2P Require Import Prelude Indexing Grid Scratch DistMatrix Align.

Open Scope Z_scope.

(** The rank, along an axis of tag [d] and alignment [a], that owns
    global index [i]. *)
Definition AxisOwner (g : Grid) (d : Dist) (a i : Z) : Z :=
  (i mod DistStride g d + a) mod DistStride g d.

(** The VC rank of the process with axis ranks [kc] (column axis, tag
    [cd]) and [kr] (row axis, tag [rd]). *)
Definition MeshOwner (g : Grid) (cd rd : Dist) (kc kr : Z) : Z :=
  match cd, rd with
  | MC, MR => VCOf g kc kr
  | MR, MC => VCOf g kr kc
  | MC, _ => VCOf g kc 0
  | MR, _ => VCOf g 0 kc
  | VC, _ => kc
  | VR, _ => VRToVC g kc
  | _, MC => VCOf g kr 0
  | _, MR => VCOf g 0 kr
  | _, VC => kr
  | _, VR => VRToVC g kr
  | _, _ => 0
  end.

Section Global.
Context {T : Type}.
Implicit Types A : DM T.

(** The owner of entry [(i,j)]: the root for [[o,o]], else the mesh
    position of the two axis owners. *)
Definition Owner A (i j : Z) : Z :=
  match DColDist A with
  | CIRC => DRoot A
  | _ => MeshOwner (DGrid A) (DColDist A) (DRowDist A)
           (AxisOwner (DGrid A) (DColDist A) (DColAlign A) i)
           (AxisOwner (DGrid A) (DRowDist A) (DRowAlign A) j)
  end.

(** Entry [(i,j)] as its owner stores it. *)
Definition GlobalOf A (i j : Z) : T :=
  Entry (DLocal A (Owner A i j)) (i / ColStride A) (j / RowStride A).
End Global.

Lemma DistStride_pos (g : Grid) (d : Dist) : GridWf g -> 0 < DistStride g d.
Proof.
  intros [Hr Hc]. destruct d; cbn; unfold GSize; try lia.
  pose proof (Z.lcm_nonneg (GHeight g) (GWidth g)).
  destruct (Z.eq_dec (Z.lcm (GHeight g) (GWidth g)) 0) as [E|]; [| lia].
  apply Z.lcm_eq_0 in E. lia.
Qed.

(** The axis owner of [i] is a rank of the axis whose shift is [i]'s residue. *)
Lemma AxisOwner_spec (g : Grid) (d : Dist) (a i : Z) :
  GridWf g -> 0 <= a < DistStride g d ->
  0 <= AxisOwner g d a i < DistStride g d /\
  Shift (AxisOwner g d a i) a (DistStride g d) = i mod DistStride g d.
Proof.
  intros Hg Ha. pose proof (DistStride_pos g d Hg) as Hs. unfold AxisOwner.
  split; [apply Z.mod_pos_bound; lia |].
  apply Shift_owner; [lia | apply Z.mod_pos_bound; lia | lia].
Qed.

Section GlobalFacts.
Context {T : Type} (A : DM T) (Hwf : dm_wf A).
Context (Hv : ValidPair (DColDist A) (DRowDist A) = true).
Context (Hroot : DColDist A = CIRC -> 0 <= DRoot A < GSize (DGrid A)).

(** For every instantiated pair, the owner of an entry is a process of
    the grid that participates and whose two shifts are the entry's
    residues: it holds the entry. *)
Lemma Owner_spec i j :
  let q := Owner A i j in
  0 <= q < GSize (DGrid A) /\ Participating A q = true /\
  ColShift A q = i mod ColStride A /\ RowShift A q = j mod RowStride A.
Proof.
  destruct Hwf as (Hg & _ & _ & Hca & Hra & Hcd & Hrd). unfold Owner.
  destruct (AxisOwner_spec (DGrid A) (DColDist A) (DColAlign A) i Hg Hca) as [Hkc Hsc].
  destruct (AxisOwner_spec (DGrid A) (DRowDist A) (DRowAlign A) j Hg Hra) as [Hkr Hsr].
  set (kc := AxisOwner _ _ _ i) in *. set (kr := AxisOwner _ _ _ j) in *. clearbody kc kr.
  pose proof Hg as [Hr Hc].
  unfold Participating, ColShift, RowShift, ColRank, RowRank, ColStride, RowStride in *.
  destruct (DColDist A), (DRowDist A); try discriminate; cbn [DistStride DistRank MeshOwner default id] in *;
    rewrite ?Shift_stride1, ?Z.mod_1_r in *;
    repeat match goal with
    | |- context [GRow ?g (VCOf ?g ?x ?y)] => rewrite (proj1 (@coords_VCOf g Hg x y ltac:(lia)))
    | |- context [GCol ?g (VCOf ?g ?x ?y)] => rewrite (proj2 (@coords_VCOf g Hg x y ltac:(lia)))
    | |- context [VRRank ?g (VRToVC ?g ?x)] => rewrite (proj1 (@VRRank_VRToVC g Hg x ltac:(lia)))
    end;
    repeat split; rewrite ?bool_decide_eq_true; try done;
    try (apply (@VCOf_range _ Hg); lia); try (apply (@VRRank_VRToVC _ Hg); lia); unfold GSize in *; try lia.
  all: specialize (Hroot eq_refl); lia.
Qed.

(** The abstraction function reads back the matrix a distributed matrix stands for. *)
Lemma GlobalOf_spec (M : Z -> Z -> T) :
  holds A M -> forall i j, 0 <= i < DHeight A -> 0 <= j < DWidth A -> GlobalOf A i j = M i j.
Proof.
  intros HA i j Hi Hj. destruct (Owner_spec i j) as (Hq & HP & Hcs & Hrs).
  destruct (HA _ Hq HP) as (Hh & Hw & _ & He).
  pose proof (DistStride_pos (DGrid A) (DColDist A) (proj1 Hwf)) as Hsc.
  pose proof (DistStride_pos (DGrid A) (DRowDist A) (proj1 Hwf)) as Hsr.
  fold (ColStride A) in Hsc. fold (RowStride A) in Hsr.
  destruct (global_local _ Hsc (DHeight A) (i mod ColStride A) i Hi eq_refl) as [Hil Hie].
  destruct (global_local _ Hsr (DWidth A) (j mod RowStride A) j Hj eq_refl) as [Hjl Hje].
  unfold LocalHeight, LocalWidth in Hh, Hw. rewrite Hcs in Hh. rewrite Hrs in Hw.
  unfold GlobalOf. rewrite He by lia. rewrite Hcs, Hrs, Hie, Hje. done.
Qed.

(** So a distributed matrix stands for at most one global matrix on its
    index range. *)
Corollary holds_unique (M M' : Z -> Z -> T) :
  holds A M -> holds A M' -> forall i j, 0 <= i < DHeight A -> 0 <= j < DWidth A -> M i j = M' i j.
Proof.
  intros HA HA' i j Hi Hj. rewrite <- (GlobalOf_spec M HA i j Hi Hj). by apply GlobalOf_spec.
Qed.
End GlobalFacts.

Lemma DistRank_nonneg (g : Grid) (d : Dist) (q : Z) :
  GridWf g -> 0 <= q -> 0 <= default 0 (DistRank g d q).
Proof.
  intros [Hr Hc] Hq. destruct d; cbn; unfold GRow, GCol, VRRank, GRow, GCol; try lia.
  - apply Z.mod_pos_bound; lia.
  - apply Z.div_pos; lia.
  - pose proof (Z.div_pos q (GHeight g) Hq Hr). pose proof (Z.mod_pos_bound q (GHeight g) Hr). nia.
Qed.

(** [holds] only looks at the global matrix on the index range. *)
Lemma holds_ext {T} (A : DM T) (M M' : Z -> Z -> T) :
  dm_wf A -> holds A M ->
  (forall i j, 0 <= i < DHeight A -> 0 <= j < DWidth A -> M i j = M' i j) -> holds A M'.
Proof.
  intros (Hg & _ & _ & Hca & Hra & _) HA Hext q Hq HP.
  destruct (HA q Hq HP) as (Hh & Hw & Hld & He). do 3 (split; [done |]).
  intros iLoc jLoc Hi Hj. rewrite He by done.
  pose proof (DistStride_pos (DGrid A) (DColDist A) Hg) as Hsc.
  pose proof (DistStride_pos (DGrid A) (DRowDist A) Hg) as Hsr.
  fold (ColStride A) in Hsc, Hca. fold (RowStride A) in Hsr, Hra.
  pose proof (DistRank_nonneg (DGrid A) (DColDist A) q Hg ltac:(lia)).
  pose proof (DistRank_nonneg (DGrid A) (DRowDist A) q Hg ltac:(lia)).
  assert (0 <= ColShift A q < ColStride A) by (apply Shift_range; [done | done | lia]).
  assert (0 <= RowShift A q < RowStride A) by (apply Shift_range; [done | done | lia]).
  rewrite Hh in Hi. rewrite Hw in Hj.
  apply Hext; split; try nia.
  - apply (proj1 (local_global _ Hsc (DHeight A) (ColShift A q) iLoc ltac:(lia) ltac:(lia))).
    unfold LocalHeight in Hi. lia.
  - apply (proj1 (local_global _ Hsr (DWidth A) (RowShift A q) jLoc ltac:(lia) ltac:(lia))).
    unfold LocalWidth in Hj. lia.
Qed.
