(* ===== verification/Redist.v ===== *)
(** * Redist: the conversions the [[MC,MR]] operators delegate to

    Several assignment operators of [mc_mr.cpp] build temporaries of other
    distributions ([DistMatrix<T,VR,STAR> A_VR_STAR(A)]), temporaries with
    one alignment fixed ([DistMatrix<T,VC,STAR> A_VC_STAR(true,align,g);
    A_VC_STAR = A]) or call the filters of [GeneralDistMatrix]
    ([FilterFrom], [RowFilterFrom], [ColFilterFrom]) and the gathers
    ([PartialColAllGather], [RowAllGather]).  Those live in
    files of Elemental outside [src/]; [Redistribute] is the interface
    they offer to the operators of [src/] of [mc_mr.cpp] and
    [mr_star.cpp], and [RedistributeLaws] the
    contract the operators' proofs use: the result has the requested
    distribution, size and alignment and stands for the same global matrix.
    [RefRedistribute] is a reference implementation (through [GlobalOf])
    that meets the contract, so the contract is satisfiable. *)

From stdpp Require Import base decidable numbers list.
From Stdlib Require Import ZArith Lia.
From S2P Require Import Prelude Indexing Grid Scratch DistMatrix Align Global.

Open Scope Z_scope.

Class Redistribute (T : Type) := {
  (** [DistMatrix<T,U,V> B(A)] *)
  Convert : Dist -> Dist -> DM T -> DM T;
  (** [DistMatrix<T,U,V> B(true,align,g); B = A]: the scattered axis of
      [[U,V]] is aligned to [align] and constrained. *)
  ConvertAligned : Dist -> Dist -> Z -> Grid -> DM T -> DM T;
  (** [this->FilterFrom(A)], [this->RowFilterFrom(A)], [this->ColFilterFrom(A)]
      with arguments [A] and [this]. *)
  FilterFrom : DM T -> DM T -> DM T;
  RowFilterFrom : DM T -> DM T -> DM T;
  ColFilterFrom : DM T -> DM T -> DM T;
  (** [A.PartialColAllGather( *this )] and [A.RowAllGather( *this )]: the
      gathers of [GeneralDistMatrix] the [[MR,*]] operators end in. *)
  PartialColAllGather : DM T -> DM T -> DM T;
  RowAllGather : DM T -> DM T -> DM T }.

Section Contract.
Context {T : Type}.
Implicit Types A B : DM T.

(** A matrix of an instantiated distribution with well-formed metadata. *)
Definition src_wf A : Prop :=
  dm_wf A /\ ValidPair (DColDist A) (DRowDist A) = true /\
  (DColDist A = CIRC -> 0 <= DRoot A < GSize (DGrid A)).

(** The alignment of the scattered axis of a [[U,V]] matrix. *)
Definition AxisAlign (U : Dist) B : Z := if decide (U = STAR) then DRowAlign B else DColAlign B.
Definition AxisDist (U V : Dist) : Dist := if decide (U = STAR) then V else U.

(** The distribution an axis gathers to ([STAR], but [CIRC] stays) and
    the partial distribution a linearized axis gathers to within its
    mesh row or column ([VC] to [MC], [VR] to [MR]): the tag functions of
    the [GeneralDistMatrix] signatures, spec section 4.3, protocols 2 and
    3. *)
Definition Gath (U : Dist) : Dist := match U with CIRC => CIRC | _ => STAR end.
Definition Partial (U : Dist) : Dist :=
  match U with VC => MC | VR => MR | U => U end.

(** The source each routine accepts ([A] is the source, [this] the
    target): a filter selects from an axis that is gathered in the source
    ([FilterFrom] from [[UGath,VGath]], [RowFilterFrom] from [[U,VGath]],
    [ColFilterFrom] from [[UGath,V]]); a gather is the inverse
    ([PartialColAllGather] from [[U,V]] to [[Partial U,V]], [RowAllGather]
    from [[U,V]] to [[U,Gath V]]). *)
Definition FilterSrc (A this : DM T) : Prop :=
  DColDist A = Gath (DColDist this) /\ DRowDist A = Gath (DRowDist this).
Definition RowFilterSrc (A this : DM T) : Prop :=
  DColDist A = DColDist this /\ DRowDist A = Gath (DRowDist this).
Definition ColFilterSrc (A this : DM T) : Prop :=
  DColDist A = Gath (DColDist this) /\ DRowDist A = DRowDist this.
Definition PartialColGatherSrc (A this : DM T) : Prop :=
  DColDist this = Partial (DColDist A) /\ DRowDist this = DRowDist A.
Definition RowGatherSrc (A this : DM T) : Prop :=
  DColDist this = DColDist A /\ DRowDist this = Gath (DRowDist A).

(** What a filter or gather promises on a source it accepts: the
    target's distribution and grid, the source's size and global matrix
    (an unaligned source is handled too, spec section 4.3). *)
Definition FilterLaw (pre : DM T -> DM T -> Prop) (f : DM T -> DM T -> DM T) : Prop :=
  forall A this M, pre A this -> src_wf A -> holds A M -> src_wf this -> DGrid this = DGrid A ->
    let B := f A this in
    src_wf B /\ DColDist B = DColDist this /\ DRowDist B = DRowDist this /\
    DGrid B = DGrid this /\ DHeight B = DHeight A /\ DWidth B = DWidth A /\ holds B M.
End Contract.

(** The tags of a route's last stage, from the tags the case analysis
    fixed. *)
Ltac is_dist d := match d with MC => idtac | MR => idtac | MD => idtac | VC => idtac
                             | VR => idtac | STAR => idtac | CIRC => idtac end.
Ltac src_tags :=
  unfold FilterSrc, RowFilterSrc, ColFilterSrc, PartialColGatherSrc, RowGatherSrc;
  repeat match goal with
         | H : DColDist ?X = ?d |- context [DColDist ?X] => is_dist d; rewrite H
         | H : DRowDist ?X = ?d |- context [DRowDist ?X] => is_dist d; rewrite H
         end; cbn; auto.

Class RedistributeLaws (T : Type) `{Redistribute T} : Prop := {
  Convert_spec U V (A : DM T) M :
    ValidPair U V = true -> U <> MD -> V <> MD -> src_wf A -> holds A M ->
    let B := Convert U V A in
    src_wf B /\ DColDist B = U /\ DRowDist B = V /\ DGrid B = DGrid A /\
    DHeight B = DHeight A /\ DWidth B = DWidth A /\ holds B M;
  ConvertAligned_spec U V a g (A : DM T) M :
    ValidPair U V = true -> U <> MD -> V <> MD -> U <> CIRC -> GridWf g ->
    0 <= a < DistStride g (AxisDist U V) -> src_wf A -> holds A M ->
    let B := ConvertAligned U V a g A in
    src_wf B /\ DColDist B = U /\ DRowDist B = V /\ DGrid B = g /\
    DHeight B = DHeight A /\ DWidth B = DWidth A /\ AxisAlign U B = a /\ holds B M;
  FilterFrom_spec : FilterLaw FilterSrc FilterFrom;
  RowFilterFrom_spec : FilterLaw RowFilterSrc RowFilterFrom;
  ColFilterFrom_spec : FilterLaw ColFilterSrc ColFilterFrom;
  PartialColAllGather_spec : FilterLaw PartialColGatherSrc PartialColAllGather;
  RowAllGather_spec : FilterLaw RowGatherSrc RowAllGather;
  (** The shape laws, for every distribution, [MD] included: a copy has
      the requested tags on its source's grid and its source's size; a row
      filter of a replicated ([[*,*]]) source keeps the target's
      descriptor and takes the source's size. *)
  Convert_shape U V (A : DM T) :
    let B := Convert U V A in
    DColDist B = U /\ DRowDist B = V /\ DGrid B = DGrid A /\ DHeight B = DHeight A /\ DWidth B = DWidth A;
  RowFilterFrom_shape (A this : DM T) :
    DColDist A = STAR -> DRowDist A = STAR ->
    let B := RowFilterFrom A this in
    DistDataOf B = DistDataOf this /\ DHeight B = DHeight A /\ DWidth B = DWidth A }.

Section Reference.
Context {T : Type}.
Implicit Types A B : DM T.

(** A matrix built from the global matrix [GlobalOf A] of [A]. *)
Definition RefFilter (A this : DM T) : DM T :=
  FromGlobal (DGrid this) (DColDist this) (DRowDist this) (DColAlign this) (DRowAlign this)
    (DRoot this) (DHeight A) (DWidth A) (GlobalOf A).

Definition RefRedistribute : Redistribute T := {|
  Convert U V A := FromGlobal (DGrid A) U V 0 0 0 (DHeight A) (DWidth A) (GlobalOf A);
  ConvertAligned U V a g A :=
    FromGlobal g U V (if decide (U = STAR) then 0 else a) (if decide (U = STAR) then a else 0) 0
      (DHeight A) (DWidth A) (GlobalOf A);
  FilterFrom := RefFilter; RowFilterFrom := RefFilter; ColFilterFrom := RefFilter;
  PartialColAllGather := RefFilter; RowAllGather := RefFilter |}.

Lemma FromGlobal_wf g cd rd ca ra root h w (M : Z -> Z -> T) :
  GridWf g -> ValidPair cd rd = true -> cd <> MD -> rd <> MD ->
  0 <= ca < DistStride g cd -> 0 <= ra < DistStride g rd -> 0 <= h -> 0 <= w ->
  (cd = CIRC -> 0 <= root < GSize g) -> src_wf (FromGlobal g cd rd ca ra root h w M).
Proof. intros. unfold src_wf, dm_wf, ColStride, RowStride. cbn. tauto. Qed.

(** A matrix rebuilt from [GlobalOf A] stands for what [A] stands for. *)
Lemma holds_rebuild A g cd rd ca ra root (M : Z -> Z -> T) :
  src_wf A -> holds A M -> src_wf (FromGlobal g cd rd ca ra root (DHeight A) (DWidth A) (GlobalOf A)) ->
  holds (FromGlobal g cd rd ca ra root (DHeight A) (DWidth A) (GlobalOf A)) M.
Proof.
  intros (Hwf & Hv & Hroot) HA [Hwf' _]. apply (holds_ext _ (GlobalOf A)); [done | apply holds_FromGlobal |].
  intros i j Hi Hj. by apply (GlobalOf_spec A Hwf Hv Hroot M HA).
Qed.

Lemma RefFilter_law pre : FilterLaw pre RefFilter.
Proof.
  intros A this M _ HsA HA Hst Hg B.
  assert (src_wf B).
  { destruct HsA as ((? & ? & ? & _) & _), Hst as ((? & _ & _ & ? & ? & ? & ?) & ? & ?).
    apply FromGlobal_wf; try done; by rewrite ?Hg. }
  do 6 (split; [done |]). by apply holds_rebuild.
Qed.

Lemma RefRedistribute_laws : @RedistributeLaws T RefRedistribute.
Proof.
  split; try apply RefFilter_law; [| | done | intros A this _ _; unfold DistDataOf; cbn; by destruct this].
  - intros U V A M HUV HU HV HsA HA B.
    pose proof HsA as ((Hg & ? & ? & _) & _).
    assert (src_wf B) by (apply FromGlobal_wf; try done; try (pose proof (DistStride_pos (DGrid A) U Hg));
      try (pose proof (DistStride_pos (DGrid A) V Hg)); try lia; intros; unfold GSize; destruct Hg; lia).
    do 6 (split; [done |]). by apply holds_rebuild.
  - intros U V a g A M HUV HU HV HC Hg Ha HsA HA B.
    pose proof HsA as ((? & ? & ? & _) & _).
    pose proof (DistStride_pos g U Hg). pose proof (DistStride_pos g V Hg).
    assert (src_wf B).
    { apply FromGlobal_wf; try done; unfold AxisDist in Ha;
        try (case_decide; lia); intros ->; done. }
    do 6 (split; [done |]). split; [unfold AxisAlign; cbn; by case_decide |]. by apply holds_rebuild.
Qed.
End Reference.
