(* ===== verification/McMrCirc.v ===== *)
(** * McMrCirc: [[MC,MR] = [o,o]] ([src/core/dist_matrix/mc_mr.cpp], lines 831-913)

    The root of a [[o,o]] matrix holds the whole matrix.  It packs, for
    every process [q] of the mesh, the entries [q] owns under [[MC,MR]]
    into block [q] of a send buffer of [p] blocks of [pkgSize] entries,
    and scatters the blocks over the VC communicator; every process
    unpacks its block into its local matrix.  [CircPack] is the root's
    four-deep pack loop, [AssignFromCirc] the whole operator. *)

From stdpp Require Import base decidable numbers list.
From Stdlib Require Import ZArith Lia.
From S2P Require Import Prelude Indexing Grid Mpi Scratch DistMatrix.

Open Scope Z_scope.

Section FromCirc.
Context {T : Type} `{Padding}.

(** The root's pack loop (lines 862-884): block [q = row + col*colStride]
    receives, column by column, the entries of shifts [(s, t)]. *)
Definition CircPack (m n colStride rowStride colAlign rowAlign pkgSize : Z)
    (LA : Local T) (sendBuf : mem T) : mem T :=
  for_ 0 rowStride (fun t buf1 =>
    let tLocalWidth := Length n t rowStride in
    let col := (rowAlign + t) `rem` rowStride in
    for_ 0 colStride (fun s buf2 =>
      let sLocalHeight := Length m s colStride in
      let row := (colAlign + s) `rem` colStride in
      let q := row + col * colStride in
      StridedCopy buf2 (q * pkgSize) 1 sLocalHeight (LBuf LA) (s + t * LDim LA)
        colStride (rowStride * LDim LA) sLocalHeight tLocalWidth) buf1) sendBuf.

(** [DistMatrix<T,MC,MR>::operator=( const DistMatrix<T,CIRC,CIRC>& A )]:
    resize, pack at the root into [sendBuf = buffer[0..sendSize)], scatter
    into [recvBuf] (at [buffer[sendSize]] on the root, at [buffer[0]]
    elsewhere), unpack, release. *)
Definition AssignFromCirc (A this : DM T) : DM T :=
  let g := DGrid A in
  let m := DHeight A in
  let n := DWidth A in
  let colStride := ColStride this in
  let rowStride := RowStride this in
  let p := GSize g in
  let t := Resize m n this in
  let colAlign := DColAlign t in
  let rowAlign := DRowAlign t in
  let pkgSize := Pad (MaxLength m colStride * MaxLength n rowStride) in
  let recvSize := pkgSize in
  let sendSize := p * pkgSize in
  let aux q :=
    if Participating A q then Require (sendSize + recvSize) (DAux t q)
    else if Participating t q then Require recvSize (DAux t q) else DAux t q in
  let recvOff q := if Participating A q then sendSize else 0 in
  let sendBufs q :=
    if Participating A q then
      CircPack m n colStride rowStride colAlign rowAlign pkgSize (DLocal A q) (AuxMem (aux q))
    else AuxMem (aux q) in
  let W := Scatter (VCComm g) sendBufs (fun _ => 0) pkgSize recvOff (DRoot A) in
  with_local
    (fun q => let L := DLocal t q in
      if Participating t q then
        mkLocal (LHeight L) (LWidth L) (LDim L)
          (StridedCopy (LBuf L) 0 1 (LDim L) (W q) (recvOff q) 1 (LocalHeight t q)
             (LocalHeight t q) (LocalWidth t q))
      else L)
    (fun q => if Participating t q then Release (SetAuxMem (W q) (aux q)) else aux q) t.
End FromCirc.

Section CircPackFacts.
Context {T : Type} (g : Grid) `{Hg : !GridWf g}.
Context (m n ca ra pkg : Z) (LA : Local T) (M : Z -> Z -> T).
Context (Hca : 0 <= ca < GHeight g) (Hra : 0 <= ra < GWidth g).
Context (Hpkg : MaxLength m (GHeight g) * MaxLength n (GWidth g) <= pkg).
Context (HLA : forall i j, 0 <= i < m -> 0 <= j < n -> Entry LA i j = M i j).

(** The block the pack loop fills at shifts [(s, t)] belongs to the
    process whose [[MC,MR]] shifts are [(s, t)]; every process is one. *)
Lemma circ_block s t :
  0 <= s < GHeight g -> 0 <= t < GWidth g ->
  let q := (ca + s) `rem` GHeight g + ((ra + t) `rem` GWidth g) * GHeight g in
  0 <= q < GSize g /\ Shift (GRow g q) ca (GHeight g) = s /\ Shift (GCol g q) ra (GWidth g) = t.
Proof.
  intros Hs Ht q. pose proof Hg as [Hr Hc]. subst q. rewrite !rem_mod by lia.
  pose proof (Z.mod_pos_bound (ca + s) (GHeight g) Hr).
  pose proof (Z.mod_pos_bound (ra + t) (GWidth g) Hc).
  fold (VCOf g ((ca + s) mod GHeight g) ((ra + t) mod GWidth g)).
  destruct (coords_VCOf g ((ca + s) mod GHeight g) ((ra + t) mod GWidth g)) as [-> ->]; [lia |].
  split; [apply (VCOf_range g); lia |].
  rewrite !(Z.add_comm _ s), !(Z.add_comm _ t) in *.
  split; apply Shift_owner; lia.
Qed.

Lemma circ_block_self q :
  0 <= q < GSize g ->
  (ca + Shift (GRow g q) ca (GHeight g)) `rem` GHeight g +
  ((ra + Shift (GCol g q) ra (GWidth g)) `rem` GWidth g) * GHeight g = q.
Proof.
  intros Hq. pose proof Hg as [Hr Hc].
  pose proof (GRow_range g q). pose proof (GCol_range g q Hq).
  pose proof (Shift_range _ Hr (GRow g q) ca ltac:(lia) ltac:(lia)).
  pose proof (Shift_range _ Hc (GCol g q) ra ltac:(lia) ltac:(lia)).
  rewrite !rem_mod by lia. rewrite !(Z.add_comm ca), !(Z.add_comm ra).
  rewrite !owner_Shift by lia. exact (VCOf_coords g q).
Qed.

(** The value the root's pack loop leaves at each address of a block. *)
Definition circ_val (x : Z) : T :=
  let q := x / pkg in
  let off := x mod pkg in
  let s := Shift (GRow g q) ca (GHeight g) in
  let t := Shift (GCol g q) ra (GWidth g) in
  let sLH := Length m s (GHeight g) in
  LBuf LA (s + t * LDim LA + (off mod sLH) * GHeight g + (off / sLH) * (GWidth g * LDim LA)).

Lemma circ_pack_writes :
  writes (CircPack m n (GHeight g) (GWidth g) ca ra pkg LA)
    (fun x => exists t, 0 <= t < GWidth g /\ exists s, 0 <= s < GHeight g /\
       exists i j, 0 <= i < Length m s (GHeight g) /\ 0 <= j < Length n t (GWidth g) /\
       x = ((ca + s) `rem` GHeight g + ((ra + t) `rem` GWidth g) * GHeight g) * pkg + i * 1 +
           j * Length m s (GHeight g))
    circ_val.
Proof.
  pose proof Hg as [Hr Hc].
  apply writes_for. intros t Ht. apply writes_for. intros s Hs. apply writes_StridedCopy.
  intros i j Hi Hj. destruct (circ_block s t Hs Ht) as (_ & Es & Et).
  set (q := _ + _ * GHeight g) in *.
  pose proof (Length_le_MaxLength _ Hr m s Hs). pose proof (Length_le_MaxLength _ Hc n t Ht).
  pose proof (Length_nonneg (GHeight g) m s). pose proof (Length_nonneg (GWidth g) n t).
  assert (Hoff : 0 <= i * 1 + j * Length m s (GHeight g) < pkg) by nia.
  unfold circ_val.
  rewrite (div_between _ pkg q), (mod_between _ pkg q) by nia.
  replace (q * pkg + i * 1 + j * Length m s (GHeight g) - pkg * q)
    with (i + j * Length m s (GHeight g)) by lia.
  rewrite Es, Et, Z.mod_add, Z.div_add, Z.mod_small, Z.div_small by lia.
  f_equal.
Qed.

(** Block [q] of the packed buffer holds [q]'s share, column-major with
    leading dimension [q]'s local height. *)
Lemma circ_pack_value buf q iLoc jLoc :
  0 <= m -> 0 <= q < GSize g ->
  let s := Shift (GRow g q) ca (GHeight g) in
  let t := Shift (GCol g q) ra (GWidth g) in
  0 <= iLoc < Length m s (GHeight g) -> 0 <= jLoc < Length n t (GWidth g) ->
  CircPack m n (GHeight g) (GWidth g) ca ra pkg LA buf (q * pkg + iLoc + jLoc * Length m s (GHeight g)) =
    M (s + iLoc * GHeight g) (t + jLoc * GWidth g).
Proof.
  intros Hm Hq s t Hi Hj. pose proof Hg as [Hr Hc].
  pose proof (GRow_range g q). pose proof (GCol_range g q Hq).
  assert (Hs : 0 <= s < GHeight g) by (apply Shift_range; lia).
  assert (Ht : 0 <= t < GWidth g) by (apply Shift_range; lia).
  destruct (circ_pack_writes buf (q * pkg + iLoc + jLoc * Length m s (GHeight g))) as [Hw _].
  rewrite Hw.
  2:{ exists t. split; [done |]. exists s. split; [done |]. exists iLoc, jLoc.
      do 2 (split; [done |]).
      pose proof (circ_block_self q Hq) as E. fold s t in E. rewrite E. lia. }
  pose proof (Length_le_MaxLength _ Hr m s Hs). pose proof (Length_le_MaxLength _ Hc n t Ht).
  assert (Hoff : 0 <= iLoc + jLoc * Length m s (GHeight g) < pkg) by nia.
  unfold circ_val.
  rewrite (div_between _ pkg q), (mod_between _ pkg q) by nia. fold s t.
  replace (q * pkg + iLoc + jLoc * Length m s (GHeight g) - pkg * q)
    with (iLoc + jLoc * Length m s (GHeight g)) by lia.
  rewrite Z.mod_add, Z.div_add, Z.mod_small, Z.div_small by lia.
  rewrite <- HLA.
  - unfold Entry. f_equal. ring.
  - pose proof (proj1 (local_global _ Hr m s iLoc Hs ltac:(lia)) ltac:(lia)). nia.
  - pose proof (proj1 (local_global _ Hc n t jLoc Ht ltac:(lia)) ltac:(lia)). nia.
Qed.
End CircPackFacts.

Section CircRefines.
Context {T : Type} `{Padding} (A this : DM T) (M : Z -> Z -> T).
Context (Hg : GridWf (DGrid A)) (HcA : DColDist A = CIRC) (HrA : DRowDist A = CIRC).
Context (Hroot : 0 <= DRoot A < GSize (DGrid A)) (Hm : 0 <= DHeight A) (Hn : 0 <= DWidth A).
Context (HA : holds A M).
Context (Hgt : DGrid this = DGrid A) (Hct : DColDist this = MC) (Hrt : DRowDist this = MR).
Context (Hca : 0 <= DColAlign this < GHeight (DGrid A)).
Context (Hra : 0 <= DRowAlign this < GWidth (DGrid A)).

(** The root's local matrix is the whole of [M]. *)
Lemma circ_root_entries i j :
  0 <= i < DHeight A -> 0 <= j < DWidth A -> Entry (DLocal A (DRoot A)) i j = M i j.
Proof.
  intros Hi Hj.
  destruct (HA (DRoot A) Hroot) as (Hh & Hw & _ & He);
    [unfold Participating; rewrite HcA; by apply bool_decide_eq_true |].
  unfold LocalHeight, LocalWidth, ColShift, RowShift, ColStride, RowStride in *.
  rewrite HcA, HrA in *. cbn [DistStride] in *. unfold Shift in *. rewrite !Z.rem_1_r in *.
  unfold Length in Hh, Hw. rewrite !Z.div_1_r in Hh, Hw.
  rewrite He by lia. f_equal; lia.
Qed.

Let t := Resize (DHeight A) (DWidth A) this.

(** The target after [Resize]: [this]'s grid, tags and alignments. *)
Lemma circ_target_meta :
  DGrid t = DGrid A /\ DColDist t = MC /\ DRowDist t = MR /\
  DColAlign t = DColAlign this /\ DRowAlign t = DRowAlign this /\
  DHeight t = DHeight A /\ DWidth t = DWidth A /\ (forall q, Participating t q = true).
Proof.
  cbn [t Resize with_local with_size DGrid DColDist DRowDist DColAlign DRowAlign DHeight DWidth].
  rewrite Hgt, Hct, Hrt. do 7 (split; [done |]). intros q. unfold Participating. cbn. by rewrite Hct.
Qed.

Lemma AssignFromCirc_correct :
  holds (AssignFromCirc A this) M /\
  DHeight (AssignFromCirc A this) = DHeight A /\ DWidth (AssignFromCirc A this) = DWidth A.
Proof.
  pose proof Hg as [Hr Hc].
  destruct circ_target_meta as (Htg & Htc & Htr & Htca & Htra & Hth & Htw & HPt).
  assert (HPA : Participating A (DRoot A) = true)
    by (unfold Participating; rewrite HcA; by apply bool_decide_eq_true).
  unfold AssignFromCirc. fold t. cbv beta zeta.
  replace (ColStride this) with (GHeight (DGrid A)) by (unfold ColStride; by rewrite Hct, Hgt).
  replace (RowStride this) with (GWidth (DGrid A)) by (unfold RowStride; by rewrite Hrt, Hgt).
  split; [| done].
  apply holds_with_local. intros q Hq _. rewrite Htg in Hq. rewrite HPt.
  destruct (Resize_local (DHeight A) (DWidth A) this q) as (Hlh & Hlw & Hld & _); [apply HPt |].
  fold t in Hlh, Hlw, Hld. cbn [LHeight LWidth LDim LBuf]. do 3 (split; [done |]).
  intros iLoc jLoc Hi Hj. unfold Entry. cbn [LBuf LDim].
  rewrite Hlh in Hi, Hld. rewrite Hlw in Hj.
  replace (iLoc + jLoc * LDim (DLocal t q)) with (0 + iLoc + jLoc * LDim (DLocal t q)) by lia.
  rewrite StridedCopy_spec by lia.
  set (pkg := Pad _).
  assert (Hpkg : MaxLength (DHeight A) (GHeight (DGrid A)) * MaxLength (DWidth A) (GWidth (DGrid A)) <= pkg)
    by apply Pad_ge.
  unfold LocalHeight, LocalWidth, ColShift, RowShift, ColRank, RowRank, ColStride, RowStride in *.
  rewrite Htg, Htc, Htr, Htca, Htra, Hth, Htw in *. cbn [DistStride DistRank default id] in *.
  pose proof (GRow_range _ q). pose proof (GCol_range _ q Hq).
  pose proof (Shift_range _ Hr (GRow (DGrid A) q) (DColAlign this) ltac:(lia) ltac:(lia)).
  pose proof (Shift_range _ Hc (GCol (DGrid A) q) (DRowAlign this) ltac:(lia) ltac:(lia)).
  pose proof (Length_le_MaxLength _ Hr (DHeight A) (Shift (GRow (DGrid A) q) (DColAlign this) (GHeight (DGrid A))) ltac:(lia)).
  pose proof (Length_le_MaxLength _ Hc (DWidth A) (Shift (GCol (DGrid A) q) (DRowAlign this) (GWidth (DGrid A))) ltac:(lia)).
  rewrite <- Z.add_assoc, Z.mul_1_r, Scatter_recv by nia.
  cbn [CMember CRank VCComm]. rewrite HPA, Z.add_0_l, Z.add_assoc.
  apply circ_pack_value; try done.
  by apply circ_root_entries.
Qed.

(** [C5] [[MC,MR] = [o,o]] preserves the matrix: if the root's copy of
    [A] stands for [M], then after the pack, the scatter and the unpack
    every process holds its [[MC,MR]] share of [M] under the target's
    alignments, and the result has [A]'s size. *)
Theorem AssignFromCirc_holds :
  holds (AssignFromCirc A this) M /\
  DHeight (AssignFromCirc A this) = DHeight A /\ DWidth (AssignFromCirc A this) = DWidth A.
Proof. exact AssignFromCirc_correct. Qed.
End CircRefines.

(** Scenario A: the 4 x 4 matrix [A[i][j] = i*4+j] held by process 0 as
    [[o,o]], distributed [[MC,MR]] over the 2 x 2 mesh. *)
Definition CircMat44 : DM Z := FromGlobal grid22 CIRC CIRC 0 0 0 4 4 Mat44.
Definition EmptyMcMr : DM Z := FromGlobal grid22 MC MR 0 0 0 0 0 Mat44.

Lemma AssignFromCirc_holds_witness :
  holds (AssignFromCirc CircMat44 EmptyMcMr) Mat44 /\
  DHeight (AssignFromCirc CircMat44 EmptyMcMr) = 4 /\ DWidth (AssignFromCirc CircMat44 EmptyMcMr) = 4.
Proof.
  apply AssignFromCirc_holds; try solve_meta; try reflexivity.
  apply holds_FromGlobal.
Defined.

(** Process 1 (mesh row 1, column 0) ends with rows 1, 3 and columns 0, 2. *)
Example AssignFromCirc_scenario_A :
  let L := DLocal (AssignFromCirc CircMat44 EmptyMcMr) 1 in
  (LHeight L, LWidth L, Entry L 0 0, Entry L 1 0, Entry L 0 1, Entry L 1 1) = (2, 2, 4, 12, 6, 14).
Proof. vm_compute. reflexivity. Qed.
