(* ===== verification/McMrVC.v ===== *)
(** * McMrVC: [[MC,MR] = [VC,*]] ([src/core/dist_matrix/mc_mr.cpp], lines 474-634)

    A [[VC,*]] matrix gives process [q] the rows of VC shift [q], all
    columns.  Each process packs, for every mesh column [k], the columns
    of its rows that column [k] owns under [[MC,MR]] ([VCPack]); an
    [AllToAll] over the row communicator hands every process the blocks
    of the [c] processes of its mesh row, which it scatters into its
    local rows with stride [c] ([VCUnpack]).  When the [MC] alignment
    cannot follow [A]'s ([this] is constrained), the packed buffer is
    first traded within the mesh column by a [SendRecv] ([sendRow],
    [recvRow]), so that the [AllToAll] gathers the blocks of the process
    row [recvRow]. *)

From stdpp Require Import base decidable numbers list.
From Stdlib Require Import ZArith Lia.
From S2P Require Import Prelude Indexing Grid Mpi Scratch DistMatrix.

Open Scope Z_scope.

Section FromVC.
Context {T : Type} `{Padding}.

(** The pack loop (lines 513-524): block [k] of the buffer at [base]
    holds, column-major with leading dimension [localHeightA], the local
    rows of [A] in the columns mesh column [k] owns. *)
Definition VCPack (width c rowAlign portionSize base : Z) (LA : Local T) (buf : mem T) : mem T :=
  for_ 0 c (fun k b =>
    let thisRowShift := Shift k rowAlign c in
    let thisLocalWidth := Length width thisRowShift c in
    CopyCols b (base + k * portionSize) (LHeight LA) (LBuf LA) (thisRowShift * LDim LA)
      (c * LDim LA) (LHeight LA) thisLocalWidth) buf.

(** The unpack loop (lines 532-548): block [k] came from the process of
    VC rank [thisRank = row + k*r]; its local row [iLoc] is this
    process's local row [thisColOffset + iLoc*c]. *)
Definition VCUnpack (height r c colShift colAlignA localWidth portionSize : Z) (row : Z)
    (recvBuf : mem T) (base : Z) (thisLDim : Z) (thisBuffer : mem T) : mem T :=
  let p := r * c in
  for_ 0 c (fun k b =>
    let thisRank := row + k * r in
    let thisColShift := Shift thisRank colAlignA p in
    let thisColOffset := (thisColShift - colShift) ÷ r in
    let thisLocalHeight := Length height thisColShift p in
    StridedCopy b thisColOffset c thisLDim recvBuf (base + k * portionSize) 1 thisLocalHeight
      thisLocalHeight localWidth) thisBuffer.

(** The unpack of every process and the release of its scratch (lines
    528-550 and 609-632): [rowOf q] is the process row whose blocks [q]
    received ([row] when aligned, [recvRow] otherwise). *)
Definition VCFinish (A t : DM T) (portionSize recvBase : Z) (rowOf : Z -> Z)
    (aux : Z -> Aux T) (W : World T) : DM T :=
  let g := DGrid t in
  with_local
    (fun q => let L := DLocal t q in
       if Participating t q then
         mkLocal (LHeight L) (LWidth L) (LDim L)
           (VCUnpack (DHeight t) (GHeight g) (GWidth g) (ColShift t q) (DColAlign A) (LWidth L)
              portionSize (rowOf q) (W q) recvBase (LDim L) (LBuf L))
       else L)
    (fun q => if Participating t q then Release (SetAuxMem (W q) (aux q)) else DAux t q) t.

(** [DistMatrix<T,MC,MR>::operator=( const DistMatrix<T,VC,STAR>& A )]:
    [None] when the unaligned trade cannot complete. *)
Definition AssignFromVCStar (A this : DM T) : option (DM T) :=
  let g := DGrid this in
  let t := AlignColsAndResize (DColAlign A `rem` GHeight g) (DHeight A) (DWidth A) this in
  let r := GHeight g in
  let c := GWidth g in
  let p := r * c in
  let colAlign := DColAlign t in
  let rowAlign := DRowAlign t in
  let colAlignA := DColAlign A in
  let height := DHeight t in
  let width := DWidth t in
  let maxHeight := MaxLength height p in
  let maxWidth := MaxLength width c in
  let portionSize := Pad (maxHeight * maxWidth) in
  let aux q := Require (2 * c * portionSize) (DAux t q) in
  if decide (colAlign = colAlignA `rem` r) then
    (* sendBuf = buffer[0..c*portionSize), recvBuf = buffer[c*portionSize..) *)
    let W0 q := VCPack width c rowAlign portionSize 0 (DLocal A q) (AuxMem (aux q)) in
    let W1 := AllToAll (RowComm g) W0 (fun _ => 0) portionSize (fun _ => c * portionSize) in
    Some (VCFinish A t portionSize (c * portionSize) (GRow g) aux W1)
  else
    let sendRow q := (GRow g q + r + colAlign - colAlignA `rem` r) `rem` r in
    let recvRow q := (GRow g q + r + colAlignA `rem` r - colAlign) `rem` r in
    (* firstBuf = buffer[0..c*portionSize), secondBuf = buffer[c*portionSize..) *)
    let W0 q := VCPack width c rowAlign portionSize (c * portionSize) (DLocal A q) (AuxMem (aux q)) in
    match SendRecv (GSize g) (ColComm g) W0 (fun _ => c * portionSize) (fun _ => c * portionSize)
            sendRow (fun _ => 0) (fun _ => c * portionSize) recvRow with
    | None => None
    | Some W1 =>
        let W2 := AllToAll (RowComm g) W1 (fun _ => 0) portionSize (fun _ => c * portionSize) in
        Some (VCFinish A t portionSize (c * portionSize) recvRow aux W2)
    end.
End FromVC.

Section VCPackFacts.
Context {T : Type} (c width rowAlign portion base : Z) (LA : Local T).
Context (Hc : 0 < c) (Hra : 0 <= rowAlign < c) (HLH : 0 <= LHeight LA).
Context (Hfit : forall k, 0 <= k < c ->
  LHeight LA * Length width (Shift k rowAlign c) c <= portion).

(** The value the pack leaves at an address of block [k]. *)
Definition vc_val (x : Z) : T :=
  let k := (x - base) / portion in
  let off := (x - base) mod portion in
  LBuf LA (Shift k rowAlign c * LDim LA + off mod LHeight LA + (off / LHeight LA) * (c * LDim LA)).

(** Offsets into a block that holds [h x w] entries column-major. *)
Lemma block_offset (k h w i j : Z) :
  0 <= i < h -> 0 <= j < w -> h * w <= portion ->
  (base + k * portion + j * h + i - base) / portion = k /\
  (base + k * portion + j * h + i - base) mod portion = j * h + i /\
  (j * h + i) mod h = i /\ (j * h + i) / h = j.
Proof.
  intros Hi Hj Hp. assert (0 <= j * h + i < portion) by nia.
  replace (base + k * portion + j * h + i - base) with (j * h + i + k * portion) by lia.
  rewrite Z.div_add, Z.mod_add, Z.div_small, Z.mod_small by lia.
  rewrite (Z.add_comm (j * h)), Z.mod_add, Z.div_add, Z.mod_small, Z.div_small by lia.
  repeat split; lia.
Qed.

(** Block [k] holds the local rows of [A] in the columns mesh column [k]
    owns, column-major with leading dimension [localHeightA]. *)
Lemma vc_pack_value buf k iLoc jLoc :
  0 <= k < c -> 0 <= iLoc < LHeight LA -> 0 <= jLoc < Length width (Shift k rowAlign c) c ->
  VCPack width c rowAlign portion base LA buf (base + k * portion + jLoc * LHeight LA + iLoc) =
    LBuf LA (iLoc + (Shift k rowAlign c + jLoc * c) * LDim LA).
Proof.
  intros Hk Hi Hj. pose proof (Hfit k Hk) as Hf.
  assert (Hw : writes (VCPack width c rowAlign portion base LA)
    (fun x => exists k, 0 <= k < c /\ exists j, 0 <= j < Length width (Shift k rowAlign c) c /\
       base + k * portion + j * LHeight LA <= x < base + k * portion + j * LHeight LA + LHeight LA)
    vc_val).
  { apply writes_for. intros k' Hk'. apply writes_CopyCols. intros i j Hi' Hj'.
    pose proof (Hfit k' Hk').
    unfold vc_val. destruct (block_offset k' (LHeight LA) _ i j Hi' Hj') as (-> & -> & -> & ->);
      [lia |]. f_equal. ring. }
  destruct (Hw buf (base + k * portion + jLoc * LHeight LA + iLoc)) as [Hv _].
  rewrite Hv by (exists k; split; [done |]; exists jLoc; split; [done | lia]).
  unfold vc_val. destruct (block_offset k (LHeight LA) _ iLoc jLoc Hi Hj) as (-> & -> & -> & ->);
    [lia |]. f_equal. ring.
Qed.
End VCPackFacts.

Section VCUnpackFacts.
Context (r c colAlignA colShift row : Z).
Context (Hr : 0 < r) (Hc : 0 < c) (Ha : 0 <= colAlignA < r * c) (Hrow : 0 <= row < r).
Context (Hcs : (row - colAlignA) mod r = colShift).

Lemma mod_mul_r x : (x mod (r * c)) mod r = x mod r.
Proof. apply Z.mod_mod_divide. exists c. lia. Qed.

(** The sender of block [k] has a VC shift that this process's [MC]
    shift divides out of: [thisColOffset] is its local row offset. *)
Lemma vc_sender k :
  0 <= k < c ->
  let s := Shift (row + k * r) colAlignA (r * c) in
  0 <= s < r * c /\ (s - colShift) ÷ r = s / r /\ 0 <= s / r < c /\ colShift + (s / r) * r = s.
Proof.
  intros Hk s. assert (Hs : 0 <= s < r * c) by (apply Shift_range; nia).
  assert (Hm : s mod r = colShift).
  { subst s. rewrite Shift_mod, mod_mul_r by nia.
    rewrite <- Hcs. replace (row + k * r - colAlignA) with (row - colAlignA + k * r) by lia.
    apply Z.mod_add. lia. }
  pose proof (Z.div_mod s r ltac:(lia)). pose proof (Z.mod_pos_bound s r Hr).
  assert (0 <= s / r < c) by (split; [apply Z.div_pos | apply Z.div_lt_upper_bound]; lia).
  rewrite quot_div by lia. split; [done | split; [| split; [done | lia]]].
  replace (s - colShift) with (s / r * r) by lia. apply Z.div_mul. lia.
Qed.

(** Local row [l] of this process is local row [G / p] of the process of
    VC rank [row + k*r] with [k = v / r], [v] the VC owner of [G]. *)
Lemma vc_owner l :
  0 <= colShift < r -> 0 <= l ->
  let G := colShift + l * r in
  let v := (G + colAlignA) mod (r * c) in
  0 <= v / r < c /\ row + (v / r) * r = v /\ Shift v colAlignA (r * c) = G mod (r * c) /\
  (G mod (r * c)) / r + (G / (r * c)) * c = l.
Proof.
  intros Hcs' Hl G v.
  pose proof (Z.mod_pos_bound (G + colAlignA) (r * c) ltac:(nia)) as Hv.
  assert (Hvr : v mod r = row).
  { subst v G. rewrite mod_mul_r.
    replace (colShift + l * r + colAlignA) with (colShift + colAlignA + l * r) by lia.
    rewrite Z.mod_add by lia. rewrite <- Hcs, Zplus_mod_idemp_l.
    replace (row - colAlignA + colAlignA) with row by lia. apply Z.mod_small; lia. }
  pose proof (Z.div_mod v r ltac:(lia)).
  split; [split; [apply Z.div_pos | apply Z.div_lt_upper_bound]; lia |].
  split; [lia |]. split.
  - subst v. rewrite <- Zplus_mod_idemp_l. apply Shift_owner; [nia | apply Z.mod_pos_bound; nia | lia].
  - assert (HG : G mod r = colShift).
    { subst G. rewrite Z.mod_add by lia. by apply Z.mod_small. }
    rewrite <- (mod_mul_r G) in HG.
    pose proof (Z.div_mod G (r * c) ltac:(nia)).
    pose proof (Z.div_mod (G mod (r * c)) r ltac:(lia)).
    assert (r * ((G mod (r * c)) / r + G / (r * c) * c) = r * l) by (subst G; nia).
    nia.
Qed.
End VCUnpackFacts.

Section VCUnpackValue.
Context {T : Type} (r c height colAlignA colShift row localWidth portion base ldim : Z).
Context (recv : mem T) (f : Z -> Z -> T).
Context (Hr : 0 < r) (Hc : 0 < c) (Ha : 0 <= colAlignA < r * c) (Hrow : 0 <= row < r).
Context (Hcs : (row - colAlignA) mod r = colShift) (Hcs' : 0 <= colShift < r).
Context (Hld : Length height colShift r <= ldim).
Context (Hrecv : forall k iLoc jLoc, 0 <= k < c ->
  let s := Shift (row + k * r) colAlignA (r * c) in
  0 <= iLoc < Length height s (r * c) -> 0 <= jLoc < localWidth ->
  recv (base + k * portion + iLoc * 1 + jLoc * Length height s (r * c)) = f (s + iLoc * (r * c)) jLoc).

(** The unpack fills every local row of this process, each with the
    entry of the global row it stands for. *)
Lemma vc_unpack_value buf l j :
  0 <= l < Length height colShift r -> 0 <= j < localWidth ->
  VCUnpack height r c colShift colAlignA localWidth portion row recv base ldim buf (l + j * ldim) =
    f (colShift + l * r) j.
Proof.
  intros Hl Hj.
  set (gv := fun x => f (colShift + (x mod ldim) * r) (x / ldim)).
  assert (Hw : writes (VCUnpack height r c colShift colAlignA localWidth portion row recv base ldim)
    (fun x => exists k, 0 <= k < c /\ exists i j,
       0 <= i < Length height (Shift (row + k * r) colAlignA (r * c)) (r * c) /\ 0 <= j < localWidth /\
       x = (Shift (row + k * r) colAlignA (r * c) - colShift) ÷ r + i * c + j * ldim) gv).
  { apply writes_for. intros k Hk. apply writes_StridedCopy. intros i j' Hi Hj'.
    rewrite (Hrecv k i j' Hk Hi Hj').
    destruct (vc_sender r c colAlignA colShift row Hr Ha Hrow Hcs k Hk) as (Hs & -> & Hsr & Hsum).
    set (s := Shift (row + k * r) colAlignA (r * c)) in *. unfold gv. clearbody s gv.
    assert (Hg : colShift + (s / r + i * c) * r < height).
    { replace (colShift + (s / r + i * c) * r) with (s + i * (r * c)) by lia.
      apply (proj1 (local_global (r * c) ltac:(nia) height s i ltac:(lia) ltac:(lia))); lia. }
    assert (0 <= i * c) by nia.
    apply (proj2 (local_global r Hr height colShift (s / r + i * c) Hcs' ltac:(lia))) in Hg.
    set (o := s / r) in *. set (ic := i * c) in *.
    rewrite Z.mod_add, Z.div_add, Z.mod_small, Z.div_small by lia.
    f_equal. rewrite <- Hsum. subst ic. ring. }
  destruct (vc_owner r c colAlignA colShift row Hr Hc Ha Hrow Hcs l Hcs' ltac:(lia))
    as (Hk & Hv & Hsh & Hoff).
  set (G := colShift + l * r) in *. set (v := (G + colAlignA) mod (r * c)) in *.
  assert (HG : 0 <= G < height)
    by (split; [lia |]; apply (proj1 (local_global r Hr height colShift l Hcs' ltac:(lia))); lia).
  destruct (global_local (r * c) ltac:(nia) height (G mod (r * c)) G HG eq_refl) as [Hi HGi].
  destruct (Hw buf (l + j * ldim)) as [Hv' _]. rewrite Hv'.
  - unfold gv. rewrite Z.mod_add, Z.div_add, Z.mod_small, Z.div_small by lia. done.
  - exists (v / r). split; [done |]. exists (G / (r * c)), j. rewrite Hv, Hsh.
    split; [done | split; [done |]].
    destruct (vc_sender r c colAlignA colShift row Hr Ha Hrow Hcs (v / r) Hk) as (_ & Eq & _).
    rewrite Hv, Hsh in Eq. rewrite Eq. lia.
Qed.
End VCUnpackValue.

Section VCRefines.
Context {T : Type} `{Padding} (A this : DM T) (M : Z -> Z -> T).
Context (Hg : GridWf (DGrid A)) (HcA : DColDist A = VC) (HrA : DRowDist A = STAR).
Context (Hca : 0 <= DColAlign A < GSize (DGrid A)).
Context (Hm : 0 <= DHeight A) (Hn : 0 <= DWidth A) (HA : holds A M).
Context (Hgt : DGrid this = DGrid A) (Hct : DColDist this = MC) (Hrt : DRowDist this = MR).
Context (Hca' : 0 <= DColAlign this < GHeight (DGrid A)).
Context (Hra' : 0 <= DRowAlign this < GWidth (DGrid A)).

Let t := AlignColsAndResize (DColAlign A `rem` GHeight (DGrid this)) (DHeight A) (DWidth A) this.

(** The target after [AlignColsAndResize]. *)
Lemma vc_target_meta :
  DGrid t = DGrid A /\ DColDist t = MC /\ DRowDist t = MR /\
  DHeight t = DHeight A /\ DWidth t = DWidth A /\
  0 <= DColAlign t < GHeight (DGrid A) /\ DRowAlign t = DRowAlign this /\
  (DColAlign t = DColAlign this \/ DColAlign t = DColAlign A mod GHeight (DGrid A)) /\
  forall q, Participating t q = true /\
    LHeight (DLocal t q) = LocalHeight t q /\ LWidth (DLocal t q) = LocalWidth t q /\
    LHeight (DLocal t q) <= LDim (DLocal t q).
Proof.
  pose proof Hg as [Hr Hc].
  unfold t, AlignColsAndResize. rewrite Hgt.
  destruct (AlignAndResize_meta (DColAlign A `rem` GHeight (DGrid A)) (DRowAlign this)
              (DHeight A) (DWidth A) this) as (Htg & Htc & Htr & Hth & Htw & _ & _ & _ & Htca & Htra).
  assert (Ha' : DColAlign A `rem` GHeight (DGrid A) = DColAlign A mod GHeight (DGrid A))
    by (apply rem_mod; unfold GSize in Hca; lia).
  pose proof (Z.mod_pos_bound (DColAlign A) (GHeight (DGrid A)) Hr).
  rewrite Htg, Htc, Htr, Hth, Htw, Htca, Htra, Hgt, Hct, Hrt, Ha'. do 5 (split; [done |]).
  split; [destruct (DViewing this || DColConstrained this); lia |].
  split; [by destruct (DViewing this || DRowConstrained this) |].
  split; [destruct (DViewing this || DColConstrained this); [left | right]; done |].
  rewrite <- Ha'.
  intros q. assert (HP : Participating (AlignAndResize (DColAlign A `rem` GHeight (DGrid A))
    (DRowAlign this) (DHeight A) (DWidth A) this) q = true) by (unfold Participating; by rewrite Htc, Hct).
  split; [done |]. destruct (AlignAndResize_local _ _ _ _ this q HP) as (? & ? & ? & _). done.
Qed.

(** The local matrix of [A] on process [q]: its rows of VC shift
    [Shift q a p], all columns. *)
Lemma vc_A_local q :
  0 <= q < GSize (DGrid A) ->
  LHeight (DLocal A q) = Length (DHeight A) (Shift q (DColAlign A) (GSize (DGrid A))) (GSize (DGrid A)) /\
  LWidth (DLocal A q) = DWidth A /\
  forall i j, 0 <= i < LHeight (DLocal A q) -> 0 <= j < DWidth A ->
    LBuf (DLocal A q) (i + j * LDim (DLocal A q)) =
    M (Shift q (DColAlign A) (GSize (DGrid A)) + i * GSize (DGrid A)) j.
Proof.
  intros Hq. destruct (HA q Hq) as (Hh & Hw & _ & He); [unfold Participating; by rewrite HcA |].
  unfold LocalHeight, LocalWidth, ColShift, RowShift, ColRank, RowRank, ColStride, RowStride in *.
  rewrite HcA, HrA in *. cbn [DistStride DistRank default id] in *.
  assert (Hs1 : Shift 0 (DRowAlign A) 1 = 0) by (unfold Shift; apply Z.rem_1_r).
  assert (Hl1 : Length (DWidth A) 0 1 = DWidth A) by (unfold Length; rewrite Z.div_1_r; lia).
  rewrite Hs1 in Hw, He. rewrite Hl1 in Hw.
  split; [done | split; [lia |]]. intros i j Hi Hj.
  specialize (He i j ltac:(lia) ltac:(lia)). unfold Entry in He. rewrite He. f_equal; lia.
Qed.

(** The exchange-independent part of the proof: if block [k] of [q]'s
    receive buffer is block [GCol q] of the pack of process
    [VCOf (rowOf q) k], and [rowOf q] is a process row whose VC shifts
    reduce to [q]'s [MC] shift, the unpack leaves [q] its share of [M]. *)
Section Finish.
Context (W : World T) (base pbase : Z) (rowOf : Z -> Z) (Buf : Z -> mem T) (aux : Z -> Aux T).
Let g := DGrid this.
Let portion := Pad (MaxLength (DHeight t) (GHeight g * GWidth g) * MaxLength (DWidth t) (GWidth g)).
Context (HrowOf : forall q, 0 <= q < GSize (DGrid A) -> 0 <= rowOf q < GHeight (DGrid A) /\
  (rowOf q - DColAlign A) mod GHeight (DGrid A) = ColShift t q).
Context (HW : forall q k off, 0 <= q < GSize (DGrid A) -> 0 <= k < GWidth (DGrid A) -> 0 <= off < portion ->
  W q (base + k * portion + off) =
  VCPack (DWidth t) (GWidth g) (DRowAlign t) portion pbase (DLocal A (VCOf g (rowOf q) k))
    (Buf (VCOf g (rowOf q) k)) (pbase + GCol g q * portion + off)).

Lemma vc_recv_value q k iLoc jLoc :
  0 <= q < GSize (DGrid A) -> 0 <= k < GWidth (DGrid A) ->
  let s := Shift (rowOf q + k * GHeight (DGrid A)) (DColAlign A) (GHeight (DGrid A) * GWidth (DGrid A)) in
  0 <= iLoc < Length (DHeight t) s (GHeight (DGrid A) * GWidth (DGrid A)) ->
  0 <= jLoc < LocalWidth t q ->
  W q (base + k * portion + iLoc * 1 + jLoc * Length (DHeight t) s (GHeight (DGrid A) * GWidth (DGrid A))) =
  M (s + iLoc * (GHeight (DGrid A) * GWidth (DGrid A))) (RowShift t q + jLoc * GWidth (DGrid A)).
Proof.
  intros Hq Hk s Hi Hj. pose proof Hg as [Hr Hc].
  destruct vc_target_meta as (Htg & Htc & Htr & Hth & Htw & _ & Hta & _ & _).
  destruct (HrowOf q Hq) as [Hrow _].
  set (sender := VCOf (DGrid A) (rowOf q) k).
  assert (Hsq : 0 <= sender < GSize (DGrid A)) by (apply (VCOf_range (DGrid A)); lia).
  destruct (vc_A_local sender Hsq) as (HLh & HLw & HLe).
  assert (Es : Shift sender (DColAlign A) (GSize (DGrid A)) = s) by done.
  rewrite Es in HLh, HLe. unfold GSize in HLh, HLe. rewrite Hth in Hi |- *. rewrite <- HLh in Hi |- *.
  unfold LocalWidth, RowShift, RowStride, RowRank in Hj |- *. rewrite ?Htg, ?Htr, ?Htw in Hj |- *.
  cbn [DistStride DistRank default id] in Hj |- *. rewrite ?Hta in Hj |- *.
  pose proof (GCol_range _ q Hq).
  pose proof (Shift_range _ Hc (GCol (DGrid A) q) (DRowAlign this) ltac:(lia) ltac:(lia)).
  assert (Hfit : forall k', 0 <= k' < GWidth (DGrid A) ->
    LHeight (DLocal A sender) * Length (DWidth A) (Shift k' (DRowAlign this) (GWidth (DGrid A))) (GWidth (DGrid A))
      <= portion).
  { intros k' Hk'. subst portion g. rewrite Hgt, Hth, Htw, HLh.
    pose proof (Shift_range _ Hc k' (DRowAlign this) ltac:(lia) ltac:(lia)).
    pose proof (Shift_range (GSize (DGrid A)) (@GSize_pos (DGrid A) Hg) (rowOf q + k * GHeight (DGrid A))
      (DColAlign A) ltac:(lia) ltac:(lia)).
    pose proof (Length_le_MaxLength _ (@GSize_pos (DGrid A) Hg) (DHeight A) s ltac:(done)).
    pose proof (Length_le_MaxLength _ Hc (DWidth A) _ ltac:(eassumption)).
    pose proof (Length_nonneg (GSize (DGrid A)) (DHeight A) s).
    pose proof (Length_nonneg (GWidth (DGrid A)) (DWidth A) (Shift k' (DRowAlign this) (GWidth (DGrid A)))).
    eapply Z.le_trans; [| apply Pad_ge]. unfold GSize in *. nia. }
  pose proof (Hfit _ ltac:(apply (GCol_range _ q Hq))).
  rewrite Htw in Hj. rewrite <- (Z.add_assoc (base + k * portion)).
  pose proof HW as HW'. subst g. rewrite Hgt in HW'.
  rewrite HW' by (try done; nia).
  replace (pbase + GCol (DGrid A) q * portion + (iLoc * 1 + jLoc * LHeight (DLocal A sender)))
    with (pbase + GCol (DGrid A) q * portion + jLoc * LHeight (DLocal A sender) + iLoc) by lia.
  rewrite ?Hgt, Htw.
  rewrite Hta, vc_pack_value by first [exact Hfit | lia | apply (GCol_range _ q Hq)].
  pose proof (proj1 (local_global _ Hc (DWidth A) _ jLoc H1 ltac:(lia)) ltac:(lia)).
  rewrite HLe by nia. unfold GSize. f_equal.
Qed.

Lemma vc_finish_holds : holds (VCFinish A t portion base rowOf aux W) M.
Proof.
  pose proof Hg as [Hr Hc].
  destruct vc_target_meta as (Htg & Htc & Htr & Hth & Htw & Hta1 & Hta & _ & Hloc).
  apply holds_with_local. intros q Hq HP. rewrite Htg in Hq.
  destruct (Hloc q) as (_ & Hlh & Hlw & Hld). rewrite HP. cbn [LHeight LWidth LDim LBuf].
  do 3 (split; [done |]). intros l j Hl Hj. unfold Entry. cbn [LBuf LDim].
  destruct (HrowOf q Hq) as [Hrow Hcs].
  assert (Hcs' : 0 <= ColShift t q < GHeight (DGrid A)).
  { unfold ColShift, ColRank, ColStride. rewrite Htg, Htc. cbn [DistStride DistRank default id].
    apply Shift_range; [lia | pose proof (GRow_range (DGrid A) q); lia | lia]. }
  unfold LocalHeight, ColStride, RowStride in Hlh, Hl |- *. rewrite Htg, Htc, Htr, Hth in *.
  cbn [DistStride] in *. rewrite Hlh in Hl, Hld. rewrite Hlw in Hj |- *.
  unfold GSize in Hca.
  apply (vc_unpack_value (GHeight (DGrid A)) (GWidth (DGrid A)) (DHeight A) (DColAlign A) (ColShift t q)
           (rowOf q) (LocalWidth t q) portion base (LDim (DLocal t q)) (W q)
           (fun i j => M i (RowShift t q + j * GWidth (DGrid A)))); try done.
  intros k iLoc jLoc Hk. rewrite <- Hth. by apply vc_recv_value.
Qed.
End Finish.

(** The rows of the unaligned trade: [recvRow] is a process row whose
    VC shifts reduce to this process's [MC] shift, and it sends back to
    this process's row. *)
Lemma vc_recvRow q :
  0 <= q < GSize (DGrid A) ->
  let r := GHeight (DGrid A) in
  let rr := (GRow (DGrid A) q + r + DColAlign A `rem` r - DColAlign t) `rem` r in
  0 <= rr < r /\ (rr - DColAlign A) mod r = ColShift t q /\
  (rr + r + DColAlign t - DColAlign A `rem` r) `rem` r = GRow (DGrid A) q.
Proof.
  intros Hq r rr. pose proof Hg as [Hr Hc]. pose proof (GRow_range (DGrid A) q).
  destruct vc_target_meta as (Htg & Htc & _ & _ & _ & Hta1 & _).
  assert (Ha' : DColAlign A `rem` r = DColAlign A mod r) by (apply rem_mod; unfold GSize in Hca; lia).
  pose proof (Z.mod_pos_bound (DColAlign A) r Hr).
  destruct (realign_partner r Hr (GRow (DGrid A) q) (DColAlign t) (DColAlign A `rem` r))
    as (Hk & Hsh & Hback); [lia | lia | lia |].
  replace ((GRow (DGrid A) q + r - (DColAlign t - DColAlign A `rem` r)) `rem` r) with rr in *
    by (subst rr; f_equal; lia).
  split; [done | split].
  - unfold ColShift, ColRank, ColStride. rewrite Htg, Htc. cbn [DistStride DistRank default id].
    change (GHeight (DGrid A)) with r.
    rewrite <- Hsh, Shift_mod by lia. rewrite Ha', Zminus_mod_idemp_r. done.
  - rewrite <- Hback. f_equal. lia.
Qed.

(** The refinement proof of [AssignFromVCStar]; the claim below restates it for
    the routes of [McMrRoute] to build on. *)
Lemma AssignFromVCStar_correct :
  exists B, AssignFromVCStar A this = Some B /\ holds B M /\
    DHeight B = DHeight A /\ DWidth B = DWidth A.
Proof.
  pose proof Hg as [Hr Hc].
  destruct vc_target_meta as (Htg & Htc & Htr & Hth & Htw & Hta1 & Hta & _ & Hloc).
  unfold AssignFromVCStar. fold t. cbv zeta.
  case_decide as Hal; rewrite Hgt in Hal.
  - eexists. split; [reflexivity |]. split; [| split; [apply Hth | apply Htw]].
    eapply (vc_finish_holds _ _ 0 _ (fun q => AuxMem (Require _ (DAux t q)))).
    + intros q Hq. rewrite Hgt. split; [apply (@GRow_range (DGrid A) Hg) |].
      unfold ColShift, ColRank, ColStride. rewrite Htg, Htc. cbn [DistStride DistRank default id].
      pose proof (GRow_range (DGrid A) q).
      rewrite Hal, Shift_mod, rem_mod by (unfold GSize in Hca; try apply Z.mod_pos_bound; lia).
      by rewrite Zminus_mod_idemp_r.
    + intros q k off Hq Hk Hoff. rewrite AllToAll_recv_at by first [reflexivity | apply Pad_pos | lia | cbn [CSize RowComm]; rewrite ?Hgt; lia].
      cbn [CMember CRank RowComm]. f_equal.
  - destruct (SendRecv _ _ _ _ _ _ _ _ _) as [W1|] eqn:HS.
    + eexists. split; [reflexivity |]. split; [| split; [apply Hth | apply Htw]].
      eapply (vc_finish_holds _ _ (GWidth (DGrid this) * Pad (MaxLength (DHeight t)
        (GHeight (DGrid this) * GWidth (DGrid this)) * MaxLength (DWidth t) (GWidth (DGrid this))))
        _ (fun q => AuxMem (Require _ (DAux t q)))).
      * intros q Hq. rewrite Hgt. by destruct (vc_recvRow q Hq) as (? & ? & _).
      * intros q k off Hq Hk Hoff. rewrite AllToAll_recv_at by first [reflexivity | apply Pad_pos | lia | cbn [CSize RowComm]; rewrite ?Hgt; lia].
        cbn [CMember CRank RowComm]. rewrite <- (Z.add_assoc 0).
        assert (Hg' : GridWf (DGrid this)) by (rewrite Hgt; exact Hg).
        pose proof (@GCol_range _ Hg' q ltac:(by rewrite Hgt)).
        pose proof (Pad_pos (MaxLength (DHeight t) (GHeight (DGrid this) * GWidth (DGrid this)) *
                             MaxLength (DWidth t) (GWidth (DGrid this)))).
        rewrite (SendRecv_recv_at _ _ _ _ _ _ _ _ _ _ _ _ _ HS) by (try reflexivity; cbv beta; nia).
        unfold partner. cbn [CMember ColComm].
        destruct (@coords_VCOf _ Hg' (GRow (DGrid this) q) k) as [-> ->]; [apply (@GRow_range _ Hg') |].
        cbv beta. f_equal. lia.
    + exfalso. unfold SendRecv in HS. rewrite Hgt in HS.
      rewrite (proj2 (sendrecv_ok_spec (GSize (DGrid A)) (ColComm (DGrid A)) _ _ _ _)) in HS;
        [discriminate |].
      intros q Hq. unfold partner. cbn [CMember ColComm].
      destruct (vc_recvRow q Hq) as (Hrr & _ & Hback).
      destruct (@coords_VCOf (DGrid A) Hg _ (GCol (DGrid A) q) Hrr) as [-> ->].
      split; [| lia]. rewrite Hback. apply (@VCOf_coords _ Hg).
Qed.

(** [C6] [[MC,MR] = [VC,*]] preserves the matrix: on the aligned path
    (one [AllToAll] over the row communicator) and on the unaligned path
    (a [SendRecv] within the mesh column first) the exchanges complete,
    and every process ends with its [[MC,MR]] share of [M] under the
    alignments the target ends with. *)
Theorem AssignFromVCStar_holds :
  exists B, AssignFromVCStar A this = Some B /\ holds B M /\
    DHeight B = DHeight A /\ DWidth B = DWidth A.
Proof. exact AssignFromVCStar_correct. Qed.
End VCRefines.

(** The 4 x 4 matrix as [[VC,*]] on the 2 x 2 mesh, assigned to an
    [[MC,MR]] matrix constrained to column alignment 1: the unaligned
    path ([SendRecv] within the mesh column, then [AllToAll]). *)
Lemma AssignFromVCStar_holds_witness :
  exists B, AssignFromVCStar (FromGlobal grid22 VC STAR 0 0 0 4 4 Mat44)
              (AlignCols 1 (FromGlobal grid22 MC MR 0 0 0 0 0 Mat44)) = Some B /\
            holds B Mat44 /\ DHeight B = 4 /\ DWidth B = 4.
Proof.
  apply (AssignFromVCStar_holds (FromGlobal grid22 VC STAR 0 0 0 4 4 Mat44)
           (AlignCols 1 (FromGlobal grid22 MC MR 0 0 0 0 0 Mat44)) Mat44);
    try solve_meta; try reflexivity.
  apply holds_FromGlobal.
Defined.

(** On that run process 1 (mesh row 1, column 0) holds rows 0 and 2 (its
    [MC] shift under alignment 1) and columns 0 and 2. *)
Example AssignFromVCStar_unaligned_run :
  match AssignFromVCStar (FromGlobal grid22 VC STAR 0 0 0 4 4 Mat44)
          (AlignCols 1 (FromGlobal grid22 MC MR 0 0 0 0 0 Mat44)) with
  | Some B => let L := DLocal B 1 in
      (LHeight L, LWidth L, Entry L 0 0, Entry L 1 0, Entry L 0 1, Entry L 1 1) = (2, 2, 0, 8, 2, 10)
  | None => False
  end.
Proof. vm_compute. reflexivity. Qed.
