(* ===== verification/McMrVR.v ===== *)
(** * McMrVR: [[MC,MR] = [*,VR]] ([src/core/dist_matrix/mc_mr.cpp], lines 660-820)

    The transpose of [McMrVC]: a [[*,VR]] matrix gives process [q] all
    rows and the columns of VR shift [VRRank q].  Each process packs, for
    every mesh row [k], the rows of its columns that row [k] owns under
    [[MC,MR]] ([VRPack], an element-wise strided gather); an [AllToAll]
    over the column communicator hands every process the blocks of the
    [r] processes of its mesh column, whose columns it copies into its
    local columns with stride [r] ([VRUnpack]).  When the [MR] alignment
    cannot follow [A]'s, the packed buffer is first traded within the
    mesh row by a [SendRecv] ([sendCol], [recvCol]). *)

From stdpp Require Import base decidable numbers list.
From Stdlib Require Import ZArith Lia.
From S2P Require Import Prelude Indexing Grid Mpi Scratch DistMatrix McMrVC.

Open Scope Z_scope.

Section FromVR.
Context {T : Type} `{Padding}.

(** The pack loop (lines 698-715 and 771-788): block [k] of the buffer
    at [base] holds, column-major with leading dimension
    [thisLocalHeight], the rows of [A]'s local columns that mesh row [k]
    owns. *)
Definition VRPack (height r colAlign portionSize base : Z) (LA : Local T) (buf : mem T) : mem T :=
  for_ 0 r (fun k b =>
    let thisColShift := Shift k colAlign r in
    let thisLocalHeight := Length height thisColShift r in
    StridedCopy b (base + k * portionSize) 1 thisLocalHeight
      (LBuf LA) thisColShift r (LDim LA) thisLocalHeight (LWidth LA)) buf.

(** The unpack loop (lines 721-737 and 800-816): block [k] came from the
    process of VR rank [thisRank = col + k*c]; its local column [jLoc] is
    this process's local column [thisRowOffset + jLoc*r]. *)
Definition VRUnpack (width r c rowShift rowAlignA localHeight portionSize : Z) (col : Z)
    (recvBuf : mem T) (base : Z) (thisLDim : Z) (thisBuffer : mem T) : mem T :=
  let p := r * c in
  for_ 0 r (fun k b =>
    let thisRank := col + k * c in
    let thisRowShift := Shift thisRank rowAlignA p in
    let thisRowOffset := (thisRowShift - rowShift) ÷ c in
    let thisLocalWidth := Length width thisRowShift p in
    for_ 0 thisLocalWidth (fun jLoc m =>
      MemCopy m ((thisRowOffset + jLoc * r) * thisLDim)
        recvBuf (base + k * portionSize + jLoc * localHeight) localHeight) b) thisBuffer.

(** The unpack of every process and the release of its scratch (lines
    719-738 and 798-817): [colOf q]
    is the process column whose blocks [q] received ([col] when aligned,
    [recvCol] otherwise). *)
Definition VRFinish (A t : DM T) (portionSize recvBase : Z) (colOf : Z -> Z)
    (aux : Z -> Aux T) (W : World T) : DM T :=
  let g := DGrid t in
  with_local
    (fun q => let L := DLocal t q in
       if Participating t q then
         mkLocal (LHeight L) (LWidth L) (LDim L)
           (VRUnpack (DWidth t) (GHeight g) (GWidth g) (RowShift t q) (DRowAlign A) (LHeight L)
              portionSize (colOf q) (W q) recvBase (LDim L) (LBuf L))
       else L)
    (fun q => if Participating t q then Release (SetAuxMem (W q) (aux q)) else DAux t q) t.

(** [DistMatrix<T,MC,MR>::operator=( const DistMatrix<T,STAR,VR>& A )]:
    [None] when the unaligned trade cannot complete. *)
Definition AssignFromStarVR (A this : DM T) : option (DM T) :=
  let g := DGrid this in
  let t := AlignRowsAndResize (DRowAlign A `rem` GWidth g) (DHeight A) (DWidth A) this in
  let r := GHeight g in
  let c := GWidth g in
  let p := r * c in
  let colAlign := DColAlign t in
  let rowAlign := DRowAlign t in
  let rowAlignA := DRowAlign A in
  let height := DHeight t in
  let width := DWidth t in
  let maxHeight := MaxLength height r in
  let maxWidth := MaxLength width p in
  let portionSize := Pad (maxHeight * maxWidth) in
  let aux q := Require (2 * r * portionSize) (DAux t q) in
  if decide (rowAlign = rowAlignA `rem` c) then
    (* sendBuf = buffer[0..r*portionSize), recvBuf = buffer[r*portionSize..) *)
    let W0 q := VRPack height r colAlign portionSize 0 (DLocal A q) (AuxMem (aux q)) in
    let W1 := AllToAll (ColComm g) W0 (fun _ => 0) portionSize (fun _ => r * portionSize) in
    Some (VRFinish A t portionSize (r * portionSize) (GCol g) aux W1)
  else
    let sendCol q := (GCol g q + c + rowAlign - rowAlignA `rem` c) `rem` c in
    let recvCol q := (GCol g q + c + rowAlignA `rem` c - rowAlign) `rem` c in
    (* firstBuf = buffer[0..r*portionSize), secondBuf = buffer[r*portionSize..) *)
    let W0 q := VRPack height r colAlign portionSize (r * portionSize) (DLocal A q) (AuxMem (aux q)) in
    match SendRecv (GSize g) (RowComm g) W0 (fun _ => r * portionSize) (fun _ => r * portionSize)
            sendCol (fun _ => 0) (fun _ => r * portionSize) recvCol with
    | None => None
    | Some W1 =>
        let W2 := AllToAll (ColComm g) W1 (fun _ => 0) portionSize (fun _ => r * portionSize) in
        Some (VRFinish A t portionSize (r * portionSize) recvCol aux W2)
    end.
End FromVR.

Section VRPackFacts.
Context {T : Type} (r height colAlign portion base : Z) (LA : Local T).
Context (Hr : 0 < r) (Hca : 0 <= colAlign < r).
Context (Hfit : forall k, 0 <= k < r ->
  Length height (Shift k colAlign r) r * LWidth LA <= portion).

(** The value the pack leaves at an address of block [k]. *)
Definition vr_val (x : Z) : T :=
  let k := (x - base) / portion in
  let off := (x - base) mod portion in
  let h := Length height (Shift k colAlign r) r in
  LBuf LA (Shift k colAlign r + (off mod h) * r + (off / h) * LDim LA).

(** Block [k] holds the rows of shift [Shift k colAlign r] of [A]'s
    local columns, column-major with leading dimension [thisLocalHeight]. *)
Lemma vr_pack_value buf k iLoc jLoc :
  0 <= k < r -> 0 <= iLoc < Length height (Shift k colAlign r) r -> 0 <= jLoc < LWidth LA ->
  VRPack height r colAlign portion base LA buf
    (base + k * portion + jLoc * Length height (Shift k colAlign r) r + iLoc) =
  LBuf LA (Shift k colAlign r + iLoc * r + jLoc * LDim LA).
Proof.
  intros Hk Hi Hj.
  assert (Hw : writes (VRPack height r colAlign portion base LA)
    (fun x => exists k, 0 <= k < r /\ exists i j,
       0 <= i < Length height (Shift k colAlign r) r /\ 0 <= j < LWidth LA /\
       x = base + k * portion + i * 1 + j * Length height (Shift k colAlign r) r) vr_val).
  { apply writes_for. intros k' Hk'. apply writes_StridedCopy. intros i j Hi' Hj'.
    unfold vr_val.
    replace (base + k' * portion + i * 1 + j * Length height (Shift k' colAlign r) r)
      with (base + k' * portion + j * Length height (Shift k' colAlign r) r + i) by lia.
    destruct (block_offset portion base k' _ _ i j Hi' Hj' (Hfit k' Hk')) as (-> & -> & -> & ->).
    done. }
  destruct (Hw buf (base + k * portion + jLoc * Length height (Shift k colAlign r) r + iLoc)) as [Hv _].
  rewrite Hv by (exists k; split; [done |]; exists iLoc, jLoc; repeat split; lia).
  unfold vr_val. destruct (block_offset portion base k _ _ iLoc jLoc Hi Hj (Hfit k Hk)) as (-> & -> & -> & ->).
  done.
Qed.
End VRPackFacts.

Section VRUnpackFacts.
Context (r c rowAlignA rowShift col : Z).
Context (Hr : 0 < r) (Hc : 0 < c) (Ha : 0 <= rowAlignA < r * c) (Hcol : 0 <= col < c).
Context (Hcs : (col - rowAlignA) mod c = rowShift).

(** [McMrVC]'s sender and owner arithmetic with the mesh transposed:
    the sender of block [k] has a VR shift that this process's [MR]
    shift divides out of, and [thisRowOffset] is its local column offset. *)
Lemma vr_sender k :
  0 <= k < r ->
  let s := Shift (col + k * c) rowAlignA (r * c) in
  0 <= s < r * c /\ (s - rowShift) ÷ c = s / c /\ 0 <= s / c < r /\ rowShift + (s / c) * c = s.
Proof.
  intros Hk. pose proof (vc_sender c r rowAlignA rowShift col Hc ltac:(lia) Hcol Hcs k Hk) as Hs.
  by rewrite (Z.mul_comm c r) in Hs.
Qed.

Lemma vr_owner l :
  0 <= rowShift < c -> 0 <= l ->
  let G := rowShift + l * c in
  let v := (G + rowAlignA) mod (r * c) in
  0 <= v / c < r /\ col + (v / c) * c = v /\ Shift v rowAlignA (r * c) = G mod (r * c) /\
  (G mod (r * c)) / c + (G / (r * c)) * r = l.
Proof.
  intros Hrs Hl. pose proof (vc_owner c r rowAlignA rowShift col Hc Hr ltac:(lia) Hcol Hcs l Hrs Hl) as Ho.
  by rewrite (Z.mul_comm c r) in Ho.
Qed.
End VRUnpackFacts.

Section VRUnpackValue.
Context {T : Type} (r c width rowAlignA rowShift col localHeight portion base ldim : Z).
Context (recv : mem T) (f : Z -> Z -> T).
Context (Hr : 0 < r) (Hc : 0 < c) (Ha : 0 <= rowAlignA < r * c) (Hcol : 0 <= col < c).
Context (Hcs : (col - rowAlignA) mod c = rowShift) (Hcs' : 0 <= rowShift < c).
Context (Hld : localHeight <= ldim).
Context (Hrecv : forall k iLoc jLoc, 0 <= k < r ->
  let s := Shift (col + k * c) rowAlignA (r * c) in
  0 <= jLoc < Length width s (r * c) -> 0 <= iLoc < localHeight ->
  recv (base + k * portion + jLoc * localHeight + iLoc) = f iLoc (s + jLoc * (r * c))).

(** The unpack fills every local column of this process, each with the
    column of the global index it stands for. *)
Lemma vr_unpack_value buf l j :
  0 <= l < localHeight -> 0 <= j < Length width rowShift c ->
  VRUnpack width r c rowShift rowAlignA localHeight portion col recv base ldim buf (l + j * ldim) =
    f l (rowShift + j * c).
Proof.
  intros Hl Hj.
  set (gv := fun x => f (x mod ldim) (rowShift + (x / ldim) * c)).
  assert (Hw : writes (VRUnpack width r c rowShift rowAlignA localHeight portion col recv base ldim)
    (fun x => exists k, 0 <= k < r /\ exists j,
       0 <= j < Length width (Shift (col + k * c) rowAlignA (r * c)) (r * c) /\
       ((Shift (col + k * c) rowAlignA (r * c) - rowShift) ÷ c + j * r) * ldim <= x <
       ((Shift (col + k * c) rowAlignA (r * c) - rowShift) ÷ c + j * r) * ldim + localHeight) gv).
  { apply writes_for. intros k Hk. apply writes_for. intros j' Hj'. apply writes_MemCopy.
    intros i Hi. rewrite (Hrecv k i j' Hk Hj' Hi).
    destruct (vr_sender r c rowAlignA rowShift col Hc Ha Hcol Hcs k Hk) as (Hs & -> & Hsc & Hsum).
    set (s := Shift (col + k * c) rowAlignA (r * c)) in *. unfold gv. clearbody s gv.
    set (o := s / c) in *.
    rewrite Z.add_comm, Z.mod_add, Z.div_add, Z.mod_small, Z.div_small by lia.
    f_equal. rewrite <- Hsum. ring. }
  destruct (vr_owner r c rowAlignA rowShift col Hr Hc Ha Hcol Hcs j Hcs' ltac:(lia))
    as (Hk & Hv & Hsh & Hoff).
  set (G := rowShift + j * c) in *. set (v := (G + rowAlignA) mod (r * c)) in *.
  assert (HG : 0 <= G < width)
    by (split; [lia |]; apply (proj1 (local_global c Hc width rowShift j Hcs' ltac:(lia))); lia).
  destruct (global_local (r * c) ltac:(nia) width (G mod (r * c)) G HG eq_refl) as [Hi HGi].
  destruct (Hw buf (l + j * ldim)) as [Hv' _]. rewrite Hv'.
  - unfold gv. rewrite Z.mod_add, Z.div_add, Z.mod_small, Z.div_small by lia. done.
  - exists (v / c). split; [done |]. exists (G / (r * c)). rewrite Hv, Hsh. split; [done |].
    destruct (vr_sender r c rowAlignA rowShift col Hc Ha Hcol Hcs (v / c) Hk) as (_ & Eq & _).
    rewrite Hv, Hsh in Eq. rewrite Eq, Hoff. lia.
Qed.
End VRUnpackValue.

Section VRRefines.
Context {T : Type} `{Padding} (A this : DM T) (M : Z -> Z -> T).
Context (Hg : GridWf (DGrid A)) (HcA : DColDist A = STAR) (HrA : DRowDist A = VR).
Context (Hra : 0 <= DRowAlign A < GSize (DGrid A)).
Context (Hm : 0 <= DHeight A) (Hn : 0 <= DWidth A) (HA : holds A M).
Context (Hgt : DGrid this = DGrid A) (Hct : DColDist this = MC) (Hrt : DRowDist this = MR).
Context (Hca' : 0 <= DColAlign this < GHeight (DGrid A)).
Context (Hra' : 0 <= DRowAlign this < GWidth (DGrid A)).

Let t := AlignRowsAndResize (DRowAlign A `rem` GWidth (DGrid this)) (DHeight A) (DWidth A) this.

(** The target after [AlignRowsAndResize]. *)
Lemma vr_target_meta :
  DGrid t = DGrid A /\ DColDist t = MC /\ DRowDist t = MR /\
  DHeight t = DHeight A /\ DWidth t = DWidth A /\
  0 <= DRowAlign t < GWidth (DGrid A) /\ DColAlign t = DColAlign this /\
  (DRowAlign t = DRowAlign this \/ DRowAlign t = DRowAlign A mod GWidth (DGrid A)) /\
  forall q, Participating t q = true /\
    LHeight (DLocal t q) = LocalHeight t q /\ LWidth (DLocal t q) = LocalWidth t q /\
    LHeight (DLocal t q) <= LDim (DLocal t q).
Proof.
  pose proof Hg as [Hr Hc].
  unfold t, AlignRowsAndResize. rewrite Hgt.
  destruct (AlignAndResize_meta (DColAlign this) (DRowAlign A `rem` GWidth (DGrid A))
              (DHeight A) (DWidth A) this) as (Htg & Htc & Htr & Hth & Htw & _ & _ & _ & Htca & Htra).
  assert (Ha' : DRowAlign A `rem` GWidth (DGrid A) = DRowAlign A mod GWidth (DGrid A))
    by (apply rem_mod; unfold GSize in Hra; lia).
  pose proof (Z.mod_pos_bound (DRowAlign A) (GWidth (DGrid A)) Hc).
  rewrite Htg, Htc, Htr, Hth, Htw, Htca, Htra, Hgt, Hct, Hrt, Ha'. do 5 (split; [done |]).
  split; [destruct (DViewing this || DRowConstrained this); lia |].
  split; [by destruct (DViewing this || DColConstrained this) |].
  split; [destruct (DViewing this || DRowConstrained this); [left | right]; done |].
  rewrite <- Ha'.
  intros q. assert (HP : Participating (AlignAndResize (DColAlign this)
    (DRowAlign A `rem` GWidth (DGrid A)) (DHeight A) (DWidth A) this) q = true)
    by (unfold Participating; by rewrite Htc, Hct).
  split; [done |]. destruct (AlignAndResize_local _ _ _ _ this q HP) as (? & ? & ? & _). done.
Qed.

(** The local matrix of [A] on process [q]: all rows, its columns of VR
    shift [Shift (VRRank q) a p]. *)
Lemma vr_A_local q :
  0 <= q < GSize (DGrid A) ->
  let s := Shift (VRRank (DGrid A) q) (DRowAlign A) (GSize (DGrid A)) in
  LHeight (DLocal A q) = DHeight A /\
  LWidth (DLocal A q) = Length (DWidth A) s (GSize (DGrid A)) /\
  forall i j, 0 <= i < DHeight A -> 0 <= j < LWidth (DLocal A q) ->
    LBuf (DLocal A q) (i + j * LDim (DLocal A q)) = M i (s + j * GSize (DGrid A)).
Proof.
  intros Hq s. destruct (HA q Hq) as (Hh & Hw & _ & He); [unfold Participating; by rewrite HcA |].
  unfold LocalHeight, LocalWidth, ColShift, RowShift, ColRank, RowRank, ColStride, RowStride in *.
  rewrite HcA, HrA in *. cbn [DistStride DistRank default id] in *.
  assert (Hs1 : Shift 0 (DColAlign A) 1 = 0) by (unfold Shift; apply Z.rem_1_r).
  assert (Hl1 : Length (DHeight A) 0 1 = DHeight A) by (unfold Length; rewrite Z.div_1_r; lia).
  rewrite Hs1 in Hh, He. rewrite Hl1 in Hh.
  split; [lia | split; [done |]]. intros i j Hi Hj.
  specialize (He i j ltac:(lia) ltac:(lia)). unfold Entry in He. rewrite He. f_equal; lia.
Qed.

(** The exchange-independent part of the proof: if block [k] of [q]'s
    receive buffer is block [GRow q] of the pack of process
    [VCOf k (colOf q)], and [colOf q] is a process column whose VR shifts
    reduce to [q]'s [MR] shift, the unpack leaves [q] its share of [M]. *)
Section Finish.
Context (W : World T) (base pbase : Z) (colOf : Z -> Z) (Buf : Z -> mem T) (aux : Z -> Aux T).
Let g := DGrid this.
Let portion := Pad (MaxLength (DHeight t) (GHeight g) * MaxLength (DWidth t) (GHeight g * GWidth g)).
Context (HcolOf : forall q, 0 <= q < GSize (DGrid A) -> 0 <= colOf q < GWidth (DGrid A) /\
  (colOf q - DRowAlign A) mod GWidth (DGrid A) = RowShift t q).
Context (HW : forall q k off, 0 <= q < GSize (DGrid A) -> 0 <= k < GHeight (DGrid A) -> 0 <= off < portion ->
  W q (base + k * portion + off) =
  VRPack (DHeight t) (GHeight g) (DColAlign t) portion pbase (DLocal A (VCOf g k (colOf q)))
    (Buf (VCOf g k (colOf q))) (pbase + GRow g q * portion + off)).

Lemma vr_recv_value q k iLoc jLoc :
  0 <= q < GSize (DGrid A) -> 0 <= k < GHeight (DGrid A) ->
  let s := Shift (colOf q + k * GWidth (DGrid A)) (DRowAlign A) (GHeight (DGrid A) * GWidth (DGrid A)) in
  0 <= jLoc < Length (DWidth t) s (GHeight (DGrid A) * GWidth (DGrid A)) ->
  0 <= iLoc < LocalHeight t q ->
  W q (base + k * portion + jLoc * LocalHeight t q + iLoc) =
  M (ColShift t q + iLoc * GHeight (DGrid A)) (s + jLoc * (GHeight (DGrid A) * GWidth (DGrid A))).
Proof.
  intros Hq Hk s Hj Hi. pose proof Hg as [Hr Hc].
  destruct vr_target_meta as (Htg & Htc & Htr & Hth & Htw & _ & Hta & _ & _).
  destruct (HcolOf q Hq) as [Hcol _].
  set (sender := VCOf (DGrid A) k (colOf q)).
  assert (Hsq : 0 <= sender < GSize (DGrid A)) by (apply (VCOf_range (DGrid A)); lia).
  destruct (vr_A_local sender Hsq) as (HLh & HLw & HLe).
  assert (Es : Shift (VRRank (DGrid A) sender) (DRowAlign A) (GSize (DGrid A)) = s).
  { unfold VRRank, sender. destruct (@coords_VCOf (DGrid A) Hg k (colOf q)) as [-> ->]; [lia |]. done. }
  rewrite Es in HLw, HLe. unfold GSize in HLw, HLe. rewrite Htw in Hj. rewrite <- HLw in Hj.
  unfold LocalHeight, ColShift, ColStride, ColRank in Hi |- *. rewrite ?Htg, ?Htc, ?Hth in Hi |- *.
  cbn [DistStride DistRank default id] in Hi |- *.
  pose proof (GRow_range (DGrid A) q).
  pose proof (Shift_range _ Hr (GRow (DGrid A) q) (DColAlign t) ltac:(lia) ltac:(lia)).
  assert (Hfit : forall k', 0 <= k' < GHeight (DGrid A) ->
    Length (DHeight A) (Shift k' (DColAlign t) (GHeight (DGrid A))) (GHeight (DGrid A)) *
      LWidth (DLocal A sender) <= portion).
  { intros k' Hk'. subst portion g. rewrite Hgt, Hth, Htw, HLw.
    pose proof (Shift_range _ Hr k' (DColAlign t) ltac:(lia) ltac:(lia)).
    pose proof (Shift_range (GSize (DGrid A)) (@GSize_pos (DGrid A) Hg) (colOf q + k * GWidth (DGrid A))
      (DRowAlign A) ltac:(nia) ltac:(lia)).
    pose proof (Length_le_MaxLength _ Hr (DHeight A) _ ltac:(eassumption)).
    pose proof (Length_le_MaxLength _ (@GSize_pos (DGrid A) Hg) (DWidth A) s ltac:(done)).
    pose proof (Length_nonneg (GSize (DGrid A)) (DWidth A) s).
    pose proof (Length_nonneg (GHeight (DGrid A)) (DHeight A) (Shift k' (DColAlign t) (GHeight (DGrid A)))).
    eapply Z.le_trans; [| apply Pad_ge]. unfold GSize in *. nia. }
  pose proof (Hfit _ ltac:(apply (GRow_range (DGrid A) q))) as Hf.
  rewrite <- (Z.add_assoc (base + k * portion)).
  pose proof HW as HW'. subst g. rewrite Hgt in HW'.
  rewrite HW' by (try done; pose proof (Length_nonneg (GHeight (DGrid A)) (DHeight A)
    (Shift (GRow (DGrid A) q) (DColAlign t) (GHeight (DGrid A)))); nia).
  fold sender. rewrite Z.add_assoc, Hth, vr_pack_value by first [exact Hfit | lia].
  pose proof (proj1 (local_global _ Hr (DHeight A) _ iLoc H1 ltac:(lia)) ltac:(lia)).
  rewrite HLe by lia. done.
Qed.

Lemma vr_finish_holds : holds (VRFinish A t portion base colOf aux W) M.
Proof.
  pose proof Hg as [Hr Hc].
  destruct vr_target_meta as (Htg & Htc & Htr & Hth & Htw & Hta1 & Hta & _ & Hloc).
  apply holds_with_local. intros q Hq HP. rewrite Htg in Hq.
  destruct (Hloc q) as (_ & Hlh & Hlw & Hld). rewrite HP. cbn [LHeight LWidth LDim LBuf].
  do 3 (split; [done |]). intros l j Hl Hj. unfold Entry. cbn [LBuf LDim].
  destruct (HcolOf q Hq) as [Hcol Hcs].
  assert (Hcs' : 0 <= RowShift t q < GWidth (DGrid A)).
  { unfold RowShift, RowRank, RowStride. rewrite Htg, Htr. cbn [DistStride DistRank default id].
    apply Shift_range; [lia | pose proof (GCol_range (DGrid A) q Hq); lia | lia]. }
  unfold LocalWidth, ColStride, RowStride in Hlw, Hj |- *. rewrite Htg, Htc, Htr, Htw in *.
  cbn [DistStride] in *. rewrite Hlw in Hj. rewrite Hlh in Hl, Hld |- *.
  unfold GSize in Hra.
  apply (vr_unpack_value (GHeight (DGrid A)) (GWidth (DGrid A)) (DWidth A) (DRowAlign A) (RowShift t q)
           (colOf q) (LocalHeight t q) portion base (LDim (DLocal t q)) (W q)
           (fun i J => M (ColShift t q + i * GHeight (DGrid A)) J)); try done.
  intros k iLoc jLoc Hk s Hj' Hi. rewrite <- Htw in Hj'. by apply vr_recv_value.
Qed.
End Finish.

(** The columns of the unaligned trade: [recvCol] is a process column
    whose VR shifts reduce to this process's [MR] shift, and it sends
    back to this process's column. *)
Lemma vr_recvCol q :
  0 <= q < GSize (DGrid A) ->
  let c := GWidth (DGrid A) in
  let rc := (GCol (DGrid A) q + c + DRowAlign A `rem` c - DRowAlign t) `rem` c in
  0 <= rc < c /\ (rc - DRowAlign A) mod c = RowShift t q /\
  (rc + c + DRowAlign t - DRowAlign A `rem` c) `rem` c = GCol (DGrid A) q.
Proof.
  intros Hq c rc. pose proof Hg as [Hr Hc]. pose proof (GCol_range (DGrid A) q Hq).
  destruct vr_target_meta as (Htg & _ & Htr & _ & _ & Hta1 & _).
  assert (Ha' : DRowAlign A `rem` c = DRowAlign A mod c) by (apply rem_mod; unfold GSize in Hra; lia).
  pose proof (Z.mod_pos_bound (DRowAlign A) c Hc).
  destruct (realign_partner c Hc (GCol (DGrid A) q) (DRowAlign t) (DRowAlign A `rem` c))
    as (Hk & Hsh & Hback); [lia | lia | lia |].
  replace ((GCol (DGrid A) q + c - (DRowAlign t - DRowAlign A `rem` c)) `rem` c) with rc in *
    by (subst rc; f_equal; lia).
  split; [done | split].
  - unfold RowShift, RowRank, RowStride. rewrite Htg, Htr. cbn [DistStride DistRank default id].
    change (GWidth (DGrid A)) with c.
    rewrite <- Hsh, Shift_mod by lia. rewrite Ha', Zminus_mod_idemp_r. done.
  - rewrite <- Hback. f_equal. lia.
Qed.

(** The refinement proof of [AssignFromStarVR]; the claim below restates it for
    the routes of [McMrRoute] to build on. *)
Lemma AssignFromStarVR_correct :
  exists B, AssignFromStarVR A this = Some B /\ holds B M /\
    DHeight B = DHeight A /\ DWidth B = DWidth A.
Proof.
  pose proof Hg as [Hr Hc].
  destruct vr_target_meta as (Htg & Htc & Htr & Hth & Htw & Hta1 & Hta & _ & Hloc).
  assert (Hg' : GridWf (DGrid this)) by (rewrite Hgt; exact Hg).
  unfold AssignFromStarVR. fold t. cbv zeta.
  case_decide as Hal; rewrite Hgt in Hal.
  - eexists. split; [reflexivity |]. split; [| split; [apply Hth | apply Htw]].
    eapply (vr_finish_holds _ _ 0 _ (fun q => AuxMem (Require _ (DAux t q)))).
    + intros q Hq. rewrite Hgt. split; [apply (@GCol_range (DGrid A) Hg q Hq) |].
      unfold RowShift, RowRank, RowStride. rewrite Htg, Htr. cbn [DistStride DistRank default id].
      pose proof (GCol_range (DGrid A) q Hq).
      rewrite Hal, Shift_mod, rem_mod by (unfold GSize in Hra; try apply Z.mod_pos_bound; lia).
      by rewrite Zminus_mod_idemp_r.
    + intros q k off Hq Hk Hoff. rewrite AllToAll_recv_at by first [reflexivity | apply Pad_pos | lia | cbn [CSize ColComm]; rewrite ?Hgt; lia].
      cbn [CMember CRank ColComm]. f_equal.
  - destruct (SendRecv _ _ _ _ _ _ _ _ _) as [W1|] eqn:HS.
    + eexists. split; [reflexivity |]. split; [| split; [apply Hth | apply Htw]].
      eapply (vr_finish_holds _ _ (GHeight (DGrid this) * Pad (MaxLength (DHeight t) (GHeight (DGrid this)) *
        MaxLength (DWidth t) (GHeight (DGrid this) * GWidth (DGrid this))))
        _ (fun q => AuxMem (Require _ (DAux t q)))).
      * intros q Hq. rewrite Hgt. by destruct (vr_recvCol q Hq) as (? & ? & _).
      * intros q k off Hq Hk Hoff. rewrite AllToAll_recv_at by first [reflexivity | apply Pad_pos | lia | cbn [CSize ColComm]; rewrite ?Hgt; lia].
        cbn [CMember CRank ColComm]. rewrite <- (Z.add_assoc 0).
        pose proof (@GRow_range _ Hg' q).
        pose proof (Pad_pos (MaxLength (DHeight t) (GHeight (DGrid this)) *
                             MaxLength (DWidth t) (GHeight (DGrid this) * GWidth (DGrid this)))).
        rewrite (SendRecv_recv_at _ _ _ _ _ _ _ _ _ _ _ _ _ HS) by (try reflexivity; cbv beta; nia).
        unfold partner. cbn [CMember RowComm].
        destruct (@coords_VCOf _ Hg' k (GCol (DGrid this) q)) as [-> ->]; [rewrite Hgt; lia |].
        cbv beta. f_equal. lia.
    + exfalso. unfold SendRecv in HS. rewrite Hgt in HS.
      rewrite (proj2 (sendrecv_ok_spec (GSize (DGrid A)) (RowComm (DGrid A)) _ _ _ _)) in HS;
        [discriminate |].
      intros q Hq. unfold partner. cbn [CMember RowComm].
      destruct (vr_recvCol q Hq) as (Hrc & _ & Hback).
      pose proof (fun j => @coords_VCOf (DGrid A) Hg (GRow (DGrid A) q) j (@GRow_range _ Hg q)) as Hco.
      rewrite (fun j => proj1 (Hco j)), (fun j => proj2 (Hco j)).
      split; [| lia]. rewrite Hback. apply (@VCOf_coords _ Hg).
Qed.

(** [C7] [[MC,MR] = [*,VR]] preserves the matrix: on the aligned path
    (one [AllToAll] over the column communicator) and on the unaligned
    path (a [SendRecv] within the mesh row first) the exchanges complete,
    and every process ends with its [[MC,MR]] share of [M] under the
    alignments the target ends with. *)
Theorem AssignFromStarVR_holds :
  exists B, AssignFromStarVR A this = Some B /\ holds B M /\
    DHeight B = DHeight A /\ DWidth B = DWidth A.
Proof. exact AssignFromStarVR_correct. Qed.
End VRRefines.

(** The 4 x 4 matrix as [[*,VR]] on the 2 x 2 mesh, assigned to an
    [[MC,MR]] matrix constrained to row alignment 1: the unaligned path
    ([SendRecv] within the mesh row, then [AllToAll]). *)
Lemma AssignFromStarVR_holds_witness :
  exists B, AssignFromStarVR (FromGlobal grid22 STAR VR 0 0 0 4 4 Mat44)
              (AlignRows 1 (FromGlobal grid22 MC MR 0 0 0 0 0 Mat44)) = Some B /\
            holds B Mat44 /\ DHeight B = 4 /\ DWidth B = 4.
Proof.
  apply (AssignFromStarVR_holds (FromGlobal grid22 STAR VR 0 0 0 4 4 Mat44)
           (AlignRows 1 (FromGlobal grid22 MC MR 0 0 0 0 0 Mat44)) Mat44);
    try solve_meta; try reflexivity.
  apply holds_FromGlobal.
Defined.

(** On that run process 2 (mesh row 0, column 1) holds rows 0 and 2 and
    the columns of [MR] shift 0 under alignment 1: columns 0 and 2. *)
Example AssignFromStarVR_unaligned_run :
  match AssignFromStarVR (FromGlobal grid22 STAR VR 0 0 0 4 4 Mat44)
          (AlignRows 1 (FromGlobal grid22 MC MR 0 0 0 0 0 Mat44)) with
  | Some B => let L := DLocal B 2 in
      (LHeight L, LWidth L, Entry L 0 0, Entry L 1 0, Entry L 0 1, Entry L 1 1) = (2, 2, 0, 8, 2, 10)
  | None => False
  end.
Proof. vm_compute. reflexivity. Qed.
