(* ===== verification/McMrRoute.v ===== *)
(** * McMrRoute: the [[MC,MR]] assignments that delegate ([src/core/dist_matrix/mc_mr.cpp])

    The operators of [DistMatrix<T,MC,MR>] that have no protocol of their
    own (specification section 4.3, protocols 2 and 6): the axis filters
    from [[MC,*]], [[*,MR]] and [[*,*]] (lines 191-206 and 822-828), the
    round trip through [[*,*]] from [[MD,*]] and [[*,MD]] (lines 209-229),
    and the staged conversions through the linearized distributions
    (lines 442-472 and 636-658), which end in the operators of [McMrVC]
    and [McMrVR].  The conversions they delegate to are the interface
    [Redistribute] of [Redist]; the theorems hold for every
    implementation that meets [RedistributeLaws]. *)

From stdpp Require Import base decidable numbers list.
From Stdlib Require Import ZArith Lia.
From S2P Require Import Prelude Indexing Grid Mpi Scratch DistMatrix Align Global Redist McMrVC McMrVR.

Open Scope Z_scope.

Section Routes.
Context {T : Type} `{Padding} `{Redistribute T}.
Implicit Types A this : DM T.

(** [[MC,MR] = [MC,*]] (lines 191-197). *)
Definition AssignFromMCStar A this : DM T := RowFilterFrom A this.

(** [[MC,MR] = [*,MR]] (lines 200-206). *)
Definition AssignFromStarMR A this : DM T := ColFilterFrom A this.

(** [[MC,MR] = [*,*]] (lines 822-828). *)
Definition AssignFromStarStar A this : DM T := FilterFrom A this.

(** [[MC,MR] = [MD,*]] and [[MC,MR] = [*,MD]] (lines 209-229): through a
    [[*,*]] copy of [A]. *)
Definition AssignFromMDStar A this : DM T :=
  let A_STAR_STAR := Convert STAR STAR A in
  AssignFromStarStar A_STAR_STAR this.

Definition AssignFromStarMD A this : DM T :=
  let A_STAR_STAR := Convert STAR STAR A in
  AssignFromStarStar A_STAR_STAR this.

(** [[MC,MR] = [MR,*]] (lines 442-456): [A] to [[VR,*]], that to a
    [[VC,*]] matrix with this matrix's column alignment, then
    [[MC,MR] = [VC,*]]. *)
Definition AssignFromMRStar A this : option (DM T) :=
  let g := DGrid A in
  let A_VR_STAR := Convert VR STAR A in
  let A_VC_STAR := ConvertAligned VC STAR (DColAlign this) g A_VR_STAR in
  AssignFromVCStar A_VC_STAR this.

(** [[MC,MR] = [*,MC]] (lines 458-472): [A] to [[*,VC]], that to a
    [[*,VR]] matrix with this matrix's row alignment, then
    [[MC,MR] = [*,VR]]. *)
Definition AssignFromStarMC A this : option (DM T) :=
  let g := DGrid A in
  let A_STAR_VC := Convert STAR VC A in
  let A_STAR_VR := ConvertAligned STAR VR (DRowAlign this) g A_STAR_VC in
  AssignFromStarVR A_STAR_VR this.

(** [[MC,MR] = [*,VC]] (lines 636-646). *)
Definition AssignFromStarVC A this : option (DM T) :=
  let g := DGrid this in
  let A_STAR_VR := ConvertAligned STAR VR (DRowAlign this) g A in
  AssignFromStarVR A_STAR_VR this.

(** [[MC,MR] = [VR,*]] (lines 648-658). *)
Definition AssignFromVRStar A this : option (DM T) :=
  let g := DGrid this in
  let A_VC_STAR := ConvertAligned VC STAR (DColAlign this) g A in
  AssignFromVCStar A_VC_STAR this.
End Routes.

Section RouteProofs.
Context {T : Type} `{Padding} `{Redistribute T} `{!RedistributeLaws T}.
Context (A this : DM T) (M : Z -> Z -> T) (HsA : src_wf A) (HA : holds A M).
Context (Hgt : DGrid this = DGrid A) (Hct : DColDist this = MC) (Hrt : DRowDist this = MR).
Context (Hca' : 0 <= DColAlign this < GHeight (DGrid A)) (Hra' : 0 <= DRowAlign this < GWidth (DGrid A)).

(** The last stage of the staged routes: a [[VC,*]] (resp. [[*,VR]])
    matrix on this grid, aligned with this matrix, standing for [M]. *)
Lemma via_VCStar B2 :
  src_wf B2 -> DColDist B2 = VC -> DRowDist B2 = STAR -> DGrid B2 = DGrid A ->
  DHeight B2 = DHeight A -> DWidth B2 = DWidth A -> DColAlign B2 = DColAlign this -> holds B2 M ->
  exists B, AssignFromVCStar B2 this = Some B /\ holds B M /\ DHeight B = DHeight A /\ DWidth B = DWidth A.
Proof.
  intros ((Hg & Hm & Hn & _) & _) Hc Hr Hg2 Hh Hw Ha HB2. rewrite <- Hh, <- Hw.
  pose proof Hg as [Hr0 Hc0]. rewrite Hg2 in Hr0, Hc0.
  apply (AssignFromVCStar_correct B2 this M Hg Hc Hr); rewrite ?Hg2, ?Ha; unfold GSize; try done; nia.
Qed.

Lemma via_StarVR B2 :
  src_wf B2 -> DColDist B2 = STAR -> DRowDist B2 = VR -> DGrid B2 = DGrid A ->
  DHeight B2 = DHeight A -> DWidth B2 = DWidth A -> DRowAlign B2 = DRowAlign this -> holds B2 M ->
  exists B, AssignFromStarVR B2 this = Some B /\ holds B M /\ DHeight B = DHeight A /\ DWidth B = DWidth A.
Proof.
  intros ((Hg & Hm & Hn & _) & _) Hc Hr Hg2 Hh Hw Ha HB2. rewrite <- Hh, <- Hw.
  pose proof Hg as [Hr0 Hc0]. rewrite Hg2 in Hr0, Hc0.
  apply (AssignFromStarVR_correct B2 this M Hg Hc Hr); rewrite ?Hg2, ?Ha; unfold GSize; try done; nia.
Qed.

Lemma McMr_staged_VC_correct :
  (exists B, AssignFromMRStar A this = Some B /\ holds B M /\ DHeight B = DHeight A /\ DWidth B = DWidth A) /\
  (exists B, AssignFromVRStar A this = Some B /\ holds B M /\ DHeight B = DHeight A /\ DWidth B = DWidth A).
Proof.
  pose proof HsA as ((Hg & _) & _). pose proof Hg as [Hr Hc].
  assert (Ha : 0 <= DColAlign this < DistStride (DGrid A) (AxisDist VC STAR))
    by (unfold AxisDist; rewrite decide_False by done; cbn; unfold GSize; nia).
  split.
  - destruct (Convert_spec VR STAR A M) as (Hs1 & Hc1 & Hr1 & Hg1 & Hh1 & Hw1 & H1); try done.
    destruct (ConvertAligned_spec VC STAR (DColAlign this) (DGrid A) (Convert VR STAR A) M)
      as (Hs2 & Hc2 & Hr2 & Hg2 & Hh2 & Hw2 & Ha2 & H2); try done.
    apply via_VCStar; rewrite ?Hh2, ?Hw2; done.
  - destruct (ConvertAligned_spec VC STAR (DColAlign this) (DGrid this) A M)
      as (Hs2 & Hc2 & Hr2 & Hg2 & Hh2 & Hw2 & Ha2 & H2); rewrite ?Hgt; try done.
    apply via_VCStar; rewrite ?Hg2; done.
Qed.

(** [C8] The staged operators that end in [[MC,MR] = [VC,*]] preserve the
    matrix: [[MC,MR] = [MR,*]] (through [[VR,*]] and an aligned [[VC,*]])
    and [[MC,MR] = [VR,*]] (through an aligned [[VC,*]]) complete and
    leave every process its [[MC,MR]] share of [M], whenever the
    conversions they call meet [RedistributeLaws]. *)
Theorem McMr_staged_VC_holds :
  (exists B, AssignFromMRStar A this = Some B /\ holds B M /\ DHeight B = DHeight A /\ DWidth B = DWidth A) /\
  (exists B, AssignFromVRStar A this = Some B /\ holds B M /\ DHeight B = DHeight A /\ DWidth B = DWidth A).
Proof. exact McMr_staged_VC_correct. Qed.

Lemma McMr_staged_VR_correct :
  (exists B, AssignFromStarMC A this = Some B /\ holds B M /\ DHeight B = DHeight A /\ DWidth B = DWidth A) /\
  (exists B, AssignFromStarVC A this = Some B /\ holds B M /\ DHeight B = DHeight A /\ DWidth B = DWidth A).
Proof.
  pose proof HsA as ((Hg & _) & _). pose proof Hg as [Hr Hc].
  assert (Ha : 0 <= DRowAlign this < DistStride (DGrid A) (AxisDist STAR VR))
    by (unfold AxisDist; rewrite decide_True by done; cbn; unfold GSize; nia).
  split.
  - destruct (Convert_spec STAR VC A M) as (Hs1 & Hc1 & Hr1 & Hg1 & Hh1 & Hw1 & H1); try done.
    destruct (ConvertAligned_spec STAR VR (DRowAlign this) (DGrid A) (Convert STAR VC A) M)
      as (Hs2 & Hc2 & Hr2 & Hg2 & Hh2 & Hw2 & Ha2 & H2); try done.
    apply via_StarVR; rewrite ?Hh2, ?Hw2; done.
  - destruct (ConvertAligned_spec STAR VR (DRowAlign this) (DGrid this) A M)
      as (Hs2 & Hc2 & Hr2 & Hg2 & Hh2 & Hw2 & Ha2 & H2); rewrite ?Hgt; try done.
    apply via_StarVR; rewrite ?Hg2; done.
Qed.

(** [C9] The staged operators that end in [[MC,MR] = [*,VR]] preserve the
    matrix: [[MC,MR] = [*,MC]] (through [[*,VC]] and an aligned [[*,VR]])
    and [[MC,MR] = [*,VC]] (through an aligned [[*,VR]]). *)
Theorem McMr_staged_VR_holds :
  (exists B, AssignFromStarMC A this = Some B /\ holds B M /\ DHeight B = DHeight A /\ DWidth B = DWidth A) /\
  (exists B, AssignFromStarVC A this = Some B /\ holds B M /\ DHeight B = DHeight A /\ DWidth B = DWidth A).
Proof. exact McMr_staged_VR_correct. Qed.
End RouteProofs.

(** The 4 x 4 matrix as [[MR,*]] (resp. [[*,MC]]) on the 2 x 2 mesh,
    assigned to an [[MC,MR]] matrix constrained to alignments (1,1), with
    the conversions of the reference implementation. *)
Lemma McMr_staged_VC_holds_witness :
  let A := FromGlobal grid22 MR STAR 0 0 0 4 4 Mat44 in
  let this := Align 1 1 (FromGlobal grid22 MC MR 0 0 0 0 0 Mat44) in
  (exists B, @AssignFromMRStar Z _ RefRedistribute A this = Some B /\ holds B Mat44 /\ DHeight B = 4 /\ DWidth B = 4) /\
  (exists B, @AssignFromVRStar Z _ RefRedistribute A this = Some B /\ holds B Mat44 /\ DHeight B = 4 /\ DWidth B = 4).
Proof.
  apply (@McMr_staged_VC_holds Z _ RefRedistribute RefRedistribute_laws); try reflexivity; try (cbn; lia).
  - apply FromGlobal_wf; cbn; try done; lia.
  - apply holds_FromGlobal.
Defined.

Lemma McMr_staged_VR_holds_witness :
  let A := FromGlobal grid22 STAR MC 0 0 0 4 4 Mat44 in
  let this := Align 1 1 (FromGlobal grid22 MC MR 0 0 0 0 0 Mat44) in
  (exists B, @AssignFromStarMC Z _ RefRedistribute A this = Some B /\ holds B Mat44 /\ DHeight B = 4 /\ DWidth B = 4) /\
  (exists B, @AssignFromStarVC Z _ RefRedistribute A this = Some B /\ holds B Mat44 /\ DHeight B = 4 /\ DWidth B = 4).
Proof.
  apply (@McMr_staged_VR_holds Z _ RefRedistribute RefRedistribute_laws); try reflexivity; try (cbn; lia).
  - apply FromGlobal_wf; cbn; try done; lia.
  - apply holds_FromGlobal.
Defined.

(** On the [[MR,*]] run, process 3 (mesh row 1, column 1) ends with rows
    0 and 2 (MC shift 0 under alignment 1) and columns 0 and 2. *)
Example AssignFromMRStar_run :
  match @AssignFromMRStar Z _ RefRedistribute (FromGlobal grid22 MR STAR 0 0 0 4 4 Mat44)
          (Align 1 1 (FromGlobal grid22 MC MR 0 0 0 0 0 Mat44)) with
  | Some B => let L := DLocal B 3 in
      (LHeight L, LWidth L, Entry L 0 0, Entry L 1 0, Entry L 0 1, Entry L 1 1) = (2, 2, 0, 8, 2, 10)
  | None => False
  end.
Proof. vm_compute. reflexivity. Qed.
