(* ===== verification/McMrMRMC.v ===== *)
(** * McMrMRMC: [[MC,MR] = [MR,MC]] ([src/core/dist_matrix/mc_mr.cpp], lines 231-440)

    The transposed distribution: [A]'s rows are scattered over the mesh
    columns and its columns over the mesh rows.  A column vector
    (width 1) takes the vector fast path (specification section 4.3,
    protocol 7): the processes of the mesh row that owns the column pack
    it as a [[VR,*]] vector ([MRMCColPack]), a [Scatter] down every mesh
    column hands each process its [[VR,*]] portion, a [SendRecv] over the
    VC communicator turns [[VR,*]] into [[VC,*]] (partners [sendRankCM],
    [recvRankCM]), and a [Gather] along every mesh row collects the
    [[MC,MR]] column on the owning mesh column ([MRMCColUnpack]).  A row
    vector takes the transposed path; any other matrix is staged through
    [[VR,*]] and [[VC,*]] (or [[*,VC]] and [[*,VR]]) as in [McMrRoute]. *)

From stdpp Require Import base decidable numbers list.
From Stdlib Require Import ZArith Lia.
From S2P Require Import Prelude Indexing Grid Mpi Scratch DistMatrix Align Global Redist McMrVC McMrVR McMrRoute.

Open Scope Z_scope.

Section FromMRMC.
Context {T : Type} `{Padding} `{Redistribute T}.
Implicit Types A this : DM T.

(** The column-vector pack (lines 277-291): block [k] holds the entries
    of [A]'s local column of VR shift [Shift (myCol + c*k) colAlignA p]. *)
Definition MRMCColPack (height r c colAlignA colShiftA myCol portionSize base : Z)
    (LA : Local T) (buf : mem T) : mem T :=
  let p := r * c in
  for_ 0 r (fun k b =>
    let shift := Shift (myCol + c * k) colAlignA p in
    let offset := (shift - colShiftA) ÷ c in
    let thisLocalHeight := Length height shift p in
    for_ 0 thisLocalHeight (fun iLoc b' =>
      b'.[base + k * portionSize + iLoc <- LBuf LA (offset + iLoc * r)]) b) buf.

(** The column-vector unpack (lines 308-322): block [k] came from the
    process of VC rank [myRow + r*k]. *)
Definition MRMCColUnpack (height r c colAlign colShift myRow portionSize : Z)
    (recvBuf : mem T) (base : Z) (thisBuffer : mem T) : mem T :=
  let p := r * c in
  for_ 0 c (fun k b =>
    let shift := Shift (myRow + r * k) colAlign p in
    let offset := (shift - colShift) ÷ r in
    let thisLocalHeight := Length height shift p in
    for_ 0 thisLocalHeight (fun iLoc b' =>
      b'.[offset + iLoc * c <- recvBuf (base + k * portionSize + iLoc)]) b) thisBuffer.

(** The column-vector path (lines 245-324) on the resized target [t]. *)
Definition MRMCColumn A t : option (DM T) :=
  let g := DGrid t in
  let r := GHeight g in
  let c := GWidth g in
  let p := GSize g in
  let ownerCol := DRowAlign t in
  let ownerRow := DRowAlign A in
  let colAlign := DColAlign t in
  let colAlignA := DColAlign A in
  let height := DHeight A in
  let maxLocalHeight := MaxLength height p in
  let portionSize := Pad maxLocalHeight in
  let colShiftVC q := Shift q colAlign p in
  let colShiftVRA q := Shift (VRRank g q) colAlignA p in
  let sendRankCM q := (q + (p + colShiftVRA q - colShiftVC q)) `rem` p in
  let recvRankRM q := (VRRank g q + (p + colShiftVC q - colShiftVRA q)) `rem` p in
  let recvRankCM q := VRToVC g (recvRankRM q) in
  let aux q := Require ((r + c) * portionSize) (DAux t q) in
  (* sendBuf = buffer[0..c*portionSize), recvBuf = buffer[c*portionSize..) *)
  let W0 q :=
    if decide (GRow g q = ownerRow) then
      MRMCColPack height r c colAlignA (ColShift A q) (GCol g q) portionSize (c * portionSize)
        (DLocal A q) (AuxMem (aux q))
    else AuxMem (aux q) in
  let W1 := Scatter (ColComm g) W0 (fun _ => c * portionSize) portionSize (fun _ => 0) ownerRow in
  match SendRecv p (VCComm g) W1 (fun _ => 0) (fun _ => portionSize) sendRankCM
          (fun _ => c * portionSize) (fun _ => portionSize) recvRankCM with
  | None => None
  | Some W2 =>
      let W3 := Gather (RowComm g) W2 (fun _ => c * portionSize) portionSize (fun _ => 0) ownerCol in
      Some (with_local
        (fun q => let L := DLocal t q in
           if decide (GCol g q = ownerCol) then
             mkLocal (LHeight L) (LWidth L) (LDim L)
               (MRMCColUnpack height r c colAlign (ColShift t q) (GRow g q) portionSize (W3 q) 0 (LBuf L))
           else L)
        (fun q => Release (SetAuxMem (W3 q) (aux q))) t)
  end.

(** The row-vector pack (lines 357-373): block [k] holds the entries of
    [A]'s local row of VC shift [Shift (myRow + r*k) rowAlignA p]. *)
Definition MRMCRowPack (width r c rowAlignA rowShiftA myRow portionSize base : Z)
    (LA : Local T) (buf : mem T) : mem T :=
  let p := r * c in
  for_ 0 c (fun k b =>
    let shift := Shift (myRow + r * k) rowAlignA p in
    let offset := (shift - rowShiftA) ÷ r in
    let thisLocalWidth := Length width shift p in
    for_ 0 thisLocalWidth (fun jLoc b' =>
      b'.[base + k * portionSize + jLoc <- LBuf LA ((offset + jLoc * c) * LDim LA)]) b) buf.

(** The row-vector unpack (lines 389-405): block [k] came from the
    process of VR rank [myCol + c*k]. *)
Definition MRMCRowUnpack (width r c rowAlign rowShift myCol portionSize : Z)
    (recvBuf : mem T) (base thisLDim : Z) (thisBuffer : mem T) : mem T :=
  let p := r * c in
  for_ 0 r (fun k b =>
    let shift := Shift (myCol + c * k) rowAlign p in
    let offset := (shift - rowShift) ÷ c in
    let thisLocalWidth := Length width shift p in
    for_ 0 thisLocalWidth (fun jLoc b' =>
      b'.[(offset + jLoc * r) * thisLDim <- recvBuf (base + k * portionSize + jLoc)]) b) thisBuffer.

(** The row-vector path (lines 326-408). *)
Definition MRMCRow A t : option (DM T) :=
  let g := DGrid t in
  let r := GHeight g in
  let c := GWidth g in
  let p := GSize g in
  let ownerRow := DColAlign t in
  let ownerCol := DColAlign A in
  let rowAlign := DRowAlign t in
  let rowAlignA := DRowAlign A in
  let width := DWidth A in
  let maxLocalWidth := MaxLength width p in
  let portionSize := Pad maxLocalWidth in
  let rowShiftVR q := Shift (VRRank g q) rowAlign p in
  let rowShiftVCA q := Shift q rowAlignA p in
  let sendRankRM q := (VRRank g q + (p + rowShiftVCA q - rowShiftVR q)) `rem` p in
  let recvRankCM q := (q + (p + rowShiftVR q - rowShiftVCA q)) `rem` p in
  let recvRankRM q := recvRankCM q ÷ r + c * (recvRankCM q `rem` r) in
  let aux q := Require ((r + c) * portionSize) (DAux t q) in
  (* sendBuf = buffer[0..r*portionSize), recvBuf = buffer[r*portionSize..) *)
  let W0 q :=
    if decide (GCol g q = ownerCol) then
      MRMCRowPack width r c rowAlignA (RowShift A q) (GRow g q) portionSize (r * portionSize)
        (DLocal A q) (AuxMem (aux q))
    else AuxMem (aux q) in
  let W1 := Scatter (RowComm g) W0 (fun _ => r * portionSize) portionSize (fun _ => 0) ownerCol in
  match SendRecv p (VRComm g) W1 (fun _ => 0) (fun _ => portionSize) sendRankRM
          (fun _ => r * portionSize) (fun _ => portionSize) recvRankRM with
  | None => None
  | Some W2 =>
      let W3 := Gather (ColComm g) W2 (fun _ => r * portionSize) portionSize (fun _ => 0) ownerRow in
      Some (with_local
        (fun q => let L := DLocal t q in
           if decide (GRow g q = ownerRow) then
             mkLocal (LHeight L) (LWidth L) (LDim L)
               (MRMCRowUnpack width r c rowAlign (RowShift t q) (GCol g q) portionSize (W3 q) 0
                  (LDim L) (LBuf L))
           else L)
        (fun q => Release (SetAuxMem (W3 q) (aux q))) t)
  end.

(** [DistMatrix<T,MC,MR>::operator=( const DistMatrix<T,MR,MC>& A )]. *)
Definition AssignFromMRMC A this : option (DM T) :=
  let g := DGrid this in
  let t := Resize (DHeight A) (DWidth A) this in
  if decide (DWidth A = 1) then MRMCColumn A t
  else if decide (DHeight A = 1) then MRMCRow A t
  else if decide (DWidth A <= DHeight A) then
    let A_VR_STAR := Convert VR STAR A in
    let A_VC_STAR := ConvertAligned VC STAR (DColAlign t) g A_VR_STAR in
    AssignFromVCStar A_VC_STAR t
  else
    let A_STAR_VC := Convert STAR VC A in
    let A_STAR_VR := ConvertAligned STAR VR (DRowAlign t) g A_STAR_VC in
    match AssignFromStarVR A_STAR_VR t with
    | None => None
    | Some B => Some (Resize (DHeight A_STAR_VR) (DWidth A_STAR_VR) B)
    end.
End FromMRMC.

Section ColPackFacts.
Context {T : Type} (height r c colAlignA colShiftA myCol portion base : Z) (LA : Local T).
Context (Hr : 0 < r) (Hc : 0 < c) (Hp : 0 < portion).
Context (Hfit : forall k, 0 <= k < r -> Length height (Shift (myCol + c * k) colAlignA (r * c)) (r * c) <= portion).

(** Block [k] of the column-vector pack holds [A]'s local entries of VR
    shift [Shift (myCol + c*k) colAlignA p], the [iLoc]-th at [iLoc]. *)
Lemma col_pack_value buf k iLoc :
  0 <= k < r -> 0 <= iLoc < Length height (Shift (myCol + c * k) colAlignA (r * c)) (r * c) ->
  MRMCColPack height r c colAlignA colShiftA myCol portion base LA buf (base + k * portion + iLoc) =
  LBuf LA ((Shift (myCol + c * k) colAlignA (r * c) - colShiftA) ÷ c + iLoc * r).
Proof.
  intros Hk Hi.
  set (gv := fun x => LBuf LA ((Shift (myCol + c * ((x - base) / portion)) colAlignA (r * c) - colShiftA) ÷ c
                               + ((x - base) mod portion) * r)).
  assert (Hw : writes (MRMCColPack height r c colAlignA colShiftA myCol portion base LA)
    (fun x => exists k, 0 <= k < r /\ exists i, 0 <= i < Length height (Shift (myCol + c * k) colAlignA (r * c)) (r * c) /\
       x = base + k * portion + i) gv).
  { apply writes_for. intros k' Hk'. apply writes_for. intros i Hi'. apply writes_upd.
    pose proof (Hfit k' Hk'). unfold gv. destruct (block_addr base k' portion i) as [-> ->]; [lia | lia |]. done. }
  destruct (Hw buf (base + k * portion + iLoc)) as [Hv _].
  rewrite Hv by (exists k; split; [done |]; exists iLoc; split; [done | lia]).
  pose proof (Hfit k Hk). unfold gv. destruct (block_addr base k portion iLoc) as [-> ->]; [lia | lia |]. done.
Qed.
End ColPackFacts.

Section ColUnpackFacts.
Context {T : Type} (height r c colAlign colShift myRow portion base : Z) (recv : mem T) (f : Z -> T).
Context (Hr : 0 < r) (Hc : 0 < c) (Ha : 0 <= colAlign < r * c) (Hrow : 0 <= myRow < r).
Context (Hcs : (myRow - colAlign) mod r = colShift) (Hcs' : 0 <= colShift < r).
Context (Hrecv : forall k iLoc, 0 <= k < c ->
  let s := Shift (myRow + r * k) colAlign (r * c) in
  0 <= iLoc < Length height s (r * c) -> recv (base + k * portion + iLoc) = f (s + iLoc * (r * c))).

(** The column-vector unpack fills every local row of the owning mesh
    column with the entry of the global row it stands for. *)
Lemma col_unpack_value buf l :
  0 <= l < Length height colShift r ->
  MRMCColUnpack height r c colAlign colShift myRow portion recv base buf l = f (colShift + l * r).
Proof.
  intros Hl.
  assert (Hw : writes (MRMCColUnpack height r c colAlign colShift myRow portion recv base)
    (fun x => exists k, 0 <= k < c /\ exists i,
       0 <= i < Length height (Shift (myRow + r * k) colAlign (r * c)) (r * c) /\
       x = (Shift (myRow + r * k) colAlign (r * c) - colShift) ÷ r + i * c) (fun x => f (colShift + x * r))).
  { apply writes_for. intros k Hk. apply writes_for. intros i Hi. apply writes_upd.
    rewrite (Hrecv k i Hk Hi). rewrite (Z.mul_comm r k).
    destruct (vc_sender r c colAlign colShift myRow Hr Ha Hrow Hcs k Hk) as (_ & -> & _ & Hsum).
    f_equal. lia. }
  destruct (vc_owner r c colAlign colShift myRow Hr Hc Ha Hrow Hcs l Hcs' ltac:(lia))
    as (Hk & Hv & Hsh & Hoff).
  set (G := colShift + l * r) in *. set (v := (G + colAlign) mod (r * c)) in *.
  assert (HG : 0 <= G < height)
    by (split; [lia |]; apply (proj1 (local_global r Hr height colShift l Hcs' ltac:(lia))); lia).
  destruct (global_local (r * c) ltac:(nia) height (G mod (r * c)) G HG eq_refl) as [Hi HGi].
  destruct (Hw buf l) as [Hv' _]. apply Hv'.
  exists (v / r). split; [done |]. exists (G / (r * c)). rewrite (Z.mul_comm r (v / r)), Hv, Hsh.
  split; [done |].
  destruct (vc_sender r c colAlign colShift myRow Hr Ha Hrow Hcs (v / r) Hk) as (_ & Eq & _).
  rewrite Hv, Hsh in Eq. rewrite Eq, Hoff. done.
Qed.
End ColUnpackFacts.

(** The rotation the code writes as [(x + (p + y - z)) % p] with two
    shifts [y], [z] in [0, p). *)
Lemma rot_mod (p x y z : Z) :
  0 < p -> 0 <= x -> (x + (p + y mod p - z mod p)) `rem` p = (x + y - z) mod p.
Proof.
  intros Hp Hx. pose proof (Z.mod_pos_bound y p Hp). pose proof (Z.mod_pos_bound z p Hp).
  rewrite rem_mod by lia.
  replace (x + (p + y mod p - z mod p)) with ((x + p + y mod p) - z mod p) by ring.
  rewrite Zminus_mod_idemp_r.
  replace (x + p + y mod p - z) with ((x + p - z) + y mod p) by ring.
  rewrite Zplus_mod_idemp_r.
  replace (x + p - z + y) with ((x + y - z) + 1 * p) by ring. apply Z.mod_add. lia.
Qed.

(** The partners of the [[VR,*]] to [[VC,*]] exchange of the column
    vector path: process [q] receives from [s = recvRankCM q], whose VR
    shift under [A]'s alignment [a] is [q]'s VC shift under the target's
    alignment [b], and [s] sends to [q]. *)
Lemma vrvc_partner (g : Grid) `{!GridWf g} (a b q : Z) :
  0 <= a <= GSize g -> 0 <= b <= GSize g -> 0 <= q < GSize g ->
  let p := GSize g in
  let u := (VRRank g q + (p + Shift q b p - Shift (VRRank g q) a p)) `rem` p in
  let s := VRToVC g u in
  0 <= s < p /\ VRRank g s = u /\ Shift u a p = Shift q b p /\
  (s + (p + Shift (VRRank g s) a p - Shift s b p)) `rem` p = q.
Proof.
  intros Ha Hb Hq p u s. pose proof (GSize_pos g) as Hp. fold p in Hp.
  pose proof (VRRank_range g q Hq) as Hvq.
  assert (Hu : u = (q - b + a) mod p).
  { subst u. rewrite !Shift_mod by lia. rewrite rot_mod by lia. f_equal. ring. }
  assert (Hur : 0 <= u < p) by (rewrite Hu; apply Z.mod_pos_bound; lia).
  destruct (VRRank_VRToVC g u Hur) as [Hsu Hs]. fold s in Hsu, Hs.
  assert (Hsh : Shift u a p = Shift q b p).
  { rewrite !Shift_mod by lia. rewrite Hu, Zminus_mod_idemp_l. f_equal. ring. }
  do 3 (split; [done |]). rewrite Hsu, Hsh, (Shift_mod p Hp s b), (Shift_mod p Hp q b) by lia.
  rewrite rot_mod by lia. replace (s + (q - b) - (s - b)) with q by ring. by apply Z.mod_small.
Qed.

(** A vector's single index is owned by the shift-0 member only. *)
Lemma Length_one (s k : Z) : 0 < s -> 0 <= k < s -> Length 1 k s = if decide (k = 0) then 1 else 0.
Proof.
  intros Hs Hk. unfold Length. case_decide as E.
  - subst k. replace (1 - 0 + s - 1) with s by lia. rewrite Z.div_same by lia. lia.
  - rewrite Z.div_small by lia. lia.
Qed.

Lemma Shift_self (a s : Z) : 0 < s -> 0 <= a < s -> Shift a a s = 0.
Proof. intros Hs Ha. rewrite Shift_mod by lia. by rewrite Z.sub_diag, Z.mod_0_l by lia. Qed.

Section ColRefines.
Context {T : Type} `{Padding} (A this : DM T) (M : Z -> Z -> T).
Context (Hg : GridWf (DGrid A)) (HcA : DColDist A = MR) (HrA : DRowDist A = MC).
Context (Hca : 0 <= DColAlign A < GWidth (DGrid A)) (Hra : 0 <= DRowAlign A < GHeight (DGrid A)).
Context (Hm : 0 <= DHeight A) (Hw1 : DWidth A = 1) (HA : holds A M).
Context (Hgt : DGrid this = DGrid A) (Hct : DColDist this = MC) (Hrt : DRowDist this = MR).
Context (Hca' : 0 <= DColAlign this < GHeight (DGrid A)).
Context (Hra' : 0 <= DRowAlign this < GWidth (DGrid A)).

Let t := Resize (DHeight A) (DWidth A) this.

(** The target after [Resize]: alignments untouched, one column. *)
Lemma col_target_meta :
  DGrid t = DGrid A /\ DColDist t = MC /\ DRowDist t = MR /\ DHeight t = DHeight A /\
  DWidth t = 1 /\ DColAlign t = DColAlign this /\ DRowAlign t = DRowAlign this /\
  forall q, Participating t q = true /\
    LHeight (DLocal t q) = LocalHeight t q /\ LWidth (DLocal t q) = LocalWidth t q /\
    LHeight (DLocal t q) <= LDim (DLocal t q).
Proof.
  unfold t. cbn [Resize with_local with_size DGrid DColDist DRowDist DHeight DWidth DColAlign DRowAlign].
  do 7 (split; [done |]). intros q.
  assert (HP : Participating (Resize (DHeight A) (DWidth A) this) q = true)
    by (unfold Participating; cbn; by rewrite Hct).
  split; [done |]. destruct (Resize_local _ _ this q HP) as (? & ? & ? & _). done.
Qed.

(** The local column of [A] on a process of the owning mesh row: the
    rows of [MR] shift [Shift (GCol s) a c]. *)
Lemma col_A_local s :
  0 <= s < GSize (DGrid A) -> GRow (DGrid A) s = DRowAlign A ->
  let sh := Shift (GCol (DGrid A) s) (DColAlign A) (GWidth (DGrid A)) in
  LHeight (DLocal A s) = Length (DHeight A) sh (GWidth (DGrid A)) /\
  forall i, 0 <= i < LHeight (DLocal A s) -> LBuf (DLocal A s) i = M (sh + i * GWidth (DGrid A)) 0.
Proof.
  intros Hs Hrow sh. pose proof Hg as [Hr Hc].
  destruct (HA s Hs) as (Hh & Hw & _ & He); [unfold Participating; by rewrite HcA |].
  unfold LocalHeight, LocalWidth, ColShift, RowShift, ColRank, RowRank, ColStride, RowStride in *.
  rewrite HcA, HrA in *. cbn [DistStride DistRank default id] in *.
  rewrite Hrow, Shift_self in Hw, He by lia. rewrite Hw1, Length_one, decide_True in Hw by lia.
  split; [done |]. intros i Hi. specialize (He i 0 Hi ltac:(rewrite Hw; lia)).
  unfold Entry in He. rewrite Z.mul_0_l, Z.add_0_r in He. rewrite He. f_equal; lia.
Qed.

(** The exchange-independent part of the column path: if block [k] of
    the gathered buffer of a process of the owning mesh column holds the
    entries of VC shift [Shift (myRow + r*k) colAlign p], the unpack
    leaves every process its [[MC,MR]] share of the column. *)
Section ColFinish.
Context (W3 : World T) (aux : Z -> Aux T).
Let g := DGrid t.
Let portion := Pad (MaxLength (DHeight A) (GSize g)).
Context (HW3 : forall q k iLoc, 0 <= q < GSize (DGrid A) -> GCol (DGrid A) q = DRowAlign this ->
  0 <= k < GWidth (DGrid A) ->
  let s := Shift (GRow (DGrid A) q + GHeight (DGrid A) * k) (DColAlign this) (GHeight (DGrid A) * GWidth (DGrid A)) in
  0 <= iLoc < Length (DHeight A) s (GHeight (DGrid A) * GWidth (DGrid A)) ->
  W3 q (0 + k * portion + iLoc) = M (s + iLoc * (GHeight (DGrid A) * GWidth (DGrid A))) 0).

Lemma col_finish_holds :
  holds (with_local (fun q => let L := DLocal t q in
    if decide (GCol g q = DRowAlign t) then
      mkLocal (LHeight L) (LWidth L) (LDim L)
        (MRMCColUnpack (DHeight A) (GHeight g) (GWidth g) (DColAlign t) (ColShift t q) (GRow g q)
           portion (W3 q) 0 (LBuf L))
    else L) aux t) M.
Proof.
  pose proof Hg as [Hr Hc].
  destruct col_target_meta as (Htg & Htc & Htr & Hth & Htw & Hta & Htr' & Hloc).
  apply holds_with_local. intros q Hq HP. rewrite Htg in Hq.
  destruct (Hloc q) as (_ & Hlh & Hlw & Hld).
  pose proof (GRow_range (DGrid A) q). pose proof (GCol_range (DGrid A) q Hq).
  assert (Hrs : RowShift t q = Shift (GCol (DGrid A) q) (DRowAlign this) (GWidth (DGrid A))).
  { unfold RowShift, RowRank, RowStride. rewrite Htg, Htr, Htr'. done. }
  assert (Hlw' : LocalWidth t q = Length 1 (RowShift t q) (GWidth (DGrid A))).
  { unfold LocalWidth, RowStride. rewrite Htg, Htr, Htw. done. }
  assert (Hrs' : 0 <= RowShift t q < GWidth (DGrid A)) by (rewrite Hrs; apply Shift_range; lia).
  rewrite Length_one in Hlw' by lia.
  subst g. cbv beta zeta. rewrite Htg, Htr'.
  destruct (decide (GCol (DGrid A) q = DRowAlign this)) as [Eo|Eo]; cbn [LHeight LWidth LDim LBuf].
  - rewrite Eo, Shift_self in Hrs by lia. rewrite Hrs in Hlw'. cbn in Hlw'.
    do 3 (split; [done |]). intros l j Hl Hj. rewrite Hlw, Hlw' in Hj. rewrite decide_True in Hj by done. assert (j = 0) as -> by lia.
    unfold Entry. cbn [LBuf LDim]. rewrite Z.mul_0_l, Z.add_0_r, Hrs.
    unfold LocalHeight, ColShift, ColRank, ColStride in Hlh, Hl |- *. rewrite Htg, Htc, Hth, Hta in *.
    cbn [DistStride DistRank default id] in *. rewrite Hlh in Hl.
    apply (col_unpack_value (DHeight A) (GHeight (DGrid A)) (GWidth (DGrid A)) (DColAlign this) _
             (GRow (DGrid A) q) portion 0 (W3 q) (fun G => M G 0)); try done; try lia.
    all: first [by rewrite Shift_mod by lia | apply Shift_range; lia | intros k iLoc Hk s Hi; by apply HW3 | nia].
  - do 3 (split; [done |]). intros l j _ Hj. rewrite Hlw, Hlw', decide_False in Hj; [lia |].
    rewrite Hrs. intros E. apply Eo. rewrite Shift_mod in E by lia.
    apply Z.mod_divide in E; [| lia]. destruct E as [z Hz].
    assert (z = 0) by nia. nia.
Qed.
End ColFinish.

(** The data process [v] of the mesh ends up with, traced back through
    the [SendRecv] and the [Scatter]: its partner [s2] got, from the
    process [s3] of the owning mesh row in its mesh column, the entries
    of VR shift [Shift (VRRank s2) a p], which is [v]'s VC shift. *)
Lemma col_source_value v iLoc buf :
  0 <= v < GSize (DGrid A) ->
  let u := (VRRank (DGrid A) v + (GSize (DGrid A) + Shift v (DColAlign this) (GSize (DGrid A))
             - Shift (VRRank (DGrid A) v) (DColAlign A) (GSize (DGrid A)))) `rem` GSize (DGrid A) in
  let s2 := VRToVC (DGrid A) u in
  let s3 := VCOf (DGrid A) (DRowAlign A) (GCol (DGrid A) s2) in
  let portion := Pad (MaxLength (DHeight A) (GSize (DGrid A))) in
  0 <= iLoc < Length (DHeight A) (Shift v (DColAlign this) (GSize (DGrid A))) (GSize (DGrid A)) ->
  0 <= s2 < GSize (DGrid A) /\ 0 <= s3 < GSize (DGrid A) /\
  GRow (DGrid A) s3 = DRowAlign A /\ GCol (DGrid A) s3 = GCol (DGrid A) s2 /\
  MRMCColPack (DHeight A) (GHeight (DGrid A)) (GWidth (DGrid A)) (DColAlign A) (ColShift A s3)
    (GCol (DGrid A) s3) portion (GWidth (DGrid A) * portion) (DLocal A s3) buf
    (GWidth (DGrid A) * portion + GRow (DGrid A) s2 * portion + iLoc) =
  M (Shift v (DColAlign this) (GSize (DGrid A)) + iLoc * GSize (DGrid A)) 0.
Proof.
  intros Hv u s2 s3 portion Hi. pose proof Hg as [Hr Hc].
  assert (Hp : 0 < GSize (DGrid A)) by (unfold GSize; nia).
  destruct (@vrvc_partner (DGrid A) Hg (DColAlign A) (DColAlign this) v) as (Hs2 & Hvr & Hsh & _);
    [unfold GSize; nia | unfold GSize; nia | done |]. fold u s2 in Hs2, Hvr, Hsh.
  pose proof (GCol_range (DGrid A) s2 Hs2). pose proof (GRow_range (DGrid A) s2).
  destruct (@coords_VCOf (DGrid A) Hg (DRowAlign A) (GCol (DGrid A) s2) Hra) as [Hr3 Hc3]. fold s3 in Hr3, Hc3.
  assert (Hs3 : 0 <= s3 < GSize (DGrid A)) by (apply (@VCOf_range (DGrid A) Hg); lia).
  do 4 (split; [done |]).
  assert (Ek : GCol (DGrid A) s2 + GWidth (DGrid A) * GRow (DGrid A) s2 = u)
    by (rewrite <- Hvr; unfold VRRank; lia).
  assert (Hfit : forall k, 0 <= k < GHeight (DGrid A) ->
    Length (DHeight A) (Shift (GCol (DGrid A) s3 + GWidth (DGrid A) * k) (DColAlign A)
      (GHeight (DGrid A) * GWidth (DGrid A))) (GHeight (DGrid A) * GWidth (DGrid A)) <= portion).
  { intros k Hk. eapply Z.le_trans; [| apply Pad_ge]. apply Length_le_MaxLength; [nia |].
    rewrite Hc3. apply Shift_range; unfold GSize; nia. }
  pose proof (Pad_pos (MaxLength (DHeight A) (GSize (DGrid A)))) as Hpp. fold portion in Hpp.
  rewrite col_pack_value by first [lia | exact Hfit | rewrite Hc3, Ek; unfold GSize in Hsh, Hi; rewrite Hsh; lia].
  assert (Hcs : (GCol (DGrid A) s3 - DColAlign A) mod GWidth (DGrid A) = ColShift A s3).
  { unfold ColShift, ColRank, ColStride. rewrite HcA. cbn [DistStride DistRank default id].
    rewrite Shift_mod by lia. done. }
  rewrite (Z.mul_comm (GWidth (DGrid A)) (GRow (DGrid A) s2)).
  destruct (vr_sender (GHeight (DGrid A)) (GWidth (DGrid A)) (DColAlign A) (ColShift A s3) (GCol (DGrid A) s3)
    Hc ltac:(nia) ltac:(lia) Hcs (GRow (DGrid A) s2) ltac:(lia)) as (Hsr & -> & Hsq & Hsum).
  assert (Esv : Shift (GCol (DGrid A) s3 + GRow (DGrid A) s2 * GWidth (DGrid A)) (DColAlign A)
                  (GHeight (DGrid A) * GWidth (DGrid A)) = Shift v (DColAlign this) (GSize (DGrid A))).
  { rewrite Hc3, (Z.mul_comm (GRow _ _)), Ek. exact Hsh. }
  rewrite Esv in Hsum, Hsq |- *. set (sv := Shift v (DColAlign this) (GSize (DGrid A))) in *.
  destruct (col_A_local s3 Hs3 Hr3) as [HLh HLe].
  assert (Hsh3 : ColShift A s3 = Shift (GCol (DGrid A) s3) (DColAlign A) (GWidth (DGrid A)))
    by (unfold ColShift, ColRank, ColStride; rewrite HcA; done).
  rewrite <- Hsh3 in HLh, HLe.
  assert (Hrng : 0 <= ColShift A s3 < GWidth (DGrid A)) by (rewrite Hsh3; apply Shift_range; lia).
  pose proof (proj1 (local_global (GSize (DGrid A)) Hp (DHeight A) sv iLoc ltac:(unfold GSize in *; lia) ltac:(lia)) (proj2 Hi)).
  rewrite HLe.
  - f_equal. unfold GSize. nia.
  - split; [nia |]. rewrite HLh. apply (proj2 (local_global _ Hc (DHeight A) (ColShift A s3) (sv / GWidth (DGrid A) + iLoc * GHeight (DGrid A)) Hrng ltac:(nia))).
    unfold GSize in *. nia.
Qed.

(** The column-vector path completes and leaves every process its
    [[MC,MR]] share of the column. *)
Lemma MRMCColumn_correct : exists B, MRMCColumn A t = Some B /\ holds B M.
Proof.
  pose proof Hg as [Hr Hc].
  destruct col_target_meta as (Htg & Htc & Htr & Hth & Htw & Hta & Htr' & Hloc).
  unfold MRMCColumn. cbv zeta.
  destruct (SendRecv _ _ _ _ _ _ _ _ _) as [W2|] eqn:HS.
  - eexists. split; [reflexivity |]. apply col_finish_holds.
    intros q k iLoc Hq Ho Hk s Hi.
    rewrite ?Htg, ?Hta, ?Htr' in HS |- *.
    set (portion := Pad (MaxLength (DHeight A) (GSize (DGrid A)))) in *.
    pose proof (Pad_pos (MaxLength (DHeight A) (GSize (DGrid A)))) as Hpp. fold portion in Hpp.
    set (v := VCOf (DGrid A) (GRow (DGrid A) q) k).
    assert (Hv : 0 <= v < GSize (DGrid A)) by (apply (@VCOf_range _ Hg); [apply (@GRow_range _ Hg) | lia]).
    assert (Hsv : s = Shift v (DColAlign this) (GSize (DGrid A))).
    { unfold s, v, VCOf, GSize. f_equal. lia. }
    rewrite Hsv in Hi |- *. unfold GSize in Hi.
    assert (Hip : 0 <= iLoc < portion).
    { split; [lia |]. eapply Z.lt_le_trans; [apply Hi |]. eapply Z.le_trans; [| apply Pad_ge].
      apply Length_le_MaxLength; [nia | apply Shift_range; unfold GSize; nia]. }
    rewrite Gather_recv_at by first [reflexivity | lia | cbn; lia].
    cbn [CMember RowComm]. fold v.
    rewrite (SendRecv_recv_at _ _ _ _ _ _ _ _ _ _ _ _ _ HS) by (try reflexivity; cbv beta; lia).
    unfold partner. cbn [CMember VCComm]. cbv beta.
    rewrite Scatter_recv_at by first [reflexivity | lia].
    cbn [CMember CRank ColComm]. rewrite ?Hta.
    assert (Hi' : 0 <= iLoc < Length (DHeight A) (Shift v (DColAlign this) (GSize (DGrid A))) (GSize (DGrid A)))
      by (unfold GSize; exact Hi).
    pose proof (fun buf => col_source_value v iLoc buf Hv Hi') as Hsrc. cbv zeta in Hsrc.
    rewrite decide_True by apply (Hsrc (LBuf (DLocal A 0))).
    rewrite (proj2 (proj2 (proj2 (proj2 (Hsrc _))))). unfold GSize. done.
  - exfalso. rewrite ?Htg, ?Hta in HS. unfold SendRecv in HS.
    rewrite (proj2 (sendrecv_ok_spec (GSize (DGrid A)) (VCComm (DGrid A)) _ _ _ _)) in HS; [discriminate |].
    intros q Hq. unfold partner. cbn [CMember VCComm].
    destruct (@vrvc_partner (DGrid A) Hg (DColAlign A) (DColAlign this) q) as (_ & _ & _ & Hback);
      [unfold GSize; nia | unfold GSize; nia | done |].
    split; [exact Hback | lia].
Qed.
End ColRefines.

Section RowPackFacts.
Context {T : Type} (width r c rowAlignA rowShiftA myRow portion base : Z) (LA : Local T).
Context (Hr : 0 < r) (Hc : 0 < c) (Hp : 0 < portion).
Context (Hfit : forall k, 0 <= k < c -> Length width (Shift (myRow + r * k) rowAlignA (r * c)) (r * c) <= portion).

(** Block [k] of the row-vector pack holds [A]'s local entries of VC
    shift [Shift (myRow + r*k) rowAlignA p]. *)
Lemma row_pack_value buf k jLoc :
  0 <= k < c -> 0 <= jLoc < Length width (Shift (myRow + r * k) rowAlignA (r * c)) (r * c) ->
  MRMCRowPack width r c rowAlignA rowShiftA myRow portion base LA buf (base + k * portion + jLoc) =
  LBuf LA (((Shift (myRow + r * k) rowAlignA (r * c) - rowShiftA) ÷ r + jLoc * c) * LDim LA).
Proof.
  intros Hk Hj.
  set (gv := fun x => LBuf LA (((Shift (myRow + r * ((x - base) / portion)) rowAlignA (r * c) - rowShiftA) ÷ r
                               + ((x - base) mod portion) * c) * LDim LA)).
  assert (Hw : writes (MRMCRowPack width r c rowAlignA rowShiftA myRow portion base LA)
    (fun x => exists k, 0 <= k < c /\ exists j, 0 <= j < Length width (Shift (myRow + r * k) rowAlignA (r * c)) (r * c) /\
       x = base + k * portion + j) gv).
  { apply writes_for. intros k' Hk'. apply writes_for. intros j Hj'. apply writes_upd.
    pose proof (Hfit k' Hk'). unfold gv. destruct (block_addr base k' portion j) as [-> ->]; [lia | lia |]. done. }
  destruct (Hw buf (base + k * portion + jLoc)) as [Hv _].
  rewrite Hv by (exists k; split; [done |]; exists jLoc; split; [done | lia]).
  pose proof (Hfit k Hk). unfold gv. destruct (block_addr base k portion jLoc) as [-> ->]; [lia | lia |]. done.
Qed.
End RowPackFacts.

Section RowUnpackFacts.
Context {T : Type} (width r c rowAlign rowShift myCol portion base ldim : Z) (recv : mem T) (f : Z -> T).
Context (Hr : 0 < r) (Hc : 0 < c) (Ha : 0 <= rowAlign < r * c) (Hcol : 0 <= myCol < c).
Context (Hcs : (myCol - rowAlign) mod c = rowShift) (Hcs' : 0 <= rowShift < c) (Hld : 0 < ldim).
Context (Hrecv : forall k jLoc, 0 <= k < r ->
  let s := Shift (myCol + c * k) rowAlign (r * c) in
  0 <= jLoc < Length width s (r * c) -> recv (base + k * portion + jLoc) = f (s + jLoc * (r * c))).

(** The row-vector unpack fills every local column of the owning mesh
    row with the entry of the global column it stands for. *)
Lemma row_unpack_value buf j :
  0 <= j < Length width rowShift c ->
  MRMCRowUnpack width r c rowAlign rowShift myCol portion recv base ldim buf (j * ldim) = f (rowShift + j * c).
Proof.
  intros Hj.
  assert (Hw : writes (MRMCRowUnpack width r c rowAlign rowShift myCol portion recv base ldim)
    (fun x => exists k, 0 <= k < r /\ exists jj,
       0 <= jj < Length width (Shift (myCol + c * k) rowAlign (r * c)) (r * c) /\
       x = ((Shift (myCol + c * k) rowAlign (r * c) - rowShift) ÷ c + jj * r) * ldim)
    (fun x => f (rowShift + (x / ldim) * c))).
  { apply writes_for. intros k Hk. apply writes_for. intros jj Hjj. apply writes_upd.
    rewrite (Hrecv k jj Hk Hjj), Z.div_mul by lia. rewrite (Z.mul_comm c k).
    destruct (vr_sender r c rowAlign rowShift myCol Hc Ha Hcol Hcs k Hk) as (_ & -> & _ & Hsum).
    f_equal. lia. }
  destruct (vr_owner r c rowAlign rowShift myCol Hr Hc Ha Hcol Hcs j Hcs' ltac:(lia))
    as (Hk & Hv & Hsh & Hoff).
  set (G := rowShift + j * c) in *. set (v := (G + rowAlign) mod (r * c)) in *.
  assert (HG : 0 <= G < width)
    by (split; [lia |]; apply (proj1 (local_global c Hc width rowShift j Hcs' ltac:(lia))); lia).
  destruct (global_local (r * c) ltac:(nia) width (G mod (r * c)) G HG eq_refl) as [Hi HGi].
  destruct (Hw buf (j * ldim)) as [Hv' _]. rewrite Hv'; [by rewrite Z.div_mul by lia |].
  exists (v / c). split; [done |]. exists (G / (r * c)). rewrite (Z.mul_comm c (v / c)), Hv, Hsh.
  split; [done |].
  destruct (vr_sender r c rowAlign rowShift myCol Hc Ha Hcol Hcs (v / c) Hk) as (_ & Eq & _).
  rewrite Hv, Hsh in Eq. rewrite Eq, Hoff. done.
Qed.
End RowUnpackFacts.

(** The partners of the [[*,VC]] to [[*,VR]] exchange of the row vector
    path, the transpose of [vrvc_partner]. *)
Lemma vcvr_partner (g : Grid) `{!GridWf g} (a b q : Z) :
  0 <= a <= GSize g -> 0 <= b <= GSize g -> 0 <= q < GSize g ->
  let p := GSize g in
  let u := (q + (p + Shift (VRRank g q) b p - Shift q a p)) `rem` p in
  0 <= u < p /\ u ÷ GHeight g + GWidth g * (u `rem` GHeight g) = VRRank g u /\
  Shift u a p = Shift (VRRank g q) b p /\
  VRToVC g ((VRRank g u + (p + Shift u a p - Shift (VRRank g u) b p)) `rem` p) = q.
Proof.
  intros Ha Hb Hq p u. pose proof (GSize_pos g) as Hp. fold p in Hp. pose proof GridWf0 as [Hr Hc].
  pose proof (VRRank_range g q Hq) as Hvq.
  assert (Hu : u = (VRRank g q - b + a) mod p).
  { subst u. rewrite !Shift_mod by lia. rewrite rot_mod by lia. f_equal. ring. }
  assert (Hur : 0 <= u < p) by (rewrite Hu; apply Z.mod_pos_bound; lia).
  pose proof (VRRank_range g u Hur) as Hvu.
  split; [done | split].
  - rewrite quot_div, rem_mod by lia. unfold VRRank, GCol, GRow. lia.
  - assert (Hsh : Shift u a p = Shift (VRRank g q) b p).
    { rewrite !Shift_mod by lia. rewrite Hu, Zminus_mod_idemp_l. f_equal. ring. }
    split; [done |]. rewrite Hsh, (Shift_mod p Hp (VRRank g q) b), (Shift_mod p Hp (VRRank g u) b) by lia.
    rewrite rot_mod by lia.
    replace (VRRank g u + (VRRank g q - b) - (VRRank g u - b)) with (VRRank g q) by ring.
    rewrite Z.mod_small by lia. by apply VRToVC_VRRank.
Qed.

Section RowRefines.
Context {T : Type} `{Padding} (A this : DM T) (M : Z -> Z -> T).
Context (Hg : GridWf (DGrid A)) (HcA : DColDist A = MR) (HrA : DRowDist A = MC).
Context (Hca : 0 <= DColAlign A < GWidth (DGrid A)) (Hra : 0 <= DRowAlign A < GHeight (DGrid A)).
Context (Hn : 0 <= DWidth A) (Hh1 : DHeight A = 1) (HA : holds A M).
Context (Hgt : DGrid this = DGrid A) (Hct : DColDist this = MC) (Hrt : DRowDist this = MR).
Context (Hca' : 0 <= DColAlign this < GHeight (DGrid A)).
Context (Hra' : 0 <= DRowAlign this < GWidth (DGrid A)).

Let t := Resize (DHeight A) (DWidth A) this.

Lemma row_target_meta :
  DGrid t = DGrid A /\ DColDist t = MC /\ DRowDist t = MR /\ DHeight t = 1 /\
  DWidth t = DWidth A /\ DColAlign t = DColAlign this /\ DRowAlign t = DRowAlign this /\
  forall q, Participating t q = true /\
    LHeight (DLocal t q) = LocalHeight t q /\ LWidth (DLocal t q) = LocalWidth t q /\
    0 < LDim (DLocal t q).
Proof.
  unfold t. cbn [Resize with_local with_size DGrid DColDist DRowDist DHeight DWidth DColAlign DRowAlign].
  do 7 (split; [done |]). intros q.
  assert (HP : Participating (Resize (DHeight A) (DWidth A) this) q = true)
    by (unfold Participating; cbn; by rewrite Hct).
  split; [done |]. destruct (Resize_local _ _ this q HP) as (? & ? & _ & ?). done.
Qed.

(** The local row of [A] on a process of the owning mesh column: the
    columns of [MC] shift [Shift (GRow s) a r]. *)
Lemma row_A_local s :
  0 <= s < GSize (DGrid A) -> GCol (DGrid A) s = DColAlign A ->
  let sh := Shift (GRow (DGrid A) s) (DRowAlign A) (GHeight (DGrid A)) in
  LWidth (DLocal A s) = Length (DWidth A) sh (GHeight (DGrid A)) /\
  forall j, 0 <= j < LWidth (DLocal A s) ->
    LBuf (DLocal A s) (j * LDim (DLocal A s)) = M 0 (sh + j * GHeight (DGrid A)).
Proof.
  intros Hs Hcol sh. pose proof Hg as [Hr Hc].
  destruct (HA s Hs) as (Hh & Hw & _ & He); [unfold Participating; by rewrite HcA |].
  unfold LocalHeight, LocalWidth, ColShift, RowShift, ColRank, RowRank, ColStride, RowStride in *.
  rewrite HcA, HrA in *. cbn [DistStride DistRank default id] in *.
  rewrite Hcol, Shift_self in Hh, He by lia. rewrite Hh1, Length_one, decide_True in Hh by lia.
  split; [done |]. intros j Hj. specialize (He 0 j ltac:(rewrite Hh; lia) Hj).
  unfold Entry in He. rewrite Z.add_0_l in He. rewrite He. f_equal; lia.
Qed.

Section RowFinish.
Context (W3 : World T) (aux : Z -> Aux T).
Let g := DGrid t.
Let portion := Pad (MaxLength (DWidth A) (GSize g)).
Context (HW3 : forall q k jLoc, 0 <= q < GSize (DGrid A) -> GRow (DGrid A) q = DColAlign this ->
  0 <= k < GHeight (DGrid A) ->
  let s := Shift (GCol (DGrid A) q + GWidth (DGrid A) * k) (DRowAlign this) (GHeight (DGrid A) * GWidth (DGrid A)) in
  0 <= jLoc < Length (DWidth A) s (GHeight (DGrid A) * GWidth (DGrid A)) ->
  W3 q (0 + k * portion + jLoc) = M 0 (s + jLoc * (GHeight (DGrid A) * GWidth (DGrid A)))).

Lemma row_finish_holds :
  holds (with_local (fun q => let L := DLocal t q in
    if decide (GRow g q = DColAlign t) then
      mkLocal (LHeight L) (LWidth L) (LDim L)
        (MRMCRowUnpack (DWidth A) (GHeight g) (GWidth g) (DRowAlign t) (RowShift t q) (GCol g q)
           portion (W3 q) 0 (LDim L) (LBuf L))
    else L) aux t) M.
Proof.
  pose proof Hg as [Hr Hc].
  destruct row_target_meta as (Htg & Htc & Htr & Hth & Htw & Hta & Htr' & Hloc).
  apply holds_with_local. intros q Hq HP. rewrite Htg in Hq.
  destruct (Hloc q) as (_ & Hlh & Hlw & Hld).
  pose proof (GRow_range (DGrid A) q). pose proof (GCol_range (DGrid A) q Hq).
  assert (Hcs : ColShift t q = Shift (GRow (DGrid A) q) (DColAlign this) (GHeight (DGrid A))).
  { unfold ColShift, ColRank, ColStride. rewrite Htg, Htc, Hta. done. }
  assert (Hlh' : LocalHeight t q = Length 1 (ColShift t q) (GHeight (DGrid A))).
  { unfold LocalHeight, ColStride. rewrite Htg, Htc, Hth. done. }
  assert (Hcs' : 0 <= ColShift t q < GHeight (DGrid A)) by (rewrite Hcs; apply Shift_range; lia).
  rewrite Length_one in Hlh' by lia.
  subst g. cbv beta zeta. rewrite Htg, Hta.
  destruct (decide (GRow (DGrid A) q = DColAlign this)) as [Eo|Eo]; cbn [LHeight LWidth LDim LBuf].
  - rewrite Eo, Shift_self in Hcs by lia. rewrite Hcs, decide_True in Hlh' by done.
    split; [done | split; [done | split; [lia |]]]. intros l j Hl Hj. rewrite Hlh, Hlh' in Hl.
    assert (l = 0) as -> by lia.
    unfold Entry. cbn [LBuf LDim]. rewrite Z.add_0_l, Hcs.
    unfold LocalWidth, RowShift, RowRank, RowStride in Hlw, Hj |- *. rewrite Htg, Htr, Htw, Htr' in *.
    cbn [DistStride DistRank default id] in *. rewrite Hlw in Hj.
    rewrite (row_unpack_value (DWidth A) (GHeight (DGrid A)) (GWidth (DGrid A)) (DRowAlign this) _
             (GCol (DGrid A) q) portion 0 (LDim (DLocal t q)) (W3 q) (fun J => M 0 J)); try done; try lia.
    all: first [f_equal; lia | by rewrite Shift_mod by lia | apply Shift_range; lia
               | intros k jLoc Hk s Hj'; by apply HW3 | nia].
  - assert (Hne : ColShift t q <> 0).
    { rewrite Hcs. intros E. apply Eo. rewrite Shift_mod in E by lia.
      apply Z.mod_divide in E; [| lia]. destruct E as [z Hz].
      assert (z = 0) by nia. nia. }
    rewrite decide_False in Hlh' by done.
    split; [done | split; [done | split; [lia |]]]. intros l j Hl _. lia.
Qed.
End RowFinish.

(** The data the row-vector path gathers from process [v], traced back
    through the [SendRecv] (its partner [u]) and the [Scatter] (from the
    process [s3] of the owning mesh column in [u]'s mesh row). *)
Lemma row_source_value v jLoc buf :
  0 <= v < GSize (DGrid A) ->
  let u := (v + (GSize (DGrid A) + Shift (VRRank (DGrid A) v) (DRowAlign this) (GSize (DGrid A))
             - Shift v (DRowAlign A) (GSize (DGrid A)))) `rem` GSize (DGrid A) in
  let s3 := VCOf (DGrid A) (GRow (DGrid A) u) (DColAlign A) in
  let portion := Pad (MaxLength (DWidth A) (GSize (DGrid A))) in
  0 <= jLoc < Length (DWidth A) (Shift (VRRank (DGrid A) v) (DRowAlign this) (GSize (DGrid A))) (GSize (DGrid A)) ->
  0 <= u < GSize (DGrid A) /\ 0 <= s3 < GSize (DGrid A) /\
  GCol (DGrid A) s3 = DColAlign A /\ GRow (DGrid A) s3 = GRow (DGrid A) u /\
  MRMCRowPack (DWidth A) (GHeight (DGrid A)) (GWidth (DGrid A)) (DRowAlign A) (RowShift A s3)
    (GRow (DGrid A) s3) portion (GHeight (DGrid A) * portion) (DLocal A s3) buf
    (GHeight (DGrid A) * portion + GCol (DGrid A) u * portion + jLoc) =
  M 0 (Shift (VRRank (DGrid A) v) (DRowAlign this) (GSize (DGrid A)) + jLoc * GSize (DGrid A)).
Proof.
  intros Hv u s3 portion Hj. pose proof Hg as [Hr Hc].
  assert (Hp : 0 < GSize (DGrid A)) by (unfold GSize; nia).
  destruct (@vcvr_partner (DGrid A) Hg (DRowAlign A) (DRowAlign this) v) as (Hu & _ & Hsh & _);
    [unfold GSize; nia | unfold GSize; nia | done |]. fold u in Hu, Hsh.
  pose proof (GCol_range (DGrid A) u Hu). pose proof (GRow_range (DGrid A) u).
  destruct (@coords_VCOf (DGrid A) Hg (GRow (DGrid A) u) (DColAlign A) ltac:(lia)) as [Hr3 Hc3].
  fold s3 in Hr3, Hc3.
  assert (Hs3 : 0 <= s3 < GSize (DGrid A)) by (apply (@VCOf_range (DGrid A) Hg); lia).
  do 4 (split; [done |]).
  assert (Eu : GRow (DGrid A) u + GHeight (DGrid A) * GCol (DGrid A) u = u).
  { pose proof (@VCOf_coords (DGrid A) Hg u) as E. unfold VCOf in E. lia. }
  assert (Hfit : forall k, 0 <= k < GWidth (DGrid A) ->
    Length (DWidth A) (Shift (GRow (DGrid A) s3 + GHeight (DGrid A) * k) (DRowAlign A)
      (GHeight (DGrid A) * GWidth (DGrid A))) (GHeight (DGrid A) * GWidth (DGrid A)) <= portion).
  { intros k Hk. eapply Z.le_trans; [| apply Pad_ge]. apply Length_le_MaxLength; [nia |].
    rewrite Hr3. apply Shift_range; unfold GSize; nia. }
  pose proof (Pad_pos (MaxLength (DWidth A) (GSize (DGrid A)))) as Hpp. fold portion in Hpp.
  rewrite row_pack_value by first [lia | exact Hfit | rewrite Hr3, Eu; unfold GSize in Hsh, Hj; rewrite Hsh; lia].
  assert (Hcs : (GRow (DGrid A) s3 - DRowAlign A) mod GHeight (DGrid A) = RowShift A s3).
  { unfold RowShift, RowRank, RowStride. rewrite HrA. cbn [DistStride DistRank default id].
    rewrite Shift_mod by lia. done. }
  rewrite (Z.mul_comm (GHeight (DGrid A)) (GCol (DGrid A) u)).
  destruct (vc_sender (GHeight (DGrid A)) (GWidth (DGrid A)) (DRowAlign A) (RowShift A s3) (GRow (DGrid A) s3)
    Hr ltac:(nia) ltac:(lia) Hcs (GCol (DGrid A) u) ltac:(lia)) as (Hsr & -> & Hsq & Hsum).
  assert (Esv : Shift (GRow (DGrid A) s3 + GCol (DGrid A) u * GHeight (DGrid A)) (DRowAlign A)
                  (GHeight (DGrid A) * GWidth (DGrid A)) = Shift (VRRank (DGrid A) v) (DRowAlign this) (GSize (DGrid A))).
  { rewrite Hr3, (Z.mul_comm (GCol _ _)), Eu. exact Hsh. }
  rewrite Esv in Hsum, Hsq |- *. set (sv := Shift (VRRank (DGrid A) v) (DRowAlign this) (GSize (DGrid A))) in *.
  destruct (row_A_local s3 Hs3 Hc3) as [HLw HLe].
  assert (Hsh3 : RowShift A s3 = Shift (GRow (DGrid A) s3) (DRowAlign A) (GHeight (DGrid A)))
    by (unfold RowShift, RowRank, RowStride; rewrite HrA; done).
  rewrite <- Hsh3 in HLw, HLe.
  assert (Hrng : 0 <= RowShift A s3 < GHeight (DGrid A)) by (rewrite Hsh3; apply Shift_range; lia).
  pose proof (proj1 (local_global (GSize (DGrid A)) Hp (DWidth A) sv jLoc ltac:(unfold GSize in *; lia) ltac:(lia)) (proj2 Hj)).
  rewrite HLe.
  - f_equal. unfold GSize. nia.
  - split; [nia |]. rewrite HLw.
    apply (proj2 (local_global _ Hr (DWidth A) (RowShift A s3) (sv / GHeight (DGrid A) + jLoc * GWidth (DGrid A)) Hrng ltac:(nia))).
    unfold GSize in *. nia.
Qed.

(** The row-vector path completes and leaves every process its
    [[MC,MR]] share of the row. *)
Lemma MRMCRow_correct : exists B, MRMCRow A t = Some B /\ holds B M.
Proof.
  pose proof Hg as [Hr Hc].
  destruct row_target_meta as (Htg & Htc & Htr & Hth & Htw & Hta & Htr' & Hloc).
  unfold MRMCRow. cbv zeta.
  destruct (SendRecv _ _ _ _ _ _ _ _ _) as [W2|] eqn:HS.
  - eexists. split; [reflexivity |]. apply row_finish_holds.
    intros q k jLoc Hq Ho Hk s Hj.
    rewrite ?Htg, ?Hta, ?Htr' in HS |- *.
    set (portion := Pad (MaxLength (DWidth A) (GSize (DGrid A)))) in *.
    pose proof (Pad_pos (MaxLength (DWidth A) (GSize (DGrid A)))) as Hpp. fold portion in Hpp.
    set (v := VCOf (DGrid A) k (GCol (DGrid A) q)).
    pose proof (GCol_range (DGrid A) q Hq).
    assert (Hv : 0 <= v < GSize (DGrid A)) by (apply (@VCOf_range _ Hg); lia).
    assert (Hsv : s = Shift (VRRank (DGrid A) v) (DRowAlign this) (GSize (DGrid A))).
    { unfold s, v, GSize. destruct (@coords_VCOf (DGrid A) Hg k (GCol (DGrid A) q) Hk) as [E1 E2].
      unfold VRRank. rewrite E1, E2. f_equal. lia. }
    rewrite Hsv in Hj |- *. unfold GSize in Hj.
    assert (Hjp : 0 <= jLoc < portion).
    { split; [lia |]. eapply Z.lt_le_trans; [apply Hj |]. eapply Z.le_trans; [| apply Pad_ge].
      pose proof (VRRank_range (DGrid A) v Hv).
      apply Length_le_MaxLength; [unfold GSize; nia | apply Shift_range; unfold GSize in *; nia]. }
    rewrite Gather_recv_at by first [reflexivity | lia | cbn; lia].
    cbn [CMember ColComm]. fold v.
    rewrite (SendRecv_recv_at _ _ _ _ _ _ _ _ _ _ _ _ _ HS) by (try reflexivity; cbv beta; lia).
    unfold partner. cbn [CMember VRComm]. cbv beta. rewrite ?Htg, ?Htr'.
    destruct (@vcvr_partner (DGrid A) Hg (DRowAlign A) (DRowAlign this) v) as (Hu & Hvr & _ & _);
      [unfold GSize; nia | unfold GSize; nia | done |].
    rewrite Hvr, (@VRToVC_VRRank _ Hg) by done.
    rewrite Scatter_recv_at by first [reflexivity | lia].
    cbn [CMember CRank RowComm]. rewrite ?Hta.
    assert (Hj' : 0 <= jLoc < Length (DWidth A) (Shift (VRRank (DGrid A) v) (DRowAlign this) (GSize (DGrid A)))
                                (GSize (DGrid A))) by (unfold GSize; exact Hj).
    pose proof (fun buf => row_source_value v jLoc buf Hv Hj') as Hsrc. cbv zeta in Hsrc.
    rewrite decide_True by apply (Hsrc (LBuf (DLocal A 0))).
    rewrite (proj2 (proj2 (proj2 (proj2 (Hsrc _))))). unfold GSize. done.
  - exfalso. rewrite ?Htg, ?Hta, ?Htr' in HS. unfold SendRecv in HS.
    rewrite (proj2 (sendrecv_ok_spec (GSize (DGrid A)) (VRComm (DGrid A)) _ _ _ _)) in HS; [discriminate |].
    intros q Hq. unfold partner. cbn [CMember VRComm].
    destruct (@vcvr_partner (DGrid A) Hg (DRowAlign A) (DRowAlign this) q) as (Hu & Hvr & _ & Hback);
      [unfold GSize; nia | unfold GSize; nia | done |].
    rewrite Hvr, (@VRToVC_VRRank _ Hg) by done.
    split; [exact Hback | lia].
Qed.
End RowRefines.

Lemma MRMCColumn_meta {T} `{Padding} (A t B : DM T) :
  MRMCColumn A t = Some B -> DHeight B = DHeight t /\ DWidth B = DWidth t.
Proof. unfold MRMCColumn. cbv zeta. destruct (SendRecv _ _ _ _ _ _ _ _ _); intros; simplify_eq; done. Qed.

Lemma MRMCRow_meta {T} `{Padding} (A t B : DM T) :
  MRMCRow A t = Some B -> DHeight B = DHeight t /\ DWidth B = DWidth t.
Proof. unfold MRMCRow. cbv zeta. destruct (SendRecv _ _ _ _ _ _ _ _ _); intros; simplify_eq; done. Qed.

Section MRMCRefines.
Context {T : Type} `{Padding} `{Redistribute T} `{!RedistributeLaws T}.
Context (A this : DM T) (M : Z -> Z -> T) (HsA : src_wf A) (HcA : DColDist A = MR) (HrA : DRowDist A = MC).
Context (HA : holds A M).
Context (Hgt : DGrid this = DGrid A) (Hct : DColDist this = MC) (Hrt : DRowDist this = MR).
Context (Hca' : 0 <= DColAlign this < GHeight (DGrid A)) (Hra' : 0 <= DRowAlign this < GWidth (DGrid A)).

(** The proof of the operator's refinement, branch by branch. *)
Lemma AssignFromMRMC_correct :
  exists B, AssignFromMRMC A this = Some B /\ holds B M /\ DHeight B = DHeight A /\ DWidth B = DWidth A.
Proof.
  pose proof HsA as ((Hg & Hm & Hn & Hca & Hra & _) & _). pose proof Hg as [Hr Hc].
  unfold ColStride, RowStride in Hca, Hra. rewrite HcA in Hca. rewrite HrA in Hra. cbn in Hca, Hra.
  unfold AssignFromMRMC. cbv zeta.
  set (t := Resize (DHeight A) (DWidth A) this).
  assert (Htm : DGrid t = DGrid A /\ DColDist t = MC /\ DRowDist t = MR /\ DHeight t = DHeight A /\
    DWidth t = DWidth A /\ DColAlign t = DColAlign this /\ DRowAlign t = DRowAlign this) by (subst t; cbn; done).
  destruct Htm as (Htg & Htc & Htr & Hth & Htw & Hta & Htr').
  case_decide as Hw1; [| case_decide as Hh1; [| case_decide as Hwh]].
  - destruct (MRMCColumn_correct A this M) as (B & HB & HBM); try assumption.
    exists B. destruct (MRMCColumn_meta _ _ _ HB). do 2 (split; [done |]). fold t in H1, H2. lia.
  - destruct (MRMCRow_correct A this M) as (B & HB & HBM); try assumption.
    exists B. destruct (MRMCRow_meta _ _ _ HB). do 2 (split; [done |]). fold t in H1, H2. lia.
  - assert (Ha : 0 <= DColAlign t < DistStride (DGrid this) (AxisDist VC STAR))
      by (unfold AxisDist; rewrite decide_False by done; cbn; rewrite Hgt; unfold GSize; nia).
    destruct (Convert_spec VR STAR A M) as (Hs1 & Hc1 & Hr1 & Hg1 & Hh1' & Hw1' & H1); try done.
    destruct (ConvertAligned_spec VC STAR (DColAlign t) (DGrid this) (Convert VR STAR A) M)
      as (Hs2 & Hc2 & Hr2 & Hg2 & Hh2 & Hw2 & Ha2 & H2); try done; [by rewrite Hgt |].
    rewrite Hta in Hs2, Hc2, Hr2, Hg2, Hh2, Hw2, Ha2, H2.
    apply (via_VCStar A t M); rewrite ?Htg, ?Hta; try done; try lia.
    all: rewrite ?Hg2, ?Hh2, ?Hw2; done.
  - assert (Ha : 0 <= DRowAlign t < DistStride (DGrid this) (AxisDist STAR VR))
      by (unfold AxisDist; rewrite decide_True by done; cbn; rewrite Hgt; unfold GSize; nia).
    destruct (Convert_spec STAR VC A M) as (Hs1 & Hc1 & Hr1 & Hg1 & Hh1' & Hw1' & H1); try done.
    destruct (ConvertAligned_spec STAR VR (DRowAlign t) (DGrid this) (Convert STAR VC A) M)
      as (Hs2 & Hc2 & Hr2 & Hg2 & Hh2 & Hw2 & Ha2 & H2); try done; [by rewrite Hgt |].
    rewrite Htr' in Hs2, Hc2, Hr2, Hg2, Hh2, Hw2, Ha2, H2.
    assert (HV : exists B, AssignFromStarVR (ConvertAligned STAR VR (DRowAlign this) (DGrid this)
      (Convert STAR VC A)) t = Some B /\ holds B M /\ DHeight B = DHeight A /\ DWidth B = DWidth A).
    { apply (via_StarVR A t M); rewrite ?Htg, ?Htr'; try done; try lia.
      all: rewrite ?Hg2, ?Hh2, ?Hw2; done. }
    destruct HV as (B & HB & HBM & HBh & HBw). rewrite Htr'.
    rewrite HB. eexists. split; [reflexivity |]. rewrite Hh2, Hw2, Hh1', Hw1', <- HBh, <- HBw.
    split; [by apply Resize_holds | done].
Qed.

(** [C10] [[MC,MR] = [MR,MC]] preserves the matrix on each of its four
    paths: the column-vector fast path (pack on the owning mesh row,
    [Scatter], [SendRecv] from [[VR,*]] to [[VC,*]], [Gather] onto the
    owning mesh column), the transposed row-vector path, and the two
    staged paths through the linearized distributions, whenever the
    conversions outside [src/] meet [RedistributeLaws]. *)
Theorem AssignFromMRMC_holds :
  exists B, AssignFromMRMC A this = Some B /\ holds B M /\ DHeight B = DHeight A /\ DWidth B = DWidth A.
Proof. exact AssignFromMRMC_correct. Qed.
End MRMCRefines.

(** A 5 x 1 column of [Mat44]'s formula as [[MR,MC]] on the 2 x 3 mesh
    with alignments (2,1), assigned to an [[MC,MR]] matrix aligned (1,2):
    the column-vector fast path. *)
Lemma AssignFromMRMC_holds_witness :
  exists B, @AssignFromMRMC Z _ RefRedistribute (FromGlobal grid23 MR MC 2 1 0 5 1 Mat44)
              (Align 1 2 (FromGlobal grid23 MC MR 0 0 0 0 0 Mat44)) = Some B /\
            holds B Mat44 /\ DHeight B = 5 /\ DWidth B = 1.
Proof.
  apply (@AssignFromMRMC_holds Z _ RefRedistribute RefRedistribute_laws); try reflexivity; try (cbn; lia).
  - apply FromGlobal_wf; cbn; try done; lia.
  - apply holds_FromGlobal.
Defined.

(** On that run the owning mesh column is column 2: process 4 (row 0)
    holds rows 1 and 3 (MC shift 1 under alignment 1), process 5 rows
    0, 2 and 4; the other processes hold no column. *)
Example AssignFromMRMC_column_run :
  match @AssignFromMRMC Z _ RefRedistribute (FromGlobal grid23 MR MC 2 1 0 5 1 Mat44)
          (Align 1 2 (FromGlobal grid23 MC MR 0 0 0 0 0 Mat44)) with
  | Some B =>
      (LWidth (DLocal B 0), Entry (DLocal B 4) 0 0, Entry (DLocal B 4) 1 0,
       Entry (DLocal B 5) 0 0, Entry (DLocal B 5) 2 0) = (0, 4, 12, 0, 16)
  | None => False
  end.
Proof. vm_compute. reflexivity. Qed.
