(* ===== verification/McMrTrans.v ===== *)
(** * McMrTrans: [[MC,MR]::TransposeFrom] ([src/core/dist_matrix/mc_mr.cpp], lines 1000-1085)

    [B.TransposeFrom(A, conjugate)] makes the [[MC,MR]] matrix [B] stand
    for the (conjugate) transpose of [A].  From a [[*,MC]] matrix the rows
    of [B] are the columns of [A]: when [B]'s column alignment follows
    [A]'s row alignment, every process already holds the columns of [A]
    it needs and copies them transposed (lines 1013-1031); otherwise
    ([B]'s column alignment is constrained) each process packs the part
    of its [A] columns that a partner of its mesh column needs, trades it
    by one [SendRecv] over the column communicator and unpacks it
    (lines 1032-1084).  The theorem: the aligned path always yields the
    transpose.  On the unaligned path the pack and the unpack disagree on
    the column stride (line 1064); the example at the end of the file
    runs it where the local widths differ and the result is wrong.

    [Conj] is the scalar conjugation of [T] (the identity on real types). *)

From stdpp Require Import base decidable numbers list.
From Stdlib Require Import ZArith Lia.
From S2P Require Import Prelude Indexing Grid Mpi Scratch DistMatrix.

Open Scope Z_scope.

Section Transpose.
Context {T : Type} (Conj : T -> T).

(** [conjugate ? Conj(x) : x] *)
Definition op (conjugate : bool) (x : T) : T := if conjugate then Conj x else x.

(** The aligned copy (lines 1023-1031): column [jLoc] of the local
    matrix is row [rowShift + jLoc*rowStride] of [A]'s local matrix. *)
Definition TransStarMCLocal (conjugate : bool) (LA : Local T) (rowShift rowStride : Z)
    (L : Local T) : Local T :=
  mkLocal (LHeight L) (LWidth L) (LDim L)
    (StridedMap (op conjugate) (LBuf L) 0 1 (LDim L) (LBuf LA) rowShift (LDim LA) rowStride
       (LHeight L) (LWidth L)).

(** The pack of the unaligned path (lines 1058-1069): the [localWidthA]
    entries of column [jLoc] go to [sendBuf[jLoc*localWidth]]. *)
Definition TransStarMCPack (conjugate : bool) (LA : Local T) (rowShift rowStride localWidth : Z)
    (sendBuf : mem T) : mem T :=
  StridedMap (op conjugate) sendBuf 0 1 localWidth (LBuf LA) rowShift (LDim LA) rowStride
    (LWidth LA) localWidth.

(** The unpack (lines 1076-1082): [MemCopy] of column [jLoc] from
    [recvBuf[jLoc*localHeight]]. *)
Definition TransStarMCUnpack (recvBuf : mem T) (recvOff : Z) (L : Local T) : Local T :=
  mkLocal (LHeight L) (LWidth L) (LDim L)
    (CopyCols (LBuf L) 0 (LDim L) recvBuf recvOff (LHeight L) (LHeight L) (LWidth L)).

(** [DistMatrix<T,MC,MR>::TransposeFrom( const DistMatrix<T,STAR,MC>& A, bool conjugate )]:
    [None] when the exchange of the unaligned path cannot complete. *)
Definition TransposeFromStarMC (A this : DM T) (conjugate : bool) : option (DM T) :=
  let t := AlignColsAndResize (DRowAlign A) (DWidth A) (DHeight A) this in
  let g := DGrid t in
  if decide (DColAlign t = DRowAlign A) then
    Some (with_local (fun q =>
      if Participating t q then TransStarMCLocal conjugate (DLocal A q) (RowShift t q) (RowStride t) (DLocal t q)
      else DLocal t q) (DAux t) t)
  else
    let colStride := ColStride t in
    let colAlign := DColAlign t in
    let rowAlignA := DRowAlign A in
    let sendRank q := (ColRank t q + colStride + colAlign - rowAlignA) `rem` colStride in
    let recvRank q := (ColRank t q + colStride + rowAlignA - colAlign) `rem` colStride in
    let sendSize q := LWidth (DLocal A q) * LWidth (DLocal t q) in
    let recvSize q := LHeight (DLocal t q) * LWidth (DLocal t q) in
    let aux q := Require (sendSize q + recvSize q) (DAux t q) in
    (* sendBuf = auxBuf[0..sendSize), recvBuf = auxBuf[sendSize..) *)
    let W0 q := TransStarMCPack conjugate (DLocal A q) (RowShift t q) (RowStride t)
                  (LWidth (DLocal t q)) (AuxMem (aux q)) in
    match SendRecv (GSize g) (ColComm g) W0 (fun _ => 0) sendSize sendRank sendSize recvSize recvRank with
    | None => None
    | Some W1 =>
        Some (with_local
          (fun q => if Participating t q then TransStarMCUnpack (W1 q) (sendSize q) (DLocal t q)
                    else DLocal t q)
          (fun q => if Participating t q then Release (SetAuxMem (W1 q) (aux q)) else DAux t q) t)
    end.
End Transpose.

Section TransRefines.
Context {T : Type} (Conj : T -> T) (A this : DM T) (M : Z -> Z -> T).
Context (Hg : GridWf (DGrid A)) (HcA : DColDist A = STAR) (HrA : DRowDist A = MC).
Context (Hra : 0 <= DRowAlign A < GHeight (DGrid A)) (Hm : 0 <= DHeight A) (Hn : 0 <= DWidth A).
Context (HA : holds A M).
Context (Hgt : DGrid this = DGrid A) (Hct : DColDist this = MC) (Hrt : DRowDist this = MR).
Context (Hca' : 0 <= DColAlign this < GHeight (DGrid A)) (Hra' : 0 <= DRowAlign this < GWidth (DGrid A)).

Let t := AlignColsAndResize (DRowAlign A) (DWidth A) (DHeight A) this.

(** The target after [AlignColsAndResize]: the transposed size, and a
    column alignment that follows [A]'s row alignment unless it is
    fixed. *)
Lemma tr_target_meta :
  DGrid t = DGrid A /\ DColDist t = MC /\ DRowDist t = MR /\
  DHeight t = DWidth A /\ DWidth t = DHeight A /\
  0 <= DColAlign t < GHeight (DGrid A) /\ 0 <= DRowAlign t < GWidth (DGrid A) /\
  DColAlign t = (if DViewing this || DColConstrained this then DColAlign this else DRowAlign A) /\
  forall q, Participating t q = true /\
    LHeight (DLocal t q) = LocalHeight t q /\ LWidth (DLocal t q) = LocalWidth t q /\
    LHeight (DLocal t q) <= LDim (DLocal t q).
Proof.
  unfold t, AlignColsAndResize.
  destruct (AlignAndResize_meta (DRowAlign A) (DRowAlign this) (DWidth A) (DHeight A) this)
    as (Htg & Htc & Htr & Hth & Htw & _ & _ & _ & Htca & Htra).
  rewrite Htg, Htc, Htr, Hth, Htw, Htca, Htra, Hgt, Hct, Hrt. do 5 (split; [done |]).
  split; [destruct (DViewing this || DColConstrained this); lia |].
  split; [destruct (DViewing this || DRowConstrained this); lia |]. split; [done |].
  intros q. assert (HP : Participating (AlignAndResize (DRowAlign A) (DRowAlign this)
    (DWidth A) (DHeight A) this) q = true) by (unfold Participating; by rewrite Htc, Hct).
  split; [done |]. destruct (AlignAndResize_local _ _ _ _ this q HP) as (? & ? & ? & _). done.
Qed.

(** The local matrix of [A] on process [q]: every row, and the columns
    of [MC] shift [Shift (row q) rowAlignA r]. *)
Lemma tr_A_local q :
  0 <= q < GSize (DGrid A) ->
  let s := Shift (GRow (DGrid A) q) (DRowAlign A) (GHeight (DGrid A)) in
  LHeight (DLocal A q) = DHeight A /\ LWidth (DLocal A q) = Length (DWidth A) s (GHeight (DGrid A)) /\
  forall i j, 0 <= i < DHeight A -> 0 <= j < LWidth (DLocal A q) ->
    LBuf (DLocal A q) (i + j * LDim (DLocal A q)) = M i (s + j * GHeight (DGrid A)).
Proof.
  intros Hq s. destruct (HA q Hq) as (Hh & Hw & _ & He); [unfold Participating; by rewrite HcA |].
  unfold LocalHeight, LocalWidth, ColShift, RowShift, ColRank, RowRank, ColStride, RowStride in *.
  rewrite HcA, HrA in *. cbn [DistStride DistRank default id] in *.
  rewrite Shift_stride1 in Hh, He. rewrite Length_stride1 in Hh by done.
  split; [done | split; [done |]]. intros i j Hi Hj.
  specialize (He i j ltac:(lia) ltac:(lia)). unfold Entry in He. rewrite He. f_equal; lia.
Qed.

(** The shifts, strides and local sizes of the target on process [q]. *)
Lemma tr_shifts q :
  0 <= q ->
  ColStride t = GHeight (DGrid A) /\ RowStride t = GWidth (DGrid A) /\ ColRank t q = GRow (DGrid A) q /\
  ColShift t q = Shift (GRow (DGrid A) q) (DColAlign t) (GHeight (DGrid A)) /\
  RowShift t q = Shift (GCol (DGrid A) q) (DRowAlign t) (GWidth (DGrid A)) /\
  0 <= ColShift t q < GHeight (DGrid A) /\ 0 <= RowShift t q < GWidth (DGrid A) /\
  LocalHeight t q = Length (DWidth A) (ColShift t q) (GHeight (DGrid A)) /\
  LocalWidth t q = Length (DHeight A) (RowShift t q) (GWidth (DGrid A)).
Proof.
  intros Hq. pose proof Hg as [Hr Hc].
  destruct tr_target_meta as (Htg & Htc & Htr & Hth & Htw & Hta & Htra & _).
  unfold LocalHeight, LocalWidth, ColShift, RowShift, ColRank, RowRank, ColStride, RowStride.
  rewrite Htg, Htc, Htr, Hth, Htw. cbn [DistStride DistRank default id].
  pose proof (GRow_range (DGrid A) q). assert (0 <= GCol (DGrid A) q) by (apply Z.div_pos; lia).
  do 5 (split; [done |]). split; [| split; [| done]]; apply Shift_range; lia.
Qed.

(** Proving that the transpose holds from the values the routine leaves
    in the target's local buffers: local entry [(iLoc,jLoc)] of process
    [q] is global entry [(rowShift + jLoc*c, colShift + iLoc*r)] of [A]. *)
Lemma tr_finish (cj : bool) (loc : Z -> Local T) (aux : Z -> Aux T) :
  (forall q, 0 <= q < GSize (DGrid A) ->
    LHeight (loc q) = LHeight (DLocal t q) /\ LWidth (loc q) = LWidth (DLocal t q) /\
    LDim (loc q) = LDim (DLocal t q) /\
    forall iLoc jLoc, 0 <= iLoc < LHeight (DLocal t q) -> 0 <= jLoc < LWidth (DLocal t q) ->
      LBuf (loc q) (iLoc + jLoc * LDim (DLocal t q)) =
      op Conj cj (M (RowShift t q + jLoc * GWidth (DGrid A)) (ColShift t q + iLoc * GHeight (DGrid A)))) ->
  holds (with_local loc aux t) (fun i j => op Conj cj (M j i)).
Proof.
  intros H. apply holds_with_local. intros q Hq _.
  destruct tr_target_meta as (Htg & _ & _ & _ & _ & _ & _ & _ & Hloc). rewrite Htg in Hq.
  destruct (H q Hq) as (Hh & Hw & Hd & He). destruct (Hloc q) as (_ & Hh' & Hw' & Hld).
  destruct (tr_shifts q ltac:(lia)) as (Hcs & Hrs & _ & _).
  rewrite Hh, Hw, Hd, Hcs, Hrs. do 3 (split; [done |]).
  intros iLoc jLoc Hi Hj. unfold Entry. rewrite Hd. by apply He.
Qed.

(** Where the alignments agree the columns of [A] a process holds are
    the rows of the target it holds: the copy needs no communication. *)
Lemma TransposeFromStarMC_aligned_correct (cj : bool) :
  DColAlign t = DRowAlign A ->
  exists B, TransposeFromStarMC Conj A this cj = Some B /\
    holds B (fun i j => op Conj cj (M j i)) /\ DHeight B = DWidth A /\ DWidth B = DHeight A.
Proof.
  intros Hal. pose proof Hg as [Hr Hc].
  destruct tr_target_meta as (Htg & _ & _ & Hth & Htw & _ & _ & _ & Hloc).
  unfold TransposeFromStarMC. fold t. rewrite decide_True by done.
  eexists. split; [reflexivity |]. split; [| done]. apply tr_finish. intros q Hq.
  destruct (Hloc q) as (HP & Hh & Hw & Hld). rewrite HP. cbn [TransStarMCLocal LHeight LWidth LDim LBuf].
  do 3 (split; [done |]). intros iLoc jLoc Hi Hj.
  destruct (tr_shifts q ltac:(lia)) as (_ & Hrs & _ & Hcs & _ & Hcr & Hrr & Hlh & Hlw).
  destruct (tr_A_local q Hq) as (HAh & HAw & HAe).
  replace (iLoc + jLoc * LDim (DLocal t q)) with (0 + iLoc + jLoc * LDim (DLocal t q)) by lia.
  rewrite StridedMap_spec, Hrs by lia.
  rewrite Hh, Hlh in Hi. rewrite Hw, Hlw in Hj. rewrite Hal in Hcs. rewrite Hcs in Hi |- *.
  replace (RowShift t q + iLoc * LDim (DLocal A q) + jLoc * GWidth (DGrid A))
    with (RowShift t q + jLoc * GWidth (DGrid A) + iLoc * LDim (DLocal A q)) by lia.
  rewrite HAe; [done | split; [nia |] | rewrite HAw; lia].
  exact (proj1 (local_global _ Hc (DHeight A) _ jLoc Hrr ltac:(lia)) (proj2 Hj)).
Qed.

(** [C11] [TransposeFrom] from [[*,MC]] on its aligned path: when the
    target's column alignment can follow [A]'s row alignment (the target
    is neither a view nor column-constrained) or already equals it, every
    process copies its columns of [A] into its rows of the target, and
    the target stands for the (conjugate) transpose of [A]'s matrix. *)
Theorem TransposeFromStarMC_aligned_holds (cj : bool) :
  ((DViewing this || DColConstrained this) = false \/ DColAlign this = DRowAlign A) ->
  exists B, TransposeFromStarMC Conj A this cj = Some B /\
    holds B (fun i j => op Conj cj (M j i)) /\ DHeight B = DWidth A /\ DWidth B = DHeight A.
Proof.
  intros H. apply TransposeFromStarMC_aligned_correct.
  destruct tr_target_meta as (_ & _ & _ & _ & _ & _ & _ & -> & _).
  destruct (DViewing this || DColConstrained this); destruct H; done.
Qed.

End TransRefines.

(** A 5 x 4 matrix as [[*,MC]] with row alignment 1 on the 2 x 3 mesh,
    conjugate-transposed (conjugation [Z.opp]) into an unconstrained
    [[MC,MR]] matrix. *)
Lemma TransposeFromStarMC_aligned_holds_witness :
  exists B, TransposeFromStarMC Z.opp (FromGlobal grid23 STAR MC 0 1 0 5 4 Mat44)
              (FromGlobal grid23 MC MR 0 2 0 0 0 Mat44) true = Some B /\
            holds B (fun i j => op Z.opp true (Mat44 j i)) /\ DHeight B = 4 /\ DWidth B = 5.
Proof.
  apply (TransposeFromStarMC_aligned_holds Z.opp (FromGlobal grid23 STAR MC 0 1 0 5 4 Mat44)
           (FromGlobal grid23 MC MR 0 2 0 0 0 Mat44) Mat44);
    try solve [cbn; lia | reflexivity | split; cbn; lia | apply holds_FromGlobal | left; reflexivity].
Defined.

(** The unaligned path when the widths differ (the pack-stride defect of
    line 1064): a 3 x 2 [[*,MC]] matrix
    on the 2 x 1 mesh transposed into a 2 x 3 [[MC,MR]] matrix
    constrained to column alignment 1.  Each process packs its single
    entry per column at stride 3 but the partner reads the columns at
    stride 1, so it gets one entry of [A] and two words of the scratch
    buffer (here [-1]): the target does not stand for the transpose. *)
Example TransposeFromStarMC_unaligned_breaks :
  exists B, TransposeFromStarMC id (FromGlobal grid21 STAR MC 0 0 0 3 2 Mat44)
              (AlignCols 1 (FromGlobal grid21 MC MR 0 0 0 0 0 (fun _ _ => -1))) false = Some B /\
            Entry (DLocal B 0) 0 1 = -1 /\ ~ holds B (fun i j => op id false (Mat44 j i)).
Proof.
  eexists. split; [reflexivity |]. split; [vm_compute; reflexivity |]. intros H.
  destruct (H 0 ltac:(vm_compute; done) eq_refl) as (_ & _ & _ & He).
  specialize (He 0 1 ltac:(split; [lia | vm_compute; reflexivity]) ltac:(split; [lia | vm_compute; reflexivity])). vm_compute in He. discriminate.
Qed.

