(* ===== verification/Kernels.v ===== *)
(** * Kernels: the interface of the dense kernels the factorization drivers call

    [SymmetricInverse] ([src/src/lapack-like/funcs/Inverse/Symmetric.cpp])
    and [Skeleton] ([src/src/lapack-like/factor/Skeleton.cpp]) are drivers:
    they allocate temporaries and call dense kernels ([LDL], [QR],
    [Gemm], [Pseudoinverse], the permutations, ...) that are outside
    [src/] and out of the specification's scope.  The kernels are a class
    [Kernels] over an abstract matrix type [Mat] and permutation type
    [Perm] (the code instantiates it twice: [Matrix<F>] with
    [Matrix<Int>], and [DistMatrix<F>] with its permutation vectors); a
    kernel that receives operands of the wrong shapes aborts with a fatal
    error ([Nonconformal]).  [KernelLaws] states the shapes each kernel
    returns and the shapes it accepts; [ShapeKernels] is a reference
    instance (a matrix is its shape) that meets them.  A driver is a
    computation in the [Result] monad of fatal errors. *)

From stdpp Require Import base decidable numbers list.
From Stdlib Require Import ZArith Lia.
From S2P Require Import Prelude DistMatrix.

Open Scope Z_scope.

(** [Result] as a monad: [x ← m; k] runs [k] on [m]'s value and stops at
    the first fatal error. *)
#[export] Instance Result_ret : MRet Result := fun _ a => Ok a.
#[export] Instance Result_bind : MBind Result :=
  fun _ _ f m => match m with Ok a => f a | Fatal e => Fatal e end.

(** The enumerations of Elemental's headers the drivers pass along. *)
Inductive Orientation := NORMAL | TRANSPOSE | ADJOINT.
Inductive UpperOrLower := LOWER | UPPER.
Inductive UnitOrNonUnit := UNIT | NON_UNIT.
(** The pivoting strategies of [LDL] ([ElLDLPivotType] of [factor-C.h]). *)
Inductive LDLPivotType :=
  BUNCH_KAUFMAN_A | BUNCH_KAUFMAN_C | BUNCH_KAUFMAN_D | BUNCH_KAUFMAN_BOUNDED | BUNCH_PARLETT.

#[export] Instance Orientation_eq_dec : EqDecision Orientation.
Proof. solve_decision. Defined.
#[export] Instance UpperOrLower_eq_dec : EqDecision UpperOrLower.
Proof. solve_decision. Defined.

(** [QRCtrl<Real>], the controls of the pivoted QR, with the fields of
    its C mirror [ElQRCtrl_s]/[ElQRCtrl_d] ([factor-C.h]; [tol] is a
    real). *)
Record QRCtrl (Real : Type) := mkQRCtrl {
  QRBoundRank : bool; QRMaxRank : Z; QRAdaptive : bool; QRTol : Real;
  QRAlwaysRecomputeNorms : bool }.
Arguments mkQRCtrl {Real}.
Arguments QRBoundRank {Real}. Arguments QRMaxRank {Real}.
Arguments QRAdaptive {Real}. Arguments QRTol {Real}. Arguments QRAlwaysRecomputeNorms {Real}.

(** The kernels, as the drivers call them (each overwrites or resizes
    its output argument; here it returns it). *)
Class Kernels (F Real Mat Perm : Type) := {
  height : Mat -> Z;
  width : Mat -> Z;
  plength : Perm -> Z;
  (** [Adjoint( A, B )]: [B := A^H]. *)
  adjoint : Mat -> Mat;
  (** [QR( A, p, ctrl )]: overwrites [A] with its factors, fills the
      column permutation [p], returns the number of steps taken. *)
  qr : QRCtrl Real -> Mat -> Mat * Perm * Z;
  (** [InversePermuteCols( A, p )]. *)
  inversePermuteCols : Mat -> Perm -> Result Mat;
  (** [A.Resize( h, w )]. *)
  resize : Mat -> Z -> Z -> Mat;
  (** [Pseudoinverse( A )]. *)
  pseudoinverse : Mat -> Mat;
  (** [Gemm( orientA, orientB, alpha, A, B, C )]: [C := alpha op(A) op(B)]. *)
  gemm : Orientation -> Orientation -> F -> Mat -> Mat -> Result Mat;
  (** [LDL( A, dSub, p, conjugate, pivotType )]: the factors overwrite
      [A], the subdiagonal of the block-diagonal factor goes to [dSub]. *)
  ldl : bool -> LDLPivotType -> Mat -> Result (Mat * Mat * Perm);
  (** [TriangularInverse( uplo, diag, A )]. *)
  triangularInverse : UpperOrLower -> UnitOrNonUnit -> Mat -> Result Mat;
  (** [Trdtrmm( uplo, A, dSub, conjugate )]. *)
  trdtrmm : UpperOrLower -> Mat -> Mat -> bool -> Result Mat;
  (** [InvertPermutation( p, pInv )]. *)
  invertPermutation : Perm -> Perm;
  (** [MakeSymmetric( uplo, A, conjugate )]. *)
  makeSymmetric : UpperOrLower -> Mat -> bool -> Result Mat;
  (** [PermuteRows( A, pInv, p )] and [PermuteCols( A, pInv, p )]. *)
  permuteRows : Mat -> Perm -> Perm -> Result Mat;
  permuteCols : Mat -> Perm -> Perm -> Result Mat }.

(** The rows and columns of [op(A)]. *)
Definition opRows `{Kernels F Real Mat Perm} (o : Orientation) (A : Mat) : Z :=
  if decide (o = NORMAL) then height A else width A.
Definition opCols `{Kernels F Real Mat Perm} (o : Orientation) (A : Mat) : Z :=
  if decide (o = NORMAL) then width A else height A.

(** [A] has shape [h x w]. *)
Definition Shape `{Kernels F Real Mat Perm} (A : Mat) (h w : Z) : Prop := height A = h /\ width A = w.

(** A kernel of shape contract: [Ok] with a result of the given shape when
    its operands conform, [Fatal Nonconformal] otherwise. *)
Definition Contract {M} (shape : M -> Prop) (ok : Prop) (r : Result M) : Prop :=
  (ok -> exists x, r = Ok x /\ shape x) /\ (~ ok -> r = Fatal Nonconformal).

(** The shape laws of the kernels. *)
Class KernelLaws (F Real Mat Perm : Type) `{!Kernels F Real Mat Perm} : Prop := {
  shape_nonneg A : 0 <= height A /\ 0 <= width A;
  plength_nonneg p : 0 <= plength p;
  adjoint_shape A : Shape (adjoint A) (width A) (height A);
  qr_shape c A :
    let '(A', p, k) := qr c A in
    Shape A' (height A) (width A) /\ plength p = width A /\
    0 <= k <= Z.min (height A) (width A) /\
    (QRBoundRank c = true -> 0 <= QRMaxRank c -> k <= QRMaxRank c);
  inversePermuteCols_contract A p :
    Contract (fun B => Shape B (height A) (width A)) (plength p = width A) (inversePermuteCols A p);
  resize_shape A h w : 0 <= h -> 0 <= w -> Shape (resize A h w) h w;
  pseudoinverse_shape A : Shape (pseudoinverse A) (width A) (height A);
  gemm_contract oA oB alpha A B :
    Contract (fun C => Shape C (opRows oA A) (opCols oB B)) (opCols oA A = opRows oB B)
      (gemm oA oB alpha A B);
  ldl_contract c piv A :
    Contract (fun '(A', d, p) => Shape A' (height A) (width A) /\
                Shape d (Z.max 0 (height A - 1)) 1 /\ plength p = height A)
      (height A = width A) (ldl c piv A);
  triangularInverse_contract uplo diag A :
    Contract (fun B => Shape B (height A) (width A)) (height A = width A) (triangularInverse uplo diag A);
  trdtrmm_contract uplo A d c :
    Contract (fun B => Shape B (height A) (width A))
      (height A = width A /\ Shape d (Z.max 0 (height A - 1)) 1) (trdtrmm uplo A d c);
  invertPermutation_length p : plength (invertPermutation p) = plength p;
  makeSymmetric_contract uplo A c :
    Contract (fun B => Shape B (height A) (width A)) (height A = width A) (makeSymmetric uplo A c);
  permuteRows_contract A pInv p :
    Contract (fun B => Shape B (height A) (width A))
      (plength pInv = height A /\ plength p = height A) (permuteRows A pInv p);
  permuteCols_contract A pInv p :
    Contract (fun B => Shape B (height A) (width A))
      (plength pInv = width A /\ plength p = width A) (permuteCols A pInv p) }.

(** ** Reasoning about a driver through the contracts

    [Returns shape r]: [r] returns a value of shape [shape].  A driver is
    a chain of binds; each kernel call whose operands conform is replaced
    by its contract's result ([Contract_bind_Returns]), and a call whose
    operands do not conform stops the chain ([Contract_bind_fail]). *)
Definition Returns {M} (shape : M -> Prop) (r : Result M) : Prop :=
  exists x, r = Ok x /\ shape x.

Lemma Contract_Returns {M} (shape shape' : M -> Prop) (ok : Prop) (r : Result M) :
  Contract shape ok r -> ok -> (forall x, shape x -> shape' x) -> Returns shape' r.
Proof. intros [Hok _] Ho Himp. destruct (Hok Ho) as (x & -> & Hx). exists x. auto. Qed.

Lemma Contract_bind_Returns {M N} (shape : M -> Prop) (ok : Prop) (r : Result M)
    (k : M -> Result N) (Q : N -> Prop) :
  Contract shape ok r -> ok -> (forall x, shape x -> Returns Q (k x)) -> Returns Q (r ≫= k).
Proof. intros [Hok _] Ho Hk. destruct (Hok Ho) as (x & -> & Hx). by apply Hk. Qed.

Lemma Contract_bind_fail {M N} (shape : M -> Prop) (ok : Prop) (r : Result M) (k : M -> Result N) :
  Contract shape ok r -> ~ ok -> r ≫= k = Fatal Nonconformal.
Proof. intros [_ Hfail] Hn. by rewrite (Hfail Hn). Qed.

Lemma Returns_ret {M} (Q : M -> Prop) (x : M) : Q x -> Returns Q (Ok x).
Proof. intros HQ. by exists x. Qed.

(** [B.Resize( h, w )] then [Pseudoinverse( B )]: a [w x h] result. *)
Lemma resize_pseudoinverse_shape `{KernelLaws F Real Mat Perm} (A : Mat) (h w : Z) :
  0 <= h -> 0 <= w -> Shape (pseudoinverse (resize A h w)) w h.
Proof.
  intros Hh Hw. destruct (resize_shape A h w Hh Hw) as [Hh' Hw'].
  unfold Shape in *. destruct (pseudoinverse_shape (resize A h w)) as [-> ->]. by split.
Qed.

(** [op(A)] for the orientations the drivers use. *)
Lemma opRows_NORMAL `{Kernels F Real Mat Perm} (A : Mat) : opRows NORMAL A = height A.
Proof. done. Qed.
Lemma opCols_NORMAL `{Kernels F Real Mat Perm} (A : Mat) : opCols NORMAL A = width A.
Proof. done. Qed.
Lemma opRows_ADJOINT `{Kernels F Real Mat Perm} (A : Mat) : opRows ADJOINT A = width A.
Proof. done. Qed.
Lemma opCols_ADJOINT `{Kernels F Real Mat Perm} (A : Mat) : opCols ADJOINT A = height A.
Proof. done. Qed.

Create HintDb kernels.
#[export] Hint Rewrite @opRows_NORMAL @opCols_NORMAL @opRows_ADJOINT @opCols_ADJOINT
  @invertPermutation_length : kernels.
#[export] Hint Resolve inversePermuteCols_contract gemm_contract ldl_contract
  triangularInverse_contract trdtrmm_contract makeSymmetric_contract
  permuteRows_contract permuteCols_contract : kernels.

(** One kernel call of a driver: its contract, then the side condition
    that its operands conform and the rest of the chain. *)
Ltac kernel_step := eapply Contract_bind_Returns; [eauto with kernels | | ].

(** The side condition of a call: shapes and permutation lengths. *)
Ltac conforms := autorewrite with kernels in *; unfold Shape in *; cbn in *; intuition lia.

(** ** A reference instance: a matrix is its shape

    It shows the laws can be met together, and it runs the drivers'
    scenarios. *)
Definition ShapeMat := (N * N)%type.

Definition shapeOf (h w : Z) : ShapeMat := (Z.to_N h, Z.to_N w).

Definition conform {M} (ok : bool) (x : M) : Result M := if ok then Ok x else Fatal Nonconformal.

#[export] Instance ShapeKernels (F Real : Type) : Kernels F Real ShapeMat N := {
  height A := Z.of_N (fst A);
  width A := Z.of_N (snd A);
  plength p := Z.of_N p;
  adjoint A := (snd A, fst A);
  qr c A :=
    let k := Z.min (Z.of_N (fst A)) (Z.of_N (snd A)) in
    (A, snd A, if QRBoundRank c && bool_decide (0 <= QRMaxRank c) then Z.min k (QRMaxRank c) else k);
  inversePermuteCols A p := conform (bool_decide (Z.of_N p = Z.of_N (snd A))) A;
  resize A h w := shapeOf h w;
  pseudoinverse A := (snd A, fst A);
  gemm oA oB alpha A B :=
    let rows o X := if decide (o = NORMAL) then Z.of_N (fst X) else Z.of_N (snd X) in
    let cols o X := if decide (o = NORMAL) then Z.of_N (snd X) else Z.of_N (fst X) in
    conform (bool_decide (cols oA A = rows oB B)) (shapeOf (rows oA A) (cols oB B));
  ldl c piv A :=
    conform (bool_decide (Z.of_N (fst A) = Z.of_N (snd A))) (A, shapeOf (Z.of_N (fst A) - 1) 1, fst A);
  triangularInverse uplo diag A := conform (bool_decide (Z.of_N (fst A) = Z.of_N (snd A))) A;
  trdtrmm uplo A d c :=
    conform (bool_decide (Z.of_N (fst A) = Z.of_N (snd A) /\
      (Z.of_N (fst d) = Z.max 0 (Z.of_N (fst A) - 1) /\ Z.of_N (snd d) = 1))) A;
  invertPermutation p := p;
  makeSymmetric uplo A c := conform (bool_decide (Z.of_N (fst A) = Z.of_N (snd A))) A;
  permuteRows A pInv p :=
    conform (bool_decide (Z.of_N pInv = Z.of_N (fst A) /\ Z.of_N p = Z.of_N (fst A))) A;
  permuteCols A pInv p :=
    conform (bool_decide (Z.of_N pInv = Z.of_N (snd A) /\ Z.of_N p = Z.of_N (snd A))) A }.

Lemma conform_contract {M} (shape : M -> Prop) (P : Prop) `{Decision P} (x : M) :
  (P -> shape x) -> Contract shape P (conform (bool_decide P) x).
Proof.
  intros Hx. unfold conform. split; intros HP.
  - rewrite bool_decide_eq_true_2 by done. eauto.
  - by rewrite bool_decide_eq_false_2.
Qed.

#[export] Instance ShapeKernels_laws (F Real : Type) : KernelLaws F Real ShapeMat N.
Proof.
  split; unfold Shape, opRows, opCols; cbn.
  - intros [h w]; cbn; lia.
  - intros p; lia.
  - done.
  - intros c [h w]; cbn. destruct (QRBoundRank c), (decide (0 <= QRMaxRank c)) as [E|E];
      rewrite ?bool_decide_eq_true_2, ?bool_decide_eq_false_2 by done; cbn; lia.
  - intros A p. by apply conform_contract.
  - intros A h w Hh Hw. unfold shapeOf. cbn. lia.
  - done.
  - intros oA oB _ A B. apply conform_contract. intros _. unfold shapeOf. cbn.
    destruct (decide (oA = NORMAL)), (decide (oB = NORMAL)); lia.
  - intros _ _ A. apply conform_contract. intros E. unfold shapeOf. cbn. lia.
  - intros _ _ A. by apply conform_contract.
  - intros _ A d _. by apply conform_contract.
  - done.
  - intros _ A _. by apply conform_contract.
  - intros A pInv p. by apply conform_contract.
  - intros A pInv p. by apply conform_contract.
Qed.
