(* ===== verification/SymInverse.v ===== *)
(** * SymInverse: [SymmetricInverse] and [LocalSymmetricInverse]

    [src/src/lapack-like/funcs/Inverse/Symmetric.cpp].  The driver
    inverts a symmetric (or Hermitian, [conjugate]) matrix through its
    pivoted [LDL] factorization: it inverts the unit-lower factor, forms
    [L^-H D^-1 L^-1] in place ([Trdtrmm]), fills both triangles
    ([MakeSymmetric]) and undoes the symmetric pivoting on both sides.
    The [Matrix<F>] and [DistMatrix<F>] overloads make the same calls;
    one definition over the [Kernels] interface models both.  The lemmas
    state the driver's shape contract: every kernel call it makes
    conforms exactly when the input is square.  The kernels are shape
    contracts only, so the order of the calls and the roles of the
    permutations are not pinned by them. *)

From stdpp Require Import base tactics decidable.
From Stdlib Require Import ZArith Lia.
From S2P Require Import Prelude Grid DistMatrix Kernels.

Open Scope Z_scope.

Section SymInverse.
Context {F Real Mat Perm : Type} `{!Kernels F Real Mat Perm}.

(** [SymmetricInverse( uplo, A, conjugate, pivotType )] (lines 14-36 for
    [Matrix<F>], 38-60 for [DistMatrix<F>]; the overwritten [A] is the
    returned matrix). *)
Definition SymmetricInverse (uplo : UpperOrLower) (A : Mat) (conjugate : bool)
    (pivotType : LDLPivotType) : Result Mat :=
  if decide (uplo = LOWER) then
    '(A, dSub, pPerm) ← ldl conjugate pivotType A;
    A ← triangularInverse LOWER UNIT A;
    A ← trdtrmm LOWER A dSub conjugate;
    (* Fill in both triangles of the inverse *)
    let pInvPerm := invertPermutation pPerm in
    A ← makeSymmetric LOWER A conjugate;
    A ← permuteRows A pInvPerm pPerm;
    permuteCols A pInvPerm pPerm
  else Fatal OptionNotSupported.

(** A [DistMatrix<F,STAR,STAR>] as one process sees it: every process
    stores the whole matrix, [A.Matrix()]. *)
Record StarStar := mkStarStar { SSGrid : Grid; SSMatrix : Mat }.

(** [LocalSymmetricInverse( uplo, A, conjugate, pivotType )] (lines
    62-69): each process inverts its own copy. *)
Definition LocalSymmetricInverse (uplo : UpperOrLower) (A : StarStar) (conjugate : bool)
    (pivotType : LDLPivotType) : Result StarStar :=
  B ← SymmetricInverse uplo (SSMatrix A) conjugate pivotType;
  mret (mkStarStar (SSGrid A) B).

End SymInverse.

(** ** The driver's contract *)
Section SymInverseLaws.
Context {F Real Mat Perm : Type} `{KernelLaws F Real Mat Perm}.


Lemma SymmetricInverse_square A conjugate pivotType :
  height A = width A ->
  Returns (fun B => Shape B (height A) (width A)) (SymmetricInverse LOWER A conjugate pivotType).
Proof.
  intros Hsq. unfold SymmetricInverse. rewrite decide_True by done.
  kernel_step; [done |]. intros [[A1 dSub] pPerm] (HA1 & Hd & Hp). cbn.
  kernel_step; [conforms |]. intros A2 HA2.
  kernel_step; [conforms |]. intros A3 HA3.
  kernel_step; [conforms |]. intros A4 HA4.
  kernel_step; [conforms |]. intros A5 HA5.
  eapply Contract_Returns; [eauto with kernels | conforms | intros B HB; conforms].
Qed.

Lemma SymmetricInverse_not_square A conjugate pivotType :
  height A <> width A -> SymmetricInverse LOWER A conjugate pivotType = Fatal Nonconformal.
Proof.
  intros Hne. unfold SymmetricInverse. rewrite decide_True by done.
  eapply Contract_bind_fail; [eauto with kernels | done].
Qed.

(** [LocalSymmetricInverse] keeps the grid and inverts the local copy. *)
Lemma LocalSymmetricInverse_contract A conjugate pivotType :
  Contract (fun B => SSGrid B = SSGrid A /\
                     Shape (SSMatrix B) (height (SSMatrix A)) (width (SSMatrix A)))
    (height (SSMatrix A) = width (SSMatrix A))
    (LocalSymmetricInverse LOWER A conjugate pivotType).
Proof.
  unfold LocalSymmetricInverse. split; intros Hsq.
  - destruct (SymmetricInverse_square (SSMatrix A) conjugate pivotType Hsq) as (B & -> & HB).
    by eexists.
  - by rewrite SymmetricInverse_not_square.
Qed.

End SymInverseLaws.
