(* ===== verification/Skeleton.v ===== *)
(** * Skeleton: the skeleton (CUR) decomposition driver

    [src/src/lapack-like/factor/Skeleton.cpp].  [Skeleton( A, permR,
    permC, Z, ctrl )] chooses rows and columns of [A] by two pivoted QR
    factorizations and forms the small core [Z = pinv(AC) A pinv(AR)]:
    the first QR (of [A^H]) fixes the number of steps [numSteps], the
    second is forced to the same rank ([adaptive := false],
    [boundRank := true], [maxRank := numSteps]).  The [Matrix<F>] and
    [DistMatrix<F>] overloads make the same calls; one definition over
    the [Kernels] interface models both.  The theorem proved: whatever
    the input's shape, every kernel call conforms, and the driver returns
    a row permutation of [A]'s height, a column permutation of its width
    and a square core whose order is the first QR's step count. *)

From stdpp Require Import base tactics decidable.
From Stdlib Require Import ZArith Lia.
From S2P Require Import Prelude DistMatrix Kernels.

Open Scope Z_scope.

Section Skeleton.
Context {F Real Mat Perm : Type} `{!Kernels F Real Mat Perm}.
(** The scalar [F(1)]. *)
Context (F_one : F).

(** [secondCtrl]: [ctrl] with [adaptive := false], [boundRank := true],
    [maxRank := numSteps] (lines 45-48 and 87-90). *)
Definition SecondCtrl (ctrl : QRCtrl Real) (numSteps : Z) : QRCtrl Real :=
  mkQRCtrl true numSteps false (QRTol ctrl) (QRAlwaysRecomputeNorms ctrl).

(** [Skeleton( A, permR, permC, Z, ctrl )] (lines 21-59 for [Matrix<F>],
    61-101 for [DistMatrix<F>]): returns [(permR, permC, Z)]. *)
Definition Skeleton (A : Mat) (ctrl : QRCtrl Real) : Result (Perm * Perm * Mat) :=
  (* Find the row permutation *)
  let B := adjoint A in
  let '(_, permR, numSteps) := qr ctrl B in
  (* Form pinv(AR')=pinv(AR)' *)
  let B := adjoint A in
  B ← inversePermuteCols B permR;
  let B := resize B (height B) numSteps in
  let B := pseudoinverse B in
  (* Form K := A pinv(AR) *)
  K ← gemm NORMAL ADJOINT F_one A B;
  (* Find the column permutation (force the same number of steps) *)
  let B := A in
  let '(_, permC, _) := qr (SecondCtrl ctrl numSteps) B in
  (* Form pinv(AC) *)
  let B := A in
  B ← inversePermuteCols B permC;
  let B := resize B (height B) numSteps in
  let B := pseudoinverse B in
  (* Form Z := pinv(AC) K = pinv(AC) (A pinv(AR)) *)
  Z ← gemm NORMAL NORMAL F_one B K;
  mret (permR, permC, Z).

End Skeleton.

(** ** The driver's contract *)
Section SkeletonLaws.
Context {F Real Mat Perm : Type} `{KernelLaws F Real Mat Perm} (F_one : F).


(** [C33] The skeleton driver is total and its outputs have the documented
    shapes: for every input [A] and control, every kernel call it makes
    receives conforming operands (the adjoint in the first product, the
    resized [numSteps] columns in both pseudoinverses), and it returns a
    row permutation of length [height A], a column permutation of length
    [width A] and a square core [Z] whose order is the step count [k] of
    the first QR, with [k <= min(height A, width A)] and [k] within the
    control's rank bound when [boundRank] is set. *)
Theorem Skeleton_spec A ctrl :
  exists k, k = snd (qr ctrl (adjoint A)) /\ 0 <= k <= Z.min (height A) (width A) /\
    (QRBoundRank ctrl = true -> 0 <= QRMaxRank ctrl -> k <= QRMaxRank ctrl) /\
    Returns (fun '(permR, permC, Z) =>
               plength permR = height A /\ plength permC = width A /\ Shape Z k k)
      (Skeleton F_one A ctrl).
Proof.
  unfold Skeleton. pose proof (qr_shape ctrl (adjoint A)) as Hq.
  destruct (qr ctrl (adjoint A)) as [[B0 permR] k] eqn:Eq.
  destruct Hq as (_ & HpR & Hk & Hbound).
  pose proof (adjoint_shape A) as HAH. pose proof (shape_nonneg A) as HA.
  exists k. split; [done |]. split; [conforms |]. split; [done |].
  kernel_step; [conforms |]. intros B1 HB1.
  pose proof (shape_nonneg B1) as HB1'.
  pose proof (resize_pseudoinverse_shape B1 (height B1) k) as HP1.
  specialize (HP1 ltac:(lia) ltac:(lia)).
  kernel_step; [conforms |]. intros K HK.
  pose proof (qr_shape (SecondCtrl ctrl k) A) as Hq2.
  destruct (qr (SecondCtrl ctrl k) A) as [[B2 permC] k2]. destruct Hq2 as (_ & HpC & _).
  kernel_step; [conforms |]. intros B3 HB3.
  pose proof (shape_nonneg B3) as HB3'.
  pose proof (resize_pseudoinverse_shape B3 (height B3) k) as HP3.
  specialize (HP3 ltac:(lia) ltac:(lia)).
  kernel_step; [conforms |]. intros Z HZ.
  apply Returns_ret. conforms.
Qed.

End SkeletonLaws.

(** ** A scenario on the shape instance [ShapeKernels] *)
Definition ctrl0 : QRCtrl Z := mkQRCtrl false 0 true 0 false.

Lemma Skeleton_spec_witness :
  Skeleton (F:=unit) (Real:=Z) tt ((5,3)%N : ShapeMat) ctrl0 = Ok (5%N, 3%N, (3,3)%N) /\
  exists k, k = 3 /\ 0 <= k <= Z.min 5 3 /\
    (QRBoundRank ctrl0 = true -> 0 <= QRMaxRank ctrl0 -> k <= QRMaxRank ctrl0) /\
    Returns (fun '(permR, permC, Z) => Z.of_N permR = 5 /\ Z.of_N permC = 3 /\
                                     Z.of_N (fst Z) = k /\ Z.of_N (snd Z) = k)
      (Skeleton (F:=unit) (Real:=Z) tt ((5,3)%N : ShapeMat) ctrl0).
Proof.
  split; [reflexivity |].
  exact (Skeleton_spec (F:=unit) (Real:=Z) tt ((5,3)%N : ShapeMat) ctrl0).
Defined.
