(* ===== verification/CrossGrid.v ===== *)
(** * CrossGrid: [[MC,MR] = [MC,MR]] across process grids
    ([src/core/dist_matrix/mc_mr.cpp], lines 1211-1389)

    [CopyFromDifferentGrid] copies an [[MC,MR]] matrix [A] of one grid
    into [this] on another grid.  With strides [r] (this) and [rA] (A) on
    an axis, [g = gcd(r, rA)], [lcm = r*rA/g], the copy runs
    [numColSends x numRowSends] rounds ([numColSends = r/g]).  In round
    [(colSend,rowSend)] every member of [A]'s grid packs its local entries
    [colSend + iLoc*numColSends] (and likewise for columns) and sends them
    to one process of [this]'s grid ([recvRow], [recvCol]); every member of
    [this]'s grid receives, in the order of its two loops, from every
    process of [A]'s grid that targets it, and unpacks each message with
    the local strides [lcm/r].

    The model: a member [q] of [this]'s grid lists its receives of a round
    ([CrossRecvPlan], the loop nest of lines 1339-1376 in its order);
    [CrossRun] performs [q]'s rounds on its local buffer and its scratch
    memory (the pack of its own send, if [q] is also a member of [A]'s
    grid, into [sendBuf = auxBuf[0]], and each receive into [recvBuf]
    followed by its unpack).  The communication of a round is exact
    matching: every receive names a sender whose message of the round is
    addressed to the receiver and has the receive's count, and every
    message is received exactly once ([CrossRoundOk]).  Under exact
    matching the rounds cannot deadlock (the sends are non-blocking and
    waited for after the round's receives, and MPI does not reorder two
    messages of one sender to one receiver), and each receive gets the
    sender's packed entries; otherwise the copy returns [None].  A process
    of [A]'s grid outside [this]'s grid appears only through its messages:
    its own (non-participating) copy of [this] is not part of the state. *)

From stdpp Require Import base decidable numbers list.
From Stdlib Require Import ZArith Lia.
From S2P Require Import Prelude Indexing Grid Mpi Scratch DistMatrix.

Open Scope Z_scope.

(** One receive of a round: the sender's VC rank in [A]'s grid, the size
    of its block, and the block's first local row and column in [this]. *)
Record CrossRecv := mkCrossRecv {
  RSender : Z; RHeight : Z; RWidth : Z; RColOff : Z; RRowOff : Z }.

(** The team index a member of [A]'s grid sends to on one axis in round
    [round]: [recvRow] (lines 1280-1283, 1385-1386), and the same formula
    for [recvCol] (lines 1286-1289, 1382). *)
Definition CrossRecvIndex (stride strideA align alignA rankA round : Z) : Z :=
  for_ 0 round (fun _ recv => (recv + strideA) `rem` stride)
    ((((rankA + strideA - alignA) `rem` strideA) + align) `rem` stride).

(** The receiver's side of one axis (lines 1322-1333): [colShift], the
    shift modulo [colStride] of the senders of the round; the first sender
    [firstSendRow]; and their number [numColRecvs]. *)
Definition CrossRecvShift (stride strideA align rank round : Z) : Z :=
  let recvOffset := (round * strideA + align) `rem` stride in
  (rank + stride - recvOffset) `rem` stride.

Definition CrossFirstSend (stride strideA align alignA rank round : Z) : Z :=
  let sendOffset := (round * strideA + alignA) `rem` strideA in
  (CrossRecvShift stride strideA align rank round + sendOffset) `rem` strideA.

Definition CrossNumRecvs (stride strideA align rank round : Z) : Z :=
  Length strideA (CrossRecvShift stride strideA align rank round) stride.

Section CrossGridOps.
Context {T : Type}.
(** [this->Grid().VCToViewingMap] and the [rankMap] of lines 1256-1263,
    which translates [A]'s VC ranks into viewing ranks. *)
Context (VCToViewing RankMap : Z -> Z).
Implicit Types A t this : DM T.

(** [numColSends = colStride / GCD(colStride,colStrideA)] and
    [colLCM = colStride*colStrideA / colGCD] (lines 1229-1236). *)
Definition NumSends (stride strideA : Z) : Z := stride / Z.gcd stride strideA.
Definition StrideLCM (stride strideA : Z) : Z := stride * strideA / Z.gcd stride strideA.

(** The receives of member [q] of [this]'s grid in round
    [(colSend,rowSend)], in the order of the loops of lines 1339-1376. *)
Definition CrossRecvPlan t A (q colSend rowSend : Z) : list CrossRecv :=
  let colStride := ColStride t in
  let rowStride := RowStride t in
  let colStrideA := ColStride A in
  let rowStrideA := RowStride A in
  let colLCM := StrideLCM colStride colStrideA in
  let rowLCM := StrideLCM rowStride rowStrideA in
  let numColRecvs := CrossNumRecvs colStride colStrideA (DColAlign t) (ColRank t q) colSend in
  let numRowRecvs := CrossNumRecvs rowStride rowStrideA (DRowAlign t) (RowRank t q) rowSend in
  let firstSendRow :=
    CrossFirstSend colStride colStrideA (DColAlign t) (DColAlign A) (ColRank t q) colSend in
  let firstSendCol :=
    CrossFirstSend rowStride rowStrideA (DRowAlign t) (DRowAlign A) (RowRank t q) rowSend in
  snd (for_ 0 numColRecvs (fun _ st =>
    let '(sendRow, acc) := st in
    let sendColShift := Shift sendRow (DColAlign A) colStrideA + colSend * colStrideA in
    let sendHeight := Length (DHeight A) sendColShift colLCM in
    let localColOffset := (sendColShift - ColShift t q) ÷ colStride in
    let acc' := snd (for_ 0 numRowRecvs (fun _ st' =>
      let '(sendCol, acc1) := st' in
      let sendRowShift := Shift sendCol (DRowAlign A) rowStrideA + rowSend * rowStrideA in
      let sendWidth := Length (DWidth A) sendRowShift rowLCM in
      let localRowOffset := (sendRowShift - RowShift t q) ÷ rowStride in
      ((sendCol + rowStride) `rem` rowStrideA,
       acc1 ++ [mkCrossRecv (sendRow + sendCol * colStrideA) sendHeight sendWidth
                  localColOffset localRowOffset]))
      (firstSendCol, acc)) in
    ((sendRow + colStride) `rem` colStrideA, acc')) (firstSendRow, [])).

(** The receive of [q] from member [s] of [A]'s grid: the record the loop
    body builds (lines 1342-1353) when [sendRow] and [sendCol] are [s]'s
    column and row ranks. *)
Definition CrossRecvOf t A (q colSend rowSend s : Z) : CrossRecv :=
  let sendColShift := Shift (ColRank A s) (DColAlign A) (ColStride A) + colSend * ColStride A in
  let sendRowShift := Shift (RowRank A s) (DRowAlign A) (RowStride A) + rowSend * RowStride A in
  mkCrossRecv s
    (Length (DHeight A) sendColShift (StrideLCM (ColStride t) (ColStride A)))
    (Length (DWidth A) sendRowShift (StrideLCM (RowStride t) (RowStride A)))
    ((sendColShift - ColShift t q) ÷ ColStride t) ((sendRowShift - RowShift t q) ÷ RowStride t).

(** The VC rank in [this]'s grid that member [s] of [A]'s grid sends to
    in round [(colSend,rowSend)]: [recvVCRank = recvRow + recvCol*colStride]
    (line 1312). *)
Definition CrossDest t A (s colSend rowSend : Z) : Z :=
  CrossRecvIndex (ColStride t) (ColStride A) (DColAlign t) (DColAlign A) (ColRank A s) colSend +
  CrossRecvIndex (RowStride t) (RowStride A) (DRowAlign t) (DRowAlign A) (RowRank A s) rowSend *
    ColStride t.

(** The pack of member [s] of [A]'s grid (lines 1297-1310):
    [sendBuf[iLoc+jLoc*sendHeight] = ABuffer[i+j*ALDim]] with
    [i = colSend+iLoc*numColSends], [j = rowSend+jLoc*numRowSends]. *)
Definition CrossPack A (s colSend rowSend numColSends numRowSends : Z) (sendBuf : mem T) : mem T :=
  let LA := DLocal A s in
  let sendHeight := Length (LHeight LA) colSend numColSends in
  let sendWidth := Length (LWidth LA) rowSend numRowSends in
  StridedCopy sendBuf 0 1 sendHeight (LBuf LA) (colSend + rowSend * LDim LA)
    numColSends (numRowSends * LDim LA) sendHeight sendWidth.

(** The count of the [ISend] of line 1316. *)
Definition CrossCount A (s colSend rowSend numColSends numRowSends : Z) : Z :=
  Length (LHeight (DLocal A s)) colSend numColSends * Length (LWidth (DLocal A s)) rowSend numRowSends.

(** Exact matching of round [(colSend,rowSend)]: each receive names a
    member of [A]'s grid whose message of the round goes to the receiver's
    viewing rank with the receive's count, and each member's message has
    a receiver in [this]'s grid that receives it exactly once. *)
Definition CrossRoundOk t A (colSend rowSend : Z) : bool :=
  let nCS := NumSends (ColStride t) (ColStride A) in
  let nRS := NumSends (RowStride t) (RowStride A) in
  forallb (fun q => forallb (fun r =>
      bool_decide (0 <= RSender r < GSize (DGrid A)) &&
      bool_decide (VCToViewing (CrossDest t A (RSender r) colSend rowSend) = VCToViewing q) &&
      bool_decide (CrossCount A (RSender r) colSend rowSend nCS nRS = RHeight r * RWidth r))
    (CrossRecvPlan t A q colSend rowSend)) (seqZ 0 (GSize (DGrid t))) &&
  forallb (fun s =>
      let q := CrossDest t A s colSend rowSend in
      bool_decide (0 <= q < GSize (DGrid t)) &&
      bool_decide (count_occ Z.eq_dec (map RSender (CrossRecvPlan t A q colSend rowSend)) s = 1%nat))
    (seqZ 0 (GSize (DGrid A))).

(** The VC rank in [A]'s grid of the process of viewing rank [v], if it
    is a member of [A]'s grid ([A.Participating()] of line 1246). *)
Definition CrossInA (sizeA v : Z) : option Z :=
  head (filter (fun s => RankMap s = v) (seqZ 0 sizeA)).

(** The message of member [s] of [A]'s grid in round [(colSend,rowSend)]:
    the first [sendHeight*sendWidth] entries of its [sendBuf], all written
    by its pack (the entries past them are not sent; the pack is taken
    over the sender's local buffer). *)
Definition CrossMsg t A (s colSend rowSend : Z) : mem T :=
  CrossPack A s colSend rowSend (NumSends (ColStride t) (ColStride A))
    (NumSends (RowStride t) (RowStride A)) (LBuf (DLocal A s)).

(** The unpack of a receive (lines 1359-1370):
    [buffer[i+j*ldim] = recvBuf[iLoc+jLoc*sendHeight]] with
    [i = localColOffset+iLoc*localColStride],
    [j = localRowOffset+jLoc*localRowStride] and [recvBuf] at [recvOff]. *)
Definition CrossUnpack t A (ldim : Z) (r : CrossRecv) (recvBuf : mem T) (recvOff : Z) (buf : mem T) : mem T :=
  let localColStride := StrideLCM (ColStride t) (ColStride A) / ColStride t in
  let localRowStride := StrideLCM (RowStride t) (RowStride A) / RowStride t in
  StridedCopy buf (RColOff r + RRowOff r * ldim) localColStride (localRowStride * ldim)
    recvBuf recvOff 1 (RHeight r) (RHeight r) (RWidth r).

(** A receive (lines 1354-1370): [Recv] of the sender's message into
    [recvBuf = auxBuf[recvOff]], then its unpack. *)
Definition CrossRecvStep t A (colSend rowSend recvOff ldim : Z) (r : CrossRecv)
    (st : mem T * mem T) : mem T * mem T :=
  let '(buf, aux) := st in
  let aux' := MemCopy aux recvOff (CrossMsg t A (RSender r) colSend rowSend) 0 (RHeight r * RWidth r) in
  (CrossUnpack t A ldim r aux' recvOff buf, aux').

(** Member [q] of [this]'s grid through all rounds (lines 1284-1387): its
    own pack into [sendBuf = auxBuf[0]] when it is also a member of [A]'s
    grid, then its receives of the round. *)
Definition CrossRun t A (q recvOff ldim : Z) (st : mem T * mem T) : mem T * mem T :=
  let nCS := NumSends (ColStride t) (ColStride A) in
  let nRS := NumSends (RowStride t) (RowStride A) in
  for_ 0 nCS (fun colSend st1 =>
    for_ 0 nRS (fun rowSend st2 =>
      let '(buf, aux) := st2 in
      let aux1 := match CrossInA (GSize (DGrid A)) (VCToViewing q) with
                  | Some s => CrossPack A s colSend rowSend nCS nRS aux
                  | None => aux end in
      fold_left (fun st3 r => CrossRecvStep t A colSend rowSend recvOff ldim r st3)
        (CrossRecvPlan t A q colSend rowSend) (buf, aux1)) st1) st.

(** [DistMatrix<T,MC,MR>::CopyFromDifferentGrid( A )]: resize, size the
    scratch ([maxSendSize] for the sends if [q] is in [A]'s grid, and as
    much again for the receives), run the rounds, release; [None] when a
    round does not match. *)
Definition CopyFromDifferentGrid A this : option (DM T) :=
  let t := Resize (DHeight A) (DWidth A) this in
  let nCS := NumSends (ColStride t) (ColStride A) in
  let nRS := NumSends (RowStride t) (RowStride A) in
  let maxSendSize := (DHeight A ÷ (ColStride A * nCS) + 1) * (DWidth A ÷ (RowStride A * nRS) + 1) in
  let inA q := match CrossInA (GSize (DGrid A)) (VCToViewing q) with Some _ => true | None => false end in
  let recvOff q := if inA q then maxSendSize else 0 in
  let aux q := Require (recvOff q + maxSendSize) (DAux t q) in
  let run q := CrossRun t A q (recvOff q) (LDim (DLocal t q)) (LBuf (DLocal t q), AuxMem (aux q)) in
  if forallb (fun colSend => forallb (fun rowSend => CrossRoundOk t A colSend rowSend)
       (seqZ 0 nRS)) (seqZ 0 nCS) then
    Some (with_local
      (fun q => let L := DLocal t q in mkLocal (LHeight L) (LWidth L) (LDim L) (fst (run q)))
      (fun q => Release (SetAuxMem (snd (run q)) (aux q))) t)
  else None.
End CrossGridOps.

(** The scenario of the theorems: the 5 x 7 matrix [A[i][j] = 10*i + j]
    as [[MC,MR]] on the 2 x 3 mesh (alignments 1, 2), copied into an
    [[MC,MR]] matrix of the 3 x 2 mesh (alignments 2, 1). *)
Definition grid32 : Grid := mkGrid 3 2.
Definition Mat57 (i j : Z) : Z := i * 10 + j.
Definition crossSrc : DM Z := FromGlobal grid23 MC MR 1 2 0 5 7 Mat57.
Definition crossDst : DM Z := FromGlobal grid32 MC MR 2 1 0 0 0 Mat57.
Definition crossTgt : DM Z := Resize 5 7 crossDst.

(** ** One axis of the copy

    On one axis [this] has stride [r] and alignment [a], [A] stride [rA]
    and alignment [aA]; with [g = gcd(r,rA)], [r = x*g] and [rA = y*g],
    there are [numSends = x] rounds, the common period is [lcm = x*y*g]
    and the receiver's local stride [lcm/r] is [y].  A sender of shift
    [h] (under [A]) sends its global indices [h + round*rA + i*lcm] in
    round [round]; the receiver of rank [kB] receives in that round from
    the senders whose shift is [colShift] modulo [r]. *)

Lemma mod_add_iff (x c k r : Z) : 0 < r -> 0 <= k < r -> ((x + c) mod r = k <-> x mod r = (k - c) mod r).
Proof.
  intros Hr Hk. split; intros H.
  - rewrite <- H, Zminus_mod_idemp_l. f_equal. lia.
  - rewrite <- Zplus_mod_idemp_l, H, Zplus_mod_idemp_l. replace (k - c + c) with k by lia.
    by apply Z.mod_small.
Qed.

Section Axis.
Context (r rA a aA : Z) (Hr : 0 < r) (HrA : 0 < rA) (Ha : 0 <= a < r) (HaA : 0 <= aA < rA).
#[local] Set Default Proof Using "All".

Lemma axis_strides :
  exists x y g, 0 < g /\ 0 < x /\ 0 < y /\ r = x * g /\ rA = y * g /\
    NumSends r rA = x /\ StrideLCM r rA = x * y * g /\ StrideLCM r rA / r = y.
Proof.
  unfold NumSends, StrideLCM.
  destruct (Z.gcd_divide_l r rA) as [x Hx]. destruct (Z.gcd_divide_r r rA) as [y Hy].
  pose proof (Z.gcd_nonneg r rA) as Hg0. set (g := Z.gcd r rA) in *. clearbody g.
  assert (Hg : 0 < g) by (destruct (Z.eq_dec g 0) as [E|]; [rewrite E in Hx; lia | lia]).
  assert (0 < x) by nia. assert (0 < y) by nia. subst r rA.
  exists x, y, g. repeat split; try lia.
  - by apply Z.div_mul; lia.
  - replace (x * g * (y * g)) with (x * y * g * g) by ring. by apply Z.div_mul; lia.
  - replace (x * g * (y * g) / g) with (y * (x * g)).
    + by apply Z.div_mul; lia.
    + replace (x * g * (y * g)) with (y * (x * g) * g) by ring. rewrite Z.div_mul; lia.
Qed.

Lemma NumSends_pos : 0 < NumSends r rA.
Proof. destruct axis_strides as (x & y & g & _ & Hx & _ & _ & _ & -> & _). done. Qed.

Lemma NumSends_LCM : NumSends r rA * rA = StrideLCM r rA.
Proof. destruct axis_strides as (x & y & g & _ & _ & _ & _ & -> & -> & -> & _). ring. Qed.

(** The sender's destination: [recvRow] after [round] steps. *)
Lemma CrossRecvIndex_closed kA round :
  0 <= kA < rA -> 0 <= round ->
  CrossRecvIndex r rA a aA kA round = (Shift kA aA rA + a + round * rA) mod r.
Proof.
  intros HkA Hround. unfold CrossRecvIndex.
  pose proof (Shift_range rA HrA kA aA ltac:(lia) ltac:(lia)) as Hh.
  apply (for_ind (fun k y => y = (Shift kA aA rA + a + k * rA) mod r)); [lia | |].
  - change ((kA + rA - aA) `rem` rA) with (Shift kA aA rA). rewrite rem_mod by lia. f_equal. lia.
  - intros k y Hk ->. pose proof (Z.mod_pos_bound (Shift kA aA rA + a + k * rA) r Hr).
    rewrite rem_mod by lia. rewrite Zplus_mod_idemp_l. f_equal. lia.
Qed.

Lemma CrossRecvShift_mod kB round :
  0 <= kB < r -> 0 <= round -> CrossRecvShift r rA a kB round = (kB - a - round * rA) mod r.
Proof.
  intros HkB Hround. unfold CrossRecvShift.
  pose proof (Z.mod_pos_bound (round * rA + a) r Hr).
  rewrite (rem_mod (round * rA + a) r) by nia. rewrite rem_mod by lia. rewrite Zminus_mod_idemp_r.
  replace (kB + r - (round * rA + a)) with (kB - a - round * rA + 1 * r) by lia.
  by rewrite Z.mod_add by lia.
Qed.

Lemma CrossRecvShift_range kB round :
  0 <= kB < r -> 0 <= round -> 0 <= CrossRecvShift r rA a kB round < r.
Proof. intros. rewrite CrossRecvShift_mod by done. by apply Z.mod_pos_bound. Qed.

(** The sender of shift [h] targets the receiver of rank [kB] in round
    [round] exactly when [h] is [colShift] modulo [r]. *)
Lemma axis_dest kA kB round :
  0 <= kA < rA -> 0 <= kB < r -> 0 <= round ->
  CrossRecvIndex r rA a aA kA round = kB <-> Shift kA aA rA mod r = CrossRecvShift r rA a kB round.
Proof.
  intros HkA HkB Hround. rewrite CrossRecvIndex_closed, CrossRecvShift_mod by done.
  replace (Shift kA aA rA + a + round * rA) with (Shift kA aA rA + (a + round * rA)) by lia.
  rewrite mod_add_iff by done. replace (kB - (a + round * rA)) with (kB - a - round * rA) by lia.
  done.
Qed.

(** The senders of a round, in the order the receive loop visits them:
    [sendRow] starts at [firstSendRow] and steps by [r] modulo [rA]. *)
Lemma iter_step (x0 : Z) (m : nat) :
  0 <= x0 < rA -> Nat.iter m (fun x => (x + r) `rem` rA) x0 = (x0 + Z.of_nat m * r) mod rA.
Proof.
  intros Hx0. induction m as [|m IH].
  - cbn. rewrite Z.mod_small; lia.
  - rewrite Nat.iter_succ, IH. pose proof (Z.mod_pos_bound (x0 + Z.of_nat m * r) rA HrA).
    rewrite rem_mod by lia. rewrite Zplus_mod_idemp_l. f_equal. lia.
Qed.

Lemma CrossFirstSend_mod kB round :
  0 <= kB < r -> 0 <= round ->
  CrossFirstSend r rA a aA kB round = (CrossRecvShift r rA a kB round + aA) mod rA.
Proof.
  intros HkB Hround. pose proof (CrossRecvShift_range kB round HkB Hround).
  unfold CrossFirstSend. rewrite (rem_mod (round * rA + aA)) by nia.
  replace (round * rA + aA) with (aA + round * rA) by lia.
  rewrite Z.mod_add, Z.mod_small by lia. rewrite rem_mod by lia. done.
Qed.

Lemma axis_orbit_lookup d (m : nat) :
  0 <= d < r -> (m < Z.to_nat (Length rA d r))%nat ->
  orbit (fun x => (x + r) `rem` rA) ((d + aA) mod rA) (Z.to_nat (Length rA d r)) !! m =
    Some ((d + Z.of_nat m * r + aA) mod rA) /\ d + Z.of_nat m * r < rA.
Proof.
  intros Hd Hm. pose proof (Z.mod_pos_bound (d + aA) rA HrA).
  rewrite lookup_orbit, iter_step by lia. split.
  - f_equal. rewrite Zplus_mod_idemp_l. f_equal. lia.
  - apply (Length_lt_iff rA d r (Z.of_nat m) Hr); lia.
Qed.

(** The senders of the round are the members whose shift is [d] modulo
    [r], each once. *)
Lemma axis_orbit_elem d y :
  0 <= d < r ->
  y ∈ orbit (fun x => (x + r) `rem` rA) ((d + aA) mod rA) (Z.to_nat (Length rA d r)) <->
  0 <= y < rA /\ Shift y aA rA mod r = d.
Proof.
  intros Hd. rewrite list_elem_of_lookup. split.
  - intros [m Hm]. assert (Hlt : (m < Z.to_nat (Length rA d r))%nat).
    { apply lookup_lt_Some in Hm. by rewrite length_orbit in Hm. }
    destruct (axis_orbit_lookup d m Hd Hlt) as [Hm' Hb]. rewrite Hm' in Hm. injection Hm as <-.
    split; [apply Z.mod_pos_bound; lia |].
    replace (d + Z.of_nat m * r + aA) with ((d + Z.of_nat m * r) + aA) by lia.
    rewrite Shift_owner by lia. rewrite Z.mod_add, Z.mod_small by lia. done.
  - intros [Hy Hs]. pose proof (Shift_range rA HrA y aA ltac:(lia) ltac:(lia)) as Hh.
    pose proof (Z.div_mod (Shift y aA rA) r ltac:(lia)) as Hdm.
    pose proof (Z.div_pos (Shift y aA rA) r ltac:(lia) Hr).
    set (m := Shift y aA rA / r) in *.
    assert (Hlt : (Z.to_nat m < Z.to_nat (Length rA d r))%nat).
    { enough (m < Length rA d r) by lia. apply Length_lt_iff; lia. }
    exists (Z.to_nat m). destruct (axis_orbit_lookup d _ Hd Hlt) as [-> _]. f_equal.
    rewrite Z2Nat.id by lia. replace (d + m * r) with (Shift y aA rA) by lia.
    apply owner_Shift; lia.
Qed.

Lemma axis_orbit_NoDup d :
  0 <= d < r -> NoDup (orbit (fun x => (x + r) `rem` rA) ((d + aA) mod rA) (Z.to_nat (Length rA d r))).
Proof.
  intros Hd. apply NoDup_alt. intros i j y Hi Hj.
  assert (Hil : (i < Z.to_nat (Length rA d r))%nat).
  { apply lookup_lt_Some in Hi. by rewrite length_orbit in Hi. }
  assert (Hjl : (j < Z.to_nat (Length rA d r))%nat).
  { apply lookup_lt_Some in Hj. by rewrite length_orbit in Hj. }
  destruct (axis_orbit_lookup d i Hd Hil) as [Hi' Hbi]. destruct (axis_orbit_lookup d j Hd Hjl) as [Hj' Hbj].
  rewrite Hi' in Hi. rewrite Hj' in Hj. injection Hi as Hi. injection Hj as Hj.
  assert (Shift y aA rA = d + Z.of_nat i * r) by (rewrite <- Hi; rewrite Shift_owner; lia).
  assert (Shift y aA rA = d + Z.of_nat j * r) by (rewrite <- Hj; rewrite Shift_owner; lia).
  nia.
Qed.

(** A sender's block of the round: its local indices [round + i*numSends]
    are the global indices [h + round*rA + i*lcm], which the receiver
    holds at its local indices [(h + round*rA - hB)/r + i*(lcm/r)]. *)
Lemma axis_value (N kB round h i : Z) :
  0 <= kB < r -> 0 <= round < NumSends r rA -> 0 <= h < rA ->
  h mod r = CrossRecvShift r rA a kB round ->
  0 <= i < Length N (h + round * rA) (StrideLCM r rA) ->
  0 <= (h + round * rA - Shift kB a r) ÷ r + i * (StrideLCM r rA / r) < Length N (Shift kB a r) r /\
  Shift kB a r + ((h + round * rA - Shift kB a r) ÷ r + i * (StrideLCM r rA / r)) * r =
    h + round * rA + i * StrideLCM r rA /\
  0 <= round + i * NumSends r rA < Length N h rA /\
  h + (round + i * NumSends r rA) * rA = h + round * rA + i * StrideLCM r rA.
Proof.
  intros HkB Hround Hh Hd Hi. set (hB := Shift kB a r). set (o := (h + round * rA - hB) ÷ r).
  destruct axis_strides as (x & y & g & Hg & Hx & Hy & Er & ErA & Ens & Elcm & Eloc).
  rewrite Ens, Eloc, Elcm in *.
  rewrite CrossRecvShift_mod in Hd by lia.
  assert (HhB : hB = (kB - a) mod r) by (apply Shift_mod; lia).
  pose proof (Z.mod_pos_bound (kB - a) r Hr).
  pose proof (Z.div_mod h r ltac:(lia)). pose proof (Z.div_mod (kB - a) r ltac:(lia)).
  pose proof (Z.div_mod (kB - a - round * rA) r ltac:(lia)).
  assert (HK : h + round * rA - hB = r * (h / r - (kB - a - round * rA) / r + (kB - a) / r)) by nia.
  set (K := h / r - (kB - a - round * rA) / r + (kB - a) / r) in HK.
  assert (Ho : o = K) by (unfold o; rewrite HK, Z.mul_comm, Z.quot_mul; lia).
  assert (HK0 : 0 <= K) by nia.
  assert (Hlt : h + round * rA + i * (x * y * g) < N) by (apply Length_lt_iff; [nia | lia | lia]).
  rewrite Ho.
  repeat split; try nia.
  - apply Length_lt_iff; nia.
  - apply Length_lt_iff; nia.
Qed.

(** Every local index of the receiver comes in some round from some
    sender of that round. *)
Lemma axis_cover (N kB iB : Z) :
  0 <= kB < r -> 0 <= iB < Length N (Shift kB a r) r ->
  exists round h i, 0 <= round < NumSends r rA /\ 0 <= h < rA /\
    h mod r = CrossRecvShift r rA a kB round /\
    0 <= i < Length N (h + round * rA) (StrideLCM r rA) /\
    (h + round * rA - Shift kB a r) ÷ r + i * (StrideLCM r rA / r) = iB.
Proof.
  intros HkB HiB.
  destruct axis_strides as (x & y & g & Hg & Hx & Hy & Er & ErA & Ens & Elcm & Eloc).
  rewrite Ens, Eloc, Elcm.
  assert (HhB : Shift kB a r = (kB - a) mod r) by (apply Shift_mod; lia).
  set (hB := Shift kB a r) in *.
  pose proof (Z.mod_pos_bound (kB - a) r Hr). pose proof (Z.div_mod (kB - a) r ltac:(lia)).
  assert (Hgi : hB + iB * r < N) by (apply Length_lt_iff; lia).
  set (gi := hB + iB * r) in *.
  pose proof (Z.div_mod gi rA ltac:(lia)). pose proof (Z.mod_pos_bound gi rA HrA).
  pose proof (Z.div_pos gi rA ltac:(lia) HrA).
  pose proof (Z.div_mod (gi / rA) x ltac:(lia)). pose proof (Z.mod_pos_bound (gi / rA) x Hx).
  pose proof (Z.div_pos (gi / rA) x ltac:(lia) Hx).
  exists ((gi / rA) mod x), (gi mod rA), ((gi / rA) / x).
  assert (Hsum : gi mod rA + (gi / rA) mod x * rA + (gi / rA) / x * (x * y * g) = gi) by nia.
  split; [lia | split; [lia | split; [| split]]].
  - rewrite CrossRecvShift_mod by lia.
    replace (gi mod rA) with ((kB - a - (gi / rA) mod x * rA) + (iB - (kB - a) / r - (gi / rA) / x * y) * r)
      by nia.
    apply Z.mod_add. lia.
  - split; [lia |]. apply Length_lt_iff; nia.
  - replace (gi mod rA + (gi / rA) mod x * rA - hB) with ((iB - (gi / rA) / x * y) * r) by nia.
    rewrite Z.quot_mul by lia. lia.
Qed.

End Axis.


(** ** [[MC,MR]] coordinates

    On an [[MC,MR]] matrix the column rank of VC rank [q] is its mesh row
    and the row rank its mesh column: [q = colRank + rowRank*colStride]. *)
Section MeshFacts.
Context {T : Type} (X : DM T) `{HgX : !GridWf (DGrid X)}.
Context (HcX : DColDist X = MC) (HrX : DRowDist X = MR).

Lemma mesh_pos : 0 < ColStride X /\ 0 < RowStride X.
Proof. destruct HgX. unfold ColStride, RowStride. rewrite HcX, HrX. cbn. lia. Qed.

Lemma mesh_rank_range q :
  0 <= q < GSize (DGrid X) -> 0 <= ColRank X q < ColStride X /\ 0 <= RowRank X q < RowStride X.
Proof.
  intros Hq. unfold ColRank, RowRank, ColStride, RowStride. rewrite HcX, HrX. cbn.
  split; [apply GRow_range | apply GCol_range]; done.
Qed.

Lemma mesh_vc q : ColRank X q + RowRank X q * ColStride X = q.
Proof.
  destruct HgX. unfold ColRank, RowRank, ColStride. rewrite HcX, HrX. cbn.
  unfold GRow, GCol. pose proof (Z.div_mod q (GHeight (DGrid X)) ltac:(lia)). lia.
Qed.

Lemma mesh_coords i j :
  0 <= i < ColStride X -> 0 <= j < RowStride X ->
  0 <= i + j * ColStride X < GSize (DGrid X) /\
  ColRank X (i + j * ColStride X) = i /\ RowRank X (i + j * ColStride X) = j.
Proof.
  unfold ColRank, RowRank, ColStride, RowStride, GSize. rewrite HcX, HrX. cbn.
  unfold GRow, GCol. intros Hi Hj. split; [nia |].
  rewrite Z.mod_add, Z.div_add, Z.mod_small, Z.div_small by lia. lia.
Qed.
End MeshFacts.

(** ** The receives of a round

    The loop nest of the receiver visits the senders' rows in the orbit of
    [firstSendRow] and, for each, the senders' columns in the orbit of
    [firstSendCol]. *)
Section Plan.
Context {T : Type}.
Implicit Types t A : DM T.

Lemma CrossRecvPlan_closed t A q colSend rowSend :
  CrossRecvPlan t A q colSend rowSend =
  orbit (fun x => (x + ColStride t) `rem` ColStride A)
    (CrossFirstSend (ColStride t) (ColStride A) (DColAlign t) (DColAlign A) (ColRank t q) colSend)
    (Z.to_nat (CrossNumRecvs (ColStride t) (ColStride A) (DColAlign t) (ColRank t q) colSend - 0)) ≫=
  (fun sendRow =>
   orbit (fun x => (x + RowStride t) `rem` RowStride A)
     (CrossFirstSend (RowStride t) (RowStride A) (DRowAlign t) (DRowAlign A) (RowRank t q) rowSend)
     (Z.to_nat (CrossNumRecvs (RowStride t) (RowStride A) (DRowAlign t) (RowRank t q) rowSend - 0)) ≫=
   (fun sendCol =>
     let sendColShift := Shift sendRow (DColAlign A) (ColStride A) + colSend * ColStride A in
     let sendRowShift := Shift sendCol (DRowAlign A) (RowStride A) + rowSend * RowStride A in
     [mkCrossRecv (sendRow + sendCol * ColStride A)
        (Length (DHeight A) sendColShift (StrideLCM (ColStride t) (ColStride A)))
        (Length (DWidth A) sendRowShift (StrideLCM (RowStride t) (RowStride A)))
        ((sendColShift - ColShift t q) ÷ ColStride t) ((sendRowShift - RowShift t q) ÷ RowStride t)])).
Proof.
  unfold CrossRecvPlan. erewrite for_ext; [rewrite for_accum; by rewrite app_nil_l |].
  intros k [sendRow acc] _. cbn zeta. f_equal. f_equal.
  erewrite for_ext; [by rewrite for_accum |]. intros k' [sendCol acc1] _. done.
Qed.

(** The local buffer of a receiver through the rounds: each receive
    unpacks the sender's message itself, whatever its scratch held. *)
Lemma CrossRun_fst (VCToViewing RankMap : Z -> Z) t A q recvOff ldim buf aux :
  fst (CrossRun VCToViewing RankMap t A q recvOff ldim (buf, aux)) =
  for_ 0 (NumSends (ColStride t) (ColStride A)) (fun colSend b1 =>
    for_ 0 (NumSends (RowStride t) (RowStride A)) (fun rowSend b2 =>
      fold_left (fun b r => CrossUnpack t A ldim r (CrossMsg t A (RSender r) colSend rowSend) 0 b)
        (CrossRecvPlan t A q colSend rowSend) b2) b1) buf.
Proof.
  unfold CrossRun. apply for_fst. intros colSend st1 _. apply for_fst.
  intros rowSend [b a] _. cbn beta iota zeta. apply fold_left_fst_pair. intros r [b' a'] _.
  unfold CrossRecvStep, CrossUnpack. cbn [fst]. apply StridedMap_src_ext. intros i j Hi Hj.
  replace (recvOff + i * 1 + j * RHeight r) with (recvOff + (i + j * RHeight r)) by ring.
  rewrite MemCopy_spec by nia. f_equal. ring.
Qed.

End Plan.

(** ** Matching of a round *)
Section Matching.
Context {T : Type} (VCToViewing : Z -> Z) (t A : DM T).
Context `{Hgt : !GridWf (DGrid t)} `{HgA : !GridWf (DGrid A)}.
Context (Hct : DColDist t = MC) (Hrt : DRowDist t = MR) (HcA : DColDist A = MC) (HrA : DRowDist A = MR).
Context (Hca : 0 <= DColAlign t < ColStride t) (Hra : 0 <= DRowAlign t < RowStride t).
Context (HcaA : 0 <= DColAlign A < ColStride A) (HraA : 0 <= DRowAlign A < RowStride A).
#[local] Set Default Proof Using "All".

Lemma unique_coords (h i j i' j' : Z) :
  0 <= i < h -> 0 <= i' < h -> i + j * h = i' + j' * h -> i = i' /\ j = j'.
Proof. intros Hi Hi' E. assert (j = j') by nia. subst. lia. Qed.

(** Member [s] of [A]'s grid sends to [q] in a round exactly when its
    shifts are the receiver's [colShift] and [rowShift] modulo the strides. *)
Lemma CrossDest_iff s q colSend rowSend :
  0 <= s < GSize (DGrid A) -> 0 <= q < GSize (DGrid t) -> 0 <= colSend -> 0 <= rowSend ->
  CrossDest t A s colSend rowSend = q <->
  Shift (ColRank A s) (DColAlign A) (ColStride A) mod ColStride t =
    CrossRecvShift (ColStride t) (ColStride A) (DColAlign t) (ColRank t q) colSend /\
  Shift (RowRank A s) (DRowAlign A) (RowStride A) mod RowStride t =
    CrossRecvShift (RowStride t) (RowStride A) (DRowAlign t) (RowRank t q) rowSend.
Proof.
  intros Hs Hq Hc Hr. destruct (mesh_pos t Hct Hrt), (mesh_pos A HcA HrA).
  destruct (mesh_rank_range t Hct Hrt q Hq), (mesh_rank_range A HcA HrA s Hs).
  rewrite <- (axis_dest (ColStride t) (ColStride A) (DColAlign t) (DColAlign A)),
    <- (axis_dest (RowStride t) (RowStride A) (DRowAlign t) (DRowAlign A)) by lia.
  unfold CrossDest. rewrite <- (mesh_vc t Hct Hrt q) at 1.
  rewrite !CrossRecvIndex_closed by lia.
  pose proof (Z.mod_pos_bound (Shift (ColRank A s) (DColAlign A) (ColStride A) + DColAlign t +
    colSend * ColStride A) (ColStride t) ltac:(lia)).
  split; [intros E; by apply unique_coords in E | intros [-> ->]; done].
Qed.

Lemma CrossDest_range s colSend rowSend :
  0 <= s < GSize (DGrid A) -> 0 <= colSend -> 0 <= rowSend ->
  0 <= CrossDest t A s colSend rowSend < GSize (DGrid t).
Proof.
  intros Hs Hc Hr. destruct (mesh_pos t Hct Hrt), (mesh_pos A HcA HrA).
  destruct (mesh_rank_range A HcA HrA s Hs). unfold CrossDest.
  rewrite !CrossRecvIndex_closed by lia.
  pose proof (Z.mod_pos_bound (Shift (ColRank A s) (DColAlign A) (ColStride A) + DColAlign t +
    colSend * ColStride A) (ColStride t) ltac:(lia)).
  pose proof (Z.mod_pos_bound (Shift (RowRank A s) (DRowAlign A) (RowStride A) + DRowAlign t +
    rowSend * RowStride A) (RowStride t) ltac:(lia)).
  unfold ColStride, RowStride, GSize in *. rewrite Hct, Hrt in *. cbn in *. nia.
Qed.

(** The receives of [q] in a round are those from the members of [A]'s
    grid that send to [q] in that round. *)
Lemma CrossRecvPlan_elem q colSend rowSend x :
  0 <= q < GSize (DGrid t) -> 0 <= colSend -> 0 <= rowSend ->
  x ∈ CrossRecvPlan t A q colSend rowSend <->
  exists s, 0 <= s < GSize (DGrid A) /\ CrossDest t A s colSend rowSend = q /\
    x = CrossRecvOf t A q colSend rowSend s.
Proof.
  intros Hq Hc Hr. destruct (mesh_pos t Hct Hrt) as [Hr1 Hc1], (mesh_pos A HcA HrA) as [Hr2 Hc2].
  destruct (mesh_rank_range t Hct Hrt q Hq) as [Hkq Hlq].
  rewrite CrossRecvPlan_closed, !Z.sub_0_r. unfold CrossNumRecvs.
  rewrite !CrossFirstSend_mod by lia.
  pose proof (CrossRecvShift_range _ _ _ _ Hr1 Hr2 Hca HcaA (ColRank t q) colSend Hkq Hc) as Hd1.
  pose proof (CrossRecvShift_range _ _ _ _ Hc1 Hc2 Hra HraA (RowRank t q) rowSend Hlq Hr) as Hd2.
  rewrite list_elem_of_bind. split.
  - intros (sr & Hx & Hsr). apply list_elem_of_bind in Hx as (sc & Hx & Hsc).
    apply list_elem_of_singleton in Hx as ->.
    apply (axis_orbit_elem _ _ _ _ Hr1 Hr2 Hca HcaA _ _ Hd1) in Hsr as [Hsr Esr].
    apply (axis_orbit_elem _ _ _ _ Hc1 Hc2 Hra HraA _ _ Hd2) in Hsc as [Hsc Esc].
    destruct (mesh_coords A HcA HrA sr sc Hsr Hsc) as (Hs & Er & Ec).
    exists (sr + sc * ColStride A). split; [done | split].
    + apply CrossDest_iff; try lia. by rewrite Er, Ec.
    + unfold CrossRecvOf. by rewrite Er, Ec.
  - intros (s & Hs & Hd & ->). apply CrossDest_iff in Hd as [Hd1' Hd2']; try lia.
    destruct (mesh_rank_range A HcA HrA s Hs).
    exists (ColRank A s). split; [| by apply (axis_orbit_elem _ _ _ _ Hr1 Hr2 Hca HcaA _ _ Hd1)].
    apply list_elem_of_bind. exists (RowRank A s).
    split; [| by apply (axis_orbit_elem _ _ _ _ Hc1 Hc2 Hra HraA _ _ Hd2)].
    apply list_elem_of_singleton. unfold CrossRecvOf. by rewrite (mesh_vc A HcA HrA s).
Qed.

(** The sender ranks [a + b*k] of a product of two lists of team indices,
    [a] in [0..k), are distinct. *)
Lemma NoDup_pairs (l1 l2 : list Z) (k : Z) (g : Z -> Z -> CrossRecv) :
  NoDup l1 -> NoDup l2 -> (forall x, x ∈ l1 -> 0 <= x < k) -> (forall a b, RSender (g a b) = a + b * k) ->
  NoDup (map RSender (l1 ≫= (fun a => l2 ≫= (fun b => [g a b])))).
Proof.
  intros H1 H2 Hk Hg. rewrite map_bind. apply NoDup_bind; [| | done].
  - intros a1 a2 y Ha1 Ha2 Hy1 Hy2. rewrite map_bind in Hy1, Hy2.
    apply list_elem_of_bind in Hy1 as (b1 & Hy1 & _), Hy2 as (b2 & Hy2 & _).
    cbn in Hy1, Hy2. rewrite Hg in Hy1, Hy2.
    apply list_elem_of_singleton in Hy1, Hy2. subst y.
    pose proof (Hk a1 Ha1). pose proof (Hk a2 Ha2).
    by apply unique_coords with (h := k) (j := b1) (j' := b2).
  - intros a Ha. pose proof (Hk a Ha). rewrite map_bind. apply NoDup_bind; [| | done].
    + intros b1 b2 y _ _ Hy1 Hy2. cbn in Hy1, Hy2. rewrite Hg in Hy1, Hy2.
      apply list_elem_of_singleton in Hy1, Hy2. nia.
    + intros b _. cbn. apply NoDup_singleton.
Qed.

Lemma CrossRecvPlan_NoDup q colSend rowSend :
  0 <= q < GSize (DGrid t) -> 0 <= colSend -> 0 <= rowSend ->
  NoDup (map RSender (CrossRecvPlan t A q colSend rowSend)).
Proof.
  intros Hq Hc Hr. destruct (mesh_pos t Hct Hrt) as [Hr1 Hc1], (mesh_pos A HcA HrA) as [Hr2 Hc2].
  destruct (mesh_rank_range t Hct Hrt q Hq) as [Hkq Hlq].
  pose proof (CrossRecvShift_range _ _ _ _ Hr1 Hr2 Hca HcaA (ColRank t q) colSend Hkq Hc) as Hd1.
  pose proof (CrossRecvShift_range _ _ _ _ Hc1 Hc2 Hra HraA (RowRank t q) rowSend Hlq Hr) as Hd2.
  rewrite CrossRecvPlan_closed, !Z.sub_0_r. unfold CrossNumRecvs. rewrite !CrossFirstSend_mod by lia.
  apply NoDup_pairs with (k := ColStride A); 
    [apply (axis_orbit_NoDup _ _ _ _ Hr1 Hr2 Hca HcaA); lia |
     apply (axis_orbit_NoDup _ _ _ _ Hc1 Hc2 Hra HraA); lia | | done].
  intros x Hx. by apply (axis_orbit_elem _ _ _ _ Hr1 Hr2 Hca HcaA _ _ Hd1) in Hx as [? _].
Qed.

Section RoundOk.
Context (HlA : forall s, 0 <= s < GSize (DGrid A) ->
  LHeight (DLocal A s) = LocalHeight A s /\ LWidth (DLocal A s) = LocalWidth A s).

(** A member's block of a round has the size its receiver expects. *)
Lemma send_height s colSend :
  0 <= s < GSize (DGrid A) -> 0 <= colSend ->
  Length (LHeight (DLocal A s)) colSend (NumSends (ColStride t) (ColStride A)) =
  Length (DHeight A) (Shift (ColRank A s) (DColAlign A) (ColStride A) + colSend * ColStride A)
    (StrideLCM (ColStride t) (ColStride A)).
Proof.
  intros Hs Hc. destruct (mesh_pos t Hct Hrt) as [Hr1 _], (mesh_pos A HcA HrA) as [Hr2 _].
  rewrite (proj1 (HlA s Hs)). unfold LocalHeight, ColShift.
  pose proof (NumSends_pos _ _ _ _ Hr1 Hr2 Hca HcaA).
  rewrite Length_nested by lia. by rewrite (NumSends_LCM _ _ _ _ Hr1 Hr2 Hca HcaA).
Qed.

Lemma send_width s rowSend :
  0 <= s < GSize (DGrid A) -> 0 <= rowSend ->
  Length (LWidth (DLocal A s)) rowSend (NumSends (RowStride t) (RowStride A)) =
  Length (DWidth A) (Shift (RowRank A s) (DRowAlign A) (RowStride A) + rowSend * RowStride A)
    (StrideLCM (RowStride t) (RowStride A)).
Proof.
  intros Hs Hr. destruct (mesh_pos t Hct Hrt) as [_ Hc1], (mesh_pos A HcA HrA) as [_ Hc2].
  rewrite (proj2 (HlA s Hs)). unfold LocalWidth, RowShift.
  pose proof (NumSends_pos _ _ _ _ Hc1 Hc2 Hra HraA).
  rewrite Length_nested by lia. by rewrite (NumSends_LCM _ _ _ _ Hc1 Hc2 Hra HraA).
Qed.

Lemma CrossCount_recv q s colSend rowSend :
  0 <= s < GSize (DGrid A) -> 0 <= colSend -> 0 <= rowSend ->
  CrossCount A s colSend rowSend (NumSends (ColStride t) (ColStride A)) (NumSends (RowStride t) (RowStride A)) =
  RHeight (CrossRecvOf t A q colSend rowSend s) * RWidth (CrossRecvOf t A q colSend rowSend s).
Proof. intros Hs Hc Hr. unfold CrossCount. by rewrite send_height, send_width. Qed.

(** Exact matching of a round: every receive names a member of [A]'s grid
    whose message of the round goes to the receiver with the receive's
    count, and every member's message has exactly one receive. *)
Lemma CrossRound_matching colSend rowSend :
  0 <= colSend -> 0 <= rowSend ->
  (forall q x, 0 <= q < GSize (DGrid t) -> x ∈ CrossRecvPlan t A q colSend rowSend ->
     0 <= RSender x < GSize (DGrid A) /\ CrossDest t A (RSender x) colSend rowSend = q /\
     CrossCount A (RSender x) colSend rowSend (NumSends (ColStride t) (ColStride A))
       (NumSends (RowStride t) (RowStride A)) = RHeight x * RWidth x) /\
  (forall s, 0 <= s < GSize (DGrid A) ->
     0 <= CrossDest t A s colSend rowSend < GSize (DGrid t) /\
     count_occ Z.eq_dec (map RSender (CrossRecvPlan t A (CrossDest t A s colSend rowSend) colSend rowSend)) s = 1%nat).
Proof.
  intros Hc Hr. split.
  - intros q x Hq Hx. apply CrossRecvPlan_elem in Hx as (s & Hs & Hd & ->); [| lia..].
    change (RSender (CrossRecvOf t A q colSend rowSend s)) with s.
    split; [done | split; [done |]]. by apply CrossCount_recv.
  - intros s Hs. pose proof (CrossDest_range s colSend rowSend Hs Hc Hr).
    split; [done |]. apply NoDup_count_occ'; [apply NoDup_ListNoDup, CrossRecvPlan_NoDup; lia |].
    apply in_map_iff. exists (CrossRecvOf t A (CrossDest t A s colSend rowSend) colSend rowSend s).
    split; [done |]. apply list_elem_of_In, CrossRecvPlan_elem; [lia | lia | lia |].
    exists s. split; [lia | done].
Qed.

(** Every round of the copy passes the matching test of the model. *)
Lemma CrossRoundOk_true colSend rowSend :
  0 <= colSend -> 0 <= rowSend -> CrossRoundOk VCToViewing t A colSend rowSend = true.
Proof.
  intros Hc Hr. destruct (CrossRound_matching colSend rowSend Hc Hr) as [Hrecv Hsend].
  unfold CrossRoundOk. apply andb_true_intro. split; apply forallb_forall.
  - intros q Hq. apply list_elem_of_In, elem_of_seqZ in Hq. apply forallb_forall.
    intros x Hx. apply list_elem_of_In in Hx. destruct (Hrecv q x ltac:(lia) Hx) as (H1 & H2 & H3).
    rewrite H2, !bool_decide_eq_true_2; done.
  - intros s Hs. apply list_elem_of_In, elem_of_seqZ in Hs. destruct (Hsend s ltac:(lia)) as [H1 H2].
    rewrite !bool_decide_eq_true_2; done.
Qed.
End RoundOk.

(** The block of a receive fits the scratch the code requires for it,
    and its unpack stays inside the receiver's local matrix. *)
Lemma CrossRecv_bounds q colSend rowSend x :
  DHeight t = DHeight A -> DWidth t = DWidth A -> 0 <= DHeight A -> 0 <= DWidth A ->
  0 <= q < GSize (DGrid t) ->
  0 <= colSend < NumSends (ColStride t) (ColStride A) ->
  0 <= rowSend < NumSends (RowStride t) (RowStride A) ->
  x ∈ CrossRecvPlan t A q colSend rowSend ->
  0 <= RHeight x * RWidth x <=
    (DHeight A ÷ (ColStride A * NumSends (ColStride t) (ColStride A)) + 1) *
    (DWidth A ÷ (RowStride A * NumSends (RowStride t) (RowStride A)) + 1) /\
  forall i j, 0 <= i < RHeight x -> 0 <= j < RWidth x ->
    0 <= RColOff x + i * (StrideLCM (ColStride t) (ColStride A) / ColStride t) < LocalHeight t q /\
    0 <= RRowOff x + j * (StrideLCM (RowStride t) (RowStride A) / RowStride t) < LocalWidth t q.
Proof.
  intros Hh Hw HhA HwA Hq Hc Hr Hx. destruct (mesh_pos t Hct Hrt) as [Hr1 Hc1], (mesh_pos A HcA HrA) as [Hr2 Hc2].
  apply CrossRecvPlan_elem in Hx as (s & Hs & Hd & ->); [| lia..].
  apply CrossDest_iff in Hd as [Hd1 Hd2]; [| lia..].
  destruct (mesh_rank_range t Hct Hrt q Hq) as [Hkq Hlq], (mesh_rank_range A HcA HrA s Hs) as [Hks Hls].
  pose proof (Shift_range _ Hr2 (ColRank A s) (DColAlign A) ltac:(lia) ltac:(lia)) as Hh1.
  pose proof (Shift_range _ Hc2 (RowRank A s) (DRowAlign A) ltac:(lia) ltac:(lia)) as Hh2.
  unfold CrossRecvOf. cbn [RHeight RWidth RColOff RRowOff]. split.
  - pose proof (NumSends_pos _ _ _ _ Hr1 Hr2 Hca HcaA). pose proof (NumSends_pos _ _ _ _ Hc1 Hc2 Hra HraA).
    pose proof (NumSends_LCM _ _ _ _ Hr1 Hr2 Hca HcaA) as EL1. pose proof (NumSends_LCM _ _ _ _ Hc1 Hc2 Hra HraA) as EL2.
    rewrite !quot_div by nia. rewrite (Z.mul_comm (ColStride A)), (Z.mul_comm (RowStride A)), EL1, EL2.
    set (L1 := StrideLCM (ColStride t) (ColStride A)) in *. set (L2 := StrideLCM (RowStride t) (RowStride A)) in *.
    assert (HL1 : 0 < L1) by nia. assert (HL2 : 0 < L2) by nia.
    pose proof (Length_le_div (DHeight A) (Shift (ColRank A s) (DColAlign A) (ColStride A) + colSend * ColStride A)
      L1 HL1 ltac:(lia) HhA).
    pose proof (Length_le_div (DWidth A) (Shift (RowRank A s) (DRowAlign A) (RowStride A) + rowSend * RowStride A)
      L2 HL2 ltac:(lia) HwA).
    split; [apply Z.mul_nonneg_nonneg; unfold Length; lia |].
    apply Z.mul_le_mono_nonneg; [unfold Length; lia | lia | unfold Length; lia | lia].
  - intros i j Hi Hj.
    destruct (axis_value _ _ _ _ Hr1 Hr2 Hca HcaA (DHeight A) (ColRank t q) colSend _ i Hkq Hc Hh1 Hd1 Hi)
      as (Hb1 & _).
    destruct (axis_value _ _ _ _ Hc1 Hc2 Hra HraA (DWidth A) (RowRank t q) rowSend _ j Hlq Hr Hh2 Hd2 Hj)
      as (Hb2 & _).
    unfold LocalHeight, LocalWidth, ColShift, RowShift. rewrite Hh, Hw. done.
Qed.

(** ** The receiver's local matrix *)
Section Local.
Context (M : Z -> Z -> T) (HM : holds A M) (Hh : DHeight t = DHeight A) (Hw : DWidth t = DWidth A).

Lemma holds_sizes s :
  0 <= s < GSize (DGrid A) -> LHeight (DLocal A s) = LocalHeight A s /\ LWidth (DLocal A s) = LocalWidth A s.
Proof.
  intros Hs. destruct (HM s Hs) as (? & ? & _); [unfold Participating; by rewrite HcA | done].
Qed.

(** Each unpack of a round writes the entries of [M] the receiver owns. *)
Lemma CrossUnpack_writes q ldim colSend rowSend r :
  0 <= q < GSize (DGrid t) -> LocalHeight t q <= ldim ->
  0 <= colSend < NumSends (ColStride t) (ColStride A) ->
  0 <= rowSend < NumSends (RowStride t) (RowStride A) ->
  r ∈ CrossRecvPlan t A q colSend rowSend ->
  writes (CrossUnpack t A ldim r (CrossMsg t A (RSender r) colSend rowSend) 0)
    (fun x => exists i j, 0 <= i < RHeight r /\ 0 <= j < RWidth r /\
       x = RColOff r + RRowOff r * ldim + i * (StrideLCM (ColStride t) (ColStride A) / ColStride t) +
           j * (StrideLCM (RowStride t) (RowStride A) / RowStride t * ldim))
    (fun x => M (ColShift t q + (x mod ldim) * ColStride t) (RowShift t q + (x / ldim) * RowStride t)).
Proof.
  intros Hq Hld Hc Hr Hx. destruct (mesh_pos t Hct Hrt) as [Hr1 Hc1], (mesh_pos A HcA HrA) as [Hr2 Hc2].
  apply CrossRecvPlan_elem in Hx as (s & Hs & Hd & ->); [| lia..].
  apply CrossDest_iff in Hd as [Hd1 Hd2]; [| lia..].
  destruct (mesh_rank_range t Hct Hrt q Hq) as [Hkq Hlq], (mesh_rank_range A HcA HrA s Hs) as [Hks Hls].
  pose proof (Shift_range _ Hr2 (ColRank A s) (DColAlign A) ltac:(lia) ltac:(lia)) as Hh1.
  pose proof (Shift_range _ Hc2 (RowRank A s) (DRowAlign A) ltac:(lia) ltac:(lia)) as Hh2.
  unfold CrossUnpack. apply writes_StridedCopy. unfold CrossRecvOf.
  cbn [RHeight RWidth RColOff RRowOff RSender]. intros i j Hi Hj.
  destruct (axis_value _ _ _ _ Hr1 Hr2 Hca HcaA (DHeight A) (ColRank t q) colSend _ i Hkq Hc Hh1 Hd1 Hi)
    as (Hb1 & Eb1 & Ha1 & Ea1).
  destruct (axis_value _ _ _ _ Hc1 Hc2 Hra HraA (DWidth A) (RowRank t q) rowSend _ j Hlq Hr Hh2 Hd2 Hj)
    as (Hb2 & Eb2 & Ha2 & Ea2).
  unfold LocalHeight, ColShift in Hld. rewrite Hh in Hld.
  change (ColShift t q) with (Shift (ColRank t q) (DColAlign t) (ColStride t)).
  change (RowShift t q) with (Shift (RowRank t q) (DRowAlign t) (RowStride t)).
  (* the receiver's side: decode the address *)
  match goal with |- context [?o1 + ?o2 * ldim + i * ?s1 + j * (?s2 * ldim)] =>
    replace (o1 + o2 * ldim + i * s1 + j * (s2 * ldim)) with ((o1 + i * s1) + (o2 + j * s2) * ldim) by ring;
    rewrite Z.mod_add, Z.div_add, (Z.mod_small (o1 + i * s1)), (Z.div_small (o1 + i * s1)), Z.add_0_l by lia
  end.
  rewrite Eb1, Eb2.
  (* the sender's side: its pack *)
  unfold CrossMsg, CrossPack.
  pose proof holds_sizes as HlA.
  rewrite (send_height HlA), (send_width HlA) by lia.
  match goal with |- context [StridedCopy _ 0 1 ?H _ _ _ _ _ _ (0 + i * 1 + j * ?H')] =>
    replace (0 + i * 1 + j * H') with (0 + i + j * H) by ring end.
  rewrite StridedCopy_spec by lia.
  destruct (HM s Hs) as (EhA & EwA & _ & Hent); [unfold Participating; by rewrite HcA |].
  match goal with |- context [LBuf (DLocal A s) (colSend + rowSend * ?ld + i * ?n1 + j * (?n2 * ?ld))] =>
    replace (colSend + rowSend * ld + i * n1 + j * (n2 * ld)) with
      ((colSend + i * n1) + (rowSend + j * n2) * ld) by ring
  end.
  fold (Entry (DLocal A s) (colSend + i * NumSends (ColStride t) (ColStride A))
    (rowSend + j * NumSends (RowStride t) (RowStride A))).
  rewrite Hent by (rewrite ?EhA, ?EwA; unfold LocalHeight, LocalWidth, ColShift, RowShift; lia).
  unfold ColShift, RowShift. by rewrite Ea1, Ea2.
Qed.

(** Every entry of the receiver's local matrix is written by some
    unpack of some round. *)
Lemma CrossRecv_cover q ldim iB jB :
  0 <= q < GSize (DGrid t) -> 0 <= iB < LocalHeight t q -> 0 <= jB < LocalWidth t q ->
  exists colSend rowSend r,
    0 <= colSend < NumSends (ColStride t) (ColStride A) /\
    0 <= rowSend < NumSends (RowStride t) (RowStride A) /\
    r ∈ CrossRecvPlan t A q colSend rowSend /\
    exists i j, 0 <= i < RHeight r /\ 0 <= j < RWidth r /\
      iB + jB * ldim = RColOff r + RRowOff r * ldim + i * (StrideLCM (ColStride t) (ColStride A) / ColStride t) +
        j * (StrideLCM (RowStride t) (RowStride A) / RowStride t * ldim).
Proof.
  intros Hq HiB HjB. destruct (mesh_pos t Hct Hrt) as [Hr1 Hc1], (mesh_pos A HcA HrA) as [Hr2 Hc2].
  destruct (mesh_rank_range t Hct Hrt q Hq) as [Hkq Hlq].
  unfold LocalHeight, LocalWidth, ColShift, RowShift in HiB, HjB. rewrite Hh in HiB. rewrite Hw in HjB.
  destruct (axis_cover _ _ _ _ Hr1 Hr2 Hca HcaA (DHeight A) (ColRank t q) iB Hkq HiB)
    as (colSend & h1 & i & Hcs & Hh1 & Hd1 & Hi & Ei).
  destruct (axis_cover _ _ _ _ Hc1 Hc2 Hra HraA (DWidth A) (RowRank t q) jB Hlq HjB)
    as (rowSend & h2 & j & Hrs & Hh2 & Hd2 & Hj & Ej).
  pose proof (Z.mod_pos_bound (h1 + DColAlign A) (ColStride A) Hr2).
  pose proof (Z.mod_pos_bound (h2 + DRowAlign A) (RowStride A) Hc2).
  set (kA := (h1 + DColAlign A) mod ColStride A) in *. set (kA' := (h2 + DRowAlign A) mod RowStride A) in *.
  assert (E1 : Shift kA (DColAlign A) (ColStride A) = h1) by (apply Shift_owner; lia).
  assert (E2 : Shift kA' (DRowAlign A) (RowStride A) = h2) by (apply Shift_owner; lia).
  destruct (mesh_coords A HcA HrA kA kA') as (Hs & Er & Ec); [lia | lia |].
  exists colSend, rowSend, (CrossRecvOf t A q colSend rowSend (kA + kA' * ColStride A)).
  split; [lia | split; [lia | split]].
  - apply CrossRecvPlan_elem; [lia | lia | lia |]. exists (kA + kA' * ColStride A).
    split; [done | split; [| done]]. apply CrossDest_iff; [lia | lia | lia | lia |].
    by rewrite Er, Ec, E1, E2.
  - exists i, j. unfold CrossRecvOf. cbn [RHeight RWidth RColOff RRowOff].
    rewrite Er, Ec, E1, E2. split; [done | split; [done |]].
    unfold ColShift, RowShift. rewrite <- Ei, <- Ej. ring.
Qed.

(** The receiver's buffer after all rounds holds its share of [M]. *)
Lemma CrossRun_entry (RankMap : Z -> Z) q recvOff ldim buf aux iB jB :
  0 <= q < GSize (DGrid t) -> LocalHeight t q <= ldim ->
  0 <= iB < LocalHeight t q -> 0 <= jB < LocalWidth t q ->
  fst (CrossRun VCToViewing RankMap t A q recvOff ldim (buf, aux)) (iB + jB * ldim) =
    M (ColShift t q + iB * ColStride t) (RowShift t q + jB * RowStride t).
Proof.
  intros Hq Hld HiB HjB. rewrite CrossRun_fst.
  set (g := fun x => M (ColShift t q + (x mod ldim) * ColStride t) (RowShift t q + (x / ldim) * RowStride t)).
  set (lcs := StrideLCM (ColStride t) (ColStride A) / ColStride t).
  set (lrs := StrideLCM (RowStride t) (RowStride A) / RowStride t).
  assert (Hw' : writes (fun b => for_ 0 (NumSends (ColStride t) (ColStride A)) (fun colSend b1 =>
      for_ 0 (NumSends (RowStride t) (RowStride A)) (fun rowSend b2 =>
        fold_left (fun b r => CrossUnpack t A ldim r (CrossMsg t A (RSender r) colSend rowSend) 0 b)
          (CrossRecvPlan t A q colSend rowSend) b2) b1) b)
    (fun x => exists colSend, 0 <= colSend < NumSends (ColStride t) (ColStride A) /\
       exists rowSend, 0 <= rowSend < NumSends (RowStride t) (RowStride A) /\
       exists r, r ∈ CrossRecvPlan t A q colSend rowSend /\
       exists i j, 0 <= i < RHeight r /\ 0 <= j < RWidth r /\
         x = RColOff r + RRowOff r * ldim + i * lcs + j * (lrs * ldim)) g).
  { apply writes_for. intros colSend Hc. apply writes_for. intros rowSend Hr.
    apply (writes_fold_left (fun r => CrossUnpack t A ldim r (CrossMsg t A (RSender r) colSend rowSend) 0)).
    intros r Hr'. by apply CrossUnpack_writes. }
  destruct (Hw' buf (iB + jB * ldim)) as [Hin _]. rewrite Hin.
  - unfold g. rewrite Z.mod_add, Z.div_add, Z.mod_small, Z.div_small by lia. done.
  - destruct (CrossRecv_cover q ldim iB jB Hq HiB HjB) as (colSend & rowSend & r & Hc & Hr & Hx & i & j & Hi & Hj & E).
    exists colSend. split; [done |]. exists rowSend. split; [done |]. exists r. split; [done |].
    exists i, j. done.
Qed.


(** The copy into [t = Resize(A.Height(),A.Width())] of a matrix [this]:
    every round matches and every receiver ends with its share of [M]. *)
Lemma CopyFromDifferentGrid_local (RankMap : Z -> Z) this :
  t = Resize (DHeight A) (DWidth A) this ->
  exists B, CopyFromDifferentGrid VCToViewing RankMap A this = Some B /\ holds B M /\
    DHeight B = DHeight A /\ DWidth B = DWidth A /\ DistDataOf B = DistDataOf this.
Proof.
  intros Et. unfold CopyFromDifferentGrid. rewrite <- Et. cbv zeta.
  match goal with |- context [if forallb ?f ?l then _ else _] =>
    replace (forallb f l) with true; [| symmetry; apply forallb_forall; intros colSend Hc;
      apply forallb_forall; intros rowSend Hr] end.
  2:{ apply list_elem_of_In, elem_of_seqZ in Hc, Hr. apply CrossRoundOk_true; [exact holds_sizes | lia | lia]. }
  eexists. split; [reflexivity |]. split; [| subst t; cbn; done].
  apply holds_with_local. intros q Hq Hp.
  pose proof (Resize_local (DHeight A) (DWidth A) this q) as Hl. rewrite <- Et in Hl.
  destruct (Hl Hp) as (Eh & Ew & Hld & Hld0). cbn [LHeight LWidth LDim LBuf].
  split; [done | split; [done | split; [done |]]]. intros iLoc jLoc Hi Hj. unfold Entry. cbn [LBuf LDim].
  apply CrossRun_entry; lia.
Qed.

End Local.

End Matching.

(** ** The copy across grids *)

Lemma CopyFromDifferentGrid_correct {T} (VCToViewing RankMap : Z -> Z) (A this : DM T) (M : Z -> Z -> T) :
  dm_wf A -> DColDist A = MC -> DRowDist A = MR -> holds A M ->
  dm_wf this -> DColDist this = MC -> DRowDist this = MR ->
  exists B, CopyFromDifferentGrid VCToViewing RankMap A this = Some B /\ holds B M /\
    DHeight B = DHeight A /\ DWidth B = DWidth A /\ DistDataOf B = DistDataOf this.
Proof.
  intros (HgA & _ & _ & HcaA & HraA & _) HcA HrA HM (Hgt & _ & _ & Hca & Hra & _) Hct Hrt.
  exact (@CopyFromDifferentGrid_local T VCToViewing (Resize (DHeight A) (DWidth A) this) A Hgt HgA
    Hct Hrt HcA HrA Hca Hra HcaA HraA M HM eq_refl eq_refl RankMap this eq_refl).
Qed.

(** [C2] [[MC,MR] = [MC,MR]] across grids preserves the matrix: for
    well-formed [[MC,MR]] matrices [A] (standing for [M]) and [this] on any
    two meshes, and any viewing maps, every round of
    [CopyFromDifferentGrid] matches exactly, the copy completes, and
    [this] stands for [M] with [A]'s size and its own grid, distributions
    and alignments. *)
Theorem CopyFromDifferentGrid_holds {T} (VCToViewing RankMap : Z -> Z) (A this : DM T) (M : Z -> Z -> T) :
  dm_wf A -> DColDist A = MC -> DRowDist A = MR -> holds A M ->
  dm_wf this -> DColDist this = MC -> DRowDist this = MR ->
  exists B, CopyFromDifferentGrid VCToViewing RankMap A this = Some B /\ holds B M /\
    DHeight B = DHeight A /\ DWidth B = DWidth A /\ DistDataOf B = DistDataOf this.
Proof. exact (@CopyFromDifferentGrid_correct T VCToViewing RankMap A this M). Qed.

Lemma CopyFromDifferentGrid_holds_witness :
  exists B, CopyFromDifferentGrid (fun q => q) (fun s => s) crossSrc crossDst = Some B /\
    holds B Mat57 /\ DHeight B = 5 /\ DWidth B = 7 /\ DistDataOf B = DistDataOf crossDst.
Proof.
  assert (HA : dm_wf crossSrc) by solve_meta.
  assert (Ht : dm_wf crossDst) by solve_meta.
  exact (CopyFromDifferentGrid_holds (fun q => q) (fun s => s) crossSrc crossDst Mat57 HA eq_refl eq_refl
    (holds_FromGlobal _ _ _ _ _ _ _ _ _) Ht eq_refl eq_refl).
Defined.

(** [C3] The rounds of the copy match exactly, so the protocol cannot
    deadlock: in every round [(colSend,rowSend)], each receive of each
    member [q] of the target's grid names a member of [A]'s grid whose
    message of the round is addressed to [q] with the count [q] receives,
    and each member of [A]'s grid sends to a member of the target's grid
    that receives from it exactly once in that round. *)
Theorem CopyFromDifferentGrid_matching {T} (A t : DM T) colSend rowSend :
  dm_wf A -> DColDist A = MC -> DRowDist A = MR ->
  dm_wf t -> DColDist t = MC -> DRowDist t = MR ->
  (forall s, 0 <= s < GSize (DGrid A) ->
     LHeight (DLocal A s) = LocalHeight A s /\ LWidth (DLocal A s) = LocalWidth A s) ->
  0 <= colSend -> 0 <= rowSend ->
  (forall q x, 0 <= q < GSize (DGrid t) -> x ∈ CrossRecvPlan t A q colSend rowSend ->
     0 <= RSender x < GSize (DGrid A) /\ CrossDest t A (RSender x) colSend rowSend = q /\
     CrossCount A (RSender x) colSend rowSend (NumSends (ColStride t) (ColStride A))
       (NumSends (RowStride t) (RowStride A)) = RHeight x * RWidth x) /\
  (forall s, 0 <= s < GSize (DGrid A) ->
     0 <= CrossDest t A s colSend rowSend < GSize (DGrid t) /\
     count_occ Z.eq_dec (map RSender (CrossRecvPlan t A (CrossDest t A s colSend rowSend) colSend rowSend)) s = 1%nat).
Proof.
  intros (HgA & _ & _ & HcaA & HraA & _) HcA HrA (Hgt & _ & _ & Hca & Hra & _) Hct Hrt HlA Hc Hr.
  exact (@CrossRound_matching T (fun q => q) t A Hgt HgA Hct Hrt HcA HrA Hca Hra HcaA HraA HlA
    colSend rowSend Hc Hr).
Qed.

Lemma CopyFromDifferentGrid_matching_witness :
  (forall q x, 0 <= q < GSize (DGrid crossTgt) -> x ∈ CrossRecvPlan crossTgt crossSrc q 1 0 ->
     0 <= RSender x < GSize (DGrid crossSrc) /\ CrossDest crossTgt crossSrc (RSender x) 1 0 = q /\
     CrossCount crossSrc (RSender x) 1 0 (NumSends (ColStride crossTgt) (ColStride crossSrc))
       (NumSends (RowStride crossTgt) (RowStride crossSrc)) = RHeight x * RWidth x) /\
  (forall s, 0 <= s < GSize (DGrid crossSrc) ->
     0 <= CrossDest crossTgt crossSrc s 1 0 < GSize (DGrid crossTgt) /\
     count_occ Z.eq_dec (map RSender (CrossRecvPlan crossTgt crossSrc (CrossDest crossTgt crossSrc s 1 0) 1 0)) s = 1%nat).
Proof.
  assert (HA : dm_wf crossSrc) by solve_meta.
  assert (Ht : dm_wf crossTgt) by solve_meta.
  assert (HlA : forall s, 0 <= s < GSize (DGrid crossSrc) ->
    LHeight (DLocal crossSrc s) = LocalHeight crossSrc s /\ LWidth (DLocal crossSrc s) = LocalWidth crossSrc s).
  { intros s Hs. destruct (holds_FromGlobal grid23 MC MR 1 2 0 5 7 Mat57 s Hs eq_refl) as (? & ? & _). done. }
  assert (H1 : (0 <= 1)%Z) by lia. assert (H0 : (0 <= 0)%Z) by lia.
  exact (CopyFromDifferentGrid_matching crossSrc crossTgt 1 0 HA eq_refl eq_refl Ht eq_refl eq_refl HlA H1 H0).
Defined.

(** [C25] The code's scratch holds every message and the unpacks stay in
    the local matrix: in every round, the block of each receive of a
    member [q] of the resized target has at most
    [maxSendSize = (A.Height()/(colStrideA*numColSends)+1) *
    (A.Width()/(rowStrideA*numRowSends)+1)] entries (the size of [sendBuf]
    and of [recvBuf]), and every local index the unpack writes is below
    [q]'s local height and width. *)
Theorem CopyFromDifferentGrid_bounds {T} (A t : DM T) q colSend rowSend x :
  dm_wf A -> DColDist A = MC -> DRowDist A = MR ->
  dm_wf t -> DColDist t = MC -> DRowDist t = MR ->
  DHeight t = DHeight A -> DWidth t = DWidth A ->
  0 <= q < GSize (DGrid t) ->
  0 <= colSend < NumSends (ColStride t) (ColStride A) ->
  0 <= rowSend < NumSends (RowStride t) (RowStride A) ->
  x ∈ CrossRecvPlan t A q colSend rowSend ->
  0 <= RHeight x * RWidth x <=
    (DHeight A ÷ (ColStride A * NumSends (ColStride t) (ColStride A)) + 1) *
    (DWidth A ÷ (RowStride A * NumSends (RowStride t) (RowStride A)) + 1) /\
  forall i j, 0 <= i < RHeight x -> 0 <= j < RWidth x ->
    0 <= RColOff x + i * (StrideLCM (ColStride t) (ColStride A) / ColStride t) < LocalHeight t q /\
    0 <= RRowOff x + j * (StrideLCM (RowStride t) (RowStride A) / RowStride t) < LocalWidth t q.
Proof.
  intros (HgA & HhA & HwA & HcaA & HraA & _) HcA HrA (Hgt & _ & _ & Hca & Hra & _) Hct Hrt Hh Hw Hq Hc Hr Hx.
  exact (@CrossRecv_bounds T (fun q => q) t A Hgt HgA Hct Hrt HcA HrA Hca Hra HcaA HraA
    q colSend rowSend x Hh Hw HhA HwA Hq Hc Hr Hx).
Qed.

Lemma CopyFromDifferentGrid_bounds_witness :
  0 <= RHeight (mkCrossRecv 0 1 1 0 0) * RWidth (mkCrossRecv 0 1 1 0 0) <=
    (DHeight crossSrc ÷ (ColStride crossSrc * NumSends (ColStride crossTgt) (ColStride crossSrc)) + 1) *
    (DWidth crossSrc ÷ (RowStride crossSrc * NumSends (RowStride crossTgt) (RowStride crossSrc)) + 1) /\
  forall i j, 0 <= i < RHeight (mkCrossRecv 0 1 1 0 0) -> 0 <= j < RWidth (mkCrossRecv 0 1 1 0 0) ->
    0 <= RColOff (mkCrossRecv 0 1 1 0 0) + i * (StrideLCM (ColStride crossTgt) (ColStride crossSrc) / ColStride crossTgt)
      < LocalHeight crossTgt 0 /\
    0 <= RRowOff (mkCrossRecv 0 1 1 0 0) + j * (StrideLCM (RowStride crossTgt) (RowStride crossSrc) / RowStride crossTgt)
      < LocalWidth crossTgt 0.
Proof.
  assert (HA : dm_wf crossSrc) by solve_meta.
  assert (Ht : dm_wf crossTgt) by solve_meta.
  assert (Hq : 0 <= 0 < GSize (DGrid crossTgt)) by (vm_compute; split; congruence).
  assert (Hc : 0 <= 0 < NumSends (ColStride crossTgt) (ColStride crossSrc)) by (vm_compute; split; congruence).
  assert (Hr : 0 <= 0 < NumSends (RowStride crossTgt) (RowStride crossSrc)) by (vm_compute; split; congruence).
  assert (Hx : mkCrossRecv 0 1 1 0 0 ∈ CrossRecvPlan crossTgt crossSrc 0 0 0).
  { replace (CrossRecvPlan crossTgt crossSrc 0 0 0) with [mkCrossRecv 0 1 1 0 0] by (vm_compute; reflexivity).
    apply list_elem_of_here. }
  exact (CopyFromDifferentGrid_bounds crossSrc crossTgt 0 0 0 (mkCrossRecv 0 1 1 0 0) HA eq_refl eq_refl
    Ht eq_refl eq_refl eq_refl eq_refl Hq Hc Hr Hx).
Defined.
