(* ===== verification/McMrAssign.v ===== *)
(** * McMrAssign: the constructors and the assignment overloads of [[MC,MR]]
    ([src/core/dist_matrix/mc_mr.cpp], lines 25-913)

    [DistMatrix<T,MC,MR>] has one [operator=] per source distribution; the
    compiler picks it from the source's type.  [McMrAssign] is that choice,
    made on the source's tags, over the operators of the other files:
    [[MC,MR] = [MC,MR]] first tests the grids (lines 111 and 181-184) and
    hands a matrix of another grid to [CopyFromDifferentGrid] (file
    [CrossGrid]).  The copy constructors (lines 67-92) build a new matrix
    on the source's grid and assign the source to it.  The theorem: on one
    grid every overload completes and preserves the matrix for every
    source of an instantiated pair, an [[MC,MR]] source does so on any
    grid, and so does the copy constructor. *)

From stdpp Require Import base decidable numbers list.
From Stdlib Require Import ZArith Lia.
From S2P Require Import Prelude Indexing Grid Mpi Scratch DistMatrix Align Global Redist.
From S2P Require Import McMr McMrCirc McMrVC McMrVR McMrRoute McMrMRMC CrossGrid.

Open Scope Z_scope.

Section McMrOps.
Context {T : Type} `{Padding} `{Redistribute T} (uninit : T).
(** The viewing maps of [CopyFromDifferentGrid]. *)
Context (VCToViewing RankMap : Z -> Z).
Implicit Types A this : DM T.

(** [DistMatrix( const Grid& grid )] (lines 25-28). *)
Definition McMrNew (g : Grid) : DM T := EmptyDM uninit g MC MR.

(** [DistMatrix( height, width, grid )] (lines 30-33). *)
Definition McMrNewSized (h w : Z) (g : Grid) : DM T := Resize h w (McMrNew g).

(** [DistMatrix( height, width, colAlign, rowAlign, g )] (lines 35-42). *)
Definition McMrNewAligned (h w ca ra : Z) (g : Grid) : DM T := Resize h w (Align ca ra (McMrNew g)).

(** [[MC,MR] = [MC,MR]] (lines 104-184): the grid test. *)
Definition McMrAssignSelf A this : option (DM T) :=
  if decide (DGrid this = DGrid A) then AssignSameGrid A this
  else CopyFromDifferentGrid VCToViewing RankMap A this.

(** [*this = A] for a source of tags [[U,V]]: the overload the compiler
    picks (no [DistMatrix] has another pair). *)
Definition McMrAssign A this : option (DM T) :=
  match DColDist A, DRowDist A with
  | MC, MR => McMrAssignSelf A this
  | MC, STAR => Some (AssignFromMCStar A this)
  | STAR, MR => Some (AssignFromStarMR A this)
  | MD, STAR => Some (AssignFromMDStar A this)
  | STAR, MD => Some (AssignFromStarMD A this)
  | MR, MC => AssignFromMRMC A this
  | MR, STAR => AssignFromMRStar A this
  | STAR, MC => AssignFromStarMC A this
  | VC, STAR => AssignFromVCStar A this
  | STAR, VC => AssignFromStarVC A this
  | VR, STAR => AssignFromVRStar A this
  | STAR, VR => AssignFromStarVR A this
  | STAR, STAR => Some (AssignFromStarStar A this)
  | CIRC, CIRC => Some (AssignFromCirc A this)
  | _, _ => None
  end.

(** The copy constructors (lines 67-92): a new matrix on [A]'s grid,
    then [*this = A]. *)
Definition McMrCopy A : option (DM T) := McMrAssign A (McMrNew (DGrid A)).
End McMrOps.

Section McMrAssignProofs.
Context {T : Type} `{Padding} `{Redistribute T} `{!RedistributeLaws T} (uninit : T).
Context (VCToViewing RankMap : Z -> Z).
Context (A : DM T) (M : Z -> Z -> T) (HsA : src_wf A) (HA : holds A M).

(** A new [[MC,MR]] matrix on a well-formed grid is well formed. *)
Lemma McMrNew_wf (g : Grid) : GridWf g -> src_wf (McMrNew uninit g).
Proof.
  intros Hg. pose proof Hg as [Hr Hc].
  unfold src_wf, dm_wf, ColStride, RowStride. cbn. repeat split; (done || lia).
Qed.

(** Each filter of the interface keeps [A]'s matrix and size. *)
Lemma filter_lands pre (f : DM T -> DM T -> DM T) this :
  FilterLaw pre f -> pre A this -> src_wf this -> DGrid this = DGrid A ->
  exists B, Some (f A this) = Some B /\ holds B M /\ DHeight B = DHeight A /\ DWidth B = DWidth A.
Proof.
  intros Hf Hpre Hst Hgt. destruct (Hf A this M Hpre HsA HA Hst Hgt) as (_ & _ & _ & _ & Hh & Hw & HB).
  eexists. done.
Qed.

(** Every overload, on a target of [A]'s grid, completes and keeps the
    matrix: the case analysis of [McMrAssign]. *)
Lemma McMrAssign_correct this :
  src_wf this -> DGrid this = DGrid A -> DColDist this = MC -> DRowDist this = MR ->
  exists B, McMrAssign VCToViewing RankMap A this = Some B /\ holds B M /\
    DHeight B = DHeight A /\ DWidth B = DWidth A.
Proof.
  intros Hst Hgt Hct Hrt.
  pose proof HsA as (Hwf & Hv & Hroot). pose proof Hwf as (Hg & Hm & Hn & Hca & Hra & HnA1 & HnA2).
  pose proof Hst as ((_ & _ & _ & Hca' & Hra' & _) & _).
  unfold ColStride, RowStride in Hca, Hra, Hca', Hra'. rewrite Hct, Hgt in Hca'. rewrite Hrt, Hgt in Hra'.
  cbn [DistStride] in Hca', Hra'.
  unfold McMrAssign. destruct (DColDist A) eqn:HcA, (DRowDist A) eqn:HrA; try discriminate Hv; try congruence;
    cbn [DistStride] in Hca, Hra.
  - (* [MC,MR] *) unfold McMrAssignSelf. rewrite decide_True by done. by apply AssignSameGrid_correct.
  - (* [MC,*] *) by eapply filter_lands; [apply RowFilterFrom_spec | src_tags | |].
  - (* [MR,MC] *) by apply AssignFromMRMC_correct.
  - (* [MR,*] *) by eapply proj1, McMr_staged_VC_correct.
  - (* [VC,*] *) by apply AssignFromVCStar_correct.
  - (* [VR,*] *) by eapply proj2, McMr_staged_VC_correct.
  - (* [*,MC] *) by eapply proj1, McMr_staged_VR_correct.
  - (* [*,MR] *) by eapply filter_lands; [apply ColFilterFrom_spec | src_tags | |].
  - (* [*,VC] *) by eapply proj2, McMr_staged_VR_correct.
  - (* [*,VR] *) by apply AssignFromStarVR_correct.
  - (* [*,*] *) by eapply filter_lands; [apply FilterFrom_spec | src_tags | |].
  - (* [o,o] *) destruct (AssignFromCirc_correct A this M) as (HB & Hh & Hw); try done; [by apply Hroot |].
    eexists. done.
Qed.

(** An [[MC,MR]] source on any grid: the grid test picks the same-grid
    copy or [CopyFromDifferentGrid], and both complete and keep the matrix. *)
Lemma McMrAssign_self_correct this :
  src_wf this -> DColDist this = MC -> DRowDist this = MR -> DColDist A = MC -> DRowDist A = MR ->
  exists B, McMrAssign VCToViewing RankMap A this = Some B /\ holds B M /\
    DHeight B = DHeight A /\ DWidth B = DWidth A.
Proof.
  intros Hst Hct Hrt HcA HrA. unfold McMrAssign. rewrite HcA, HrA. unfold McMrAssignSelf.
  destruct (decide (DGrid this = DGrid A)) as [Hg | Hg].
  { pose proof Hst as ((_ & _ & _ & Hca' & Hra' & _) & _). unfold ColStride, RowStride in Hca', Hra'.
    rewrite Hct, Hg in Hca'. rewrite Hrt, Hg in Hra'. cbn [DistStride] in Hca', Hra'.
    apply AssignSameGrid_correct; try done. apply HsA. }
  destruct (CopyFromDifferentGrid_correct VCToViewing RankMap A this M) as (B & -> & HB & Hh & Hw & _);
    try done; [apply HsA | apply Hst |].
  by exists B.
Qed.

(** [C1] Every [[MC,MR]] assignment preserves the matrix: for a source of
    any instantiated pair (the [MD] pairs aside, whose data is not
    modelled) that stands for [M], on the target's grid or, for an
    [[MC,MR]] source, on any grid, the overload [*this = A] selects
    completes, and the target stands for [M] with the source's size; so
    does the copy constructor [DistMatrix<T,MC,MR>( A )] on [A]'s grid. *)
Theorem McMrAssign_holds this :
  src_wf this -> DColDist this = MC -> DRowDist this = MR ->
  DGrid this = DGrid A \/ (DColDist A = MC /\ DRowDist A = MR) ->
  (exists B, McMrAssign VCToViewing RankMap A this = Some B /\ holds B M /\
     DHeight B = DHeight A /\ DWidth B = DWidth A) /\
  (exists B, McMrCopy uninit VCToViewing RankMap A = Some B /\ holds B M /\
     DHeight B = DHeight A /\ DWidth B = DWidth A).
Proof.
  intros Hst Hct Hrt Hgrid. split.
  - destruct Hgrid as [Hgt | [HcA HrA]]; [by apply McMrAssign_correct | by apply McMrAssign_self_correct].
  - pose proof HsA as ((Hg & _) & _). by apply McMrAssign_correct; [apply McMrNew_wf | ..].
Qed.
End McMrAssignProofs.

(** The 4 x 4 matrix as [[VC,*]] on the 2 x 2 mesh, assigned to an
    [[MC,MR]] matrix constrained to alignments (1,1), and copied. *)
Lemma McMrAssign_holds_witness :
  (exists B, @McMrAssign Z _ RefRedistribute (fun q => q) (fun s => s) (FromGlobal grid22 VC STAR 0 0 0 4 4 Mat44)
       (Align 1 1 (FromGlobal grid22 MC MR 0 0 0 0 0 Mat44)) = Some B /\ holds B Mat44 /\
     DHeight B = 4 /\ DWidth B = 4) /\
  (exists B, @McMrCopy Z _ RefRedistribute 0 (fun q => q) (fun s => s) (FromGlobal grid22 VC STAR 0 0 0 4 4 Mat44) = Some B /\
     holds B Mat44 /\ DHeight B = 4 /\ DWidth B = 4).
Proof.
  assert (HsA : src_wf (FromGlobal grid22 VC STAR 0 0 0 4 4 Mat44)) by (apply FromGlobal_wf; cbn; try done; lia).
  assert (Hst : src_wf (Align 1 1 (FromGlobal grid22 MC MR 0 0 0 0 0 Mat44))) by (unfold src_wf; solve_meta).
  exact (@McMrAssign_holds Z _ RefRedistribute RefRedistribute_laws 0 (fun q => q) (fun s => s)
    (FromGlobal grid22 VC STAR 0 0 0 4 4 Mat44) Mat44 HsA (holds_FromGlobal _ _ _ _ _ _ _ _ _)
    (Align 1 1 (FromGlobal grid22 MC MR 0 0 0 0 0 Mat44)) Hst eq_refl eq_refl (or_introl eq_refl)).
Defined.
