(* ===== verification/MrStar.v ===== *)
(** * MrStar: the [[MR,*]] distribution ([src/core/dist_matrix/mr_star.cpp])

    Rows cyclically over the [c] process columns, every column on every
    process: process [q] holds the rows of [MR] shift
    [Shift (col q) colAlign c].  This file models the assignment
    [[MR,*] = [MR,*]] (lines 260-334): the target adopts the source's
    column alignment unless it is fixed; when the alignments agree the
    local matrix is copied, otherwise every process packs its rows, trades
    them within its mesh row by one [SendRecv] ([sendRank], [recvRank])
    and unpacks them.  The theorems: the exchange always matches and the
    target stands for the source's global matrix. *)

From stdpp Require Import base decidable numbers list.
From Stdlib Require Import ZArith Lia.
From S2P Require Import Prelude Indexing Grid Mpi Scratch DistMatrix.

Open Scope Z_scope.

Section MrStarSelf.
Context {T : Type}.

(** The pack (lines 304-313): column [j] of [A]'s local matrix goes to
    [sendBuf[j*localHeightOfA]]. *)
Definition MrStarPack (width : Z) (LA : Local T) (sendBuf : mem T) : mem T :=
  CopyCols sendBuf 0 (LHeight LA) (LBuf LA) 0 (LDim LA) (LHeight LA) width.

(** The unpack (lines 320-329): column [j] of the local matrix from
    [recvBuf[j*localHeight]]. *)
Definition MrStarUnpack (width : Z) (recvBuf : mem T) (recvOff : Z) (L : Local T) : Local T :=
  mkLocal (LHeight L) (LWidth L) (LDim L)
    (CopyCols (LBuf L) 0 (LDim L) recvBuf recvOff (LHeight L) (LHeight L) width).

(** [DistMatrix<T,MR,STAR>::operator=( const DistMatrix<T,MR,STAR>& A )]:
    [None] when the exchange cannot complete. *)
Definition AssignMrStarSame (A this : DM T) : option (DM T) :=
  let t := AlignColsAndResize (DColAlign A) (DHeight A) (DWidth A) this in
  let g := DGrid t in
  if decide (DColAlign t = DColAlign A) then
    Some (with_local (fun q => if Participating t q then DLocal A q else DLocal t q) (DAux t) t)
  else
    let rank q := GCol g q in
    let c := GWidth g in
    let colAlign := DColAlign t in
    let colAlignOfA := DColAlign A in
    let sendRank q := (rank q + c + colAlign - colAlignOfA) `rem` c in
    let recvRank q := (rank q + c + colAlignOfA - colAlign) `rem` c in
    let width := DWidth t in
    let sendSize q := LHeight (DLocal A q) * width in
    let recvSize q := LHeight (DLocal t q) * width in
    let aux q := Require (sendSize q + recvSize q) (DAux t q) in
    (* sendBuf = buffer[0..sendSize), recvBuf = buffer[sendSize..) *)
    let W0 q := MrStarPack width (DLocal A q) (AuxMem (aux q)) in
    match SendRecv (GSize g) (RowComm g) W0 (fun _ => 0) sendSize sendRank sendSize recvSize recvRank with
    | None => None
    | Some W1 =>
        Some (with_local
          (fun q => if Participating t q then MrStarUnpack width (W1 q) (sendSize q) (DLocal t q)
                    else DLocal t q)
          (fun q => if Participating t q then Release (SetAuxMem (W1 q) (aux q)) else DAux t q) t)
    end.
End MrStarSelf.

Section MrStarSelfRefines.
Context {T : Type} (A this : DM T) (M : Z -> Z -> T).
Context (Hg : GridWf (DGrid A)) (HcA : DColDist A = MR) (HrA : DRowDist A = STAR).
Context (Hca : 0 <= DColAlign A < GWidth (DGrid A)) (Hm : 0 <= DHeight A) (Hn : 0 <= DWidth A).
Context (HA : holds A M).
Context (Hgt : DGrid this = DGrid A) (Hct : DColDist this = MR) (Hrt : DRowDist this = STAR).
Context (Hca' : 0 <= DColAlign this < GWidth (DGrid A)).

Let t := AlignColsAndResize (DColAlign A) (DHeight A) (DWidth A) this.

(** The shifts and local sizes of an [[MR,*]] matrix on process [q]. *)
Lemma mrstar_shifts (B : DM T) q :
  DGrid B = DGrid A -> DColDist B = MR -> DRowDist B = STAR -> 0 <= q ->
  0 <= DColAlign B < GWidth (DGrid A) ->
  ColStride B = GWidth (DGrid A) /\ RowStride B = 1 /\ RowShift B q = 0 /\
  ColShift B q = Shift (GCol (DGrid A) q) (DColAlign B) (GWidth (DGrid A)) /\
  0 <= ColShift B q < GWidth (DGrid A) /\
  LocalHeight B q = Length (DHeight B) (ColShift B q) (GWidth (DGrid A)) /\
  (0 <= DWidth B -> LocalWidth B q = DWidth B).
Proof.
  intros Hbg Hbc Hbr Hq Hba. pose proof Hg as [Hr Hc].
  unfold LocalHeight, LocalWidth, ColShift, RowShift, ColRank, RowRank, ColStride, RowStride.
  rewrite Hbg, Hbc, Hbr. cbn [DistStride DistRank default id].
  assert (0 <= GCol (DGrid A) q) by (apply Z.div_pos; lia).
  rewrite Shift_stride1. do 4 (split; [done |]).
  split; [apply Shift_range; lia | split; [done |]]. intros. by apply Length_stride1.
Qed.

(** The target after [AlignColsAndResize]. *)
Lemma ms_target_meta :
  DGrid t = DGrid A /\ DColDist t = MR /\ DRowDist t = STAR /\
  DHeight t = DHeight A /\ DWidth t = DWidth A /\ 0 <= DColAlign t < GWidth (DGrid A) /\
  forall q, Participating t q = true /\
    LHeight (DLocal t q) = LocalHeight t q /\ LWidth (DLocal t q) = LocalWidth t q /\
    LHeight (DLocal t q) <= LDim (DLocal t q).
Proof.
  unfold t, AlignColsAndResize.
  destruct (AlignAndResize_meta (DColAlign A) (DRowAlign this) (DHeight A) (DWidth A) this)
    as (Htg & Htc & Htr & Hth & Htw & _ & _ & _ & Htca & _).
  rewrite Htg, Htc, Htr, Hth, Htw, Htca, Hgt, Hct, Hrt. do 5 (split; [done |]).
  split; [destruct (DViewing this || DColConstrained this); lia |].
  intros q. assert (HP : Participating (AlignAndResize (DColAlign A) (DRowAlign this)
    (DHeight A) (DWidth A) this) q = true) by (unfold Participating; by rewrite Htc, Hct).
  split; [done |]. destruct (AlignAndResize_local _ _ _ _ this q HP) as (? & ? & ? & _). done.
Qed.

(** The local matrix of [A] on process [q]. *)
Lemma ms_A_local q :
  0 <= q < GSize (DGrid A) ->
  LHeight (DLocal A q) = LocalHeight A q /\ LWidth (DLocal A q) = DWidth A /\
  forall i j, 0 <= i < LHeight (DLocal A q) -> 0 <= j < DWidth A ->
    LBuf (DLocal A q) (i + j * LDim (DLocal A q)) = M (ColShift A q + i * GWidth (DGrid A)) j.
Proof.
  intros Hq. destruct (HA q Hq) as (Hh & Hw & _ & He); [unfold Participating; by rewrite HcA |].
  destruct (mrstar_shifts A q eq_refl HcA HrA ltac:(lia) Hca) as (_ & Hrs1 & Hrs & _ & _ & _ & Hlw).
  rewrite Hlw in Hw by done. split; [done | split; [done |]]. intros i j Hi Hj.
  specialize (He i j Hi ltac:(lia)). unfold Entry in He. rewrite He, Hrs, Hrs1.
  unfold ColStride. rewrite HcA. f_equal. lia.
Qed.

(** The partner of the unaligned exchange: [recvRank] names, in the mesh
    row of [q], the process whose old rows are [q]'s new rows, and whose
    [sendRank] is [q]'s column. *)
Lemma ms_partner q :
  0 <= q < GSize (DGrid A) ->
  let c := GWidth (DGrid A) in
  let s := VCOf (DGrid A) (GRow (DGrid A) q) ((GCol (DGrid A) q + c + DColAlign A - DColAlign t) `rem` c) in
  0 <= s < GSize (DGrid A) /\ GRow (DGrid A) s = GRow (DGrid A) q /\
  ColShift A s = ColShift t q /\ LHeight (DLocal A s) = LHeight (DLocal t q) /\
  (GCol (DGrid A) s + c + DColAlign t - DColAlign A) `rem` c = GCol (DGrid A) q.
Proof.
  intros Hq c s. pose proof Hg as [Hr Hc]. pose proof (GRow_range (DGrid A) q).
  pose proof (@GCol_range _ Hg q Hq).
  destruct ms_target_meta as (Htg & Htc & Htr & Hth & _ & Hta & Hloc).
  destruct (realign_partner c Hc (GCol (DGrid A) q) (DColAlign t) (DColAlign A)) as (Hk & Hsh & Hback);
    [lia | lia | lia |].
  replace ((GCol (DGrid A) q + c - (DColAlign t - DColAlign A)) `rem` c)
    with ((GCol (DGrid A) q + c + DColAlign A - DColAlign t) `rem` c) in * by (f_equal; lia).
  destruct (@coords_VCOf _ Hg (GRow (DGrid A) q) ((GCol (DGrid A) q + c + DColAlign A - DColAlign t) `rem` c) ltac:(lia)) as [Hrow Hcol]. fold s in Hrow, Hcol.
  assert (Hs : 0 <= s < GSize (DGrid A)) by (apply (@VCOf_range _ Hg); lia).
  destruct (mrstar_shifts A s eq_refl HcA HrA ltac:(lia) Hca) as (_ & _ & _ & HcsA & _ & HlhA & _).
  destruct (mrstar_shifts t q Htg Htc Htr ltac:(lia) Hta) as (_ & _ & _ & Hcst & _ & Hlht & _).
  assert (Hcs : ColShift A s = ColShift t q) by (rewrite HcsA, Hcst, Hcol; done).
  destruct (ms_A_local s Hs) as (Hh & _). destruct (Hloc q) as (_ & Hh' & _).
  split; [done | split; [done | split; [done | split]]].
  - rewrite Hh, Hh', HlhA, Hlht, Hcs, Hth. done.
  - rewrite Hcol. etransitivity; [| exact Hback]. f_equal. lia.
Qed.

(** The refinement proof of [AssignMrStarSame]. *)
Lemma AssignMrStarSame_correct :
  exists B, AssignMrStarSame A this = Some B /\ holds B M /\
    DHeight B = DHeight A /\ DWidth B = DWidth A.
Proof.
  pose proof Hg as [Hr Hc].
  destruct ms_target_meta as (Htg & Htc & Htr & Hth & Htw & Hta & Hloc).
  unfold AssignMrStarSame. fold t. cbv zeta.
  destruct (decide (DColAlign t = DColAlign A)) as [Hal | Hal].
  - eexists. split; [reflexivity |]. split; [| done]. apply holds_with_local. intros q Hq _.
    rewrite Htg in Hq. destruct (Hloc q) as (-> & _).
    destruct (HA q Hq) as (Hh & Hw & Hld & He); [unfold Participating; by rewrite HcA |].
    destruct (mrstar_shifts A q eq_refl HcA HrA ltac:(lia) Hca) as (HcsA & Hrs1A & HrsA & HshA & _ & HlhA & HlwA).
    destruct (mrstar_shifts t q Htg Htc Htr ltac:(lia) Hta) as (Hcs & Hrs1 & Hrs & Hsh & _ & Hlh & Hlw).
    rewrite HlhA, HshA in Hh. rewrite HlwA in Hw by done. rewrite Hlh, Hlw, Hsh, Hth, Htw, Hal by done.
    do 3 (split; [done |]). intros iLoc jLoc Hi Hj. rewrite He by done.
    rewrite HcsA, Hrs1A, HrsA, HshA, Hcs, Hrs1, Hrs. done.
  - rewrite Htg. destruct (SendRecv _ _ _ _ _ _ _ _ _) as [W1|] eqn:HS.
    + eexists. split; [reflexivity |]. split; [| done]. apply holds_with_local. intros q Hq _.
      rewrite Htg in Hq. destruct (Hloc q) as (HP & Hh & Hw & Hld). rewrite HP.
      cbn [MrStarUnpack LHeight LWidth LDim LBuf]. do 3 (split; [done |]). intros iLoc jLoc Hi Hj.
      destruct (ms_partner q Hq) as (Hs & _ & Hcs & HsA & _). set (s := VCOf _ _ _) in *.
      destruct (mrstar_shifts t q Htg Htc Htr ltac:(lia) Hta) as (Hcst & Hrs1 & Hrs & _ & _ & _ & Hlw).
      rewrite Hw, Hlw, Htw in Hj by lia. unfold Entry, MrStarUnpack. cbn [LBuf LDim].
      replace (iLoc + jLoc * LDim (DLocal t q)) with (0 + iLoc + jLoc * LDim (DLocal t q)) by lia.
      rewrite CopyCols_spec, <- !Z.add_assoc by lia.
      rewrite (SendRecv_recv_at _ _ _ _ _ _ _ _ _ _ _ _ _ HS); [| reflexivity |];
        unfold partner; cbn [CMember RowComm]; fold s; [| rewrite HsA, Htw; nia].
      unfold MrStarPack. rewrite <- HsA.
      replace (0 + (iLoc + jLoc * LHeight (DLocal A s))) with (0 + iLoc + jLoc * LHeight (DLocal A s)) by lia.
      destruct (HA s Hs) as (_ & _ & HldA & _); [unfold Participating; by rewrite HcA |].
      rewrite CopyCols_spec by lia. rewrite Z.add_0_l.
      destruct (ms_A_local s Hs) as (_ & _ & HAe). rewrite HAe by lia.
      rewrite Hcs, Hcst, Hrs1, Hrs. f_equal; lia.
    + exfalso. unfold SendRecv in HS.
      rewrite (proj2 (sendrecv_ok_spec (GSize (DGrid A)) (RowComm (DGrid A)) _ _ _ _)) in HS;
        [discriminate |].
      intros q Hq. unfold partner. cbn [CMember RowComm].
      destruct (ms_partner q Hq) as (Hs & Hrow & _ & HsA & Hback). set (s := VCOf _ _ _) in *.
      rewrite Hrow, Hback, HsA. split; [apply (@VCOf_coords _ Hg) | lia].
Qed.

(** [C14] [[MR,*] = [MR,*]] preserves the matrix: when the target's column
    alignment follows the source's the local matrices are taken over;
    otherwise the exchange within every mesh row matches and every
    process receives the rows its new shift owns. *)
Theorem AssignMrStarSame_holds :
  exists B, AssignMrStarSame A this = Some B /\ holds B M /\
    DHeight B = DHeight A /\ DWidth B = DWidth A.
Proof. exact AssignMrStarSame_correct. Qed.
End MrStarSelfRefines.

(** The 4 x 4 matrix as [[MR,*]] with column alignment 2 on the 2 x 3
    mesh, assigned to an [[MR,*]] matrix constrained to alignment 0:
    the exchange within the mesh rows. *)
Lemma AssignMrStarSame_holds_witness :
  exists B, AssignMrStarSame (FromGlobal grid23 MR STAR 2 0 0 4 4 Mat44)
              (AlignCols 0 (FromGlobal grid23 MR STAR 0 0 0 0 0 Mat44)) = Some B /\
            holds B Mat44 /\ DHeight B = 4 /\ DWidth B = 4.
Proof.
  apply (AssignMrStarSame_holds (FromGlobal grid23 MR STAR 2 0 0 4 4 Mat44)
           (AlignCols 0 (FromGlobal grid23 MR STAR 0 0 0 0 0 Mat44)) Mat44);
    try solve [cbn; lia | reflexivity | split; cbn; lia | apply holds_FromGlobal].
Defined.

(** On that run process 0 (mesh column 0) holds rows 0 and 3. *)
Example AssignMrStarSame_unaligned_run :
  match AssignMrStarSame (FromGlobal grid23 MR STAR 2 0 0 4 4 Mat44)
          (AlignCols 0 (FromGlobal grid23 MR STAR 0 0 0 0 0 Mat44)) with
  | Some B => let L := DLocal B 0 in
      (LHeight L, LWidth L, Entry L 0 1, Entry L 1 2) = (2, 4, 1, 14)
  | None => False
  end.
Proof. vm_compute. reflexivity. Qed.
