(* ===== verification/MrStarRoute.v ===== *)
(** * MrStarRoute: the [[MR,*]] assignments that delegate ([src/core/dist_matrix/mr_star.cpp])

    The operators of [DistMatrix<T,MR,STAR>] without a protocol of their
    own (specification section 4.3, protocols 2, 3 and 6).  They end in
    one of three routines of [GeneralDistMatrix]: the partial column
    gather from [[VR,*]] ([[MR,*] = [VR,*]], lines 369-376), the row
    gather from [[MR,MC]] ([[MR,*] = [MR,MC]], lines 251-258) and the
    column filter from [[*,*]] (lines 396-403).  The other sources are
    staged: [[MC,MR]] and [[*,MR]] through [[VC,*]] and a [[VR,*]] aligned
    with the target (lines 92-109, 207-227), [[VC,*]] through an aligned
    [[VR,*]] (lines 346-357), [[*,MC]] and [[*,VC]] through [[MR,MC]]
    (lines 336-344, 359-367), [[*,VR]] through [[*,VC]] and an aligned
    [[MR,MC]] (lines 378-394), [[o,o]] through an [[MR,MC]] aligned with
    the target (lines 405-415), and [[MD,*]], [[*,MD]] through [[*,*]]
    (lines 229-249).  The theorems hold for every implementation of the
    interface [Redistribute] that meets [RedistributeLaws]. *)

From stdpp Require Import base decidable numbers list.
From Stdlib Require Import ZArith Lia.
From S2P Require Import Prelude Indexing Grid Mpi Scratch DistMatrix Align Global Redist.

Open Scope Z_scope.

Section MrRoutes.
Context {T : Type} `{Redistribute T}.
Implicit Types A this : DM T.

(** [[MR,*] = [VR,*]] (lines 369-376): [A.PartialColAllGather( *this )]. *)
Definition MrStarFromVRStar A this : DM T := PartialColAllGather A this.

(** [[MR,*] = [MR,MC]] (lines 251-258): [A.RowAllGather( *this )]. *)
Definition MrStarFromMRMC A this : DM T := RowAllGather A this.

(** [[MR,*] = [*,*]] (lines 396-403): [this->ColFilterFrom( A )]. *)
Definition MrStarFromStarStar A this : DM T := ColFilterFrom A this.

(** The staged tail of lines 97-107 and 213-225: [A] to a [[VC,*]] on
    the grid, that to a [[VR,*]] constrained to this matrix's column
    alignment, then [[MR,*] = [VR,*]]. *)
Definition MrStarViaVCVR (g : Grid) A this : DM T :=
  let A_VC_STAR := Convert VC STAR A in
  let A_VR_STAR := ConvertAligned VR STAR (DColAlign this) g A_VC_STAR in
  MrStarFromVRStar A_VR_STAR this.

(** [[MR,*] = [MC,MR]] (lines 92-109). *)
Definition MrStarFromMCMR A this : DM T := MrStarViaVCVR (DGrid this) A this.

(** [[MR,*] = [*,MR]] (lines 207-227): first to [[MC,MR]]. *)
Definition MrStarFromStarMR A this : DM T :=
  let A_MC_MR := Convert MC MR A in
  MrStarViaVCVR (DGrid this) A_MC_MR this.

(** [[MR,*] = [MD,*]] and [[MR,*] = [*,MD]] (lines 229-249). *)
Definition MrStarFromMDStar A this : DM T :=
  let A_STAR_STAR := Convert STAR STAR A in MrStarFromStarStar A_STAR_STAR this.

Definition MrStarFromStarMD A this : DM T :=
  let A_STAR_STAR := Convert STAR STAR A in MrStarFromStarStar A_STAR_STAR this.

(** [[MR,*] = [*,MC]] (lines 336-344) and [[MR,*] = [*,VC]] (lines
    359-367): through an [[MR,MC]] copy. *)
Definition MrStarFromStarMC A this : DM T :=
  let A_MR_MC := Convert MR MC A in MrStarFromMRMC A_MR_MC this.

Definition MrStarFromStarVC A this : DM T :=
  let A_MR_MC := Convert MR MC A in MrStarFromMRMC A_MR_MC this.

(** [[MR,*] = [VC,*]] (lines 346-357): a [[VR,*]] constrained to this
    matrix's column alignment. *)
Definition MrStarFromVCStar A this : DM T :=
  let g := DGrid this in
  let A_VR_STAR := ConvertAligned VR STAR (DColAlign this) g A in
  MrStarFromVRStar A_VR_STAR this.

(** [[MR,*] = [*,VR]] (lines 378-394): [[*,VC]], then an [[MR,MC]]
    constrained to this matrix's column alignment
    ([DistMatrix<T,MR,MC>(true,false,colAlign,0,g)]). *)
Definition MrStarFromStarVR A this : DM T :=
  let g := DGrid this in
  let A_STAR_VC := Convert STAR VC A in
  let A_MR_MC := ConvertAligned MR MC (DColAlign this) g A_STAR_VC in
  MrStarFromMRMC A_MR_MC this.

(** [[MR,*] = [o,o]] (lines 405-415): an [[MR,MC]] on [A]'s grid aligned
    with this matrix receives [A]. *)
Definition MrStarFromCirc A this : DM T :=
  let A_MR_MC := ConvertAligned MR MC (DColAlign this) (DGrid A) A in
  MrStarFromMRMC A_MR_MC this.
End MrRoutes.

Section MrRouteProofs.
Context {T : Type} `{Redistribute T} `{!RedistributeLaws T}.
Context (A this : DM T) (M : Z -> Z -> T) (HsA : src_wf A) (HA : holds A M).
Context (Hst : src_wf this) (Hgt : DGrid this = DGrid A).
Context (Hct : DColDist this = MR) (Hrt : DRowDist this = STAR).

(** What every [[MR,*]] operator delivers: an [[MR,*]] matrix on the
    grid, of [A]'s size, standing for [M]. *)
Definition MrLands (B : DM T) : Prop :=
  src_wf B /\ DColDist B = MR /\ DRowDist B = STAR /\ DGrid B = DGrid A /\
  DHeight B = DHeight A /\ DWidth B = DWidth A /\ holds B M.

(** The last stage of every route: a routine with the contract of a
    filter or gather, applied to an intermediate that stands for [M]. *)
Lemma lands_filter pre (f : DM T -> DM T -> DM T) (B2 : DM T) :
  FilterLaw pre f -> pre B2 this -> src_wf B2 -> holds B2 M -> DGrid B2 = DGrid A ->
  DHeight B2 = DHeight A -> DWidth B2 = DWidth A -> MrLands (f B2 this).
Proof.
  intros Hf Hpre Hs2 H2 Hg2 Hh2 Hw2.
  destruct (Hf B2 this M Hpre Hs2 H2 Hst ltac:(congruence)) as (? & Hc & Hr & Hg & Hh & Hw & HB).
  unfold MrLands. rewrite Hc, Hr, Hg, Hh, Hw. do 6 (split; [assumption |]). assumption.
Qed.

(** The column alignment of the target bounds the alignments the staged
    routes request. *)
Lemma mr_align_VR : 0 <= DColAlign this < DistStride (DGrid A) (AxisDist VR STAR).
Proof.
  destruct Hst as ((Hg & _ & _ & Hca & _) & _). unfold ColStride in Hca. rewrite Hct, Hgt in Hca.
  rewrite Hgt in Hg. destruct Hg as [Hr Hc].
  unfold AxisDist. rewrite decide_False by done. cbn in *. unfold GSize. nia.
Qed.

Lemma mr_align_MR : 0 <= DColAlign this < DistStride (DGrid A) (AxisDist MR MC).
Proof.
  destruct Hst as ((_ & _ & _ & Hca & _) & _). unfold ColStride in Hca. rewrite Hct, Hgt in Hca.
  unfold AxisDist. rewrite decide_False by done. done.
Qed.

(** The staged tail through [[VC,*]] and an aligned [[VR,*]] lands. *)
Lemma MrStarViaVCVR_lands B1 :
  src_wf B1 -> holds B1 M -> DGrid B1 = DGrid A -> DHeight B1 = DHeight A -> DWidth B1 = DWidth A ->
  MrLands (MrStarViaVCVR (DGrid A) B1 this).
Proof.
  intros Hs1 H1 Hg1 Hh1 Hw1. pose proof HsA as ((Hg & _) & _).
  destruct (Convert_spec VC STAR B1 M) as (Hs2 & Hc2 & Hr2 & Hg2 & Hh2 & Hw2 & H2); try done.
  destruct (ConvertAligned_spec VR STAR (DColAlign this) (DGrid A) (Convert VC STAR B1) M)
    as (Hs3 & Hc3 & Hr3 & Hg3 & Hh3 & Hw3 & _ & H3); try done; [apply mr_align_VR |].
  eapply (lands_filter _ PartialColAllGather); [apply PartialColAllGather_spec | src_tags | done | done | congruence..].
Qed.

Lemma MrStar_staged_VR_correct :
  MrLands (MrStarFromMCMR A this) /\ MrLands (MrStarFromStarMR A this) /\
  MrLands (MrStarFromVCStar A this).
Proof.
  pose proof HsA as ((Hg & _) & _). unfold MrStarFromMCMR, MrStarFromStarMR, MrStarFromVCStar.
  rewrite Hgt. split; [| split].
  - by apply MrStarViaVCVR_lands.
  - destruct (Convert_spec MC MR A M) as (Hs1 & Hc1 & Hr1 & Hg1 & Hh1 & Hw1 & H1); try done.
    by apply MrStarViaVCVR_lands.
  - destruct (ConvertAligned_spec VR STAR (DColAlign this) (DGrid A) A M)
      as (Hs2 & Hc2 & Hr2 & Hg2 & Hh2 & Hw2 & _ & H2); try done; [apply mr_align_VR |].
    eapply (lands_filter _ PartialColAllGather); [apply PartialColAllGather_spec | src_tags | done | done | congruence..].
Qed.

(** [C16] The [[MR,*]] operators staged through [[VR,*]] preserve the
    matrix: from [[MC,MR]] and [[*,MR]] (through [[VC,*]] and a [[VR,*]]
    aligned with the target) and from [[VC,*]] (through an aligned
    [[VR,*]]) the target ends as an [[MR,*]] matrix of the source's size
    standing for [M], for any conversions that meet [RedistributeLaws];
    the gather accepts a [[VR,*]] source only ([PartialColGatherSrc]), so
    the staging is what makes the routes land. *)
Theorem MrStar_staged_VR_holds :
  MrLands (MrStarFromMCMR A this) /\ MrLands (MrStarFromStarMR A this) /\
  MrLands (MrStarFromVCStar A this).
Proof. exact MrStar_staged_VR_correct. Qed.

Lemma MrStar_staged_MRMC_correct :
  MrLands (MrStarFromStarMC A this) /\ MrLands (MrStarFromStarVC A this) /\
  MrLands (MrStarFromStarVR A this) /\ MrLands (MrStarFromCirc A this).
Proof.
  pose proof HsA as ((Hg & _) & _).
  unfold MrStarFromStarMC, MrStarFromStarVC, MrStarFromStarVR, MrStarFromCirc. rewrite Hgt.
  destruct (Convert_spec MR MC A M) as (Hs1 & Hc1 & Hr1 & Hg1 & Hh1 & Hw1 & H1); try done.
  assert (HMRMC : MrLands (MrStarFromMRMC (Convert MR MC A) this))
    by (eapply (lands_filter _ RowAllGather); [apply RowAllGather_spec | src_tags | done | done | congruence..]).
  split; [done | split; [done | split]].
  - destruct (Convert_spec STAR VC A M) as (Hs2 & Hc2 & Hr2 & Hg2 & Hh2 & Hw2 & H2); try done.
    destruct (ConvertAligned_spec MR MC (DColAlign this) (DGrid A) (Convert STAR VC A) M)
      as (Hs3 & Hc3 & Hr3 & Hg3 & Hh3 & Hw3 & _ & H3); try done; [apply mr_align_MR |].
    eapply (lands_filter _ RowAllGather); [apply RowAllGather_spec | src_tags | done | done | congruence..].
  - destruct (ConvertAligned_spec MR MC (DColAlign this) (DGrid A) A M)
      as (Hs3 & Hc3 & Hr3 & Hg3 & Hh3 & Hw3 & _ & H3); try done; [apply mr_align_MR |].
    eapply (lands_filter _ RowAllGather); [apply RowAllGather_spec | src_tags | done | done | congruence..].
Qed.

(** [C17] The [[MR,*]] operators staged through [[MR,MC]] preserve the
    matrix: from [[*,MC]] and [[*,VC]] (an [[MR,MC]] copy), from [[*,VR]]
    (through [[*,VC]] and an [[MR,MC]] aligned with the target) and from
    [[o,o]] (an [[MR,MC]] aligned with the target), each ending in the
    row gather, which accepts an [[MR,MC]] source only ([RowGatherSrc]). *)
Theorem MrStar_staged_MRMC_holds :
  MrLands (MrStarFromStarMC A this) /\ MrLands (MrStarFromStarVC A this) /\
  MrLands (MrStarFromStarVR A this) /\ MrLands (MrStarFromCirc A this).
Proof. exact MrStar_staged_MRMC_correct. Qed.
End MrRouteProofs.

(** The 4 x 4 matrix as [[MC,MR]] (resp. [[*,MC]]) on the 2 x 3 mesh,
    assigned to an [[MR,*]] matrix with column alignment 2, with the
    conversions of the reference implementation. *)
Lemma MrStar_staged_VR_holds_witness :
  let A := FromGlobal grid23 MC MR 1 2 0 4 4 Mat44 in
  let this := FromGlobal grid23 MR STAR 2 0 0 0 0 Mat44 in
  @MrLands Z A Mat44 (@MrStarFromMCMR Z RefRedistribute A this) /\
  @MrLands Z A Mat44 (@MrStarFromStarMR Z RefRedistribute A this) /\
  @MrLands Z A Mat44 (@MrStarFromVCStar Z RefRedistribute A this).
Proof.
  apply (@MrStar_staged_VR_holds Z RefRedistribute RefRedistribute_laws); try reflexivity.
  - apply FromGlobal_wf; cbn; try done; lia.
  - apply holds_FromGlobal.
  - apply FromGlobal_wf; cbn; try done; lia.
Defined.

Lemma MrStar_staged_MRMC_holds_witness :
  let A := FromGlobal grid23 STAR MC 0 1 0 4 4 Mat44 in
  let this := FromGlobal grid23 MR STAR 2 0 0 0 0 Mat44 in
  @MrLands Z A Mat44 (@MrStarFromStarMC Z RefRedistribute A this) /\
  @MrLands Z A Mat44 (@MrStarFromStarVC Z RefRedistribute A this) /\
  @MrLands Z A Mat44 (@MrStarFromStarVR Z RefRedistribute A this) /\
  @MrLands Z A Mat44 (@MrStarFromCirc Z RefRedistribute A this).
Proof.
  apply (@MrStar_staged_MRMC_holds Z RefRedistribute RefRedistribute_laws); try reflexivity.
  - apply FromGlobal_wf; cbn; try done; lia.
  - apply holds_FromGlobal.
  - apply FromGlobal_wf; cbn; try done; lia.
Defined.
