(* ===== verification/MrStarMC.v ===== *)
(** * MrStarMC: [[MR,*] = [MC,*]] ([src/core/dist_matrix/mr_star.cpp], lines 111-205)

    A column vector takes the vector fast path (specification section
    4.3, protocol 7): every process copies its [[VC,*]] portion of the
    vector out of its [[MC,*]] rows ([MCStarColPack]), a [SendRecv] over
    the VR communicator turns [[VC,*]] into [[VR,*]] (partners
    [sendRankRM], [recvRankRM]), and an [AllGather] down every mesh
    column collects the [[MR,*]] rows, which each process interleaves
    into its local column ([MCStarColUnpack]).  Any other matrix is
    staged through [[VC,*]] and an aligned [[VR,*]] ([MrStarViaVCVR]).
    The unpack is the [[MC,MR] = [MR,MC]] column unpack with the roles of
    the mesh's height and width exchanged ([MCStarColUnpack_swap]), so
    the two vector paths share their index lemmas. *)

From stdpp Require Import base decidable numbers list.
From Stdlib Require Import ZArith Lia.
From S2P Require Import Prelude Indexing Grid Mpi Scratch DistMatrix Align Global Redist McMrVC McMrVR McMrRoute McMrMRMC MrStarRoute.

Open Scope Z_scope.

Section FromMCStar.
Context {T : Type} `{Padding} `{Redistribute T}.

(** The pack (lines 155-165): the entries of VC shift
    [Shift rankCM colAlignOfA p] among this process's [[MC,*]] rows. *)
Definition MCStarColPack (height r c colAlignOfA colShiftOfA rankCM : Z) (LA : Local T)
    (sendBuf : mem T) : mem T :=
  let p := r * c in
  let shift := Shift rankCM colAlignOfA p in
  let offset := (shift - colShiftOfA) ÷ r in
  let thisLocalHeight := Length height shift p in
  for_ 0 thisLocalHeight (fun iLoc b => b.[iLoc <- LBuf LA (offset + iLoc * c)]) sendBuf.

(** The unpack (lines 177-188): block [k] of the gathered buffer came
    from the process of VR rank [myCol + c*k]. *)
Definition MCStarColUnpack (height r c colAlign colShift myCol portionSize : Z) (sendBuf : mem T)
    (thisBuffer : mem T) : mem T :=
  let p := r * c in
  for_ 0 r (fun k b =>
    let shift := Shift (myCol + c * k) colAlign p in
    let offset := (shift - colShift) ÷ c in
    let thisLocalHeight := Length height shift p in
    for_ 0 thisLocalHeight (fun iLoc b' => b'.[offset + iLoc * r <- sendBuf (k * portionSize + iLoc)]) b)
    thisBuffer.

(** [DistMatrix<T,MR,STAR>::operator=( const DistMatrix<T,MC,STAR>& A )]:
    [None] when the exchange of the vector path cannot complete. *)
Definition MrStarFromMCStar (A this : DM T) : option (DM T) :=
  let g := DGrid this in
  if decide (DWidth A = 1) then
    let t := Resize (DHeight A) 1 this in
    let r := GHeight g in
    let c := GWidth g in
    let p := GSize g in
    let colAlign := DColAlign t in
    let colAlignOfA := DColAlign A in
    let height := DHeight t in
    let portionSize := Pad (MaxLength height p) in
    let colShiftVR q := Shift (VRRank g q) colAlign p in
    let colShiftVCOfA q := Shift q colAlignOfA p in
    let sendRankRM q := (VRRank g q + (p + colShiftVCOfA q - colShiftVR q)) `rem` p in
    let recvRankCM q := (q + (p + colShiftVR q - colShiftVCOfA q)) `rem` p in
    let recvRankRM q := recvRankCM q ÷ r + c * (recvRankCM q `rem` r) in
    let aux q := Require ((r + 1) * portionSize) (DAux t q) in
    (* sendBuf = buffer[0..r*portionSize), recvBuf = buffer[r*portionSize..) *)
    let W0 q := MCStarColPack height r c colAlignOfA (ColShift A q) q (DLocal A q) (AuxMem (aux q)) in
    match SendRecv p (VRComm g) W0 (fun _ => 0) (fun _ => portionSize) sendRankRM
            (fun _ => r * portionSize) (fun _ => portionSize) recvRankRM with
    | None => None
    | Some W1 =>
        match AllGather p (ColComm g) W1 (fun _ => r * portionSize) (fun _ => portionSize) (fun _ => 0) with
        | None => None
        | Some W2 =>
            Some (with_local
              (fun q => let L := DLocal t q in
                 if Participating t q then
                   mkLocal (LHeight L) (LWidth L) (LDim L)
                     (MCStarColUnpack height r c colAlign (ColShift t q) (GCol g q) portionSize (W2 q) (LBuf L))
                 else L)
              (fun q => if Participating t q then Release (SetAuxMem (W2 q) (aux q)) else DAux t q) t)
        end
    end
  else Some (MrStarViaVCVR g A this).
End FromMCStar.

(** The [[MR,*]] column unpack is the [[MC,MR]] column unpack on the
    transposed mesh. *)
Lemma MCStarColUnpack_swap {T} height r c colAlign colShift myCol portion (recv buf : mem T) :
  MCStarColUnpack height r c colAlign colShift myCol portion recv buf =
  MRMCColUnpack height c r colAlign colShift myCol portion recv 0 buf.
Proof.
  unfold MCStarColUnpack, MRMCColUnpack. rewrite (Z.mul_comm r c).
  apply for_ext. intros k b _. apply for_ext. intros i b' _. by rewrite Z.add_0_l.
Qed.

Section MCStarRefines.
Context {T : Type} `{Padding} `{Redistribute T} (A this : DM T) (M : Z -> Z -> T).
Context (Hg : GridWf (DGrid A)) (HcA : DColDist A = MC) (HrA : DRowDist A = STAR).
Context (Hca : 0 <= DColAlign A < GHeight (DGrid A)) (Hm : 0 <= DHeight A) (Hw1 : DWidth A = 1).
Context (HA : holds A M).
Context (Hgt : DGrid this = DGrid A) (Hct : DColDist this = MR) (Hrt : DRowDist this = STAR).
Context (Hca' : 0 <= DColAlign this < GWidth (DGrid A)).

Let t := Resize (DHeight A) 1 this.

(** The target after [Resize]: alignment untouched, one column. *)
Lemma mc_target_meta :
  DGrid t = DGrid A /\ DColDist t = MR /\ DRowDist t = STAR /\ DHeight t = DHeight A /\
  DWidth t = 1 /\ DColAlign t = DColAlign this /\
  forall q, Participating t q = true /\
    LHeight (DLocal t q) = LocalHeight t q /\ LWidth (DLocal t q) = LocalWidth t q /\
    LHeight (DLocal t q) <= LDim (DLocal t q).
Proof.
  unfold t. cbn [Resize with_local with_size DGrid DColDist DRowDist DHeight DWidth DColAlign].
  do 6 (split; [done |]). intros q.
  assert (HP : Participating (Resize (DHeight A) 1 this) q = true)
    by (unfold Participating; cbn; by rewrite Hct).
  split; [done |]. destruct (Resize_local _ _ this q HP) as (? & ? & ? & _). done.
Qed.

(** The local column of [A] on process [u]: the rows of [MC] shift
    [Shift (row u) a r]. *)
Lemma mc_A_local u :
  0 <= u < GSize (DGrid A) ->
  LHeight (DLocal A u) = Length (DHeight A) (ColShift A u) (GHeight (DGrid A)) /\
  ColShift A u = Shift (GRow (DGrid A) u) (DColAlign A) (GHeight (DGrid A)) /\
  forall i, 0 <= i < LHeight (DLocal A u) ->
    LBuf (DLocal A u) i = M (ColShift A u + i * GHeight (DGrid A)) 0.
Proof.
  intros Hu. destruct (HA u Hu) as (Hh & Hw & _ & He); [unfold Participating; by rewrite HcA |].
  assert (Hcs : ColShift A u = Shift (GRow (DGrid A) u) (DColAlign A) (GHeight (DGrid A)))
    by (unfold ColShift, ColRank, ColStride; rewrite HcA; done).
  unfold LocalHeight, LocalWidth, RowShift, RowRank, ColStride, RowStride in Hh, Hw, He.
  rewrite HrA in Hw, He. rewrite HcA in Hh, He. cbn [DistStride DistRank default id] in Hh, Hw, He.
  rewrite Shift_stride1 in Hw, He. rewrite Hw1, Length_stride1 in Hw by lia.
  split; [done | split; [done |]]. intros i Hi. specialize (He i 0 Hi ltac:(lia)).
  unfold Entry in He. rewrite Z.mul_0_l, Z.add_0_r in He. rewrite He. f_equal; lia.
Qed.

(** The pack of process [u] holds, at [iLoc], the entry of VC shift
    [Shift u a p] it stands for. *)
Lemma mc_pack_value u buf iLoc :
  0 <= u < GSize (DGrid A) ->
  let p := GHeight (DGrid A) * GWidth (DGrid A) in
  0 <= iLoc < Length (DHeight A) (Shift u (DColAlign A) p) p ->
  MCStarColPack (DHeight A) (GHeight (DGrid A)) (GWidth (DGrid A)) (DColAlign A) (ColShift A u) u
    (DLocal A u) buf iLoc = M (Shift u (DColAlign A) p + iLoc * p) 0.
Proof.
  intros Hu p Hi. pose proof Hg as [Hr Hc]. unfold MCStarColPack. fold p.
  set (s := Shift u (DColAlign A) p) in *.
  destruct (mc_A_local u Hu) as (HLh & Hcs & HLe).
  pose proof (GRow_range (DGrid A) u). pose proof (GCol_range (DGrid A) u Hu).
  assert (Hcs' : (GRow (DGrid A) u - DColAlign A) mod GHeight (DGrid A) = ColShift A u)
    by (rewrite Hcs, Shift_mod by lia; done).
  destruct (vc_sender (GHeight (DGrid A)) (GWidth (DGrid A)) (DColAlign A) (ColShift A u) (GRow (DGrid A) u)
    Hr ltac:(nia) ltac:(lia) Hcs' (GCol (DGrid A) u) ltac:(lia)) as (Hsr & Hoff & Hsq & Hsum).
  fold (VCOf (DGrid A) (GRow (DGrid A) u) (GCol (DGrid A) u)) in Hsr, Hoff, Hsq, Hsum.
  rewrite (@VCOf_coords _ Hg u) in Hsr, Hoff, Hsq, Hsum. fold p s in Hsr, Hoff, Hsq, Hsum.
  assert (Hw : writes (fun b => for_ 0 (Length (DHeight A) s p)
      (fun iLoc b => b.[iLoc <- LBuf (DLocal A u) ((s - ColShift A u) ÷ GHeight (DGrid A) + iLoc * GWidth (DGrid A))]) b)
    (fun x => exists k, 0 <= k < Length (DHeight A) s p /\ x = k) (fun x => M (s + x * p) 0)).
  { apply writes_for. intros k Hk. apply writes_upd. rewrite Hoff.
    assert (Hg' : s + k * p < DHeight A)
      by (apply (proj1 (local_global p ltac:(nia) (DHeight A) s k ltac:(lia) ltac:(lia))); lia).
    rewrite HLe.
    - f_equal. subst p. nia.
    - rewrite HLh. split; [nia |].
      apply (proj2 (local_global _ Hr (DHeight A) (ColShift A u) (s / GHeight (DGrid A) + k * GWidth (DGrid A))
        ltac:(rewrite Hcs; apply Shift_range; lia) ltac:(nia))). subst p. nia. }
  destruct (Hw buf iLoc) as [Hv _]. apply Hv. exists iLoc. split; [lia | done].
Qed.

(** The data a process finds in block [k] after the exchange and the
    gather: its mesh column's member [k] received, from the VC rank
    whose VC shift is its VR shift, that shift's entries. *)
Lemma mc_gather_value (W0 W1 W2 : World T) (portion : Z) q k iLoc :
  let g := DGrid A in
  let p := GSize g in
  let b := DColAlign this in
  let a := DColAlign A in
  (forall v x, 0 <= v < p -> 0 <= x < portion ->
     W1 v (GHeight g * portion + x) =
     W0 (VRToVC g (((v + (p + Shift (VRRank g v) b p - Shift v a p)) `rem` p) ÷ GHeight g +
                   GWidth g * (((v + (p + Shift (VRRank g v) b p - Shift v a p)) `rem` p) `rem` GHeight g))) x) ->
  (forall u x, 0 <= u < p -> 0 <= x < Length (DHeight A) (Shift u a p) p ->
     W0 u x = M (Shift u a p + x * p) 0) ->
  0 < portion -> 0 <= q < p -> 0 <= k < GHeight g ->
  let sk := Shift (GCol g q + GWidth g * k) b (GWidth g * GHeight g) in
  0 <= iLoc < Length (DHeight A) sk (GWidth g * GHeight g) -> iLoc < portion ->
  AllGather p (ColComm g) W1 (fun _ => GHeight g * portion) (fun _ => portion) (fun _ => 0) = Some W2 ->
  W2 q (0 + k * portion + iLoc) = M (sk + iLoc * (GWidth g * GHeight g)) 0.
Proof.
  intros g p b a HW1 HW0 Hp Hq Hk sk Hi Hip HAG. pose proof Hg as [Hr Hc]. subst g p b a sk.
  rewrite (AllGather_recv_at _ _ _ _ _ _ _ _ _ _ _ HAG) by first [reflexivity | lia | cbn; lia].
  cbn [CMember ColComm]. set (g := DGrid A) in *. set (v := VCOf g k (GCol g q)).
  pose proof (GCol_range g q Hq). destruct (@coords_VCOf g Hg k (GCol g q) ltac:(lia)) as [Hvr Hvc]. fold v in Hvr, Hvc.
  assert (Hv : 0 <= v < GSize g) by (apply (@VCOf_range g Hg); lia).
  destruct (@vcvr_partner g Hg (DColAlign A) (DColAlign this) v) as (Hu & Hrr & Hsh & _);
    [unfold GSize in *; nia.. | done |].
  rewrite HW1, Hrr, (@VRToVC_VRRank g Hg) by lia.
  assert (Hvr' : VRRank g v = GCol g q + GWidth g * k) by (unfold VRRank; rewrite Hvr, Hvc; lia).
  rewrite HW0; [| exact Hu | rewrite Hsh, Hvr'; unfold GSize; rewrite (Z.mul_comm (GHeight g)); lia].
  rewrite Hsh, Hvr'. unfold GSize. rewrite (Z.mul_comm (GHeight g)). done.
Qed.

(** The vector path completes and leaves every process its [[MR,*]]
    rows of the column. *)
Lemma MrStarFromMCStar_vector_correct :
  exists B, MrStarFromMCStar A this = Some B /\ holds B M /\ DHeight B = DHeight A /\ DWidth B = DWidth A.
Proof.
  pose proof Hg as [Hr Hc].
  destruct mc_target_meta as (Htg & Htc & Htr & Hth & Htw & Hta & Hloc).
  unfold MrStarFromMCStar. rewrite decide_True by done. fold t. cbv zeta. rewrite Hgt, Hta, Hth.
  set (portion := Pad (MaxLength (DHeight A) (GSize (DGrid A)))).
  pose proof (Pad_pos (MaxLength (DHeight A) (GSize (DGrid A)))) as Hpp. fold portion in Hpp.
  assert (Hfit : forall s, 0 <= s < GSize (DGrid A) -> Length (DHeight A) s (GSize (DGrid A)) <= portion).
  { intros s Hs. eapply Z.le_trans; [| apply Pad_ge]. apply Length_le_MaxLength; unfold GSize in *; nia. }
  destruct (SendRecv _ _ _ _ _ _ _ _ _) as [W1|] eqn:HS.
  2: { exfalso. unfold SendRecv in HS.
    rewrite (proj2 (sendrecv_ok_spec (GSize (DGrid A)) (VRComm (DGrid A)) _ _ _ _)) in HS; [discriminate |].
    intros q Hq. unfold partner. cbn [CMember VRComm].
    destruct (@vcvr_partner (DGrid A) Hg (DColAlign A) (DColAlign this) q) as (Hu & Hvr & _ & Hback);
      [unfold GSize; nia | unfold GSize; nia | done |].
    rewrite Hvr, (@VRToVC_VRRank _ Hg) by done.
    split; [exact Hback | lia]. }
  destruct (AllGather _ _ _ _ _ _) as [W2|] eqn:HAG.
  2: { exfalso. unfold AllGather in HAG. by rewrite allgather_ok_const in HAG. }
  - eexists. split; [reflexivity |]. split; [| split; [exact Hth | rewrite Hw1; exact Htw]].
    apply holds_with_local. intros q Hq _. rewrite Htg in Hq. destruct (Hloc q) as (HP & Hlh & Hlw & Hld).
    rewrite HP. cbn [LHeight LWidth LDim LBuf]. do 3 (split; [done |]). intros l j Hl Hj.
    pose proof (GCol_range (DGrid A) q Hq).
    assert (Hcs : ColShift t q = Shift (GCol (DGrid A) q) (DColAlign this) (GWidth (DGrid A)))
      by (unfold ColShift, ColRank, ColStride; rewrite Htg, Htc, Hta; done).
    assert (Hrs : RowShift t q = 0 /\ ColStride t = GWidth (DGrid A) /\ LocalWidth t q = 1).
    { unfold LocalWidth, RowShift, RowRank, RowStride, ColStride. rewrite Htg, Htc, Htr, Htw.
      cbn [DistStride DistRank default id]. rewrite Shift_stride1, Length_stride1 by lia. done. }
    destruct Hrs as (Hrs & Hcst & Hlw1). rewrite Hlw, Hlw1 in Hj. assert (j = 0) as -> by lia.
    unfold Entry. cbn [LBuf LDim]. rewrite Z.mul_0_l, Z.add_0_r, Hrs, Hcst, MCStarColUnpack_swap.
    assert (Hcs' : 0 <= ColShift t q < GWidth (DGrid A)) by (rewrite Hcs; apply Shift_range; lia).
    unfold LocalHeight in Hlh. rewrite Hcst, Hth in Hlh. rewrite Hlh in Hl.
    apply (col_unpack_value (DHeight A) (GWidth (DGrid A)) (GHeight (DGrid A)) (DColAlign this)
             (ColShift t q) (GCol (DGrid A) q) portion 0 _ (fun G => M G 0)); try lia; [nia | |].
    + rewrite Hcs, Shift_mod by lia. done.
    + intros k iLoc Hk sk Hi.
      match type of HS with SendRecv _ _ ?W0 _ _ _ _ _ _ = _ =>
        apply (mc_gather_value W0 W1 W2 portion q k iLoc) end; try done.
      * intros v x Hv Hx. rewrite (SendRecv_recv_at _ _ _ _ _ _ _ _ _ _ _ _ _ HS) by (try reflexivity; cbv beta; lia).
        unfold partner. cbn [CMember VRComm]. by rewrite Z.add_0_l.
      * intros u x Hu Hx. apply mc_pack_value; unfold GSize in *; lia.
      * pose proof (Hfit sk ltac:(unfold sk, GSize; rewrite (Z.mul_comm (GHeight _)); apply Shift_range; nia)).
        unfold GSize in *. rewrite (Z.mul_comm (GHeight _)) in *. lia.
Qed.
End MCStarRefines.

Section MCStarHolds.
Context {T : Type} `{Padding} `{Redistribute T} `{!RedistributeLaws T}.
Context (A this : DM T) (M : Z -> Z -> T) (HsA : src_wf A) (HA : holds A M).
Context (HcA : DColDist A = MC) (HrA : DRowDist A = STAR).
Context (Hst : src_wf this) (Hgt : DGrid this = DGrid A).
Context (Hct : DColDist this = MR) (Hrt : DRowDist this = STAR).

Lemma MrStarFromMCStar_correct :
  exists B, MrStarFromMCStar A this = Some B /\ holds B M /\
    DHeight B = DHeight A /\ DWidth B = DWidth A.
Proof.
  pose proof HsA as ((Hg & Hm & Hn & Hca & _) & _). pose proof Hst as ((_ & _ & _ & Hca' & _) & _).
  unfold ColStride in Hca, Hca'. rewrite HcA in Hca. rewrite Hct, Hgt in Hca'. cbn in Hca, Hca'.
  destruct (decide (DWidth A = 1)) as [Hw1 | Hw1].
  - by apply MrStarFromMCStar_vector_correct.
  - unfold MrStarFromMCStar. rewrite decide_False by done. eexists. split; [reflexivity |].
    assert (HL : MrLands A M (MrStarViaVCVR (DGrid A) A this)) by (eapply MrStarViaVCVR_lands; done).
    rewrite Hgt. destruct HL as (_ & _ & _ & _ & Hh & Hw & HB). done.
Qed.

(** [C15] [[MR,*] = [MC,*]] preserves the matrix: a column vector takes the
    vector path (pack of the VC portion, [SendRecv] from [[VC,*]] to
    [[VR,*]], [AllGather] down the mesh columns, interleaving unpack),
    whose exchange always matches; any other matrix is staged through
    [[VC,*]] and an aligned [[VR,*]].  Either way the target stands for
    the source's matrix. *)
Theorem MrStarFromMCStar_holds :
  exists B, MrStarFromMCStar A this = Some B /\ holds B M /\
    DHeight B = DHeight A /\ DWidth B = DWidth A.
Proof. exact MrStarFromMCStar_correct. Qed.

End MCStarHolds.

(** A 7 x 1 column as [[MC,*]] with alignment 1 on the 2 x 3 mesh,
    assigned to an [[MR,*]] matrix with alignment 2: the vector path. *)
Lemma MrStarFromMCStar_holds_witness :
  exists B, @MrStarFromMCStar Z _ RefRedistribute (FromGlobal grid23 MC STAR 1 0 0 7 1 Mat44)
              (FromGlobal grid23 MR STAR 2 0 0 0 0 Mat44) = Some B /\
            holds B Mat44 /\ DHeight B = 7 /\ DWidth B = 1.
Proof.
  apply (@MrStarFromMCStar_holds Z _ RefRedistribute RefRedistribute_laws); try reflexivity.
  - apply FromGlobal_wf; cbn; try done; lia.
  - apply holds_FromGlobal.
  - apply FromGlobal_wf; cbn; try done; lia.
Defined.

(** On that run mesh column 2 (processes 4 and 5) holds rows 0, 3 and 6
    of the column: [Shift 2 2 3 = 0]. *)
Example MrStarFromMCStar_vector_run :
  match @MrStarFromMCStar Z _ RefRedistribute (FromGlobal grid23 MC STAR 1 0 0 7 1 Mat44)
          (FromGlobal grid23 MR STAR 2 0 0 0 0 (fun _ _ => -1)) with
  | Some B => let L := DLocal B 5 in
      (LHeight L, Entry L 0 0, Entry L 1 0, Entry L 2 0) = (3, 0, 12, 24)
  | None => False
  end.
Proof. vm_compute. reflexivity. Qed.

