(* ===== verification/MrStarTrans.v ===== *)
(** * MrStarTrans: [[MR,*]::TransposeFrom] and [AdjointFrom] from [[MC,MR]]
    ([src/core/dist_matrix/mr_star.cpp], lines 453-624)

    [B.TransposeFrom(A, conjugate)] makes the [[MR,*]] matrix [B] stand
    for the (conjugate) transpose of the [[MC,MR]] matrix [A]: row [i] of
    [B] is column [i] of [A], so [B]'s column alignment follows [A]'s row
    alignment.  When the two agree (lines 467-531) every process already
    holds, for its rows of [B], the entries of [A] of its mesh row: it
    packs its local matrix transposed, an [AllGather] down the mesh
    column collects the other mesh rows' parts, and the unpack places
    part [k] at the columns of [B] that mesh row [k] owns.  When they
    differ (lines 532-615) a [SendRecv] within the mesh row first brings
    each process the transposed local matrix of the process whose columns
    of [A] are its rows of [B], then the same gather and unpack follow.
    The theorems: both paths complete and leave [B] standing for the
    (conjugate) transpose of [A]'s matrix. *)

From stdpp Require Import base decidable numbers list.
From Stdlib Require Import ZArith Lia.
From S2P Require Import Prelude Indexing Grid Mpi Scratch DistMatrix McMrTrans MrStar.

Open Scope Z_scope.

Section MrStarTranspose.
Context {T : Type} `{Padding} (Conj : T -> T).

(** The pack (lines 481-505 and 560-584): the first [ld] entries of row
    [jLoc] of [A]'s local matrix become column [jLoc] of the buffer at
    [buf[off + jLoc*ld]], through [Conj] when [conjugate]. *)
Definition MrStarTransPack (conjugate : bool) (LA : Local T) (ld : Z) (buf : mem T) (off : Z) : mem T :=
  StridedMap (op Conj conjugate) buf off 1 ld (LBuf LA) 0 (LDim LA) 1 ld (LHeight LA).

(** The unpack (lines 512-529 and 596-613): part [k] of the gathered
    buffer holds, column after column of [localHeight] entries, the
    columns [rowShift + jLoc*r] of this local matrix, [rowShift] being
    the [MC] shift of mesh row [k] under [A]'s column alignment. *)
Definition MrStarTransUnpack (width r colAlignOfA portionSize : Z) (data : mem T) (off : Z)
    (L : Local T) : Local T :=
  mkLocal (LHeight L) (LWidth L) (LDim L)
    (for_ 0 r (fun k b =>
       let rowShift := Shift k colAlignOfA r in
       let localWidth := Length width rowShift r in
       CopyCols b (rowShift * LDim L) (r * LDim L) data (off + k * portionSize)
         (LHeight L) (LHeight L) localWidth) (LBuf L)).

(** The end of both paths: unpack from [recvBuf = buffer[off q]] and
    release the scratch arena. *)
Definition MrStarTransFinish (t : DM T) (colAlignOfA : Z) (W : World T) (portionSize off : Z -> Z)
    (aux : Z -> Aux T) : DM T :=
  with_local
    (fun q => if Participating t q
              then MrStarTransUnpack (DWidth t) (GHeight (DGrid t)) colAlignOfA (portionSize q) (W q) (off q) (DLocal t q)
              else DLocal t q)
    (fun q => if Participating t q then Release (SetAuxMem (W q) (aux q)) else DAux t q) t.

(** [DistMatrix<T,MR,STAR>::TransposeFrom( const DistMatrix<T,MC,MR>& A, bool conjugate )]:
    [None] when an exchange cannot complete. *)
Definition MrStarTransposeFrom (A this : DM T) (conjugate : bool) : option (DM T) :=
  let t := AlignColsAndResize (DRowAlign A) (DWidth A) (DHeight A) this in
  let g := DGrid t in
  let r := GHeight g in
  let c := GWidth g in
  let p := GSize g in
  let width := DWidth t in
  let colAlignOfA := DColAlign A in
  if decide (DColAlign t = DRowAlign A) then
    let portionSize q := Pad (LHeight (DLocal t q) * MaxLength width r) in
    let aux q := Require ((r + 1) * portionSize q) (DAux t q) in
    (* sendBuf = buffer[0..portionSize), recvBuf = buffer[portionSize..) *)
    let W0 q := MrStarTransPack conjugate (DLocal A q) (LHeight (DLocal t q)) (AuxMem (aux q)) 0 in
    match AllGather p (ColComm g) W0 (fun _ => 0) portionSize portionSize with
    | None => None
    | Some W1 => Some (MrStarTransFinish t colAlignOfA W1 portionSize portionSize aux)
    end
  else
    let colAlign := DColAlign t in
    let rowAlignOfA := DRowAlign A in
    let sendCol q := (GCol g q + c + colAlign - rowAlignOfA) `rem` c in
    let recvCol q := (GCol g q + c + rowAlignOfA - colAlign) `rem` c in
    let height := DHeight t in
    let portionSize := Pad (MaxLength height c * MaxLength width r) in
    let aux q := Require ((r + 1) * portionSize) (DAux t q) in
    (* firstBuf = buffer[0..portionSize), secondBuf = buffer[portionSize..) *)
    let W0 q := MrStarTransPack conjugate (DLocal A q) (LWidth (DLocal A q)) (AuxMem (aux q)) portionSize in
    match SendRecv p (RowComm g) W0 (fun _ => portionSize) (fun _ => portionSize) sendCol
            (fun _ => 0) (fun _ => portionSize) recvCol with
    | None => None
    | Some W1 =>
        match AllGather p (ColComm g) W1 (fun _ => 0) (fun _ => portionSize) (fun _ => portionSize) with
        | None => None
        | Some W2 => Some (MrStarTransFinish t colAlignOfA W2 (fun _ => portionSize) (fun _ => portionSize) aux)
        end
    end.

(** [DistMatrix<T,MR,STAR>::AdjointFrom( const DistMatrix<T,MC,MR>& A )] (lines 618-624). *)
Definition MrStarAdjointFrom (A this : DM T) : option (DM T) := MrStarTransposeFrom A this true.
End MrStarTranspose.

(** ** The pack and the unpack *)

Lemma trans_pack_value {T} (Conj : T -> T) cj (LA : Local T) ld buf off jLoc iLoc :
  0 <= jLoc < LHeight LA -> 0 <= iLoc < ld ->
  MrStarTransPack Conj cj LA ld buf off (off + jLoc * ld + iLoc) = op Conj cj (LBuf LA (jLoc + iLoc * LDim LA)).
Proof.
  intros Hj Hi. unfold MrStarTransPack.
  replace (off + jLoc * ld + iLoc) with (off + iLoc + jLoc * ld) by lia.
  rewrite StridedMap_spec by lia. f_equal. f_equal. lia.
Qed.

Section TransUnpackFacts.
Context {T : Type} (width r a portion off : Z) (data : mem T) (L : Local T) (f : Z -> Z -> T).
Context (Hr : 0 < r) (Ha : 0 <= a < r) (Hld : LHeight L <= LDim L) (Hld0 : 0 < LDim L).
Context (Hdata : forall k jLoc iLoc, 0 <= k < r -> 0 <= jLoc < Length width (Shift k a r) r ->
  0 <= iLoc < LHeight L ->
  data (off + k * portion + jLoc * LHeight L + iLoc) = f iLoc (Shift k a r + jLoc * r)).

(** The unpack gives every local entry [(iLoc, j)] the value that the
    part of mesh row [(j mod r + a) mod r], the owner of column [j],
    holds for it. *)
Lemma trans_unpack_value iLoc j :
  0 <= iLoc < LHeight L -> 0 <= j < width ->
  LBuf (MrStarTransUnpack width r a portion data off L) (iLoc + j * LDim L) = f iLoc j.
Proof.
  intros Hi Hj.
  assert (Hw : writes (for_ 0 r (fun k b => CopyCols b (Shift k a r * LDim L) (r * LDim L) data
      (off + k * portion) (LHeight L) (LHeight L) (Length width (Shift k a r) r)))
    (fun x => exists k, 0 <= k < r /\ exists jLoc, 0 <= jLoc < Length width (Shift k a r) r /\
       Shift k a r * LDim L + jLoc * (r * LDim L) <= x < Shift k a r * LDim L + jLoc * (r * LDim L) + LHeight L)
    (fun x => f (x mod LDim L) (x / LDim L))).
  { apply writes_for. intros k Hk. apply writes_CopyCols. intros i jLoc Hi' Hj'.
    pose proof (Shift_range r Hr k a ltac:(lia) ltac:(lia)).
    replace (Shift k a r * LDim L + jLoc * (r * LDim L) + i) with (i + (Shift k a r + jLoc * r) * LDim L) by ring.
    rewrite Z.mod_add, Z.div_add, Z.mod_small, Z.div_small by lia. rewrite Z.add_0_l.
    rewrite Hdata by lia. done. }
  destruct (Hw (LBuf L) (iLoc + j * LDim L)) as [Hv _].
  unfold MrStarTransUnpack. cbn [LBuf]. rewrite Hv.
  - rewrite Z.mod_add, Z.div_add, Z.mod_small, Z.div_small by lia. f_equal; lia.
  - pose proof (Z.mod_pos_bound j r Hr). pose proof (Z.mod_pos_bound (j mod r + a) r Hr).
    exists ((j mod r + a) mod r). split; [lia |].
    rewrite (Shift_owner r Hr (j mod r) a) by lia.
    destruct (global_local r Hr width (j mod r) j ltac:(lia) eq_refl) as [Hjl Heq].
    exists (j / r). split; [exact Hjl |].
    assert (j * LDim L = j mod r * LDim L + j / r * (r * LDim L)) by (rewrite <- Heq at 1; ring). lia.
Qed.
End TransUnpackFacts.

(** ** Refinement *)

Section MrStarTransRefines.
Context {T : Type} `{Padding} (Conj : T -> T) (A this : DM T) (M : Z -> Z -> T).
Context (Hg : GridWf (DGrid A)) (HcA : DColDist A = MC) (HrA : DRowDist A = MR).
Context (Hca : 0 <= DColAlign A < GHeight (DGrid A)) (Hra : 0 <= DRowAlign A < GWidth (DGrid A)).
Context (Hm : 0 <= DHeight A) (Hn : 0 <= DWidth A) (HA : holds A M).
Context (Hgt : DGrid this = DGrid A) (Hct : DColDist this = MR) (Hrt : DRowDist this = STAR).
Context (Hca' : 0 <= DColAlign this < GWidth (DGrid A)).

Let t := AlignColsAndResize (DRowAlign A) (DWidth A) (DHeight A) this.

(** The target after [AlignColsAndResize]: the transposed size, and a
    column alignment that follows [A]'s row alignment unless it is fixed. *)
Lemma mt_target_meta :
  DGrid t = DGrid A /\ DColDist t = MR /\ DRowDist t = STAR /\
  DHeight t = DWidth A /\ DWidth t = DHeight A /\ 0 <= DColAlign t < GWidth (DGrid A) /\
  DColAlign t = (if DViewing this || DColConstrained this then DColAlign this else DRowAlign A) /\
  forall q, Participating t q = true /\
    LHeight (DLocal t q) = LocalHeight t q /\ LWidth (DLocal t q) = LocalWidth t q /\
    LHeight (DLocal t q) <= LDim (DLocal t q) /\ 0 < LDim (DLocal t q).
Proof.
  unfold t, AlignColsAndResize.
  destruct (AlignAndResize_meta (DRowAlign A) (DRowAlign this) (DWidth A) (DHeight A) this)
    as (Htg & Htc & Htr & Hth & Htw & _ & _ & _ & Htca & _).
  rewrite Htg, Htc, Htr, Hth, Htw, Htca, Hgt, Hct, Hrt. do 5 (split; [done |]).
  split; [destruct (DViewing this || DColConstrained this); lia | split; [done |]].
  intros q. assert (HP : Participating (AlignAndResize (DRowAlign A) (DRowAlign this)
    (DWidth A) (DHeight A) this) q = true) by (unfold Participating; by rewrite Htc, Hct).
  split; [done |]. exact (AlignAndResize_local _ _ _ _ this q HP).
Qed.

(** The local matrix of the [[MC,MR]] source on process [q]. *)
Lemma mt_A_local q :
  0 <= q < GSize (DGrid A) ->
  ColShift A q = Shift (GRow (DGrid A) q) (DColAlign A) (GHeight (DGrid A)) /\
  RowShift A q = Shift (GCol (DGrid A) q) (DRowAlign A) (GWidth (DGrid A)) /\
  LHeight (DLocal A q) = Length (DHeight A) (ColShift A q) (GHeight (DGrid A)) /\
  LWidth (DLocal A q) = Length (DWidth A) (RowShift A q) (GWidth (DGrid A)) /\
  forall i j, 0 <= i < LHeight (DLocal A q) -> 0 <= j < LWidth (DLocal A q) ->
    LBuf (DLocal A q) (i + j * LDim (DLocal A q)) =
    M (ColShift A q + i * GHeight (DGrid A)) (RowShift A q + j * GWidth (DGrid A)).
Proof.
  intros Hq. destruct (HA q Hq) as (Hh & Hw & _ & He); [unfold Participating; by rewrite HcA |].
  unfold LocalHeight, LocalWidth, ColStride, RowStride in Hh, Hw, He.
  rewrite HcA in Hh, He. rewrite HrA in Hw, He.
  cbn [DistStride] in Hh, Hw, He.
  split; [unfold ColShift, ColRank, ColStride; by rewrite HcA |].
  split; [unfold RowShift, RowRank, RowStride; by rewrite HrA |]. done.
Qed.

(** Proving the transpose from what the gathered buffers hold: part [k]
    of process [q]'s buffer holds, for column [jLoc] of mesh row [k]'s
    rows of [A] and entry [iLoc] of [q]'s rows of the target, the
    (conjugated) entry of [A]. *)
Lemma mt_finish (cj : bool) (W : World T) (ps off : Z -> Z) (aux : Z -> Aux T) :
  (forall q k jLoc iLoc, 0 <= q < GSize (DGrid A) -> 0 <= k < GHeight (DGrid A) ->
     0 <= jLoc < Length (DHeight A) (Shift k (DColAlign A) (GHeight (DGrid A))) (GHeight (DGrid A)) ->
     0 <= iLoc < LHeight (DLocal t q) ->
     W q (off q + k * ps q + jLoc * LHeight (DLocal t q) + iLoc) =
     op Conj cj (M (Shift k (DColAlign A) (GHeight (DGrid A)) + jLoc * GHeight (DGrid A))
                   (ColShift t q + iLoc * GWidth (DGrid A)))) ->
  holds (MrStarTransFinish t (DColAlign A) W ps off aux) (fun i j => op Conj cj (M j i)).
Proof.
  intros HW. pose proof Hg as [Hr Hc]. unfold MrStarTransFinish. apply holds_with_local. intros q Hq _.
  destruct mt_target_meta as (Htg & Htc & Htr & Hth & Htw & Hta & _ & Hloc). rewrite Htg in Hq.
  destruct (Hloc q) as (HP & Hh & Hw & Hld & Hld0). rewrite HP. cbn [MrStarTransUnpack LHeight LWidth LDim].
  destruct (mrstar_shifts A Hg t q Htg Htc Htr ltac:(lia) Hta) as (Hcs & Hrs1 & Hrs & _ & _ & _ & Hlw).
  do 3 (split; [done |]). intros iLoc j Hi Hj. unfold Entry. cbn [LDim].
  rewrite Hw, Hlw, Htw in Hj by lia. rewrite Htw, Htg, Hrs, Hrs1, Hcs.
  rewrite (trans_unpack_value (DHeight A) (GHeight (DGrid A)) (DColAlign A) (ps q) (off q) (W q) (DLocal t q)
    (fun iLoc j => op Conj cj (M j (ColShift t q + iLoc * GWidth (DGrid A))))); try done.
  - f_equal. f_equal; lia.
  - intros k jLoc iLoc' Hk Hj' Hi'. by apply HW.
Qed.

(** The target's local height only depends on the mesh column. *)
Lemma mt_local_height q :
  0 <= q < GSize (DGrid A) ->
  LHeight (DLocal t q) = Length (DWidth A) (ColShift t q) (GWidth (DGrid A)) /\
  ColShift t q = Shift (GCol (DGrid A) q) (DColAlign t) (GWidth (DGrid A)) /\
  0 <= ColShift t q < GWidth (DGrid A).
Proof.
  intros Hq. destruct mt_target_meta as (Htg & Htc & Htr & Hth & _ & Hta & _ & Hloc).
  destruct (Hloc q) as (_ & Hh & _).
  destruct (mrstar_shifts A Hg t q Htg Htc Htr ltac:(lia) Hta) as (_ & _ & _ & Hsh & Hr & Hlh & _).
  rewrite Hh, Hlh, Hth. done.
Qed.

(** The member of mesh row [k] in the mesh column of [q]: its rows of
    [A] have [MC] shift [Shift k colAlignA r]; when the target's column
    alignment is [A]'s row alignment, its columns of [A] are [q]'s rows
    of the target. *)
Lemma mt_column_member q k :
  0 <= q < GSize (DGrid A) -> 0 <= k < GHeight (DGrid A) ->
  let u := VCOf (DGrid A) k (GCol (DGrid A) q) in
  0 <= u < GSize (DGrid A) /\ GCol (DGrid A) u = GCol (DGrid A) q /\
  ColShift A u = Shift k (DColAlign A) (GHeight (DGrid A)) /\
  LHeight (DLocal A u) = Length (DHeight A) (Shift k (DColAlign A) (GHeight (DGrid A))) (GHeight (DGrid A)) /\
  RowShift A u = Shift (GCol (DGrid A) q) (DRowAlign A) (GWidth (DGrid A)).
Proof.
  intros Hq Hk u. pose proof (GCol_range (DGrid A) q Hq).
  destruct (@coords_VCOf _ Hg k (GCol (DGrid A) q) Hk) as [Hrow Hcol]. fold u in Hrow, Hcol.
  assert (Hu : 0 <= u < GSize (DGrid A)) by (apply (@VCOf_range _ Hg); lia).
  destruct (mt_A_local u Hu) as (Hcs & Hrs & Hlh & _). rewrite Hrow in Hcs. rewrite Hcol in Hrs.
  rewrite Hlh, Hcs. done.
Qed.

(** On the aligned path the gather down the mesh column brings every
    process the transposed local matrices of its mesh column. *)
Lemma MrStarTransposeFrom_aligned_correct (cj : bool) :
  DColAlign t = DRowAlign A ->
  exists B, MrStarTransposeFrom Conj A this cj = Some B /\
    holds B (fun i j => op Conj cj (M j i)) /\ DHeight B = DWidth A /\ DWidth B = DHeight A.
Proof.
  intros Hal. pose proof Hg as [Hr Hc].
  destruct mt_target_meta as (Htg & Htc & Htr & Hth & Htw & Hta & _ & Hloc).
  unfold MrStarTransposeFrom. fold t. rewrite decide_True by done. cbv zeta. rewrite Htg, Htw.
  destruct (AllGather _ _ _ _ _ _) as [W1|] eqn:HAG.
  2: { exfalso. unfold AllGather in HAG. rewrite (proj2 (allgather_ok_spec _ _ _)) in HAG; [discriminate |].
    intros q j Hq Hj. cbn [CMember ColComm CSize] in *.
    destruct (mt_column_member q j Hq Hj) as (Hu & Hcol & _).
    destruct (mt_local_height q Hq) as (Hh & Hsh & _). destruct (mt_local_height _ Hu) as (Hh' & Hsh' & _).
    rewrite Hh, Hh', Hsh, Hsh', Hcol. done. }
  eexists. split; [reflexivity |]. split; [| done].
  apply mt_finish. intros q k jLoc iLoc Hq Hk Hj Hi.
  destruct (mt_column_member q k Hq Hk) as (Hu & Hcol & HcsA & HlhA & HrsA).
  set (u := VCOf (DGrid A) k (GCol (DGrid A) q)) in *.
  destruct (mt_local_height q Hq) as (Hh & Hsh & _). destruct (mt_local_height u Hu) as (Hh' & Hsh' & _).
  assert (Hlu : LHeight (DLocal t u) = LHeight (DLocal t q)) by (rewrite Hh, Hh', Hsh, Hsh', Hcol; done).
  pose proof (Length_le_MaxLength _ Hr (DHeight A) _ (Shift_range _ Hr k (DColAlign A) ltac:(lia) ltac:(lia))) as [Hmax _].
  pose proof (Pad_ge (LHeight (DLocal t q) * MaxLength (DHeight A) (GHeight (DGrid A)))) as Hpad.
  replace (Pad _ + k * Pad _ + jLoc * LHeight (DLocal t q) + iLoc)
    with (Pad (LHeight (DLocal t q) * MaxLength (DHeight A) (GHeight (DGrid A))) +
          k * Pad (LHeight (DLocal t q) * MaxLength (DHeight A) (GHeight (DGrid A))) +
          (jLoc * LHeight (DLocal t q) + iLoc)) by lia.
  rewrite (AllGather_recv _ _ _ _ _ _ _ _ _ _ HAG); [| apply Pad_pos | cbn; lia | nia].
  cbn [CMember ColComm]. fold u. cbv beta. rewrite <- Hlu.
  replace (0 + (jLoc * LHeight (DLocal t u) + iLoc)) with (0 + jLoc * LHeight (DLocal t u) + iLoc) by lia.
  rewrite trans_pack_value by (rewrite ?HlhA, ?Hlu; lia).
  destruct (mt_A_local u Hu) as (_ & _ & _ & HlwA & HAe).
  rewrite HAe; [| rewrite HlhA; lia | rewrite HlwA, HrsA, <- Hal, <- Hsh, <- Hh; lia].
  rewrite HcsA, HrsA, Hsh, Hal. done.
Qed.
(** The partner of the unaligned exchange, seen from mesh row [k]:
    [recvCol] names the mesh column whose columns of [A] are [q]'s rows
    of the target, and that column's [sendCol] is [q]'s column. *)
Lemma mt_partner q k :
  0 <= q < GSize (DGrid A) -> 0 <= k < GHeight (DGrid A) ->
  let c := GWidth (DGrid A) in
  let s := VCOf (DGrid A) k ((GCol (DGrid A) q + c + DRowAlign A - DColAlign t) `rem` c) in
  0 <= s < GSize (DGrid A) /\ GRow (DGrid A) s = k /\
  ColShift A s = Shift k (DColAlign A) (GHeight (DGrid A)) /\
  LHeight (DLocal A s) = Length (DHeight A) (Shift k (DColAlign A) (GHeight (DGrid A))) (GHeight (DGrid A)) /\
  RowShift A s = ColShift t q /\ LWidth (DLocal A s) = LHeight (DLocal t q) /\
  (GCol (DGrid A) s + c + DColAlign t - DRowAlign A) `rem` c = GCol (DGrid A) q.
Proof.
  intros Hq Hk c s. pose proof Hg as [Hr Hc]. pose proof (GCol_range (DGrid A) q Hq).
  destruct mt_target_meta as (_ & _ & _ & _ & _ & Hta & _).
  destruct (realign_partner c Hc (GCol (DGrid A) q) (DColAlign t) (DRowAlign A)) as (Hk' & Hsh & Hback);
    [lia | lia | lia |].
  replace ((GCol (DGrid A) q + c - (DColAlign t - DRowAlign A)) `rem` c)
    with ((GCol (DGrid A) q + c + DRowAlign A - DColAlign t) `rem` c) in * by (f_equal; lia).
  subst c. destruct (@coords_VCOf _ Hg k ((GCol (DGrid A) q + GWidth (DGrid A) + DRowAlign A - DColAlign t) `rem` GWidth (DGrid A)) Hk) as [Hrow Hcol]. fold s in Hrow, Hcol.
  assert (Hs : 0 <= s < GSize (DGrid A)) by (apply (@VCOf_range _ Hg); lia).
  destruct (mt_A_local s Hs) as (Hcs & Hrs & Hlh & Hlw & _).
  destruct (mt_local_height q Hq) as (Hh & Hsht & _).
  assert (HrsA : RowShift A s = ColShift t q) by (rewrite Hrs, Hcol, Hsh, Hsht; done).
  split; [done | split; [done | split; [by rewrite Hcs, Hrow | split; [by rewrite Hlh, Hcs, Hrow |]]]].
  split; [done | split; [by rewrite Hlw, HrsA, Hh |]].
  rewrite Hcol. etransitivity; [| exact Hback]. f_equal. lia.
Qed.

(** On the unaligned path the exchange within the mesh row brings every
    process the transposed local matrix whose columns of [A] are its
    rows of the target, and the gather then completes the columns. *)
Lemma MrStarTransposeFrom_unaligned_correct (cj : bool) :
  DColAlign t <> DRowAlign A ->
  exists B, MrStarTransposeFrom Conj A this cj = Some B /\
    holds B (fun i j => op Conj cj (M j i)) /\ DHeight B = DWidth A /\ DWidth B = DHeight A.
Proof.
  intros Hal. pose proof Hg as [Hr Hc].
  destruct mt_target_meta as (Htg & Htc & Htr & Hth & Htw & Hta & _ & Hloc).
  unfold MrStarTransposeFrom. fold t. rewrite decide_False by done. cbv zeta. rewrite Htg, Htw, Hth.
  set (portion := Pad (MaxLength (DWidth A) (GWidth (DGrid A)) * MaxLength (DHeight A) (GHeight (DGrid A)))).
  destruct (SendRecv _ _ _ _ _ _ _ _ _) as [W1|] eqn:HS.
  2: { exfalso. unfold SendRecv in HS.
    rewrite (proj2 (sendrecv_ok_spec (GSize (DGrid A)) (RowComm (DGrid A)) _ _ _ _)) in HS; [discriminate |].
    intros q Hq. unfold partner. cbn [CMember RowComm].
    destruct (mt_partner q (GRow (DGrid A) q) Hq (GRow_range _ q)) as (_ & Hrow & _ & _ & _ & _ & Hback).
    rewrite Hrow, Hback, (@VCOf_coords _ Hg). lia. }
  destruct (AllGather _ _ _ _ _ _) as [W2|] eqn:HAG.
  2: { exfalso. unfold AllGather in HAG. by rewrite allgather_ok_const in HAG. }
  eexists. split; [reflexivity |]. split; [| done].
  apply mt_finish. intros q k jLoc iLoc Hq Hk Hj Hi.
  destruct (mt_column_member q k Hq Hk) as (Hu & Hucol & _).
  set (u := VCOf (DGrid A) k (GCol (DGrid A) q)) in *.
  destruct (mt_partner q k Hq Hk) as (Hs & _ & HcsA & _ & HrsA & HlwA & _).
  destruct (mt_local_height q Hq) as (Hh & _ & Hsr).
  pose proof (Length_le_MaxLength _ Hr (DHeight A) _ (Shift_range _ Hr k (DColAlign A) ltac:(lia) ltac:(lia))) as [Hm1 _].
  pose proof (Length_le_MaxLength _ Hc (DWidth A) _ Hsr) as [Hm2 _].
  pose proof (Pad_ge (MaxLength (DWidth A) (GWidth (DGrid A)) * MaxLength (DHeight A) (GHeight (DGrid A)))) as Hpad.
  fold portion in Hpad. rewrite <- Hh in Hm2.
  replace (portion + k * portion + jLoc * LHeight (DLocal t q) + iLoc)
    with (portion + k * portion + (jLoc * LHeight (DLocal t q) + iLoc)) by lia.
  rewrite (AllGather_recv _ _ _ _ _ _ _ _ _ _ HAG); [| apply Pad_pos | cbn; lia | nia].
  cbn [CMember ColComm]. fold u. cbv beta.
  rewrite (SendRecv_recv _ _ _ _ _ _ _ _ _ _ _ _ HS) by (cbv beta; nia).
  unfold partner. cbn [CMember RowComm]. cbv beta.
  destruct (@coords_VCOf _ Hg k (GCol (DGrid A) q) Hk) as [Hurow Hucol'].
  unfold u. rewrite Hurow, Hucol', <- HlwA.
  rewrite (Z.add_assoc portion).
  destruct (mt_A_local _ Hs) as (_ & _ & HlhA & _ & HAe).
  rewrite trans_pack_value by (rewrite ?HlhA, ?HcsA; lia).
  rewrite HAe by (rewrite ?HlhA, ?HcsA; lia). rewrite HcsA, HrsA. done.
Qed.
(** [C18] [[MR,*]::TransposeFrom] and [AdjointFrom] from [[MC,MR]] make the
    target stand for the (conjugate) transpose of the source's matrix, on
    the aligned path (a gather down the mesh columns) and on the
    unaligned one (an exchange within the mesh rows first): both
    exchanges always match, and the target takes the transposed size. *)
Theorem MrStarTransposeFrom_holds (cj : bool) :
  (exists B, MrStarTransposeFrom Conj A this cj = Some B /\
     holds B (fun i j => op Conj cj (M j i)) /\ DHeight B = DWidth A /\ DWidth B = DHeight A) /\
  (exists B, MrStarAdjointFrom Conj A this = Some B /\ holds B (fun i j => Conj (M j i))).
Proof.
  assert (Hpath : forall cj', exists B, MrStarTransposeFrom Conj A this cj' = Some B /\
     holds B (fun i j => op Conj cj' (M j i)) /\ DHeight B = DWidth A /\ DWidth B = DHeight A).
  { intros cj'. destruct (decide (DColAlign t = DRowAlign A)).
    - by apply MrStarTransposeFrom_aligned_correct.
    - by apply MrStarTransposeFrom_unaligned_correct. }
  split; [apply Hpath |]. destruct (Hpath true) as (B & HB & Hh & _). by exists B.
Qed.
End MrStarTransRefines.

(** The 5 x 4 matrix as [[MC,MR]] with alignments (1, 2) on the 2 x 3
    mesh, transposed into an unconstrained [[MR,*]] matrix (aligned path)
    and adjoint into one constrained to column alignment 0 (unaligned
    path), conjugation [Z.opp]. *)
Lemma MrStarTransposeFrom_holds_witness :
  (exists B, MrStarTransposeFrom Z.opp (FromGlobal grid23 MC MR 1 2 0 5 4 Mat44)
       (FromGlobal grid23 MR STAR 0 0 0 0 0 Mat44) false = Some B /\
     holds B (fun i j => op Z.opp false (Mat44 j i)) /\ DHeight B = 4 /\ DWidth B = 5) /\
  (exists B, MrStarAdjointFrom Z.opp (FromGlobal grid23 MC MR 1 2 0 5 4 Mat44)
       (AlignCols 0 (FromGlobal grid23 MR STAR 0 0 0 0 0 Mat44)) = Some B /\
     holds B (fun i j => Z.opp (Mat44 j i))).
Proof.
  split.
  - eapply proj1. apply (MrStarTransposeFrom_holds Z.opp (FromGlobal grid23 MC MR 1 2 0 5 4 Mat44)
      (FromGlobal grid23 MR STAR 0 0 0 0 0 Mat44) Mat44);
      try solve [cbn; lia | reflexivity | split; cbn; lia | apply holds_FromGlobal].
  - eapply proj2. apply (MrStarTransposeFrom_holds Z.opp (FromGlobal grid23 MC MR 1 2 0 5 4 Mat44)
      (AlignCols 0 (FromGlobal grid23 MR STAR 0 0 0 0 0 Mat44)) Mat44) with (cj := false);
      try solve [cbn; lia | reflexivity | split; cbn; lia | apply holds_FromGlobal].
Defined.

(** On the unaligned run, process 0 (mesh column 0, rows 0 and 3 of the
    target) holds the negated entries of columns 0 and 3 of the source. *)
Example MrStarAdjointFrom_unaligned_run :
  match MrStarAdjointFrom Z.opp (FromGlobal grid23 MC MR 1 2 0 5 4 Mat44)
          (AlignCols 0 (FromGlobal grid23 MR STAR 0 0 0 0 0 Mat44)) with
  | Some B => let L := DLocal B 0 in
      (LHeight L, LWidth L, Entry L 0 1, Entry L 1 4) = (2, 5, - Mat44 1 0, - Mat44 4 3)
  | None => False
  end.
Proof. vm_compute. reflexivity. Qed.
