(* ===== verification/McMrTransMR.v ===== *)
(** * McMrTransMR: [[MC,MR]::TransposeFrom] from [[MR,*]] and the
    [AdjointFrom] overloads ([src/core/dist_matrix/mc_mr.cpp], lines 1086-1163)

    [B.TransposeFrom(A, conjugate)] with an [[MR,*]] source [A] needs no
    communication: row [i] of [A] lives on the mesh column that owns
    column [i] of [B] once [B]'s row alignment is [A]'s column alignment,
    and every process holds all columns of [A].  The routine therefore
    forces that row alignment ([AlignRowsAndResize] with [force = true],
    line 1096) and copies, for each of its local columns [jLoc], the
    entries of row [jLoc] of [A]'s local matrix that fall in its mesh row
    (lines 1107-1115).  The theorems: the routine fails exactly when [B]
    is a view with another row alignment, and otherwise leaves [B]
    standing for the (conjugate) transpose of [A]'s matrix; the two
    [AdjointFrom] overloads are the conjugate transposes. *)

From stdpp Require Import base decidable numbers list.
From Stdlib Require Import ZArith Lia.
From S2P Require Import Prelude Indexing Grid Scratch DistMatrix McMrTrans MrStar.

Open Scope Z_scope.

Section TransposeMR.
Context {T : Type} (Conj : T -> T).

(** [AlignRowsAndResize( rowAlign, height, width, force = true )] of
    [GeneralDistMatrix] (not in [src/]; specification section 4.2): a
    matrix that is not a view adopts the row alignment even when it is
    constrained; a view keeps its own, and one that differs is the fatal
    "Could not set alignment"; then the matrix is resized. *)
Definition AlignRowsAndResizeForce (ra h w : Z) (A : DM T) : Result (DM T) :=
  let A1 := if DViewing A then A
            else with_aligns (DColAlign A) ra (DColConstrained A) (DRowConstrained A) A in
  if decide (DRowAlign A1 = ra) then Ok (Resize h w A1) else Fatal CouldNotSetAlignment.

(** The copy (lines 1107-1115): entry [iLoc] of local column [jLoc] is
    [ABuffer[jLoc + colShift*ALDim + iLoc*colStride*ALDim]], i.e. entry
    [(jLoc, colShift + iLoc*colStride)] of [A]'s local matrix. *)
Definition TransMRStarLocal (conjugate : bool) (LA : Local T) (colShift colStride : Z)
    (L : Local T) : Local T :=
  mkLocal (LHeight L) (LWidth L) (LDim L)
    (StridedMap (op Conj conjugate) (LBuf L) 0 1 (LDim L) (LBuf LA) (colShift * LDim LA)
       (colStride * LDim LA) 1 (LHeight L) (LWidth L)).

(** [DistMatrix<T,MC,MR>::TransposeFrom( const DistMatrix<T,MR,STAR>& A, bool conjugate )]
    (lines 1086-1117). *)
Definition TransposeFromMRStar (A this : DM T) (conjugate : bool) : Result (DM T) :=
  match AlignRowsAndResizeForce (DColAlign A) (DWidth A) (DHeight A) this with
  | Fatal e => Fatal e
  | Ok t =>
      Ok (with_local (fun q =>
            if Participating t q then TransMRStarLocal conjugate (DLocal A q) (ColShift t q) (ColStride t) (DLocal t q)
            else DLocal t q) (DAux t) t)
  end.

(** [AdjointFrom( const DistMatrix<T,MR,STAR>& A )] (lines 1158-1163). *)
Definition AdjointFromMRStar (A this : DM T) : Result (DM T) := TransposeFromMRStar A this true.

(** [AdjointFrom( const DistMatrix<T,STAR,MC>& A )] (lines 1150-1156). *)
Definition AdjointFromStarMC (A this : DM T) : option (DM T) := TransposeFromStarMC Conj A this true.
End TransposeMR.

(** The forced realignment fails exactly on a view whose row alignment
    differs, and otherwise realigns the rows (a view already has the
    alignment) and resizes. *)
Lemma AlignRowsAndResizeForce_spec {T} ra h w (X : DM T) :
  AlignRowsAndResizeForce ra h w X =
  if DViewing X && bool_decide (DRowAlign X <> ra) then Fatal CouldNotSetAlignment
  else Ok (Resize h w (with_aligns (DColAlign X) ra (DColConstrained X) (DRowConstrained X) X)).
Proof.
  unfold AlignRowsAndResizeForce. destruct (DViewing X) eqn:Hv; cbn.
  - case_bool_decide as Hne; [by rewrite decide_False |].
    rewrite decide_True by done. subst ra. by destruct X.
  - by rewrite decide_True.
Qed.

Section TransMRRefines.
Context {T : Type} (Conj : T -> T) (A this : DM T) (M : Z -> Z -> T).
Context (Hg : GridWf (DGrid A)) (HcA : DColDist A = MR) (HrA : DRowDist A = STAR).
Context (Hca : 0 <= DColAlign A < GWidth (DGrid A)) (Hm : 0 <= DHeight A) (Hn : 0 <= DWidth A).
Context (HA : holds A M).
Context (Hgt : DGrid this = DGrid A) (Hct : DColDist this = MC) (Hrt : DRowDist this = MR).
Context (Hca' : 0 <= DColAlign this < GHeight (DGrid A)).

Let t := Resize (DWidth A) (DHeight A)
  (with_aligns (DColAlign this) (DColAlign A) (DColConstrained this) (DRowConstrained this) this).

(** The shifts and local sizes of the realigned target on process [q]:
    its mesh column's [MR] shift is the [MR] shift of [A]'s rows there. *)
Lemma tm_target q :
  0 <= q < GSize (DGrid A) ->
  LHeight (DLocal t q) = LocalHeight t q /\ LWidth (DLocal t q) = LocalWidth t q /\
  DGrid t = DGrid A /\ Participating t q = true /\
  ColStride t = GHeight (DGrid A) /\ RowStride t = GWidth (DGrid A) /\
  ColShift t q = Shift (GRow (DGrid A) q) (DColAlign this) (GHeight (DGrid A)) /\
  RowShift t q = ColShift A q /\ 0 <= ColShift t q < GHeight (DGrid A) /\
  LHeight (DLocal t q) = Length (DWidth A) (ColShift t q) (GHeight (DGrid A)) /\
  LWidth (DLocal t q) = LHeight (DLocal A q) /\
  LHeight (DLocal t q) <= LDim (DLocal t q).
Proof.
  intros Hq. pose proof Hg as [Hr Hc].
  assert (HP : Participating t q = true) by (unfold Participating, t; cbn; by rewrite Hct).
  destruct (Resize_local _ _ _ q HP) as (Hh & Hw & Hld & _). fold t in Hh, Hw, Hld.
  split; [done | split; [done |]].
  destruct (mrstar_shifts A Hg A q eq_refl HcA HrA ltac:(lia) Hca) as (_ & _ & _ & HcsA & _ & HlhA & _).
  destruct (HA q Hq) as (HhA & _); [unfold Participating; by rewrite HcA |].
  assert (Htg : DGrid t = DGrid A) by (subst t; cbn; done).
  assert (Hcs : ColStride t = GHeight (DGrid A)) by (unfold ColStride; subst t; cbn; by rewrite Hct, Hgt).
  assert (Hrs : RowStride t = GWidth (DGrid A)) by (unfold RowStride; subst t; cbn; by rewrite Hrt, Hgt).
  assert (Hcsh : ColShift t q = Shift (GRow (DGrid A) q) (DColAlign this) (GHeight (DGrid A)))
    by (unfold ColShift, ColRank; rewrite Hcs; subst t; cbn; by rewrite Hct, Hgt).
  assert (Hrsh : RowShift t q = ColShift A q)
    by (rewrite HcsA; unfold RowShift, RowRank; rewrite Hrs; subst t; cbn; by rewrite Hrt, Hgt).
  rewrite Hh in Hld |- *. rewrite Hw, HhA, HlhA. unfold LocalHeight, LocalWidth in *.
  rewrite Hcs, Hrs, Hcsh, Hrsh, HcsA in *.
  assert (0 <= GRow (DGrid A) q) by (apply Z.mod_pos_bound; lia).
  subst t. cbn [Resize with_local with_size DHeight DWidth] in *.
  split; [exact Htg |]. split; [exact HP |]. do 4 (split; [done |]).
  split; [apply Shift_range; lia |]. split; [done |]. split; [done |]. exact Hld.
Qed.

(** Every process copies its rows of the transpose out of its own rows
    of [A]. *)
Lemma TransposeFromMRStar_correct (cj : bool) :
  (DViewing this = false \/ DRowAlign this = DColAlign A) ->
  exists B, TransposeFromMRStar Conj A this cj = Ok B /\
    holds B (fun i j => op Conj cj (M j i)) /\ DGrid B = DGrid A /\
    DHeight B = DWidth A /\ DWidth B = DHeight A.
Proof.
  intros Hok. pose proof Hg as [Hr Hc].
  unfold TransposeFromMRStar. rewrite AlignRowsAndResizeForce_spec.
  replace (DViewing this && bool_decide (DRowAlign this <> DColAlign A)) with false
    by (destruct Hok as [-> | ->]; [done | rewrite bool_decide_false by congruence; by rewrite andb_false_r]).
  fold t. eexists. split; [reflexivity |]. split; [| cbn; by rewrite Hgt].
  apply holds_with_local. intros q Hq _. assert (Hgq : DGrid t = DGrid A) by (cbn; by rewrite Hgt).
  rewrite Hgq in Hq.
  destruct (tm_target q Hq) as (Hh0 & Hw0 & _ & HP & Hcs & Hrs & Hcsh & Hrsh & Hcr & Hh & Hw & Hld).
  destruct (mrstar_shifts A Hg A q eq_refl HcA HrA ltac:(lia) Hca) as (HcsA & HrsA & HrshA & _ & HcrA & _ & HlwA).
  destruct (HA q Hq) as (HhA & HwA & _ & HeA); [unfold Participating; by rewrite HcA |].
  rewrite HP. unfold TransMRStarLocal. cbn [LHeight LWidth LDim LBuf].
  do 3 (split; [done |]). intros iLoc jLoc Hi Hj. unfold Entry. cbn [LDim LBuf].
  rewrite Hh in Hi. rewrite Hw in Hj.
  replace (iLoc + jLoc * LDim (DLocal t q)) with (0 + iLoc + jLoc * LDim (DLocal t q)) by lia.
  rewrite StridedMap_spec by lia. rewrite Hcs, Hrs, Hrsh.
  pose proof (proj1 (local_global _ Hr (DWidth A) _ iLoc Hcr ltac:(lia)) (proj2 Hi)).
  specialize (HeA jLoc (ColShift t q + iLoc * GHeight (DGrid A)) Hj ltac:(rewrite HwA, HlwA; lia)).
  unfold Entry in HeA. rewrite HrshA, HrsA, HcsA in HeA.
  replace (ColShift t q * LDim (DLocal A q) + iLoc * (GHeight (DGrid A) * LDim (DLocal A q)) + jLoc * 1)
    with (jLoc + (ColShift t q + iLoc * GHeight (DGrid A)) * LDim (DLocal A q)) by ring.
  rewrite HeA. f_equal. f_equal. lia.
Qed.
(** [C12] [[MC,MR]::TransposeFrom] from [[MR,*]] fails with "Could not
    set alignment" exactly when the target is a view whose row alignment
    is not the source's column alignment; otherwise it completes without
    communication, with the transposed size, and the target stands for
    the (conjugate) transpose of the source's matrix; [AdjointFrom] from
    [[MR,*]] gives the conjugate transpose. *)
Theorem TransposeFromMRStar_holds (cj : bool) :
  (TransposeFromMRStar Conj A this cj = Fatal CouldNotSetAlignment <->
     DViewing this = true /\ DRowAlign this <> DColAlign A) /\
  ((DViewing this = false \/ DRowAlign this = DColAlign A) ->
   exists B, TransposeFromMRStar Conj A this cj = Ok B /\
     holds B (fun i j => op Conj cj (M j i)) /\ DHeight B = DWidth A /\ DWidth B = DHeight A) /\
  (DViewing this = false ->
   exists B, AdjointFromMRStar Conj A this = Ok B /\ holds B (fun i j => Conj (M j i))).
Proof.
  split; [| split].
  - unfold TransposeFromMRStar. rewrite AlignRowsAndResizeForce_spec.
    destruct (DViewing this); cbn; try case_bool_decide; naive_solver.
  - intros Hok. destruct (TransposeFromMRStar_correct cj Hok) as (B & HB & HBM & _ & Hh & Hw). eauto.
  - intros Hv. destruct (TransposeFromMRStar_correct true (or_introl Hv)) as (B & HB & HBM & _).
    by exists B.
Qed.
End TransMRRefines.

(** An [[MR,*]] copy of the 5 x 4 matrix (column alignment 1) on the
    2 x 3 mesh, transposed into an [[MC,MR]] matrix, and into a view of
    row alignment 2, which the routine rejects. *)
Definition trMRView : DM Z :=
  mkDM grid23 MC MR 0 0 1 2 0 true false false (fun _ => mkLocal 0 0 1 (fun _ => 0))
    (fun _ => mkAux 0 false (fun _ => 0)).

Lemma TransposeFromMRStar_holds_witness :
  (exists B, TransposeFromMRStar Z.opp (FromGlobal grid23 MR STAR 1 0 0 5 4 Mat44)
       (FromGlobal grid23 MC MR 1 2 0 0 0 Mat44) false = Ok B /\
     holds B (fun i j => op Z.opp false (Mat44 j i)) /\ DHeight B = 4 /\ DWidth B = 5) /\
  TransposeFromMRStar Z.opp (FromGlobal grid23 MR STAR 1 0 0 5 4 Mat44) trMRView false
    = Fatal CouldNotSetAlignment.
Proof.
  split.
  - apply (proj1 (proj2 (TransposeFromMRStar_holds Z.opp (FromGlobal grid23 MR STAR 1 0 0 5 4 Mat44)
      (FromGlobal grid23 MC MR 1 2 0 0 0 Mat44) Mat44 ltac:(split; cbn; lia) eq_refl eq_refl
      ltac:(cbn; lia) ltac:(cbn; lia) (holds_FromGlobal _ _ _ _ _ _ _ _ _) eq_refl eq_refl eq_refl
      ltac:(cbn; lia) false))).
    left. reflexivity.
  - apply (proj2 (proj1 (TransposeFromMRStar_holds Z.opp (FromGlobal grid23 MR STAR 1 0 0 5 4 Mat44)
      trMRView Mat44 ltac:(split; cbn; lia) eq_refl eq_refl
      ltac:(cbn; lia) ltac:(cbn; lia) (holds_FromGlobal _ _ _ _ _ _ _ _ _) eq_refl eq_refl eq_refl
      ltac:(cbn; lia) false))).
    split; [reflexivity | cbn; lia].
Defined.
