(* ===== verification/StarMD.v ===== *)
(** * StarMD: the [[*,MD]] distributed matrix ([src/core/dist_matrix/star_md.cpp])

    A [[*,MD]] matrix scatters its columns along the generalized diagonal
    of the mesh.  The diagonal ranking is not modelled (see [DistMatrix]),
    so this file models the operators of star_md.cpp at the level of their
    structure and descriptors: which route each operator takes, what it
    does to the target's alignment and root, which local matrices it
    copies, and which checks abort it.  Every operator but three goes
    through a [[*,*]] copy of its source and the row filter of
    [[*,MD] = [*,*]] (lines 101-143, 179-254).  [[*,MD] = [*,MD]] (lines
    145-177) adopts the source's root and row alignment unless the target
    is a view or row-constrained, and then copies the local matrices when
    the two agree.  [[*,MD] = [o,o]] (lines 265-275) builds an [[MC,MR]]
    temporary aligned with the target, which [[MC,MR]::AlignWith] does
    not support.  The theorems hold for every implementation of the
    interface [Redistribute] that meets [RedistributeLaws]. *)

From stdpp Require Import base decidable numbers list.
From Stdlib Require Import ZArith Lia.
From S2P Require Import Prelude Indexing Grid Mpi Scratch DistMatrix Align Redist McMrCirc.

Open Scope Z_scope.

(** [Matrix<T>::operator=] on local matrices ([Matrix] is not in [src/];
    specification section 3, the local dense column-major buffer): take
    the source's size, keeping the leading dimension when a column still
    fits, and copy every column. *)
Definition LocalAssign {T} (LA L : Local T) : Local T :=
  let ld := if decide (0 < LDim L /\ LHeight LA <= LDim L) then LDim L else Z.max 1 (LHeight LA) in
  mkLocal (LHeight LA) (LWidth LA) ld
    (CopyCols (LBuf L) 0 ld (LBuf LA) 0 (LDim LA) (LHeight LA) (LWidth LA)).

Section StarMdOps.
Context {T : Type} `{Padding} `{Redistribute T} (uninit : T).
Implicit Types A this : DM T.

(** [DistMatrix( const Grid& g )] (lines 24-27). *)
Definition StarMdNew (g : Grid) : DM T := EmptyDM uninit g STAR MD.

(** [DistMatrix( height, width, g )] (lines 29-32). *)
Definition StarMdNewSized (h w : Z) (g : Grid) : DM T := Resize h w (StarMdNew g).

(** [DistMatrix( height, width, rowAlign, root, g )] (lines 34-42):
    [root_ = root; Align(0,rowAlign); Resize(height,width)]. *)
Definition StarMdNewAligned (h w rowAlign root : Z) (g : Grid) : DM T :=
  Resize h w (Align 0 rowAlign (SetRoot root (StarMdNew g))).

(** [[*,MD] = [*,*]] (lines 256-263): [this->RowFilterFrom( A )]. *)
Definition StarMdFromStarStar A this : DM T := RowFilterFrom A this.

(** The body of the operators from eleven sources (lines 101-110 and
    alike): [DistMatrix<T,STAR,STAR> A_STAR_STAR( A ); *this =
    A_STAR_STAR]. *)
Definition StarMdViaStarStar A this : DM T :=
  let A_STAR_STAR := Convert STAR STAR A in StarMdFromStarStar A_STAR_STAR this.


(** [[*,MD] = [*,MD]] (lines 145-177): adopt [A]'s root and row
    alignment unless this matrix is a view or row-constrained, resize,
    then copy the local matrix when root and alignment agree and go
    through [[*,*]] otherwise. *)
Definition StarMdAssignSame A this : DM T :=
  let t0 := if DViewing this || DRowConstrained this then this
            else AlignRows (DRowAlign A) (SetRoot (DRoot A) this) in
  let t := Resize (DHeight A) (DWidth A) t0 in
  if decide (DRoot t = DRoot A /\ DRowAlign t = DRowAlign A) then
    with_local (fun q => LocalAssign (DLocal A q) (DLocal t q)) (DAux t) t
  else StarMdViaStarStar A t.

(** [[*,MD] = [o,o]] (lines 265-275): an [[MC,MR]] matrix on [A]'s grid
    is aligned with this matrix ([[MC,MR]::AlignWith], whose
    [Nonsensical alignment] check is compiled in debug builds only),
    receives [A], and is assigned to this matrix through [[*,*]]. *)
Definition StarMdFromCirc (debug : bool) A this : Result (DM T) :=
  match McMrAlignWith debug (DistDataOf this) (EmptyDM uninit (DGrid A) MC MR) with
  | Fatal e => Fatal e
  | Ok A_MC_MR =>
      let A_MC_MR' := AssignFromCirc A A_MC_MR in
      Ok (StarMdViaStarStar A_MC_MR' this)
  end.


End StarMdOps.

(** The local copy reproduces every entry of its source. *)
Lemma LocalAssign_spec {T} (LA L : Local T) :
  LHeight (LocalAssign LA L) = LHeight LA /\ LWidth (LocalAssign LA L) = LWidth LA /\
  LHeight LA <= LDim (LocalAssign LA L) /\
  forall i j, 0 <= i < LHeight LA -> 0 <= j < LWidth LA -> Entry (LocalAssign LA L) i j = Entry LA i j.
Proof.
  unfold LocalAssign, Entry. cbn [LHeight LWidth LDim LBuf].
  set (ld := if decide _ then _ else _). assert (LHeight LA <= ld) by (subst ld; case_decide; lia).
  do 3 (split; [done |]). intros i j Hi Hj.
  replace (i + j * ld) with (0 + i + j * ld) by lia. rewrite CopyCols_spec by lia. f_equal; lia.
Qed.

Section StarMdFacts.
Context {T : Type} `{Padding} `{Redistribute T} `{!RedistributeLaws T} (uninit : T).
Implicit Types A this : DM T.


(** The route through [[*,*]] keeps the target's descriptor and takes
    the source's size. *)
Lemma StarMdViaStarStar_shape A this :
  let B := StarMdViaStarStar A this in
  DistDataOf B = DistDataOf this /\ DHeight B = DHeight A /\ DWidth B = DWidth A.
Proof.
  unfold StarMdViaStarStar, StarMdFromStarStar.
  destruct (Convert_shape STAR STAR A) as (Hc & Hr & _ & Hh & Hw).
  destruct (RowFilterFrom_shape (Convert STAR STAR A) this Hc Hr) as (Hd & Hh' & Hw').
  rewrite Hd, Hh', Hw', Hh, Hw. done.
Qed.

(** A release build of [[*,MD] = [o,o]] completes with the target's
    descriptor and the source's size. *)
Lemma StarMdFromCirc_release A this :
  DColDist this = STAR -> DRowDist this = MD ->
  exists B, StarMdFromCirc uninit false A this = Ok B /\
    DistDataOf B = DistDataOf this /\ DHeight B = DHeight A /\ DWidth B = DWidth A.
Proof.
  intros Hc Hr. unfold StarMdFromCirc, McMrAlignWith. cbn [DistDataOf colDist rowDist]. rewrite Hc, Hr.
  eexists. split; [reflexivity |].
  destruct (StarMdViaStarStar_shape (AssignFromCirc A (SetGrid (grid (DistDataOf this)) (EmptyDM uninit (DGrid A) MC MR))) this)
    as (Hd & Hh & Hw). rewrite Hd, Hh, Hw. done.
Qed.

(** [C20] [[*,MD] = [*,MD]] needs no communication whenever the target
    may realign (it is neither a view nor row-constrained) or already has
    the source's root and row alignment: the target takes the source's
    root, row alignment and size, and each of its local matrices becomes
    an entry-by-entry copy of the source's.  A view or row-constrained
    target with another root or row alignment keeps its descriptor and
    receives the source through a [[*,*]] copy. *)
Theorem StarMdAssignSame_spec A this :
  let B := StarMdAssignSame A this in
  ((DViewing this = false /\ DRowConstrained this = false) \/
   (DRoot this = DRoot A /\ DRowAlign this = DRowAlign A) ->
   DRoot B = DRoot A /\ DRowAlign B = DRowAlign A /\ DHeight B = DHeight A /\ DWidth B = DWidth A /\
   forall q, LHeight (DLocal B q) = LHeight (DLocal A q) /\ LWidth (DLocal B q) = LWidth (DLocal A q) /\
     forall i j, 0 <= i < LHeight (DLocal A q) -> 0 <= j < LWidth (DLocal A q) ->
       Entry (DLocal B q) i j = Entry (DLocal A q) i j) /\
  ((DViewing this = true \/ DRowConstrained this = true) ->
   (DRoot this <> DRoot A \/ DRowAlign this <> DRowAlign A) ->
   B = StarMdViaStarStar A (Resize (DHeight A) (DWidth A) this) /\
   DistDataOf B = DistDataOf this /\ DHeight B = DHeight A /\ DWidth B = DWidth A).
Proof.
  intros B. subst B. unfold StarMdAssignSame.
  set (t0 := if DViewing this || DRowConstrained this then this else _).
  split.
  - intros Hc. assert (Ht0 : DRoot t0 = DRoot A /\ DRowAlign t0 = DRowAlign A).
    { subst t0. destruct (DViewing this || DRowConstrained this) eqn:Hb; [| done].
      destruct Hc as [[Hv Hr] | Hagree]; [by rewrite Hv, Hr in Hb | done]. }
    rewrite decide_True by (cbn; tauto). cbn. destruct Ht0 as [-> ->].
    do 4 (split; [done |]). intros q. destruct (LocalAssign_spec (DLocal A q) (DLocal (Resize (DHeight A) (DWidth A) t0) q))
      as (Hh & Hw & _ & He). done.
  - intros Hv Hne. assert (Ht0 : t0 = this) by (subst t0; destruct Hv as [-> | ->]; by rewrite ?orb_true_r).
    rewrite Ht0. rewrite decide_False by (cbn; tauto). split; [done |].
    destruct (StarMdViaStarStar_shape A (Resize (DHeight A) (DWidth A) this)) as (Hd & Hh & Hw).
    rewrite Hd. done.
Qed.

(** [C19] [[*,MD] = [o,o]] aborts every debug build with "Nonsensical
    alignment": it aligns its [[MC,MR]] temporary with the [[*,MD]]
    target, a pair the table of [[MC,MR]::AlignWith] does not contain.  A
    release build skips the check and completes with the target's
    descriptor and the source's size. *)
Theorem StarMdFromCirc_debug_fails A this :
  DColDist this = STAR -> DRowDist this = MD ->
  StarMdFromCirc uninit true A this = Fatal NonsensicalAlignment /\
  exists B, StarMdFromCirc uninit false A this = Ok B /\
    DistDataOf B = DistDataOf this /\ DHeight B = DHeight A /\ DWidth B = DWidth A.
Proof.
  intros Hc Hr. split; [| by apply StarMdFromCirc_release].
  unfold StarMdFromCirc, McMrAlignWith, DistDataOf. cbn [colDist rowDist]. by rewrite Hc, Hr.
Qed.

End StarMdFacts.

(** The 3 x 4 matrix as [[*,MD]] with root 1 and row alignment 1 on the
    2 x 2 mesh; a new [[*,MD]] matrix, and a view with root 0. *)
Definition mdA : DM Z := FromGlobal grid22 STAR MD 0 1 1 3 4 Mat44.
Definition mdView : DM Z :=
  mkDM grid22 STAR MD 0 0 0 0 0 true false false (fun _ => mkLocal 0 0 1 (fun _ => 0))
    (fun _ => mkAux 0 false (fun _ => 0)).

Lemma StarMdAssignSame_spec_witness :
  (DRoot (@StarMdAssignSame Z RefRedistribute mdA (StarMdNew 0 grid22)) = 1 /\
   DRowAlign (@StarMdAssignSame Z RefRedistribute mdA (StarMdNew 0 grid22)) = 1) /\
  DistDataOf (@StarMdAssignSame Z RefRedistribute mdA mdView) = DistDataOf mdView.
Proof.
  split.
  - destruct (proj1 (@StarMdAssignSame_spec Z RefRedistribute RefRedistribute_laws mdA (StarMdNew 0 grid22))
      (or_introl (conj eq_refl eq_refl))) as (Hr & Ha & _).
    split; [exact Hr | exact Ha].
  - assert (Hne : DRoot mdView <> DRoot mdA) by (vm_compute; congruence).
    destruct (proj2 (@StarMdAssignSame_spec Z RefRedistribute RefRedistribute_laws mdA mdView)
      (or_introl eq_refl) (or_introl Hne)) as (_ & Hd & _).
    exact Hd.
Defined.

Lemma StarMdFromCirc_debug_fails_witness :
  @StarMdFromCirc Z _ RefRedistribute 0 true CircMat44 (StarMdNew 0 grid22) = Fatal NonsensicalAlignment /\
  exists B, @StarMdFromCirc Z _ RefRedistribute 0 false CircMat44 (StarMdNew 0 grid22) = Ok B /\
    DistDataOf B = DistDataOf (StarMdNew 0 grid22) /\ DHeight B = 4 /\ DWidth B = 4.
Proof.
  exact (@StarMdFromCirc_debug_fails Z _ RefRedistribute RefRedistribute_laws 0 CircMat44
    (StarMdNew 0 grid22) eq_refl eq_refl).
Defined.

