(* ===== verification/BlockCyclic.v ===== *)
(** * BlockCyclic: the [[VC,*]] block-cyclic assignments ([src/core/DistMatrix/BlockCyclic/VC_STAR.cpp], lines 24-148)

    The block-cyclic [DistMatrix<T,VC,STAR,BLOCK_CYCLIC>] has one
    assignment operator per source distribution.  Four run a copy
    routine of their own ([copy::ColAllToAllDemote], [PartialColFilter],
    [Translate], [ColFilter], which live outside [src/]); the others build
    a temporary of another distribution from the source and assign it,
    which calls another operator of this file; two raise "This routine is
    not yet written".  The block-cyclic data layout is not modelled: the
    operators are modelled as the trace of what they do ([Step]s: the
    temporaries built, the copy routine run, the fatal error raised), and
    the recursion of an operator into another one as a call with fuel.
    The theorem: with two levels of nesting every operator's trace ends,
    and exactly six sources end in the error, four of them because their
    route runs into the unwritten [[VC,*] = [VR,*]]. *)

From stdpp Require Import base decidable numbers list.
From Stdlib Require Import ZArith Lia.
From S2P Require Import Prelude DistMatrix Align.

(** The copy routines the operators end in. *)
Inductive CopyRoutine := ColAllToAllDemote | PartialColFilter | Translate | ColFilter.

#[export] Instance CopyRoutine_eq_dec : EqDecision CopyRoutine.
Proof. solve_decision. Defined.

(** What an operator does, in order: build a block-cyclic temporary of
    distribution [[U,V]] from the current source, run a copy routine into
    this matrix, or raise a fatal error. *)
Inductive Step := Construct (U V : Dist) | Run (r : CopyRoutine) | Abort (e : ElError).

#[export] Instance Step_eq_dec : EqDecision Step.
Proof. solve_decision. Defined.

(** The step [s] happens before the rest of the trace. *)
Definition after (s : Step) (o : option (list Step)) : option (list Step) := option_map (cons s) o.

(** [BDM::operator=( const DistMatrix<T,cd,rd,BLOCK_CYCLIC>& A )]: the
    trace of the operator for source [[cd,rd]], or [None] when there is
    no such operator or the fuel (the depth of nested assignments) runs
    out. *)
Fixpoint VCStarAssign (fuel : nat) (cd rd : Dist) : option (list Step) :=
  match fuel with
  | O => None
  | S n =>
      match cd, rd with
      (* lines 24-30 *)
      | MC, MR => Some [Run ColAllToAllDemote]
      (* lines 32-38 *)
      | MC, STAR => Some [Run PartialColFilter]
      (* lines 40-47: A_MC_MR( A ); *this = A_MC_MR *)
      | STAR, MR => after (Construct MC MR) (VCStarAssign n MC MR)
      (* lines 49-57 and 59-67: through [*,*] *)
      | MD, STAR => after (Construct STAR STAR) (VCStarAssign n STAR STAR)
      | STAR, MD => after (Construct STAR STAR) (VCStarAssign n STAR STAR)
      (* lines 69-76 and 78-85: A_VR_STAR( A ); *this = A_VR_STAR *)
      | MR, MC => after (Construct VR STAR) (VCStarAssign n VR STAR)
      | MR, STAR => after (Construct VR STAR) (VCStarAssign n VR STAR)
      (* lines 87-96 and 106-115: A_MR_MC( A ), A_VR_STAR( *A_MR_MC ) *)
      | STAR, MC => after (Construct MR MC) (after (Construct VR STAR) (VCStarAssign n VR STAR))
      | STAR, VC => after (Construct MR MC) (after (Construct VR STAR) (VCStarAssign n VR STAR))
      (* lines 98-104 *)
      | VC, STAR => Some [Run Translate]
      (* lines 117-123 *)
      | VR, STAR => Some [Abort NotYetWritten]
      (* lines 125-132 *)
      | STAR, VR => after (Construct MC MR) (VCStarAssign n MC MR)
      (* lines 134-140 *)
      | STAR, STAR => Some [Run ColFilter]
      (* lines 142-148 *)
      | CIRC, CIRC => Some [Abort NotYetWritten]
      | _, _ => None
      end
  end.

(** The last step of a trace. *)
Definition last_step (o : option (list Step)) : option Step :=
  match o with Some tr => last tr | None => None end.

(** The sources whose operator ends in "This routine is not yet written". *)
Definition NotWrittenSources : list (Dist * Dist) :=
  [(VR, STAR); (CIRC, CIRC); (MR, MC); (MR, STAR); (STAR, MC); (STAR, VC)].

(** [C22] Exactly six sources end in the fatal "not yet written" error: the
    two whose operators raise it, and the four ([[MR,MC]], [[MR,*]],
    [[*,MC]], [[*,VC]]) whose operators build a [[VR,*]] temporary and
    assign it, which runs into the unwritten [[VC,*] = [VR,*]].  Every
    other source ends in its copy routine. *)
Theorem VCStarAssign_not_written (cd rd : Dist) :
  ValidPair cd rd = true ->
  (last_step (VCStarAssign 2 cd rd) = Some (Abort NotYetWritten) <-> (cd, rd) ∈ NotWrittenSources) /\
  ((cd, rd) ∉ NotWrittenSources -> exists r, last_step (VCStarAssign 2 cd rd) = Some (Run r)).
Proof.
  intros Hv. rewrite <- (bool_decide_spec ((cd, rd) ∈ NotWrittenSources)).
  destruct cd, rd; try discriminate; vm_compute;
    (split; [split; intros; first [exact I | congruence | contradiction] |]);
    intros H; first [exfalso; by apply H | eauto].
Qed.

Lemma VCStarAssign_not_written_witness :
  last_step (VCStarAssign 2 STAR MC) = Some (Abort NotYetWritten) /\
  VCStarAssign 2 STAR MC = Some [Construct MR MC; Construct VR STAR; Abort NotYetWritten].
Proof.
  split; [| reflexivity].
  apply (proj2 (proj1 (VCStarAssign_not_written STAR MC eq_refl))).
  by apply (bool_decide_unpack _).
Defined.
