(* ===== verification/Householder.v ===== *)
(** * Householder: the blocked panel loop of [rq::Householder]
    ([src/include/elemental/lapack-like/RQ/Householder.hpp])

    The blocked RQ factorization walks the diagonal of [A] from the
    bottom-right corner upwards in panels of [Blocksize()] rows: panel
    [k] (rows [k+iOff .. k+iOff+nb) of [A], entries [k .. k+nb) of [t])
    is factored by [PanelHouseholder] and its reflectors are applied from
    the right to the rows above it by [ApplyQ].  The numerical kernels are
    outside [src/] and out of the engine's scope: the loop is modelled as
    the sequence of kernel calls it issues, each on the views the code
    passes ([View(A,i,j,height,width)]).  The loop [for( k=kLast; k>=0;
    k-=bsize )] is not structural: it is a [Fixpoint] with fuel, [None]
    when the fuel runs out.

    The theorems, for a positive block size (the fuel [HouseholderFuel],
    [minDim / bsize + 1] iterations and the exit test, is enough): every
    view the loop takes lies inside its matrix, and each entry of [t]
    (each diagonal position) is factored by exactly one panel, the panels
    running bottom-up. *)

From stdpp Require Import base decidable numbers list.
From Stdlib Require Import ZArith Lia Sorted.
From S2P Require Import Prelude Grid DistMatrix.

Open Scope Z_scope.

(** [View( A, i, j, height, width )]: the submatrix of [height] rows and
    [width] columns whose top-left entry is [(i,j)]. *)
Record View := mkView { VRow : Z; VCol : Z; VHeight : Z; VWidth : Z }.

#[export] Instance View_eq_dec : EqDecision View.
Proof. solve_decision. Defined.

(** The kernel calls of the loop body, with the views they receive:
    [PanelHouseholder( ABottomPan, t1 )] and
    [ApplyQ( RIGHT, ADJOINT, ABottomPan, t1, ATopPan )]. *)
Inductive Call :=
  | PanelHouseholder (ABottomPan t1 : View)
  | ApplyQ (ABottomPan t1 ATopPan : View).

#[export] Instance Call_eq_dec : EqDecision Call.
Proof. solve_decision. Defined.

(** [LastOffset( n, bsize )] (Elemental's blocking header, not in
    [src/]): the offset of the last block of a blocked loop over [n]
    indices, with C++'s truncating [%]. *)
Definition LastOffset (n bsize : Z) : Z :=
  if decide (n `rem` bsize <> 0) then n - n `rem` bsize else n - bsize.

Section Loop.
Context (m n bsize : Z).

(** Lines 26-32. *)
Definition minDim : Z := Z.min m n.
Definition iOff : Z := if decide (n >= m) then 0 else m - n.
Definition jOff : Z := if decide (n >= m) then n - m else 0.

(** The loop body (lines 38-46) at offset [k]. *)
Definition PanelStep (k : Z) : list Call :=
  let nb := Z.min bsize (minDim - k) in
  let ki := k + iOff in
  let kj := k + jOff in
  let ATopPan := mkView 0 0 ki (kj + nb) in
  let ABottomPan := mkView ki 0 nb (kj + nb) in
  let t1 := mkView k 0 nb 1 in
  [PanelHouseholder ABottomPan t1; ApplyQ ABottomPan t1 ATopPan].

(** [for( Int k=kLast; k>=0; k-=bsize )] (line 36), with fuel. *)
Fixpoint PanelLoop (fuel : nat) (k : Z) : option (list Call) :=
  match fuel with
  | O => None
  | S f =>
      if decide (k >= 0) then option_map (PanelStep k ++.) (PanelLoop f (k - bsize))
      else Some []
  end.

(** [rq::Householder( A, t )] (lines 19-48): [t] is resized to
    [minDim x 1], then the panel loop runs from [LastOffset]. *)
Definition Householder (fuel : nat) : option (Z * list Call) :=
  option_map (fun calls => (minDim, calls)) (PanelLoop fuel (LastOffset minDim bsize)).

(** The offsets the loop visits: [count] of them, from [k] down by [bsize]. *)
Fixpoint offsets (count : nat) (k : Z) : list Z :=
  match count with O => [] | S c => k :: offsets c (k - bsize) end.

(** The number of iterations from offset [k]. *)
Definition iterations (k : Z) : nat := Z.to_nat (k / bsize + 1).
End Loop.

(** A view lies inside an [h x w] matrix. *)
Definition ViewIn (h w : Z) (v : View) : bool :=
  bool_decide (0 <= VRow v /\ 0 <= VCol v /\ 0 <= VHeight v /\ 0 <= VWidth v /\
               VRow v + VHeight v <= h /\ VCol v + VWidth v <= w).

(** Every view of a call lies inside its matrix ([A] is [m x n], [t] is
    [minDim x 1]), and every panel is non-empty. *)
Definition CallInBounds (m n : Z) (c : Call) : bool :=
  match c with
  | PanelHouseholder B t1 => ViewIn m n B && ViewIn (minDim m n) 1 t1 && bool_decide (0 < VHeight t1)
  | ApplyQ B t1 Top => ViewIn m n B && ViewIn (minDim m n) 1 t1 && ViewIn m n Top
  end.

(** The views of [t] factored by [PanelHouseholder], in call order. *)
Fixpoint Factored (calls : list Call) : list View :=
  match calls with
  | [] => []
  | PanelHouseholder _ t1 :: cs => t1 :: Factored cs
  | _ :: cs => Factored cs
  end.

(** The factored views that contain entry [i] of [t]. *)
Definition PanelsAt (i : Z) (vs : list View) : list View :=
  List.filter (fun v => bool_decide (VRow v <= i < VRow v + VHeight v)) vs.

(** The fuel the loop needs: one unit per iteration and one for the exit test. *)
Definition HouseholderFuel (m n bsize : Z) : nat :=
  S (iterations bsize (LastOffset (minDim m n) bsize)).

(** The view [t1] of the panel at offset [k] when [t] has [M] entries. *)
Definition PanelView (b M k : Z) : View := mkView k 0 (Z.min b (M - k)) 1.

(** ** The loop, iteration by iteration *)

Lemma offsets_In (b : Z) (c : nat) (k x : Z) :
  In x (offsets b c k) <-> exists j, (j < c)%nat /\ x = k - b * Z.of_nat j.
Proof.
  revert k. induction c as [|c IH]; intros k; cbn; [split; [done | intros (j & ? & _); lia] |].
  rewrite IH. split.
  - intros [<- | (j & Hj & ->)]; [exists 0%nat; split; lia | exists (S j); split; lia].
  - intros ([|j] & Hj & ->); [left; lia | right; exists j; split; lia].
Qed.

Lemma offsets_S (b : Z) (c : nat) (k : Z) : offsets b (S c) k = k :: offsets b c (k - b).
Proof. done. Qed.

Lemma offsets_sorted (b : Z) (c : nat) (k : Z) : 0 < b -> Sorted Z.gt (offsets b c k).
Proof.
  intros Hb. revert k. induction c as [|c IH]; intros k; cbn; constructor; [apply IH |].
  destruct c; cbn; constructor. lia.
Qed.

Lemma Factored_app (l1 l2 : list Call) : Factored (l1 ++ l2) = Factored l1 ++ Factored l2.
Proof. induction l1 as [|[] l1 IH]; cbn; rewrite ?IH; done. Qed.

Section LoopProofs.
Context (m n b : Z) (Hm : 0 <= m) (Hn : 0 <= n) (Hb : 0 < b).

Lemma iOff_minDim : iOff m n + minDim m n = m /\ jOff m n + minDim m n = n /\ 0 <= iOff m n /\ 0 <= jOff m n.
Proof. unfold iOff, jOff, minDim. destruct (decide (n >= m)); lia. Qed.

Lemma iterations_step (k : Z) : 0 <= k -> iterations b k = S (iterations b (k - b)).
Proof.
  intros Hk. unfold iterations.
  replace (k - b) with (k + (-1) * b) by lia. rewrite Z.div_add by lia.
  pose proof (Z.div_pos k b Hk Hb). lia.
Qed.

Lemma iterations_neg (k : Z) : k < 0 -> iterations b k = 0%nat.
Proof.
  intros Hk. unfold iterations.
  assert (k / b < 0) by (apply Z.div_lt_upper_bound; lia). lia.
Qed.

(** With more fuel than iterations, the loop issues the bodies of the
    visited offsets, in order. *)
Lemma PanelLoop_offsets (fuel : nat) (k : Z) :
  (iterations b k < fuel)%nat ->
  PanelLoop m n b fuel k = Some (flat_map (PanelStep m n b) (offsets b (iterations b k) k)).
Proof.
  revert k. induction fuel as [|f IH]; intros k Hf; [lia |]. cbn.
  destruct (decide (k >= 0)).
  - rewrite iterations_step in Hf |- * by lia. rewrite IH by lia. done.
  - by rewrite iterations_neg by lia.
Qed.

(** [LastOffset] is the largest multiple of [bsize] below [n] (and
    [-bsize] when [n = 0]). *)
Lemma LastOffset_eq (N : Z) : 0 <= N -> LastOffset N b = b * ((N - 1) / b).
Proof.
  intros HN. unfold LastOffset. rewrite rem_mod by lia.
  pose proof (Z.div_mod N b ltac:(lia)). pose proof (Z.mod_pos_bound N b Hb).
  destruct (decide (N mod b <> 0)).
  - rewrite (div_between (N - 1) b (N / b)); lia.
  - rewrite (div_between (N - 1) b (N / b - 1)); lia.
Qed.

Lemma Factored_PanelSteps (ks : list Z) :
  Factored (flat_map (PanelStep m n b) ks) = map (PanelView b (minDim m n)) ks.
Proof. induction ks as [|k ks IH]; cbn; [done |]. by rewrite IH. Qed.

Lemma offsets_top (j : nat) (k : Z) :
  In k (offsets b (S j) (b * Z.of_nat j)) -> 0 <= k <= b * Z.of_nat j.
Proof. rewrite offsets_In. intros (j' & Hj' & ->). nia. Qed.

Lemma PanelsAt_cons (i : Z) (v : View) (vs : list View) :
  PanelsAt i (v :: vs) =
  if bool_decide (VRow v <= i < VRow v + VHeight v) then v :: PanelsAt i vs else PanelsAt i vs.
Proof. done. Qed.

Lemma PanelsAt_none (i M : Z) (l : list Z) :
  (forall k, In k l -> ~ (k <= i < k + Z.min b (M - k))) -> PanelsAt i (map (PanelView b M) l) = [].
Proof.
  induction l as [|k l IH]; intros Hl; cbn; [done |].
  rewrite bool_decide_false by (apply Hl; by left). apply IH. intros k' Hk'. apply Hl. by right.
Qed.

(** Entry [i] of a [t] of [M] entries, [M] in the top block of the
    offsets, is covered by exactly one panel: the one at [b * (i / b)]. *)
Lemma PanelsAt_unique (j : nat) (M i : Z) :
  0 <= i < M -> b * Z.of_nat j < M <= b * Z.of_nat j + b ->
  PanelsAt i (map (PanelView b M) (offsets b (S j) (b * Z.of_nat j))) = [PanelView b M (b * (i / b))].
Proof.
  revert M. induction j as [|j IH]; intros M Hi HM.
  - cbn. rewrite bool_decide_true by lia. by rewrite Z.div_small by lia.
  - rewrite offsets_S. cbn [map]. rewrite PanelsAt_cons.
    replace (b * Z.of_nat (S j) - b) with (b * Z.of_nat j) by lia.
    destruct (decide (b * Z.of_nat (S j) <= i)).
    + rewrite bool_decide_true by (cbn; lia). rewrite (div_between i b (Z.of_nat (S j))) by lia.
      rewrite PanelsAt_none; [done |]. intros k Hk%offsets_top. lia.
    + rewrite bool_decide_false by (cbn; lia).
      rewrite (map_ext_in _ (PanelView b (b * Z.of_nat (S j)))).
      * rewrite IH by lia. unfold PanelView. do 2 f_equal.
        assert (i / b < Z.of_nat (S j)) by (apply Z.div_lt_upper_bound; lia). nia.
      * intros k Hk%offsets_top. unfold PanelView. f_equal. lia.
Qed.

Lemma kLast_iterations :
  let N := minDim m n in
  iterations b (LastOffset N b) = Z.to_nat ((N - 1) / b + 1) /\ 0 <= N.
Proof.
  intros N. assert (0 <= N) by (subst N; unfold minDim; lia).
  unfold iterations. rewrite LastOffset_eq by done. rewrite Z.mul_comm, Z.div_mul by lia. done.
Qed.

(** The offsets the loop visits lie in [0, minDim). *)
Lemma kLast_offsets (k : Z) :
  let N := minDim m n in
  In k (offsets b (iterations b (LastOffset N b)) (LastOffset N b)) -> 0 <= k < N.
Proof.
  intros N. destruct kLast_iterations as [Hit HN]. fold N in Hit, HN.
  rewrite Hit, LastOffset_eq, offsets_In by done. intros (j & Hj & ->).
  assert (b * ((N - 1) / b) <= N - 1) by (apply Z.mul_div_le; lia). nia.
Qed.

(** With the fuel [HouseholderFuel] or more, [Householder] runs the
    body at each offset from [LastOffset minDim bsize] down to [0]. *)
Lemma Householder_run (fuel : nat) :
  (HouseholderFuel m n b <= fuel)%nat ->
  Householder m n b fuel =
  Some (minDim m n, flat_map (PanelStep m n b)
          (offsets b (iterations b (LastOffset (minDim m n) b)) (LastOffset (minDim m n) b))).
Proof. intros Hf. unfold Householder. rewrite PanelLoop_offsets by (unfold HouseholderFuel in Hf; lia). done. Qed.

(** Each call of the body at an offset in [0, minDim) is in bounds. *)
Lemma PanelStep_in_bounds (k : Z) :
  0 <= k < minDim m n -> Forall (fun c => CallInBounds m n c = true) (PanelStep m n b k).
Proof.
  intros Hk. pose proof iOff_minDim as (Hi & Hj & Hi0 & Hj0).
  repeat constructor; unfold CallInBounds, ViewIn; cbn; rewrite ?bool_decide_true by lia; done.
Qed.
End LoopProofs.

(** ** The properties of the blocked loop *)

(** [C24] Every view the blocked RQ loop takes is inside its matrix: the
    panel [ABottomPan] and the rows above it [ATopPan] inside the
    [m x n] matrix [A], the panel's slice [t1] inside the [minDim x 1]
    vector [t], which the routine resizes to that size; every panel is
    non-empty. *)
Theorem Householder_in_bounds (m n bsize : Z) :
  0 <= m -> 0 <= n -> 0 < bsize ->
  exists calls, Householder m n bsize (HouseholderFuel m n bsize) = Some (minDim m n, calls) /\
    Forall (fun c => CallInBounds m n c = true) calls.
Proof.
  intros Hm Hn Hb. eexists. split; [apply Householder_run; lia |].
  apply List.Forall_forall. intros c (k & Hk & Hc)%in_flat_map.
  apply kLast_offsets in Hk; [| lia..]. revert c Hc. apply List.Forall_forall.
  by apply PanelStep_in_bounds.
Qed.

(** [C23] The blocked RQ loop factors every diagonal position exactly
    once, bottom-up: the [t1] views of its [PanelHouseholder] calls have
    strictly decreasing offsets, and entry [i] of [t] lies in exactly one
    of them, the panel at offset [bsize * (i / bsize)]. *)
Theorem Householder_panels_cover (m n bsize : Z) :
  0 <= m -> 0 <= n -> 0 < bsize ->
  exists calls, Householder m n bsize (HouseholderFuel m n bsize) = Some (minDim m n, calls) /\
    Sorted Z.gt (map VRow (Factored calls)) /\
    forall i, 0 <= i < minDim m n ->
      PanelsAt i (Factored calls) =
      [mkView (bsize * (i / bsize)) 0 (Z.min bsize (minDim m n - bsize * (i / bsize))) 1].
Proof.
  intros Hm Hn Hb. eexists. split; [apply Householder_run; lia |].
  rewrite Factored_PanelSteps. split.
  - rewrite map_map. cbn. rewrite map_id. by apply offsets_sorted.
  - intros i Hi. destruct (kLast_iterations m n bsize Hm Hn Hb) as [Hit HN].
    rewrite Hit, LastOffset_eq by lia.
    assert (Hq : 0 <= (minDim m n - 1) / bsize) by (apply Z.div_pos; lia).
    replace (Z.to_nat ((minDim m n - 1) / bsize + 1)) with (S (Z.to_nat ((minDim m n - 1) / bsize))) by lia.
    rewrite <- (Z2Nat.id ((minDim m n - 1) / bsize)) at 2 by done.
    apply PanelsAt_unique; [lia | lia |].
    rewrite Z2Nat.id by done. pose proof (Z.mul_div_le (minDim m n - 1) bsize Hb).
    pose proof (Z.mod_pos_bound (minDim m n - 1) bsize Hb).
    pose proof (Z.div_mod (minDim m n - 1) bsize ltac:(lia)). lia.
Qed.

Lemma Householder_in_bounds_witness :
  exists calls, Householder 5 3 2 (HouseholderFuel 5 3 2) = Some (minDim 5 3, calls) /\
    Forall (fun c => CallInBounds 5 3 c = true) calls.
Proof. apply Householder_in_bounds; lia. Defined.

Lemma Householder_panels_cover_witness :
  exists calls, Householder 7 4 3 (HouseholderFuel 7 4 3) = Some (minDim 7 4, calls) /\
    Sorted Z.gt (map VRow (Factored calls)) /\
    forall i, 0 <= i < minDim 7 4 ->
      PanelsAt i (Factored calls) = [mkView (3 * (i / 3)) 0 (Z.min 3 (minDim 7 4 - 3 * (i / 3))) 1].
Proof. apply Householder_panels_cover; lia. Defined.

(** ** The distributed routine

    [rq::Householder( DistMatrix<F>& A, DistMatrix<F,MD,STAR>& t )]
    (lines 61-102) runs the same loop on the distributed matrix after
    checking its arguments.  The diagonal alignment of the [[MD,*]]
    vector [t] ([AlignedWithDiagonal], [AlignWithDiagonal]) belongs to the
    unmodelled [MD] distribution: it is a parameter of the section.  The
    grid check is compiled in debug builds only ([#ifndef RELEASE]). *)
Section Distributed.
Context {T : Type}.
Context (AlignedWithDiagonal : DM T -> DM T -> Z -> bool).
Context (AlignWithDiagonal : DM T -> DM T -> Z -> DM T).

Definition HouseholderDist (debug : bool) (fuel : nat) (bsize : Z) (A t : DM T)
    : option (Result (DM T * list Call)) :=
  if debug && bool_decide (DGrid A <> DGrid t) then Some (Fatal NotSameGrid) else
  let m := DHeight A in
  let n := DWidth A in
  let offset := n - m in
  let t1 :=
    if DViewing t then
      (if AlignedWithDiagonal t A offset then Ok t else Fatal NotAlignedWithA)
    else Ok (AlignWithDiagonal t A offset) in
  match t1 with
  | Fatal e => Some (Fatal e)
  | Ok t2 =>
      let t3 := Resize (minDim m n) 1 t2 in
      option_map (fun calls => Ok (t3, calls)) (PanelLoop m n bsize fuel (LastOffset (minDim m n) bsize))
  end.
End Distributed.

(** [C26] The distributed RQ routine fails exactly on its two checks: a
    debug build rejects [A] and [t] on different grids ("{A,s} must be
    distributed over the same grid"), and a view [t] that is not aligned
    with [A]'s diagonal is rejected ("t was not aligned with A").  Past
    the checks it aligns [t] (unless it is a view), resizes it to
    [minDim x 1] and issues exactly the kernel calls of the sequential
    routine on [A]'s dimensions. *)
Theorem HouseholderDist_spec {T} (AlignedWithDiagonal : DM T -> DM T -> Z -> bool)
    (AlignWithDiagonal : DM T -> DM T -> Z -> DM T) (debug : bool) (bsize : Z) (A t : DM T) :
  0 <= DHeight A -> 0 <= DWidth A -> 0 < bsize ->
  let m := DHeight A in let n := DWidth A in
  let run := HouseholderDist AlignedWithDiagonal AlignWithDiagonal debug (HouseholderFuel m n bsize) bsize A t in
  (run = Some (Fatal NotSameGrid) <-> debug = true /\ DGrid A <> DGrid t) /\
  (run = Some (Fatal NotAlignedWithA) <->
     (debug = false \/ DGrid A = DGrid t) /\ DViewing t = true /\ AlignedWithDiagonal t A (n - m) = false) /\
  ((debug = false \/ DGrid A = DGrid t) -> (DViewing t = false \/ AlignedWithDiagonal t A (n - m) = true) ->
   exists calls,
     run = Some (Ok (Resize (minDim m n) 1 (if DViewing t then t else AlignWithDiagonal t A (n - m)), calls)) /\
     Householder m n bsize (HouseholderFuel m n bsize) = Some (minDim m n, calls)).
Proof.
  intros Hm Hn Hb m n run.
  pose proof (Householder_run m n bsize Hb _ (le_n _)) as Hrun.
  unfold Householder in Hrun. destruct (PanelLoop _ _ _ _ _) as [calls|] eqn:Hloop; [| discriminate].
  subst run. unfold HouseholderDist, Householder. fold m n. rewrite Hloop.
  destruct debug, (DViewing t), (AlignedWithDiagonal t A (n - m)); cbn; try case_bool_decide; naive_solver.
Qed.

(** A [5 x 3] matrix on the 2x2 mesh and an [[MD,*]] vector on the 2x1
    mesh: a debug build stops at the grid check; with a vector on the
    same mesh the routine runs the calls of the sequential witness. *)
Definition rqA : DM Z := FromGlobal grid22 MC MR 0 0 0 5 3 (fun i j => i + j).
Definition rqT (g : Grid) : DM Z := FromGlobal g MD STAR 0 0 0 0 1 (fun _ _ => 0).

Lemma HouseholderDist_spec_witness :
  HouseholderDist (fun _ _ _ => true) (fun t _ _ => t) true (HouseholderFuel 5 3 2) 2 rqA (rqT grid21)
    = Some (Fatal NotSameGrid) /\
  exists calls,
    HouseholderDist (fun _ _ _ => true) (fun t _ _ => t) true (HouseholderFuel 5 3 2) 2 rqA (rqT grid22)
      = Some (Ok (Resize (minDim 5 3) 1 (rqT grid22), calls)) /\
    Householder 5 3 2 (HouseholderFuel 5 3 2) = Some (minDim 5 3, calls).
Proof.
  split.
  - apply (proj2 (proj1 (HouseholderDist_spec (fun _ _ _ => true) (fun t _ _ => t) true 2 rqA (rqT grid21)
      ltac:(vm_compute; discriminate) ltac:(vm_compute; discriminate) ltac:(lia)))).
    split; [reflexivity | vm_compute; discriminate].
  - apply (proj2 (proj2 (HouseholderDist_spec (fun _ _ _ => true) (fun t _ _ => t) true 2 rqA (rqT grid22)
      ltac:(vm_compute; discriminate) ltac:(vm_compute; discriminate) ltac:(lia)))); right; reflexivity.
Defined.
